(** * libdict: height-balanced tree and skip list, embedded and verified

    The two C engines ([src/hb_tree.c], [src/skiplist.c]) are embedded over an
    explicit heap: a node pointer is an address (or NULL), a node is a record
    stored in a finite map, field reads and writes are map lookups and
    updates, and every C loop is a [Fixpoint] on a fuel argument.  A read or
    write through NULL or through a released block is a [Fault], a failed
    ASSERT is an [AssertFail]. *)

From stdpp Require Import base gmap list sorting.
From Stdlib Require Import ZArith Lia.

Set Warnings "-clear-no-such-hyp".

Local Open Scope Z_scope.

(** ** Outcomes and the state-and-error monad *)

Inductive res (A : Type) : Type :=
| Ok (a : A)
| AssertFail
| Fault
| NoFuel.
Arguments Ok {A} a.
Arguments AssertFail {A}.
Arguments Fault {A}.
Arguments NoFuel {A}.

Definition M (S A : Type) : Type := S → res (A * S).

Definition ret {S A : Type} (a : A) : M S A := λ s, Ok (a, s).

Definition bind {S A B : Type} (m : M S A) (f : A → M S B) : M S B :=
  λ s, match m s with
       | Ok (a, s') => f a s'
       | AssertFail => AssertFail
       | Fault => Fault
       | NoFuel => NoFuel
       end.

Notation "'let*' x ':=' m 'in' f" := (bind m (λ x, f))
  (at level 10, x pattern, m at level 100, f at level 200).
Notation "m ;; f" := (bind m (λ _, f))
  (at level 100, f at level 200, right associativity).

Definition fault {S A : Type} : M S A := λ _, Fault.
Definition nofuel {S A : Type} : M S A := λ _, NoFuel.

(** Modelled from the spec: the ASSERT macro of [dict_private.h] (not among
    the sources).  Section 7 of the specification makes a failed internal
    consistency check fatal: the operation aborts. *)
Definition ASSERT {S : Type} (b : bool) : M S unit :=
  λ s, if b then Ok (tt, s) else AssertFail.

(** A node pointer: an address, or NULL. *)
Abbreviation ptr := (option positive).
Abbreviation NULL := (@None positive).

Definition ptr_eqb (p q : ptr) : bool := bool_decide (p = q).
Definition is_null (p : ptr) : bool := match p with None => true | Some _ => false end.

(** Keys and data are opaque caller words ([void*]); the null datum is 0. *)
Definition NULLZ : Z := 0.

(** [size_t] (64 bits) and [unsigned] (32 bits) wrap around; [signed char]
    is the 8-bit two's complement range. *)
Definition wrap_size (z : Z) : Z := z mod 2 ^ 64.
Definition wrap_u32 (z : Z) : Z := z mod 2 ^ 32.
Definition wrap_schar (z : Z) : Z := (z + 128) mod 256 - 128.

(** The MAX and MIN macros of [dict_private.h]. *)
Definition MAX (a b : Z) : Z := if a >? b then a else b.
Definition MIN (a b : Z) : Z := if a <? b then a else b.

(** The caller's comparison function is a strict total order on keys when
    it answers 0 exactly on equal keys, is antisymmetric and transitive. *)
Record strict_total (cmp : Z → Z → Z) : Prop := mk_strict_total {
  cmp_eq : ∀ x y, cmp x y = 0 ↔ x = y;
  cmp_antisym : ∀ x y, cmp x y < 0 ↔ 0 < cmp y x;
  cmp_trans : ∀ x y z, cmp x y < 0 → cmp y z < 0 → cmp x z < 0
}.

(** The three-way comparison of integers, the running example of a strict
    total order. *)
Definition zcmp (a b : Z) : Z :=
  match a ?= b with Lt => -1 | Eq => 0 | Gt => 1 end.

(** *** Running monadic code *)

Arguments bind : simpl never.

Lemma bind_ok {S A B : Type} (m : M S A) (f : A → M S B) s a s' :
  m s = Ok (a, s') → bind m f s = f a s'.
Proof. unfold bind. by intros ->. Qed.

Lemma bind_inv {S A B : Type} (m : M S A) (f : A → M S B) s b s2 :
  bind m f s = Ok (b, s2) → ∃ a s1, m s = Ok (a, s1) ∧ f a s1 = Ok (b, s2).
Proof.
  unfold bind. destruct (m s) as [[a s1]| | |]; try discriminate.
  intros H. by exists a, s1.
Qed.

Lemma bind_assoc {S A B C : Type} (m : M S A) (f : A → M S B) (g : B → M S C) s :
  bind (bind m f) g s = bind m (λ x, bind (f x) g) s.
Proof. unfold bind. by destruct (m s) as [[a s1]| | |]. Qed.

Lemma bind_ret {S A B : Type} (a : A) (f : A → M S B) s :
  bind (ret a) f s = f a s.
Proof. reflexivity. Qed.

Lemma assert_true {S B : Type} (f : unit → M S B) s :
  bind (ASSERT true) f s = f tt s.
Proof. reflexivity. Qed.

Lemma ptr_eqb_refl (p : ptr) : ptr_eqb p p = true.
Proof. unfold ptr_eqb. by apply bool_decide_eq_true. Qed.

Lemma ptr_eqb_ne (p q : ptr) : p ≠ q → ptr_eqb p q = false.
Proof. unfold ptr_eqb. intros. by apply bool_decide_eq_false. Qed.

Lemma ptr_eqb_true (p q : ptr) : ptr_eqb p q = true → p = q.
Proof. unfold ptr_eqb. by intros ?%bool_decide_eq_true. Qed.

Lemma zcmp_strict_total : strict_total zcmp.
Proof.
  split; unfold zcmp; intros x y; [| |intros z];
    repeat match goal with |- context [?a ?= ?b] => destruct (Z.compare_spec a b) end;
    try split; intros; try lia; try discriminate.
Qed.

Lemma wrap_schar_small z : -128 ≤ z ≤ 127 → wrap_schar z = z.
Proof. intros. unfold wrap_schar. rewrite Z.mod_small; lia. Qed.

Lemma MAX_max a b : MAX a b = Z.max a b.
Proof. unfold MAX. destruct (Z.gtb_spec a b); lia. Qed.

Lemma MIN_min a b : MIN a b = Z.min a b.
Proof. unfold MIN. destruct (Z.ltb_spec a b); lia. Qed.

(** What a traversal does to the visitor: the entries are offered in order
    until the visitor answers [false]; the result is the number of calls and
    the visitor's final state. *)
Fixpoint visit_run {V : Type} (visit : V → Z → Z → bool * V) (v : V)
    (es : list (Z * Z)) : nat * V :=
  match es with
  | [] => (O, v)
  | (k, d) :: es' =>
      let '(go, v') := visit v k d in
      if go then
        let '(n, v'') := visit_run visit v' es' in (S n, v'')
      else (1%nat, v')
  end.

Definition sorted (cmp : Z → Z → Z) (ks : list Z) : Prop :=
  StronglySorted (λ x y, cmp x y < 0) ks.

Section order.
Context (cmp : Z → Z → Z) (Hcmp : strict_total cmp).

Lemma cmp_refl x : cmp x x = 0.
Proof. by apply (cmp_eq _ Hcmp). Qed.

Lemma cmp_lt_irrefl x : ¬ cmp x x < 0.
Proof. rewrite cmp_refl. lia. Qed.

Lemma cmp_gt_lt x y : 0 < cmp x y ↔ cmp y x < 0.
Proof. symmetry. apply (cmp_antisym _ Hcmp). Qed.

Lemma cmp_lt_asym x y : cmp x y < 0 → ¬ cmp y x < 0.
Proof. intros H1 H2. apply (cmp_antisym _ Hcmp) in H1. lia. Qed.

Lemma cmp_cases x y : cmp x y < 0 ∨ x = y ∨ cmp y x < 0.
Proof.
  destruct (Z.lt_trichotomy (cmp x y) 0) as [?|[?|?]]; [by left| |].
  - right; left. by apply (cmp_eq _ Hcmp).
  - right; right. by apply cmp_gt_lt.
Qed.

Lemma sorted_app ks1 ks2 :
  sorted cmp (ks1 ++ ks2) ↔
  (∀ x y, x ∈ ks1 → y ∈ ks2 → cmp x y < 0) ∧ sorted cmp ks1 ∧ sorted cmp ks2.
Proof. apply StronglySorted_app. Qed.

Lemma sorted_cons k ks :
  sorted cmp (k :: ks) ↔ Forall (λ y, cmp k y < 0) ks ∧ sorted cmp ks.
Proof. apply StronglySorted_cons. Qed.

Lemma sorted_NoDup ks : sorted cmp ks → NoDup ks.
Proof.
  induction ks as [|k ks IH]; [constructor|].
  rewrite sorted_cons, NoDup_cons, Forall_forall.
  intros [H1 H2]. split; [|by apply IH].
  intros Hin. by apply (cmp_lt_irrefl k), H1.
Qed.

End order.

Lemma sorted_insert_mid cmp (Hcmp : strict_total cmp) l r k :
  sorted cmp (l ++ r) →
  Forall (λ x, cmp x k < 0) l → Forall (λ x, cmp k x < 0) r →
  sorted cmp (l ++ k :: r).
Proof.
  intros Hs Hl Hr. apply sorted_app in Hs as (H1 & H2 & H3).
  apply sorted_app. split_and!; [|done|by apply sorted_cons].
  intros x y Hx. rewrite elem_of_cons. intros [->|Hy].
  - by eapply Forall_forall in Hl.
  - by apply H1.
Qed.

Lemma wrap_size_succ n : wrap_size (wrap_size n + 1) = wrap_size (n + 1).
Proof. unfold wrap_size. by rewrite Zplus_mod_idemp_l. Qed.

Lemma wrap_size_pred n : wrap_size (wrap_size n - 1) = wrap_size (n - 1).
Proof. unfold wrap_size. by rewrite Zminus_mod_idemp_l. Qed.

Lemma wrap_size_pred_sub n m :
  wrap_size (wrap_size (n - 1) - m) = wrap_size (n - (1 + m)).
Proof.
  unfold wrap_size. rewrite Zminus_mod_idemp_l. f_equal. lia.
Qed.

Lemma sorted_remove_mid cmp l r (k : Z) :
  sorted cmp (l ++ k :: r) → sorted cmp (l ++ r).
Proof.
  intros Hs. apply StronglySorted_app in Hs as (H1 & H2 & H3).
  apply StronglySorted_cons in H3 as [_ H3].
  apply StronglySorted_app. split_and!; [|done..].
  intros x y Hx Hy. apply H1; [done|]. set_solver.
Qed.

Lemma NoDup_fst_inj (l : list (Z * Z)) k v d :
  NoDup l.*1 → (k, v) ∈ l → (k, d) ∈ l → v = d.
Proof.
  induction l as [|[k0 v0] l IH]; [by intros _ ?%elem_of_nil|].
  rewrite fmap_cons, NoDup_cons, !elem_of_cons. cbn [fst].
  intros [Hk Hnd] [H1|H1] [H2|H2]; simplify_eq; try done.
  - exfalso. apply Hk. apply list_elem_of_fmap. by exists (k0, d).
  - exfalso. apply Hk. apply list_elem_of_fmap. by exists (k0, v).
  - by apply IH.
Qed.

(** A list whose images under [f] are pairwise distinct splits in one way
    only around an element with a given image. *)
Lemma NoDup_split_eq {A B : Type} (f : A → B) (l1 l2 l1' l2' : list A) (x x' : A) :
  NoDup (f <$> (l1 ++ x :: l2)) → l1 ++ x :: l2 = l1' ++ x' :: l2' → f x = f x' →
  l1 = l1' ∧ x = x' ∧ l2 = l2'.
Proof.
  revert l1'. induction l1 as [|y l1 IH]; intros l1' Hnd He Hf.
  - destruct l1' as [|y' l1']; cbn in He.
    + by injection He as -> ->.
    + injection He as -> ->. exfalso. cbn in Hnd. apply NoDup_cons_1_1 in Hnd.
      apply Hnd. rewrite Hf, fmap_app, fmap_cons. set_solver.
  - destruct l1' as [|y' l1']; cbn in He.
    + injection He as -> <-. exfalso. cbn in Hnd. apply NoDup_cons_1_1 in Hnd.
      apply Hnd. rewrite <- Hf, fmap_app, fmap_cons. set_solver.
    + injection He as -> He. cbn in Hnd. apply NoDup_cons_1_2 in Hnd.
      destruct (IH l1' Hnd He Hf) as (-> & -> & ->). done.
Qed.
Module HB.

(** ** The height-balanced tree, [hb_tree.c] *)


Record hb_node : Type := mk_node {
  key : Z;
  datum : Z;
  llink : ptr;
  rlink : ptr;
  parent : ptr;
  bal : Z
}.

Record hb_tree : Type := mk_tree {
  root : ptr;
  count : Z;
  cmp_func : Z → Z → Z;
  del_func : bool   (* whether the cleanup callback is non-NULL *)
}.

(** The state an operation runs in: the tree object, the node heap, and the
    calls made so far to the cleanup callback (oldest first). *)
Record state : Type := mk_state {
  tree : hb_tree;
  mem : gmap positive hb_node;
  dlog : list (Z * Z)
}.

Definition with_key (v : Z) (n : hb_node) : hb_node :=
  mk_node v (datum n) (llink n) (rlink n) (parent n) (bal n).
Definition with_datum (v : Z) (n : hb_node) : hb_node :=
  mk_node (key n) v (llink n) (rlink n) (parent n) (bal n).
Definition with_llink (v : ptr) (n : hb_node) : hb_node :=
  mk_node (key n) (datum n) v (rlink n) (parent n) (bal n).
Definition with_rlink (v : ptr) (n : hb_node) : hb_node :=
  mk_node (key n) (datum n) (llink n) v (parent n) (bal n).
Definition with_parent (v : ptr) (n : hb_node) : hb_node :=
  mk_node (key n) (datum n) (llink n) (rlink n) v (bal n).
Definition with_bal (v : Z) (n : hb_node) : hb_node :=
  mk_node (key n) (datum n) (llink n) (rlink n) (parent n) v.

Definition with_root (v : ptr) (t : hb_tree) : hb_tree :=
  mk_tree v (count t) (cmp_func t) (del_func t).
Definition with_count (v : Z) (t : hb_tree) : hb_tree :=
  mk_tree (root t) v (cmp_func t) (del_func t).

(** [p->f] *)
Definition rd {A : Type} (f : hb_node → A) (p : ptr) : M state A :=
  λ s, match p with
       | None => Fault
       | Some a => match mem s !! a with
                   | None => Fault
                   | Some n => Ok (f n, s)
                   end
       end.

(** [p->f = v], with [g] the field update *)
Definition wr (g : hb_node → hb_node) (p : ptr) : M state unit :=
  λ s, match p with
       | None => Fault
       | Some a => match mem s !! a with
                   | None => Fault
                   | Some n => Ok (tt, mk_state (tree s) (<[a := g n]> (mem s)) (dlog s))
                   end
       end.

Definition get_tree {A : Type} (f : hb_tree → A) : M state A :=
  λ s, Ok (f (tree s), s).
Definition set_tree (g : hb_tree → hb_tree) : M state unit :=
  λ s, Ok (tt, mk_state (g (tree s)) (mem s) (dlog s)).

(** Modelled from the spec: the allocator collaborator behind the MALLOC and
    FREE macros of [dict_private.h] (not among the sources).  [MALLOC]
    answers with a block or with NULL; the answer [m] is an input of the
    operation that allocates.  [FREE] releases the block. *)
Definition FREE (p : ptr) : M state unit :=
  λ s, match p with
       | None => Ok (tt, s)
       | Some a => match mem s !! a with
                   | None => Fault
                   | Some _ => Ok (tt, mk_state (tree s) (delete a (mem s)) (dlog s))
                   end
       end.

(** [if (tree->del_func) tree->del_func(node->key, node->datum);] *)
Definition call_del (node : ptr) : M state unit :=
  let* d := get_tree del_func in
  if d : bool then
    let* k := rd key node in
    let* v := rd datum node in
    λ s, Ok (tt, mk_state (tree s) (mem s) (dlog s ++ [(k, v)]))
  else ret tt.

(** [node_new]: the block [m] answered by MALLOC, initialised when non-NULL. *)
Definition node_new (m : ptr) (k v : Z) : M state ptr :=
  λ s, match m with
       | None => Ok (NULL, s)
       | Some a =>
           Ok (Some a, mk_state (tree s)
                         (<[a := mk_node k v NULL NULL NULL 0]> (mem s)) (dlog s))
       end.

(** [hb_tree_new], after a successful allocation of the tree object.  The
    comparison function is the caller's. *)
Definition hb_tree_new (cmp : Z → Z → Z) (del : bool) : state :=
  mk_state (mk_tree NULL 0 cmp del) ∅ [].

Fixpoint search_loop (fuel : nat) (k : Z) (node : ptr) : M state Z :=
  match node with
  | None => ret NULLZ
  | Some _ =>
      match fuel with
      | O => nofuel
      | S fuel =>
          let* cmpf := get_tree cmp_func in
          let* nk := rd key node in
          let cmp := cmpf k nk in
          if cmp <? 0 then let* l := rd llink node in search_loop fuel k l
          else if cmp >? 0 then let* r := rd rlink node in search_loop fuel k r
          else rd datum node
      end
  end.

Definition hb_tree_search (fuel : nat) (k : Z) : M state Z :=
  let* node := get_tree root in
  search_loop fuel k node.

(** [rot_left(T, B)] *)
Definition rot_left (node : ptr) : M state bool :=
  ASSERT (negb (is_null node));;
  let* rl := rd rlink node in
  ASSERT (negb (is_null rl));;
  let* rll := rd llink rl in
  wr (with_rlink rll) node;;
  (if is_null rll then ret tt else wr (with_parent node) rll);;
  let* par := rd parent node in
  wr (with_parent par) rl;;
  (if is_null par then set_tree (with_root rl)
   else
     let* pl := rd llink par in
     if ptr_eqb pl node then wr (with_llink rl) par
     else wr (with_rlink rl) par);;
  wr (with_llink node) rl;;
  wr (with_parent rl) node;;
  let* rb := rd bal rl in
  let hc := negb (rb =? 0) in
  let* nb := rd bal node in
  let nb' := wrap_schar (nb - (1 + MAX rb 0)) in
  wr (with_bal nb') node;;
  wr (with_bal (wrap_schar (rb - (1 - MIN nb' 0)))) rl;;
  ret hc.

(** [rot_right(T, D)] *)
Definition rot_right (node : ptr) : M state bool :=
  ASSERT (negb (is_null node));;
  let* ll := rd llink node in
  ASSERT (negb (is_null ll));;
  let* llr := rd rlink ll in
  wr (with_llink llr) node;;
  (if is_null llr then ret tt else wr (with_parent node) llr);;
  let* par := rd parent node in
  wr (with_parent par) ll;;
  (if is_null par then set_tree (with_root ll)
   else
     let* pl := rd llink par in
     if ptr_eqb pl node then wr (with_llink ll) par
     else wr (with_rlink ll) par);;
  wr (with_rlink node) ll;;
  wr (with_parent ll) node;;
  let* lb := rd bal ll in
  let hc := negb (lb =? 0) in
  let* nb := rd bal node in
  let nb' := wrap_schar (nb + (1 - MIN lb 0)) in
  wr (with_bal nb') node;;
  wr (with_bal (wrap_schar (lb + (1 + MAX nb' 0)))) ll;;
  ret hc.


(** The [while (node->llink) node = node->llink;] loop of [node_min],
    [node_next] and [hb_tree_remove], and its mirror image. *)
Fixpoint walk_left (fuel : nat) (node : ptr) : M state ptr :=
  match fuel with
  | O => nofuel
  | S fuel =>
      let* l := rd llink node in
      if is_null l then ret node else walk_left fuel l
  end.

Fixpoint walk_right (fuel : nat) (node : ptr) : M state ptr :=
  match fuel with
  | O => nofuel
  | S fuel =>
      let* r := rd rlink node in
      if is_null r then ret node else walk_right fuel r
  end.

Definition node_min (fuel : nat) (node : ptr) : M state ptr :=
  ASSERT (negb (is_null node));;
  walk_left fuel node.

Definition node_max (fuel : nat) (node : ptr) : M state ptr :=
  ASSERT (negb (is_null node));;
  walk_right fuel node.

(** [while (temp && temp->rlink == node) { node = temp; temp = temp->parent; }] *)
Fixpoint climb_right (fuel : nat) (node temp : ptr) : M state ptr :=
  match temp with
  | None => ret temp
  | Some _ =>
      match fuel with
      | O => nofuel
      | S fuel =>
          let* tr := rd rlink temp in
          if ptr_eqb tr node then
            let* tp := rd parent temp in
            climb_right fuel temp tp
          else ret temp
      end
  end.

Fixpoint climb_left (fuel : nat) (node temp : ptr) : M state ptr :=
  match temp with
  | None => ret temp
  | Some _ =>
      match fuel with
      | O => nofuel
      | S fuel =>
          let* tl := rd llink temp in
          if ptr_eqb tl node then
            let* tp := rd parent temp in
            climb_left fuel temp tp
          else ret temp
      end
  end.

Definition node_next (fuel : nat) (node : ptr) : M state ptr :=
  ASSERT (negb (is_null node));;
  let* r := rd rlink node in
  if negb (is_null r) then walk_left fuel r
  else
    let* temp := rd parent node in
    climb_right fuel node temp.

Definition node_prev (fuel : nat) (node : ptr) : M state ptr :=
  ASSERT (negb (is_null node));;
  let* l := rd llink node in
  if negb (is_null l) then walk_right fuel l
  else
    let* temp := rd parent node in
    climb_left fuel node temp.

(** The descent of [hb_tree_insert] and [hb_tree_probe]: [inl node] when a
    node with an equal key is met, otherwise [inr (parent, q, cmp)] as the
    loop leaves them. *)
Fixpoint insert_descend (fuel : nat) (k : Z) (node par q : ptr) (cmp : Z)
  : M state (ptr + (ptr * ptr * Z)) :=
  match node with
  | None => ret (inr (par, q, cmp))
  | Some _ =>
      match fuel with
      | O => nofuel
      | S fuel =>
          let* cmpf := get_tree cmp_func in
          let* nk := rd key node in
          let cmp := cmpf k nk in
          if cmp <? 0 then
            let* l := rd llink node in
            let* pb := rd bal node in
            insert_descend fuel k l node (if pb =? 0 then q else node) cmp
          else if cmp >? 0 then
            let* r := rd rlink node in
            let* pb := rd bal node in
            insert_descend fuel k r node (if pb =? 0 then q else node) cmp
          else ret (inl node)
      end
  end.

(** [while (parent != q) { parent->bal = (parent->rlink == node) * 2 - 1;
    node = parent; parent = node->parent; }]; answers the final [node]. *)
Fixpoint insert_retrace (fuel : nat) (node par q : ptr) : M state ptr :=
  if ptr_eqb par q then ret node
  else
    match fuel with
    | O => nofuel
    | S fuel =>
        let* pr := rd rlink par in
        wr (with_bal ((if ptr_eqb pr node then 1 else 0) * 2 - 1)) par;;
        let* pp := rd parent par in
        insert_retrace fuel par pp q
    end.

(** The [if (q) { ... }] block closing [hb_tree_insert] and
    [hb_tree_probe]. *)
Definition insert_rebalance (node q : ptr) : M state unit :=
  if is_null q then ret tt
  else
    let* ql := rd llink q in
    if ptr_eqb ql node then
      let* b := rd bal q in
      let b' := wrap_schar (b - 1) in
      wr (with_bal b') q;;
      if b' =? -2 then
        let* ql := rd llink q in
        let* qlb := rd bal ql in
        (if qlb >? 0 then (rot_left ql;; ret tt) else ret tt);;
        rot_right q;;
        ret tt
      else ret tt
    else
      let* b := rd bal q in
      let b' := wrap_schar (b + 1) in
      wr (with_bal b') q;;
      if b' =? 2 then
        let* qr := rd rlink q in
        let* qrb := rd bal qr in
        (if qrb <? 0 then (rot_right qr;; ret tt) else ret tt);;
        rot_left q;;
        ret tt
      else ret tt.

(** Everything after the descent that [hb_tree_insert] and [hb_tree_probe]
    share; [ok] is the value returned on success (0 and 1). *)
Definition insert_new (fuel : nat) (k v : Z) (par q : ptr) (cmp : Z)
    (m : ptr) (ok : Z) : M state Z :=
  let* node := node_new m k v in
  if is_null node then ret (-1)
  else
    wr (with_parent par) node;;
    if is_null par then
      set_tree (with_root node);;
      let* c := get_tree count in
      ASSERT (c =? 0);;
      set_tree (with_count 1);;
      ret ok
    else
      (if cmp <? 0 then wr (with_llink node) par
       else wr (with_rlink node) par);;
      let* node := insert_retrace fuel node par q in
      insert_rebalance node q;;
      let* c := get_tree count in
      set_tree (with_count (wrap_size (c + 1)));;
      ret ok.

Definition hb_tree_insert (fuel : nat) (k v : Z) (overwrite : bool) (m : ptr)
  : M state Z :=
  let* rt := get_tree root in
  let* r := insert_descend fuel k rt NULL NULL 0 in
  match r with
  | inl node =>
      if negb overwrite then ret 1
      else
        call_del node;;
        wr (with_key k) node;;
        wr (with_datum v) node;;
        ret 0
  | inr (par, q, cmp) => insert_new fuel k v par q cmp m 0
  end.

(** [hb_tree_probe]: the datum cell [*datum] holds [v] on entry; the answer
    pairs the return code with the cell's content on exit. *)
Definition hb_tree_probe (fuel : nat) (k v : Z) (m : ptr) : M state (Z * Z) :=
  let* rt := get_tree root in
  let* r := insert_descend fuel k rt NULL NULL 0 in
  match r with
  | inl node =>
      let* d := rd datum node in
      ret (0, d)
  | inr (par, q, cmp) =>
      let* rc := insert_new fuel k v par q cmp m 1 in
      ret (rc, v)
  end.

(** The search loop of [hb_tree_remove]: the node found (or NULL) and its
    parent. *)
Fixpoint remove_find (fuel : nat) (k : Z) (node par : ptr) : M state (ptr * ptr) :=
  match node with
  | None => ret (node, par)
  | Some _ =>
      match fuel with
      | O => nofuel
      | S fuel =>
          let* cmpf := get_tree cmp_func in
          let* nk := rd key node in
          let cmp := cmpf k nk in
          if cmp =? 0 then ret (node, par)
          else
            let* child := (if cmp <? 0 then rd llink node else rd rlink node) in
            remove_find fuel k child node
      end
  end.

(** One pass through the body of the [for (;;)] loop of [hb_tree_remove]:
    [None] for [break], [Some node] to continue at the label [higher]. *)
Definition remove_step (par : ptr) (left : bool) : M state (option ptr) :=
  if left then
    let* b := rd bal par in
    let b' := wrap_schar (b + 1) in
    wr (with_bal b') par;;
    if b' =? 0 then ret (Some par)
    else if b' =? 2 then
      let* pr := rd rlink par in
      ASSERT (negb (is_null pr));;
      let* prb := rd bal pr in
      if prb <? 0 then
        rot_right pr;;
        rot_left par;;
        let* pp := rd parent par in
        ret (Some pp)
      else
        let* prr := rd rlink pr in
        ASSERT (negb (is_null prr));;
        let* hc := rot_left par in
        if negb hc then ret None
        else
          let* pp := rd parent par in
          ret (Some pp)
    else ret None
  else
    let* b := rd bal par in
    let b' := wrap_schar (b - 1) in
    wr (with_bal b') par;;
    if b' =? 0 then ret (Some par)
    else if b' =? -2 then
      let* pl := rd llink par in
      ASSERT (negb (is_null pl));;
      let* plb := rd bal pl in
      if plb >? 0 then
        rot_left pl;;
        rot_right par;;
        let* pp := rd parent par in
        ret (Some pp)
      else
        let* pll := rd llink pl in
        ASSERT (negb (is_null pll));;
        let* hc := rot_right par in
        if negb hc then ret None
        else
          let* pp := rd parent par in
          ret (Some pp)
    else ret None.

Fixpoint remove_retrace (fuel : nat) (par : ptr) (left : bool) : M state unit :=
  match fuel with
  | O => nofuel
  | S fuel =>
      let* r := remove_step par left in
      match r with
      | None => ret tt
      | Some node =>
          let* par := rd parent node in
          if is_null par then ret tt
          else
            let* pl := rd llink par in
            remove_retrace fuel par (ptr_eqb pl node)
      end
  end.

(** The [if (node->llink && node->rlink) { ... }] block of
    [hb_tree_remove]: key and datum are swapped with the in-order successor;
    the answer is [node] and [parent] as the block leaves them. *)
Definition remove_swap (fuel : nat) (node par : ptr) : M state (ptr * ptr) :=
  let* nl := rd llink node in
  let* nr := rd rlink node in
  if negb (is_null nl) && negb (is_null nr) then
    let* out := walk_left fuel nr in
    let* nk := rd key node in
    let* ok := rd key out in
    wr (with_key ok) node;;
    wr (with_key nk) out;;
    let* nd := rd datum node in
    let* od := rd datum out in
    wr (with_datum od) node;;
    wr (with_datum nd) out;;
    let* op := rd parent out in
    ret (out, op)
  else ret (node, par).

(** The rest of [hb_tree_remove], from [hb_node *out = node->llink ? ...]:
    the node is spliced out and the path to the root is retraced. *)
Definition remove_splice (fuel : nat) (node par : ptr) : M state bool :=
  let* nl := rd llink node in
  let* out := (if negb (is_null nl) then ret nl else rd rlink node) in
  call_del node;;
  FREE node;;
  (if negb (is_null out) then wr (with_parent par) out else ret tt);;
  if is_null par then
    set_tree (with_root out);;
    let* c := get_tree count in
    set_tree (with_count (wrap_size (c - 1)));;
    ret true
  else
    let* pl := rd llink par in
    let left := ptr_eqb pl node in
    (if left then wr (with_llink out) par else wr (with_rlink out) par);;
    remove_retrace fuel par left;;
    let* c := get_tree count in
    set_tree (with_count (wrap_size (c - 1)));;
    ret true.

Definition hb_tree_remove (fuel : nat) (k : Z) : M state bool :=
  let* rt := get_tree root in
  let* (node, par) := remove_find fuel k rt NULL in
  if is_null node then ret false
  else
    let* (node, par) := remove_swap fuel node par in
    remove_splice fuel node par.

Fixpoint clear_loop (fuel : nat) (node : ptr) : M state unit :=
  match node with
  | None => ret tt
  | Some _ =>
      match fuel with
      | O => nofuel
      | S fuel =>
          let* l := rd llink node in
          if negb (is_null l) then clear_loop fuel l
          else
            let* r := rd rlink node in
            if negb (is_null r) then clear_loop fuel r
            else
              call_del node;;
              let* par := rd parent node in
              FREE node;;
              let* c := get_tree count in
              set_tree (with_count (wrap_size (c - 1)));;
              (if negb (is_null par) then
                 let* pl := rd llink par in
                 if ptr_eqb pl node then wr (with_llink NULL) par
                 else wr (with_rlink NULL) par
               else ret tt);;
              clear_loop fuel par
      end
  end.

Definition hb_tree_clear (fuel : nat) : M state Z :=
  let* node := get_tree root in
  let* cnt := get_tree count in
  clear_loop fuel node;;
  set_tree (with_root NULL);;
  let* c := get_tree count in
  ASSERT (c =? 0);;
  ret cnt.

(** The visitor is a caller's callback with a state [V] of its own; it
    answers [true] to go on. *)
Fixpoint traverse_loop {V : Type} (fuel0 fuel : nat) (visit : V → Z → Z → bool * V)
    (node : ptr) (cnt : Z) (v : V) : M state (Z * V) :=
  match node with
  | None => ret (cnt, v)
  | Some _ =>
      match fuel with
      | O => nofuel
      | S fuel =>
          let cnt := wrap_size (cnt + 1) in
          let* k := rd key node in
          let* d := rd datum node in
          let '(go, v) := visit v k d in
          if negb go then ret (cnt, v)
          else
            let* nx := node_next fuel0 node in
            traverse_loop fuel0 fuel visit nx cnt v
      end
  end.

Definition hb_tree_traverse {V : Type} (fuel : nat) (visit : V → Z → Z → bool * V)
    (v : V) : M state (Z * V) :=
  let* rt := get_tree root in
  if is_null rt then ret (0, v)
  else
    let* node := node_min fuel rt in
    traverse_loop fuel fuel visit node 0 v.

Definition hb_tree_count : M state Z := get_tree count.

(** *** Iterators.  An iterator is bound to the tree of the state; its
    [node] field is passed in and handed back. *)

Definition hb_itor_valid (itor : ptr) : bool := negb (is_null itor).

Definition hb_itor_first (fuel : nat) (itor : ptr) : M state (bool * ptr) :=
  let* rt := get_tree root in
  let* node := (if negb (is_null rt) then node_min fuel rt else ret NULL) in
  ret (negb (is_null node), node).

Definition hb_itor_last (fuel : nat) (itor : ptr) : M state (bool * ptr) :=
  let* rt := get_tree root in
  let* node := (if negb (is_null rt) then node_max fuel rt else ret NULL) in
  ret (negb (is_null node), node).

Definition hb_itor_next (fuel : nat) (itor : ptr) : M state (bool * ptr) :=
  if is_null itor then hb_itor_first fuel itor
  else
    let* node := node_next fuel itor in
    ret (negb (is_null node), node).

Definition hb_itor_prev (fuel : nat) (itor : ptr) : M state (bool * ptr) :=
  if is_null itor then hb_itor_last fuel itor
  else
    let* node := node_prev fuel itor in
    ret (negb (is_null node), node).

Fixpoint hb_itor_nextn (fuel : nat) (itor : ptr) (cnt : nat) : M state (bool * ptr) :=
  match cnt with
  | O => ret (negb (is_null itor), itor)
  | S cnt =>
      let* (b, itor) := hb_itor_prev fuel itor in
      if negb b then ret (false, itor)
      else hb_itor_nextn fuel itor cnt
  end.

Fixpoint hb_itor_prevn (fuel : nat) (itor : ptr) (cnt : nat) : M state (bool * ptr) :=
  match cnt with
  | O => ret (negb (is_null itor), itor)
  | S cnt =>
      let* (b, itor) := hb_itor_prev fuel itor in
      if negb b then ret (false, itor)
      else hb_itor_prevn fuel itor cnt
  end.

Definition hb_itor_key (itor : ptr) : M state Z :=
  if is_null itor then ret NULLZ else rd key itor.

Definition hb_itor_data (itor : ptr) : M state Z :=
  if is_null itor then ret NULLZ else rd datum itor.

(** [hb_itor_new]: [m] tells whether MALLOC answers with a block for the
    iterator object; the answer is the new iterator's [node] field, [None]
    when the function returns NULL. *)
Definition hb_itor_new (fuel : nat) (m : bool) : M state (option ptr) :=
  if m then
    let* (_, node) := hb_itor_first fuel NULL in
    ret (Some node)
  else ret None.

Definition hb_itor_invalidate (itor : ptr) : ptr := NULL.

(** The [while (node)] loop of [hb_itor_search]. *)
Fixpoint itor_search_loop (fuel : nat) (k : Z) (node : ptr) : M state ptr :=
  match node with
  | None => ret node
  | Some _ =>
      match fuel with
      | O => nofuel
      | S fuel =>
          let* cmpf := get_tree cmp_func in
          let* nk := rd key node in
          let cmp := cmpf k nk in
          if cmp =? 0 then ret node
          else
            let* child := (if cmp <? 0 then rd llink node else rd rlink node) in
            itor_search_loop fuel k child
      end
  end.

Definition hb_itor_search (fuel : nat) (itor : ptr) (k : Z) : M state (bool * ptr) :=
  let* rt := get_tree root in
  let* node := itor_search_loop fuel k rt in
  ret (negb (is_null node), node).

(** [hb_itor_set_data]: [old] is the cell [*old_datum] on entry, [None] for
    a NULL [old_datum]; the answer pairs the return value with the cell on
    exit. *)
Definition hb_itor_set_data (itor : ptr) (v : Z) (old : option Z)
  : M state (bool * option Z) :=
  if is_null itor then ret (false, old)
  else
    let* old := (match old with
                 | None => ret None
                 | Some _ => let* d := rd datum itor in ret (Some d)
                 end) in
    wr (with_datum v) itor;;
    ret (true, old).

(** *** Extremes and shape *)

Definition hb_tree_min (fuel : nat) : M state Z :=
  let* node := get_tree root in
  if is_null node then ret NULLZ
  else
    let* node := walk_left fuel node in
    rd key node.

Definition hb_tree_max (fuel : nat) : M state Z :=
  let* node := get_tree root in
  if is_null node then ret NULLZ
  else
    let* node := walk_right fuel node in
    rd key node.

(** [node_height], [node_mheight] and [node_pathlen] recurse on the
    children; the results are [size_t]. *)
Fixpoint node_height (fuel : nat) (node : ptr) : M state Z :=
  match fuel with
  | O => nofuel
  | S fuel =>
      ASSERT (negb (is_null node));;
      let* nl := rd llink node in
      let* l := (if negb (is_null nl) then
                   let* h := node_height fuel nl in ret (wrap_size (h + 1))
                 else ret 0) in
      let* nr := rd rlink node in
      let* r := (if negb (is_null nr) then
                   let* h := node_height fuel nr in ret (wrap_size (h + 1))
                 else ret 0) in
      ret (MAX l r)
  end.

Fixpoint node_mheight (fuel : nat) (node : ptr) : M state Z :=
  match fuel with
  | O => nofuel
  | S fuel =>
      ASSERT (negb (is_null node));;
      let* nl := rd llink node in
      let* l := (if negb (is_null nl) then
                   let* h := node_mheight fuel nl in ret (wrap_size (h + 1))
                 else ret 0) in
      let* nr := rd rlink node in
      let* r := (if negb (is_null nr) then
                   let* h := node_mheight fuel nr in ret (wrap_size (h + 1))
                 else ret 0) in
      ret (MIN l r)
  end.

Fixpoint node_pathlen (fuel : nat) (node : ptr) (level : Z) : M state Z :=
  match fuel with
  | O => nofuel
  | S fuel =>
      ASSERT (negb (is_null node));;
      let n := 0 in
      let* nl := rd llink node in
      let* n := (if negb (is_null nl) then
                   let* p := node_pathlen fuel nl (wrap_size (level + 1)) in
                   ret (wrap_size (n + wrap_size (level + p)))
                 else ret n) in
      let* nr := rd rlink node in
      let* n := (if negb (is_null nr) then
                   let* p := node_pathlen fuel nr (wrap_size (level + 1)) in
                   ret (wrap_size (n + wrap_size (level + p)))
                 else ret n) in
      ret n
  end.

Definition hb_tree_height (fuel : nat) : M state Z :=
  let* rt := get_tree root in
  if negb (is_null rt) then node_height fuel rt else ret 0.

Definition hb_tree_mheight (fuel : nat) : M state Z :=
  let* rt := get_tree root in
  if negb (is_null rt) then node_mheight fuel rt else ret 0.

Definition hb_tree_pathlen (fuel : nat) : M state Z :=
  let* rt := get_tree root in
  if negb (is_null rt) then node_pathlen fuel rt 1 else ret 0.

(** [hb_tree_free]: the tree object is not in the node heap; the second
    component of the answer tells whether [FREE(tree)] was reached. *)
Definition hb_tree_free (fuel : nat) : M state (Z * bool) :=
  let* rt := get_tree root in
  if is_null rt then ret (0, false)
  else
    let* cnt := hb_tree_clear fuel in
    ret (cnt, true).
(** *** The tree a heap stores

    [atree] is the shape the pointers draw: each node with its address, key,
    datum and stored balance factor.  [R h par t] reads: in heap [h], [t] is
    laid out with [par] in the root's parent field. *)

Inductive atree : Type :=
| E
| T (l : atree) (a : positive) (k d b : Z) (r : atree).

Definition root_of (t : atree) : ptr :=
  match t with E => NULL | T _ a _ _ _ _ => Some a end.

Fixpoint addrs (t : atree) : list positive :=
  match t with E => [] | T l a _ _ _ r => addrs l ++ a :: addrs r end.

Fixpoint entries (t : atree) : list (Z * Z) :=
  match t with E => [] | T l _ k d _ r => entries l ++ (k, d) :: entries r end.

Fixpoint height (t : atree) : Z :=
  match t with E => 0 | T l _ _ _ _ r => 1 + Z.max (height l) (height r) end.

Fixpoint size (t : atree) : nat :=
  match t with E => O | T l _ _ _ _ r => S (size l + size r) end.

Fixpoint R (h : gmap positive hb_node) (par : ptr) (t : atree) : Prop :=
  match t with
  | E => True
  | T l a k d b r =>
      h !! a = Some (mk_node k d (root_of l) (root_of r) par b)
      ∧ R h (Some a) l ∧ R h (Some a) r
  end.

(** Every stored balance factor is the true height difference, within
    [-1, 1]. *)
Fixpoint balanced (t : atree) : Prop :=
  match t with
  | E => True
  | T l _ _ _ b r =>
      b = height r - height l ∧ -1 ≤ b ≤ 1 ∧ balanced l ∧ balanced r
  end.

Definition keys (t : atree) : list Z := (entries t).*1.

Definition bst (cmp : Z → Z → Z) (t : atree) : Prop := sorted cmp (keys t).

(** A path from a node up to the root, innermost frame first: each frame is
    an ancestor, the side on which the path hangs, and the subtree on the
    other side. *)
Inductive dir : Type := L | Rt.

Record frame : Type := mk_frame {
  fdir : dir; fa : positive; fk : Z; fd : Z; fb : Z; fsib : atree
}.

Definition plug1 (f : frame) (t : atree) : atree :=
  match fdir f with
  | L => T t (fa f) (fk f) (fd f) (fb f) (fsib f)
  | Rt => T (fsib f) (fa f) (fk f) (fd f) (fb f) t
  end.

Fixpoint plug (C : list frame) (t : atree) : atree :=
  match C with [] => t | f :: C => plug C (plug1 f t) end.

Definition cpar (C : list frame) : ptr :=
  match C with [] => NULL | f :: _ => Some (fa f) end.

Fixpoint croot (C : list frame) (r : ptr) : ptr :=
  match C with [] => r | f :: C => croot C (Some (fa f)) end.

Fixpoint caddrs (C : list frame) : list positive :=
  match C with [] => [] | f :: C => fa f :: addrs (fsib f) ++ caddrs C end.

Definition frame_node (f : frame) (child pp : ptr) : hb_node :=
  match fdir f with
  | L => mk_node (fk f) (fd f) child (root_of (fsib f)) pp (fb f)
  | Rt => mk_node (fk f) (fd f) (root_of (fsib f)) child pp (fb f)
  end.

Fixpoint Rc (h : gmap positive hb_node) (C : list frame) (child : ptr) : Prop :=
  match C with
  | [] => True
  | f :: C' =>
      h !! fa f = Some (frame_node f child (cpar C'))
      ∧ R h (Some (fa f)) (fsib f) ∧ Rc h C' (Some (fa f))
  end.

(** The state stores the tree [plug C t], read with the focus on [t]. *)
Definition Zip (s : state) (C : list frame) (t : atree) : Prop :=
  root (tree s) = croot C (root_of t)
  ∧ R (mem s) (cpar C) t
  ∧ Rc (mem s) C (root_of t)
  ∧ NoDup (addrs t ++ caddrs C).

Definition Repr (s : state) (t : atree) : Prop := Zip s [] t.

(** What an operation leaves alone besides the nodes. *)
Definition same_meta (s s' : state) : Prop :=
  count (tree s') = count (tree s)
  ∧ cmp_func (tree s') = cmp_func (tree s)
  ∧ del_func (tree s') = del_func (tree s)
  ∧ dlog s' = dlog s.

(** *** Running field accesses *)

Lemma hb_bind_rd {A B : Type} (f : hb_node → A) (k : A → M state B) a n s :
  mem s !! a = Some n → bind (rd f (Some a)) k s = k (f n) s.
Proof. intros H. unfold bind, rd. by rewrite H. Qed.

Lemma hb_bind_wr {B : Type} (g : hb_node → hb_node) (k : unit → M state B) a n s :
  mem s !! a = Some n →
  bind (wr g (Some a)) k s = k tt (mk_state (tree s) (<[a := g n]> (mem s)) (dlog s)).
Proof. intros H. unfold bind, wr. by rewrite H. Qed.

Lemma hb_bind_free {B : Type} (k : unit → M state B) a n s :
  mem s !! a = Some n →
  bind (FREE (Some a)) k s = k tt (mk_state (tree s) (delete a (mem s)) (dlog s)).
Proof. intros H. unfold bind, FREE. by rewrite H. Qed.

Lemma hb_bind_get {A B : Type} (f : hb_tree → A) (k : A → M state B) s :
  bind (get_tree f) k s = k (f (tree s)) s.
Proof. reflexivity. Qed.

Lemma hb_bind_set {B : Type} (g : hb_tree → hb_tree) (k : unit → M state B) s :
  bind (set_tree g) k s = k tt (mk_state (g (tree s)) (mem s) (dlog s)).
Proof. reflexivity. Qed.

(** *** Layout lemmas *)

Lemma R_frame h h' par t :
  (∀ a, a ∈ addrs t → h' !! a = h !! a) → R h par t → R h' par t.
Proof.
  revert par. induction t as [|l IHl a k d b r IHr]; simpl; [done|].
  intros par Hf (Ha & Hl & Hr). split_and!.
  - rewrite Hf; [done|]. set_solver.
  - apply IHl; [|done]. intros x Hx. apply Hf. set_solver.
  - apply IHr; [|done]. intros x Hx. apply Hf. set_solver.
Qed.

Lemma Rc_frame h h' C c :
  (∀ a, a ∈ caddrs C → h' !! a = h !! a) → Rc h C c → Rc h' C c.
Proof.
  revert c. induction C as [|f C IH]; simpl; [done|].
  intros c Hf (Ha & Hs & Hc). split_and!.
  - rewrite Hf; [done|]. set_solver.
  - eapply R_frame; [|done]. intros x Hx. apply Hf. set_solver.
  - apply IH; [|done]. intros x Hx. apply Hf. set_solver.
Qed.

Lemma root_of_addrs t a : root_of t = Some a → a ∈ addrs t.
Proof. destruct t; simpl; [done|]. intros [= ->]. set_solver. Qed.

Lemma Zip_down_l s C l a k d b r :
  Zip s C (T l a k d b r) ↔ Zip s (mk_frame L a k d b r :: C) l.
Proof.
  unfold Zip. simpl. unfold frame_node. simpl.
  rewrite <- !app_assoc. simpl.
  split; intros (? & ? & ? & ?); split_and!; try tauto.
Qed.

Lemma Zip_down_r s C l a k d b r :
  Zip s C (T l a k d b r) ↔ Zip s (mk_frame Rt a k d b l :: C) r.
Proof.
  unfold Zip. simpl. unfold frame_node. simpl.
  split; intros (? & ? & ? & Hnd); split_and!; try tauto.
  - eapply NoDup_Permutation_proper; [|exact Hnd]. solve_Permutation.
  - eapply NoDup_Permutation_proper; [|exact Hnd]. solve_Permutation.
Qed.

Lemma Zip_plug1 s C f t : Zip s C (plug1 f t) ↔ Zip s (f :: C) t.
Proof.
  destruct f as [[] a k d b sib]; unfold plug1; simpl.
  - apply Zip_down_l.
  - apply Zip_down_r.
Qed.

Lemma Zip_plug s C t : Zip s [] (plug C t) ↔ Zip s C t.
Proof.
  revert t. induction C as [|f C IH]; intros t; simpl; [done|].
  rewrite IH. apply Zip_plug1.
Qed.

(** *** Rotations on the stored tree *)

Definition rotl_b1 (ba bd : Z) : Z := wrap_schar (ba - (1 + MAX bd 0)).
Definition rotl_b2 (ba bd : Z) : Z := wrap_schar (bd - (1 - MIN (rotl_b1 ba bd) 0)).
Definition rotr_b1 (bd bb : Z) : Z := wrap_schar (bd + (1 - MIN bb 0)).
Definition rotr_b2 (bd bb : Z) : Z := wrap_schar (bb + (1 + MAX (rotr_b1 bd bb) 0)).

(** Distinctness of addresses, read off a [NoDup] hypothesis: [nd_out H a]
    adds [a ∉ L'] for [L'] the list of [H] without the cell [a]. *)
Ltac rm_elt a L :=
  match L with
  | a :: ?l => l
  | ?x :: ?l => let l' := rm_elt a l in constr:(x :: l')
  | ?l1 ++ ?l2 =>
      match l1 with
      | _ => let l1' := rm_elt a l1 in constr:(l1' ++ l2)
      | _ => let l2' := rm_elt a l2 in constr:(l1 ++ l2')
      end
  end.

Ltac nd_out H a :=
  simpl in H;
  match type of H with
  | NoDup ?L =>
      let L' := rm_elt a L in
      let Hn := fresh "Hout" in
      assert (Hn : a ∉ L')
        by (apply NoDup_cons_1_1;
            eapply NoDup_Permutation_proper; [|exact H]; solve_Permutation)
  end.

Ltac in_tac :=
  repeat first [rewrite elem_of_app | rewrite elem_of_cons]; tauto.

Ltac ne_tac :=
  first
    [ congruence
    | done
    | match goal with
      | H : ?a ∉ _ |- ?a ≠ ?b => let E := fresh in intros E; apply H; rewrite E; in_tac
      | H : ?b ∉ _ |- ?a ≠ ?b => let E := fresh in intros E; apply H; rewrite <- E; in_tac
      end ].

Ltac lk :=
  repeat first
    [ rewrite lookup_insert_eq
    | rewrite lookup_insert_ne by ne_tac
    | rewrite lookup_delete_ne by ne_tac ].

Ltac hb_simpl :=
  cbn [Z.eqb Z.ltb Z.gtb Z.compare Pos.compare Pos.compare_cont Pos.eqb
       is_null negb key datum llink rlink parent bal
       with_key with_datum with_llink with_rlink with_parent with_bal
       mem tree dlog root count cmp_func del_func with_root with_count
       root_of cpar frame_node fdir fa fk fd fb fsib fst snd].

(** One step of reading code: everything but a write. *)
Ltac hb_step0 :=
  first
    [ rewrite hb_bind_get
    | rewrite hb_bind_set
    | rewrite bind_ret
    | rewrite bind_assoc
    | rewrite assert_true
    | rewrite ptr_eqb_refl
    | rewrite ptr_eqb_ne by ne_tac
    | erewrite hb_bind_rd by (hb_simpl; lk; first [eassumption | reflexivity]) ];
  hb_simpl.

Ltac hb_step :=
  first
    [ rewrite hb_bind_get
    | rewrite hb_bind_set
    | rewrite bind_ret
    | rewrite bind_assoc
    | rewrite assert_true
    | rewrite ptr_eqb_refl
    | rewrite ptr_eqb_ne by ne_tac
    | erewrite hb_bind_rd by (hb_simpl; lk; first [eassumption | reflexivity])
    | erewrite hb_bind_wr by (hb_simpl; lk; first [eassumption | reflexivity])
    | erewrite hb_bind_free by (hb_simpl; lk; first [eassumption | reflexivity]) ];
  hb_simpl.

(** Evaluate [wrap_schar] at closed arguments. *)
Ltac wsc :=
  repeat match goal with
    | |- context [wrap_schar ?e] =>
        let v := eval vm_compute in (wrap_schar e) in
        lazymatch v with
        | Z0 => change (wrap_schar e) with v
        | Zpos _ => change (wrap_schar e) with v
        | Zneg _ => change (wrap_schar e) with v
        end
    end.

Ltac frame_tac H :=
  first
    [ eapply R_frame; [|exact H]; let x := fresh "x" in let Hx := fresh "Hx" in
      intros x Hx; simpl; by lk
    | eapply Rc_frame; [|exact H]; let x := fresh "x" in let Hx := fresh "Hx" in
      intros x Hx; simpl; by lk ].

Ltac frame_auto :=
  match goal with
  | H : R _ ?p ?t |- R _ ?p ?t => frame_tac H
  | H : Rc _ ?C ?c |- Rc _ ?C ?c => frame_tac H
  end.

Ltac nd_perm H :=
  eapply NoDup_Permutation_proper; [|exact H]; solve_Permutation.

Ltac zip_solve Hnd :=
  unfold Zip; simpl; unfold frame_node; simpl; split_and!;
  first [ done | by (simpl; lk) | frame_auto | nd_perm Hnd ].

Lemma root_of_ne t a : a ∉ addrs t → root_of t ≠ Some a.
Proof. intros H E. apply H. by apply root_of_addrs. Qed.

Ltac sib_ne Hout sib a :=
  simpl in Hout;
  assert (root_of sib ≠ Some a)
    by (apply root_of_ne; intros ?; apply Hout; in_tac).

Lemma hb_rot_left_spec s C A a ka da ba Cc d kd dd bd Ee :
  Zip s C (T A a ka da ba (T Cc d kd dd bd Ee)) →
  ∃ s', rot_left (Some a) s = Ok (negb (bd =? 0), s')
    ∧ Zip s' C (T (T A a ka da (rotl_b1 ba bd) Cc) d kd dd (rotl_b2 ba bd) Ee)
    ∧ same_meta s s'.
Proof.
  intros (Hroot & HR & HC & Hnd). simpl in HR.
  destruct HR as (Ha & HA & Hd & HCc & HEe).
  unfold rot_left. simpl in Hnd.
  nd_out Hnd a. nd_out Hnd d.
  destruct Cc as [|Cl c kc dc bc Cr]; [|destruct HCc as (Hc & HCl & HCr); nd_out Hnd c];
    (destruct C as [|[[] p kp dp bp sib] C'];
     [|destruct HC as (Hp & Hsib & HC'); nd_out Hnd p
      |destruct HC as (Hp & Hsib & HC'); nd_out Hnd p; sib_ne Hout sib a]);
    simpl in *; unfold frame_node in *; simpl in *;
    (eexists; split; [repeat hb_step; reflexivity|]; split; [|done]);
    zip_solve Hnd.
Qed.

Lemma hb_rot_right_spec s C A b kb db bb Cc d kd dd bd Ee :
  Zip s C (T (T A b kb db bb Cc) d kd dd bd Ee) →
  ∃ s', rot_right (Some d) s = Ok (negb (bb =? 0), s')
    ∧ Zip s' C (T A b kb db (rotr_b2 bd bb) (T Cc d kd dd (rotr_b1 bd bb) Ee))
    ∧ same_meta s s'.
Proof.
  intros (Hroot & HR & HC & Hnd). simpl in HR.
  destruct HR as (Hd & (Hb & HA & HCc) & HEe).
  unfold rot_right. simpl in Hnd.
  nd_out Hnd b. nd_out Hnd d.
  destruct Cc as [|Cl c kc dc bc Cr]; [|destruct HCc as (Hc & HCl & HCr); nd_out Hnd c];
    (destruct C as [|[[] p kp dp bp sib] C'];
     [|destruct HC as (Hp & Hsib & HC'); nd_out Hnd p
      |destruct HC as (Hp & Hsib & HC'); nd_out Hnd p; sib_ne Hout0 sib d]);
    simpl in *; unfold frame_node in *; simpl in *;
    (eexists; split; [repeat hb_step; reflexivity|]; split; [|done]);
    zip_solve Hnd.
Qed.
(** *** Paths: entries, heights and balance along a context *)

Fixpoint lefts (C : list frame) : list (Z * Z) :=
  match C with
  | [] => []
  | f :: C' =>
      lefts C' ++ match fdir f with
                  | L => []
                  | Rt => entries (fsib f) ++ [(fk f, fd f)]
                  end
  end.

Fixpoint rights (C : list frame) : list (Z * Z) :=
  match C with
  | [] => []
  | f :: C' =>
      match fdir f with
      | L => (fk f, fd f) :: entries (fsib f)
      | Rt => []
      end ++ rights C'
  end.

Fixpoint csize (C : list frame) : nat :=
  match C with [] => O | f :: C' => S (size (fsib f) + csize C') end.

(** The context is balanced around a hole of height [h]. *)
Fixpoint cbal (C : list frame) (h : Z) : Prop :=
  match C with
  | [] => True
  | f :: C' =>
      balanced (fsib f)
      ∧ fb f = match fdir f with
               | L => height (fsib f) - h
               | Rt => h - height (fsib f)
               end
      ∧ -1 ≤ fb f ≤ 1
      ∧ cbal C' (1 + Z.max h (height (fsib f)))
  end.

(** The path to the hole is the one a descent for key [k] takes. *)
Definition step_ok (cmp : Z → Z → Z) (k : Z) (f : frame) : Prop :=
  match fdir f with
  | L => cmp k (fk f) < 0
  | Rt => 0 < cmp k (fk f)
  end.

Definition path_ok (cmp : Z → Z → Z) (k : Z) (C : list frame) : Prop :=
  Forall (step_ok cmp k) C.

Definition root_bal (t : atree) : Z :=
  match t with E => 0 | T _ _ _ _ b _ => b end.

Lemma plug_app C1 C2 t : plug (C1 ++ C2) t = plug C2 (plug C1 t).
Proof. revert t. induction C1 as [|f C1 IH]; intros t; simpl; [done|]. apply IH. Qed.

Lemma height_nonneg t : 0 ≤ height t.
Proof. induction t; simpl; lia. Qed.

Lemma height_plug1 f t :
  height (plug1 f t) = 1 + Z.max (height t) (height (fsib f)).
Proof. destruct f as [[] a k d b sib]; unfold plug1; simpl; lia. Qed.

Lemma entries_plug1 f t :
  entries (plug1 f t) = lefts [f] ++ entries t ++ rights [f].
Proof.
  destruct f as [[] a k d b sib]; unfold plug1; simpl.
  - by rewrite app_nil_r.
  - by rewrite app_nil_r, <- app_assoc.
Qed.

Lemma entries_plug C t :
  entries (plug C t) = lefts C ++ entries t ++ rights C.
Proof.
  revert t. induction C as [|f C IH]; intros t; simpl.
  - by rewrite app_nil_r.
  - rewrite IH, entries_plug1. simpl. by rewrite !app_nil_r, <- !app_assoc.
Qed.

Lemma entries_plug_congr C t t' :
  entries t = entries t' → entries (plug C t) = entries (plug C t').
Proof. intros H. by rewrite !entries_plug, H. Qed.

Lemma size_plug C t : size (plug C t) = (size t + csize C)%nat.
Proof.
  revert t. induction C as [|f C IH]; intros t; simpl; [lia|].
  rewrite IH. destruct f as [[] a k d b sib]; unfold plug1; simpl; lia.
Qed.

Lemma balanced_plug1 f t :
  balanced (plug1 f t) ↔
  balanced t ∧ balanced (fsib f)
  ∧ fb f = match fdir f with
           | L => height (fsib f) - height t
           | Rt => height t - height (fsib f)
           end
  ∧ -1 ≤ fb f ≤ 1.
Proof. destruct f as [[] a k d b sib]; unfold plug1; simpl; tauto. Qed.

Lemma balanced_plug C t :
  balanced (plug C t) ↔ balanced t ∧ cbal C (height t).
Proof.
  revert t. induction C as [|f C IH]; intros t; simpl; [tauto|].
  rewrite IH, balanced_plug1, height_plug1. tauto.
Qed.

Lemma height_plug_congr C t t' :
  height t = height t' → height (plug C t) = height (plug C t').
Proof.
  revert t t'. induction C as [|f C IH]; intros t t' H; simpl; [done|].
  apply IH. rewrite !height_plug1. lia.
Qed.

Lemma balanced_plug_replace C t t' :
  balanced (plug C t) → balanced t' → height t' = height t →
  balanced (plug C t').
Proof. rewrite !balanced_plug. intros [_ ?] ? ->. done. Qed.

Lemma size_height t : height t ≤ Z.of_nat (size t).
Proof. induction t; simpl; lia. Qed.

(** *** Order facts *)

Section order.
Context (cmp : Z → Z → Z) (Hcmp : strict_total cmp).

(** Along a descent path for [k] in a search tree, everything to the left
    of the hole is below [k] and everything to the right is above. *)
Lemma path_bounds k C t :
  bst cmp (plug C t) → path_ok cmp k C →
  Forall (λ x, cmp x k < 0) (lefts C).*1 ∧ Forall (λ x, cmp k x < 0) (rights C).*1.
Proof.
  revert t. induction C as [|f C IH]; intros t Hs Hp; [by split|].
  apply Forall_cons in Hp as [Hf Hp].
  change (plug (f :: C) t) with (plug C (plug1 f t)) in Hs.
  destruct (IH _ Hs Hp) as [IHl IHr].
  unfold bst, keys in Hs. rewrite entries_plug, !fmap_app in Hs.
  apply sorted_app in Hs as (_ & _ & Hs). apply sorted_app in Hs as (_ & Hs & _).
  destruct f as [[] a kk d b sib]; unfold step_ok, plug1 in *;
    cbn [fdir fk fd fsib lefts rights entries] in *.
  - rewrite app_nil_r. split; [done|].
    rewrite fmap_app, fmap_cons, sorted_app in Hs. destruct Hs as (_ & _ & Hs).
    apply sorted_cons in Hs as [Hs _].
    rewrite fmap_app, fmap_cons. cbn [fst].
    constructor; [done|]. apply Forall_app. split; [|done].
    eapply Forall_impl; [exact Hs|]. cbn beta. intros x Hx.
    by apply (cmp_trans _ Hcmp _ kk).
  - split; [|done]. rewrite !fmap_app.
    rewrite fmap_app, fmap_cons in Hs. apply sorted_app in Hs as (Hs & _ & _).
    apply (cmp_gt_lt _ Hcmp) in Hf.
    apply Forall_app. split; [done|]. apply Forall_app. split.
    + apply Forall_forall. intros x Hx.
      apply (cmp_trans _ Hcmp _ kk); [|done]. apply Hs; [done|]. cbn. set_solver.
    + by repeat constructor.
Qed.

End order.
(** *** The descent of insert, probe, search and remove *)

Fixpoint descend (cmp : Z → Z → Z) (k : Z) (C : list frame) (t : atree)
  : list frame * atree :=
  match t with
  | E => (C, E)
  | T l a kk d b r =>
      if cmp k kk <? 0 then descend cmp k (mk_frame L a kk d b r :: C) l
      else if cmp k kk >? 0 then descend cmp k (mk_frame Rt a kk d b l :: C) r
      else (C, t)
  end.

(** The deepest ancestor on the path whose balance factor is not 0. *)
Fixpoint qof (C : list frame) : ptr :=
  match C with
  | [] => NULL
  | f :: C' => if fb f =? 0 then qof C' else Some (fa f)
  end.

Definition lastcmp (cmp : Z → Z → Z) (k : Z) (C : list frame) : Z :=
  match C with [] => 0 | f :: _ => cmp k (fk f) end.

Definition dres (cmp : Z → Z → Z) (k : Z) (r : list frame * atree)
  : ptr + (ptr * ptr * Z) :=
  match r.2 with
  | E => inr (cpar r.1, qof r.1, lastcmp cmp k r.1)
  | T _ a _ _ _ _ => inl (Some a)
  end.

Lemma descend_plug cmp k t : ∀ C C' t',
  descend cmp k C t = (C', t') →
  plug C' t' = plug C t
  ∧ (path_ok cmp k C → path_ok cmp k C')
  ∧ (∀ l a kk d b r, t' = T l a kk d b r → cmp k kk = 0).
Proof.
  induction t as [|l IHl a kk d b r IHr]; intros C C' t'; simpl.
  - intros [= <- <-]. split_and!; [done..|]. intros; discriminate.
  - destruct (Z.ltb_spec (cmp k kk) 0) as [Hlt|Hge].
    { intros H. apply IHl in H as (H1 & H2 & H3). split_and!; [done| |done].
      intros Hp. apply H2. by constructor. }
    destruct (Z.gtb_spec (cmp k kk) 0) as [Hgt|Hle].
    { intros H. apply IHr in H as (H1 & H2 & H3). split_and!; [done| |done].
      intros Hp. apply H2. constructor; [|done]. unfold step_ok. simpl. lia. }
    intros [= <- <-]. split_and!; [done..|].
    intros ?????? [= <- <- <- <- <- <-]. lia.
Qed.

Lemma hb_insert_descend_spec k t : ∀ fuel C s,
  Zip s C t → (size t ≤ fuel)%nat →
  insert_descend fuel k (root_of t) (cpar C) (qof C)
    (lastcmp (cmp_func (tree s)) k C) s
  = Ok (dres (cmp_func (tree s)) k (descend (cmp_func (tree s)) k C t), s).
Proof.
  induction t as [|l IHl a kk d b r IHr]; intros fuel C s HZ Hfuel.
  - by destruct fuel.
  - destruct fuel as [|fuel]; [simpl in Hfuel; lia|].
    simpl in Hfuel.
    pose proof HZ as (_ & (Ha & _ & _) & _ & _).
    cbn [insert_descend root_of descend].
    rewrite hb_bind_get. erewrite hb_bind_rd by exact Ha. cbn [key].
    destruct (cmp_func (tree s) k kk <? 0).
    { erewrite !hb_bind_rd by exact Ha. cbn [llink bal root_of].
      apply Zip_down_l in HZ.
      rewrite <- (IHl fuel _ s HZ) by lia. reflexivity. }
    destruct (cmp_func (tree s) k kk >? 0).
    { erewrite !hb_bind_rd by exact Ha. cbn [rlink bal root_of].
      apply Zip_down_r in HZ.
      rewrite <- (IHr fuel _ s HZ) by lia. reflexivity. }
    reflexivity.
Qed.

(** *** Nodes of the stored tree are allocated *)

Lemma R_alloc h par t x : R h par t → x ∈ addrs t → is_Some (h !! x).
Proof.
  revert par. induction t as [|l IHl a k d b r IHr]; intros par; simpl.
  - intros _ H. by apply elem_of_nil in H.
  - intros (Ha & Hl & Hr). rewrite elem_of_app, elem_of_cons.
    intros [?|[->|?]]; eauto.
Qed.

Lemma Rc_alloc h C c x : Rc h C c → x ∈ caddrs C → is_Some (h !! x).
Proof.
  revert c. induction C as [|f C IH]; intros c; simpl.
  - intros _ H. by apply elem_of_nil in H.
  - intros (Ha & Hs & Hc). rewrite elem_of_cons, elem_of_app.
    intros [->|[?|?]]; eauto using R_alloc.
Qed.

Lemma Zip_fresh s C t a :
  Zip s C t → mem s !! a = None → a ∉ addrs t ++ caddrs C.
Proof.
  intros (_ & HR & HC & _) Hn. rewrite elem_of_app. intros [H|H].
  - eapply R_alloc in H; [|done]. rewrite Hn in H. by destruct H.
  - eapply Rc_alloc in H; [|done]. rewrite Hn in H. by destruct H.
Qed.

(** *** Linking the new node *)

Definition leaf (a : positive) (k v : Z) : atree := T E a k v 0 E.

Lemma hb_link_spec s C a k v :
  Zip s C E → mem s !! a = None → C ≠ [] →
  path_ok (cmp_func (tree s)) k C →
  ∃ s',
    (let* node := node_new (Some a) k v in
     wr (with_parent (cpar C)) node;;
     (if lastcmp (cmp_func (tree s)) k C <? 0 then wr (with_llink node) (cpar C)
      else wr (with_rlink node) (cpar C));;
     ret node) s = Ok (Some a, s')
    ∧ Zip s' C (leaf a k v) ∧ same_meta s s' ∧ root (tree s') = root (tree s).
Proof.
  intros HZ Hn HC Hp. pose proof (Zip_fresh _ _ _ _ HZ Hn) as Hfr.
  destruct HZ as (Hroot & _ & HRc & Hnd).
  destruct C as [|[dr p kp dp bp sib] C']; [done|]. clear HC.
  apply Forall_cons in Hp as [Hp _]. unfold step_ok in Hp.
  simpl in *. destruct HRc as (Hp' & Hsib & HC').
  assert (Hnd' : NoDup (a :: p :: addrs sib ++ caddrs C')) by by constructor.
  nd_out Hnd' a. nd_out Hnd' p.
  unfold node_new. unfold bind at 1. cbn beta iota.
  destruct dr; simpl in *; unfold frame_node in *; simpl in *.
  - destruct (Z.ltb_spec (cmp_func (tree s) k kp) 0); [|lia].
    eexists. split; [repeat hb_step; reflexivity|].
    split; [|done]. unfold leaf. zip_solve Hnd'.
  - destruct (Z.ltb_spec (cmp_func (tree s) k kp) 0); [lia|].
    eexists. split; [repeat hb_step; reflexivity|].
    split; [|done]. unfold leaf. zip_solve Hnd'.
Qed.

(** *** Retracing up to [q] *)

Definition setb (f : frame) : frame :=
  mk_frame (fdir f) (fa f) (fk f) (fd f)
    (match fdir f with L => -1 | Rt => 1 end) (fsib f).

Lemma root_of_plug1 f t : root_of (plug1 f t) = Some (fa f).
Proof. by destruct f as [[] a0 k0 d0 b0 sib0]. Qed.

Lemma cpar_app_ne f C rest :
  NoDup (caddrs ((f :: C) ++ rest)) → Some (fa f) ≠ cpar rest.
Proof.
  destruct rest as [|g rest]; [done|]. simpl.
  intros Hnd [= E]. apply NoDup_cons_1_1 in Hnd. apply Hnd.
  rewrite elem_of_app. right. clear Hnd.
  induction C as [|c C IH]; simpl.
  - rewrite E. apply elem_of_cons. by left.
  - apply elem_of_cons. right. apply elem_of_app. by right.
Qed.

Lemma hb_insert_retrace_spec Clow : ∀ s sub rest n fuel,
  Zip s (Clow ++ rest) sub → root_of sub = Some n → (length Clow ≤ fuel)%nat →
  ∃ s', insert_retrace fuel (Some n) (cpar (Clow ++ rest)) (cpar rest) s
        = Ok (root_of (plug (setb <$> Clow) sub), s')
    ∧ Zip s' rest (plug (setb <$> Clow) sub)
    ∧ same_meta s s' ∧ root (tree s') = root (tree s).
Proof.
  induction Clow as [|f Clow IH]; intros s sub rest n fuel HZ Hn Hfuel.
  - exists s. simpl. destruct fuel; simpl; rewrite ptr_eqb_refl, Hn; done.
  - destruct fuel as [|fuel]; [simpl in Hfuel; lia|]. simpl in Hfuel.
    pose proof HZ as (Hroot & HR & HRc & Hnd).
    assert (Hq : Some (fa f) ≠ cpar rest).
    { apply (cpar_app_ne f Clow). by apply NoDup_app in Hnd as (_ & _ & ?). }
    cbn [insert_retrace]. change (cpar ((f :: Clow) ++ rest)) with (Some (fa f)).
    rewrite (ptr_eqb_ne _ _ Hq).
    destruct sub as [|sl n' sk sd sb sr]; [done|]. injection Hn as ->.
    destruct f as [dr p kp dp bp sib].
    cbn [app Rc fa fsib fdir] in HRc. destruct HRc as (Hp & Hsib & HC').
    cbn [fa] in *. simpl in Hnd. nd_out Hnd p. nd_out Hnd n.
    destruct (IH (mk_state (tree s)
                   (<[p := with_bal (match dr with L => -1 | Rt => 1 end)
                            (frame_node (mk_frame dr p kp dp bp sib) (Some n)
                               (cpar (Clow ++ rest)))]> (mem s)) (dlog s))
                (plug1 (setb (mk_frame dr p kp dp bp sib)) (T sl n sk sd sb sr))
                rest p fuel) as (s' & Hrun & HZ' & Hm & Hr).
    { apply Zip_plug1. simpl in HR. destruct HR as (Hn' & Hsl & Hsr).
      destruct dr; unfold setb; simpl in *; unfold frame_node in *; simpl in *;
        zip_solve Hnd. }
    { apply root_of_plug1. }
    { lia. }
    exists s'. split; [|done].
    rewrite fmap_cons. cbn [plug]. rewrite <- Hrun.
    destruct dr; unfold frame_node in *; simpl in *.
    + sib_ne Hout0 sib n. repeat hb_step. reflexivity.
    + repeat hb_step. reflexivity.
Qed.

Lemma lefts_setb C : lefts (setb <$> C) = lefts C.
Proof.
  induction C as [|[[] a0 k0 d0 b0 sib0] C IH]; [done|..];
    rewrite fmap_cons; unfold setb at 1; cbn [lefts rights fdir fk fd fsib];
    by rewrite IH.
Qed.

Lemma rights_setb C : rights (setb <$> C) = rights C.
Proof.
  induction C as [|[[] a0 k0 d0 b0 sib0] C IH]; [done|..];
    rewrite fmap_cons; unfold setb at 1; cbn [lefts rights fdir fk fd fsib];
    by rewrite IH.
Qed.

Lemma root_bal_plug_setb C : ∀ t,
  C ≠ [] → root_bal (plug (setb <$> C) t) ≠ 0.
Proof.
  induction C as [|f C IH]; intros t Hne; [done|].
  rewrite fmap_cons. cbn [plug].
  destruct C as [|g C]; [|by apply IH].
  destruct f as [[] a0 k0 d0 b0 sib0]; simpl; lia.
Qed.

Lemma retrace_balanced Clow : ∀ t t' rest,
  Forall (λ f, fb f = 0) Clow → cbal (Clow ++ rest) (height t) →
  balanced t' → height t' = height t + 1 →
  balanced (plug (setb <$> Clow) t')
  ∧ height (plug (setb <$> Clow) t') = height (plug Clow t) + 1
  ∧ cbal rest (height (plug Clow t)).
Proof.
  induction Clow as [|f Clow IH]; intros t t' rest Hz Hc Hb Hh; [done|].
  apply Forall_cons in Hz as [Hf Hz].
  cbn [app cbal] in Hc. destruct Hc as (Hsib & Hfb & _ & Hc).
  rewrite fmap_cons. cbn [plug].
  apply IH; [done| | |].
  - by rewrite height_plug1.
  - apply balanced_plug1. destruct f as [[] a0 k0 d0 b0 sib0]; simpl in *; split_and!; (done || lia).
  - rewrite !height_plug1. destruct f as [[] a0 k0 d0 b0 sib0]; simpl in *; lia.
Qed.

(** Writing the balance factor of the focused node. *)
Lemma hb_wr_bal_spec s C l a k d b r b' :
  Zip s C (T l a k d b r) →
  ∃ s', wr (with_bal b') (Some a) s = Ok (tt, s')
    ∧ Zip s' C (T l a k d b' r) ∧ same_meta s s'
    ∧ root (tree s') = root (tree s).
Proof.
  intros (Hroot & (Ha & Hl & Hr) & HC & Hnd). simpl in Hnd. nd_out Hnd a.
  eexists. split; [unfold wr; by rewrite Ha|]. split; [|done].
  destruct C as [|[[] p kp dp bp sib] C']; simpl in *;
    [|destruct HC as (Hp & Hsib & HC'); nd_out Hnd p..];
    unfold frame_node in *; simpl in *; zip_solve Hnd.
Qed.

Ltac run H := erewrite bind_ok by exact H; hb_simpl.

Lemma same_meta_trans s1 s2 s3 : same_meta s1 s2 → same_meta s2 s3 → same_meta s1 s3.
Proof. unfold same_meta. intros (?&?&?&?) (?&?&?&?). split_and!; congruence. Qed.

Lemma same_meta_refl s : same_meta s s.
Proof. by unfold same_meta. Qed.

Lemma Zip_root_lookup s C l a k d b r :
  Zip s C (T l a k d b r) →
  mem s !! a = Some (mk_node k d (root_of l) (root_of r) (cpar C) b).
Proof. by intros (_ & (Ha & _) & _). Qed.

Lemma hb_insert_rebalance_spec s fq Chigh sub n hold :
  Zip s (fq :: Chigh) sub → root_of sub = Some n →
  balanced sub → height sub = hold + 1 →
  (root_bal sub = 0 → hold = 0) →
  balanced (fsib fq) →
  fb fq = match fdir fq with
          | L => height (fsib fq) - hold
          | Rt => hold - height (fsib fq)
          end →
  -1 ≤ fb fq ≤ 1 → fb fq ≠ 0 →
  ∃ s' t', insert_rebalance (Some n) (Some (fa fq)) s = Ok (tt, s')
    ∧ Zip s' Chigh t' ∧ balanced t'
    ∧ height t' = 1 + Z.max hold (height (fsib fq))
    ∧ entries t' = entries (plug1 fq sub) ∧ same_meta s s'.
Proof.
  intros HZ Hn Hbal Hh H0 Hsib Hfb Hrange Hnz.
  destruct fq as [dr q kq dq bq sib]. cbn [fa fb fsib fdir] in *.
  pose proof (height_nonneg sib) as Hsibnn.
  destruct sub as [|sl n' sk sd sb sr]; [done|]. injection Hn as ->.
  cbn [root_bal] in H0.
  simpl in Hbal. destruct Hbal as (Hsb & Hsbr & Hsl & Hsr). simpl in Hh.
  apply Zip_plug1 in HZ.
  assert (Hn : mem s !! n = Some (mk_node sk sd (root_of sl) (root_of sr) (Some q) sb)).
  { apply Zip_plug1 in HZ. by apply Zip_root_lookup in HZ. }
  assert (Hnsib : root_of sib ≠ Some n).
  { apply Zip_plug1 in HZ. destruct HZ as (_ & _ & _ & Hnd). simpl in Hnd.
    nd_out Hnd n. apply root_of_ne. intros ?. apply Hout. in_tac. }
  unfold insert_rebalance. cbn [is_null].
  destruct dr; unfold plug1 in HZ; cbn [fa fb fsib fdir fk fd] in HZ.
  - (* the path hangs on the left of q *)
    pose proof (Zip_root_lookup _ _ _ _ _ _ _ _ HZ) as Hq. cbn [root_of] in Hq.
    destruct (hb_wr_bal_spec _ _ _ _ _ _ _ _ (wrap_schar (bq - 1)) HZ)
      as (s1 & Hrun1 & HZ1 & Hm1 & _).
    assert (bq = 1 ∨ bq = -1) as [-> | ->] by lia.
    + exists s1, (T (T sl n sk sd sb sr) q kq dq 0 sib).
      split; [repeat hb_step0; run Hrun1; wsc; hb_simpl; reflexivity|].
      split; [exact HZ1|]. simpl in *. split_and!; try done; lia.
    + change (wrap_schar (-1 - 1)) with (-2) in HZ1.
      pose proof (Zip_root_lookup _ _ _ _ _ _ _ _ HZ1) as Hq1. cbn [root_of] in Hq1.
      assert (Hn1 : mem s1 !! n
                    = Some (mk_node sk sd (root_of sl) (root_of sr) (Some q) sb)).
      { apply Zip_down_l in HZ1. by apply Zip_root_lookup in HZ1. }
      assert (sb = -1 ∨ sb = 1) as [-> | ->] by lia.
      * destruct (hb_rot_right_spec _ _ _ _ _ _ _ _ _ _ _ _ _ HZ1)
          as (s2 & Hrun2 & HZ2 & Hm2).
        eexists s2, _. split; [repeat hb_step0; run Hrun1; wsc; hb_simpl; repeat hb_step; run Hrun2; reflexivity|].
        split; [exact HZ2|].
        change (rotr_b2 (-2) (-1)) with 0. change (rotr_b1 (-2) (-1)) with 0.
        simpl. rewrite <- !app_assoc. simpl.
        split_and!; try done; try lia. by eapply same_meta_trans.
      * destruct sr as [|Cc d kd dd bd Ee]; [simpl in *; pose proof (height_nonneg sl); lia|].
        apply Zip_down_l in HZ1.
        destruct (hb_rot_left_spec _ _ _ _ _ _ _ _ _ _ _ _ _ HZ1)
          as (s2 & Hrun2 & HZ2 & Hm2).
        apply Zip_down_l in HZ2.
        destruct (hb_rot_right_spec _ _ _ _ _ _ _ _ _ _ _ _ _ HZ2)
          as (s3 & Hrun3 & HZ3 & Hm3).
        eexists s3, _.
        split; [repeat hb_step0; run Hrun1; wsc; hb_simpl; repeat hb_step; run Hrun2;
                repeat hb_step; run Hrun3; reflexivity|].
        split; [exact HZ3|].
        simpl in Hsr. destruct Hsr as (Hbd & Hbdr & HCc & HEe).
        assert (bd = -1 ∨ bd = 0 ∨ bd = 1) as [-> | [-> | ->]] by lia;
          vm_compute rotl_b1; vm_compute rotl_b2;
          vm_compute rotr_b1; vm_compute rotr_b2;
          simpl in *; rewrite <- !app_assoc; simpl; rewrite <- ?app_assoc; simpl;
          (split_and!; try done; try lia;
           eauto using same_meta_trans).
  - (* the path hangs on the right of q *)
    pose proof (Zip_root_lookup _ _ _ _ _ _ _ _ HZ) as Hq. cbn [root_of] in Hq.
    destruct (hb_wr_bal_spec _ _ _ _ _ _ _ _ (wrap_schar (bq + 1)) HZ)
      as (s1 & Hrun1 & HZ1 & Hm1 & _).
    assert (bq = -1 ∨ bq = 1) as [-> | ->] by lia.
    + exists s1, (T sib q kq dq 0 (T sl n sk sd sb sr)).
      split; [repeat hb_step0; run Hrun1; wsc; hb_simpl; reflexivity|].
      split; [exact HZ1|]. simpl in *. split_and!; try done; lia.
    + change (wrap_schar (1 + 1)) with 2 in HZ1.
      pose proof (Zip_root_lookup _ _ _ _ _ _ _ _ HZ1) as Hq1. cbn [root_of] in Hq1.
      assert (Hn1 : mem s1 !! n
                    = Some (mk_node sk sd (root_of sl) (root_of sr) (Some q) sb)).
      { apply Zip_down_r in HZ1. by apply Zip_root_lookup in HZ1. }
      assert (sb = 1 ∨ sb = -1) as [-> | ->] by lia.
      * destruct (hb_rot_left_spec _ _ _ _ _ _ _ _ _ _ _ _ _ HZ1)
          as (s2 & Hrun2 & HZ2 & Hm2).
        eexists s2, _.
        split; [repeat hb_step0; run Hrun1; wsc; hb_simpl; repeat hb_step;
                run Hrun2; reflexivity|].
        split; [exact HZ2|].
        change (rotl_b1 2 1) with 0. change (rotl_b2 2 1) with 0.
        simpl. rewrite <- !app_assoc. simpl.
        split_and!; try done; try lia. by eapply same_meta_trans.
      * destruct sl as [|Aa d kd dd bd Cc]; [simpl in *; pose proof (height_nonneg sr); lia|].
        apply Zip_down_r in HZ1.
        destruct (hb_rot_right_spec _ _ _ _ _ _ _ _ _ _ _ _ _ HZ1)
          as (s2 & Hrun2 & HZ2 & Hm2).
        apply Zip_down_r in HZ2.
        destruct (hb_rot_left_spec _ _ _ _ _ _ _ _ _ _ _ _ _ HZ2)
          as (s3 & Hrun3 & HZ3 & Hm3).
        eexists s3, _.
        split; [repeat hb_step0; run Hrun1; wsc; hb_simpl; repeat hb_step; run Hrun2;
                repeat hb_step; run Hrun3; reflexivity|].
        split; [exact HZ3|].
        simpl in Hsl. destruct Hsl as (Hbd & Hbdr & HAa & HCc).
        assert (bd = -1 ∨ bd = 0 ∨ bd = 1) as [-> | [-> | ->]] by lia;
          vm_compute rotl_b1; vm_compute rotl_b2;
          vm_compute rotr_b1; vm_compute rotr_b2;
          simpl in *; rewrite <- !app_assoc; simpl; rewrite <- ?app_assoc; simpl;
          (split_and!; try done; try lia;
           eauto using same_meta_trans).
Qed.
(** *** The invariant, and insertion of a new node *)

Definition Inv (s : state) (t : atree) : Prop :=
  Repr s t ∧ balanced t ∧ bst (cmp_func (tree s)) t
  ∧ count (tree s) = wrap_size (Z.of_nat (length (entries t))).

Fixpoint qsplit (C : list frame) : list frame * list frame :=
  match C with
  | [] => ([], [])
  | f :: C' =>
      if fb f =? 0 then (f :: (qsplit C').1, (qsplit C').2) else ([], C)
  end.

Lemma qsplit_spec C :
  C = (qsplit C).1 ++ (qsplit C).2
  ∧ Forall (λ f, fb f = 0) (qsplit C).1
  ∧ cpar (qsplit C).2 = qof C
  ∧ match (qsplit C).2 with [] => True | f :: _ => fb f ≠ 0 end.
Proof.
  induction C as [|f C (IH1 & IH2 & IH3 & IH4)]; simpl; [done|].
  destruct (Z.eqb_spec (fb f) 0) as [H0|H0]; simpl.
  - split_and!; [by f_equal|by constructor|done|done].
  - done.
Qed.

Lemma csize_length C : (length C ≤ csize C)%nat.
Proof. induction C; simpl; lia. Qed.

Lemma length_entries t : length (entries t) = size t.
Proof. induction t; simpl; [done|]. rewrite length_app. simpl. lia. Qed.

Lemma entries_plug_setb C t : entries (plug (setb <$> C) t) = entries (plug C t).
Proof. by rewrite !entries_plug, lefts_setb, rights_setb. Qed.

Lemma hb_insert_new_code s C a k v ok fuel :
  Zip s C E → mem s !! a = None → C ≠ [] →
  path_ok (cmp_func (tree s)) k C →
  ∃ s',
    insert_new fuel k v (cpar C) (qof C) (lastcmp (cmp_func (tree s)) k C)
      (Some a) ok s
    = (let* node := insert_retrace fuel (Some a) (cpar C) (qof C) in
       insert_rebalance node (qof C);;
       let* c := get_tree count in
       set_tree (with_count (wrap_size (c + 1)));;
       ret ok) s'
    ∧ Zip s' C (leaf a k v) ∧ same_meta s s'.
Proof.
  intros HZ Hn HC Hp. pose proof (Zip_fresh _ _ _ _ HZ Hn) as Hfr.
  destruct HZ as (Hroot & _ & HRc & Hnd).
  destruct C as [|[dr p kp dp bp sib] C']; [done|]. clear HC.
  apply Forall_cons in Hp as [Hp _]. unfold step_ok in Hp.
  simpl in *. destruct HRc as (Hp' & Hsib & HC').
  assert (Hnd' : NoDup (a :: p :: addrs sib ++ caddrs C')) by by constructor.
  nd_out Hnd' a. nd_out Hnd' p.
  unfold insert_new, node_new. unfold bind at 1. cbn beta iota.
  destruct dr; simpl in *; unfold frame_node in *; simpl in *.
  - destruct (Z.ltb_spec (cmp_func (tree s) k kp) 0); [|lia].
    eexists. split; [repeat hb_step; reflexivity|].
    split; [|done]. unfold leaf. zip_solve Hnd'.
  - destruct (Z.ltb_spec (cmp_func (tree s) k kp) 0); [lia|].
    eexists. split; [repeat hb_step; reflexivity|].
    split; [|done]. unfold leaf. zip_solve Hnd'.
Qed.

Lemma hb_insert_new_spec s C a k v ok fuel :
  strict_total (cmp_func (tree s)) →
  Zip s C E → balanced (plug C E) → bst (cmp_func (tree s)) (plug C E) →
  path_ok (cmp_func (tree s)) k C →
  count (tree s) = wrap_size (Z.of_nat (length (entries (plug C E)))) →
  mem s !! a = None → (length C ≤ fuel)%nat →
  ∃ s' t',
    insert_new fuel k v (cpar C) (qof C) (lastcmp (cmp_func (tree s)) k C)
      (Some a) ok s = Ok (ok, s')
    ∧ Inv s' t'
    ∧ entries t' = lefts C ++ (k, v) :: rights C
    ∧ dlog s' = dlog s
    ∧ cmp_func (tree s') = cmp_func (tree s)
    ∧ del_func (tree s') = del_func (tree s).
Proof.
  intros Hcmp HZ Hbal Hbst Hp Hcnt Hn Hfuel.
  assert (Hsort : sorted (cmp_func (tree s)) ((lefts C ++ (k, v) :: rights C).*1)).
  { destruct (path_bounds _ Hcmp k C E Hbst Hp) as [Hl Hr].
    unfold bst, keys in Hbst. rewrite entries_plug in Hbst. simpl in Hbst.
    rewrite fmap_app in Hbst. rewrite fmap_app, fmap_cons.
    by apply sorted_insert_mid. }
  assert (Hlen : Z.of_nat (length (lefts C ++ (k, v) :: rights C))
                 = Z.of_nat (length (entries (plug C E))) + 1).
  { rewrite entries_plug. simpl. rewrite !length_app. simpl. lia. }
  destruct C as [|f0 C0] eqn:HC.
  { (* empty tree *)
    destruct HZ as (Hroot & _ & _ & _). simpl in *.
    exists (mk_state (mk_tree (Some a) 1 (cmp_func (tree s)) (del_func (tree s)))
              (<[a := mk_node k v NULL NULL NULL 0]> (mem s)) (dlog s)),
           (leaf a k v).
    split.
    { unfold insert_new, node_new. unfold bind at 1. cbn beta iota.
      hb_simpl. repeat hb_step. rewrite Hcnt. change (wrap_size 0 =? 0) with true.
      repeat hb_step. unfold ret. by rewrite insert_insert_eq. }
    split; [|done].
    unfold Inv, Repr, Zip, leaf; simpl. split_and!; try done.
    - by rewrite lookup_insert_eq.
    - repeat constructor. set_solver. }
  rewrite <- HC in *. assert (HCne : C ≠ []) by (by rewrite HC). clear HC f0 C0.
  destruct (hb_insert_new_code s C a k v ok fuel HZ Hn HCne Hp)
    as (s1 & -> & HZ1 & Hm1).
  destruct (qsplit_spec C) as (HCs & Hlo & Hq & Hhi).
  destruct (qsplit C) as [lo hi]. simpl in *. subst C. rewrite <- Hq.
  destruct (hb_insert_retrace_spec lo s1 (leaf a k v) hi a fuel HZ1 eq_refl)
    as (s2 & Hrun2 & HZ2 & Hm2 & _).
  { rewrite length_app in Hfuel. lia. }
  apply balanced_plug in Hbal as [_ Hcb].
  destruct (retrace_balanced lo E (leaf a k v) hi Hlo Hcb) as (Hb2 & Hh2 & Hcb2);
    [by simpl|done|].
  run Hrun2.
  assert (Hent : entries (plug hi (plug (setb <$> lo) (leaf a k v)))
                 = lefts (lo ++ hi) ++ (k, v) :: rights (lo ++ hi)).
  { rewrite entries_plug, entries_plug_setb, <- entries_plug, <- plug_app.
    by rewrite entries_plug. }
  assert (Hcount : ∀ s3, same_meta s2 s3 →
            wrap_size (count (tree s3) + 1)
            = wrap_size (Z.of_nat (length (lefts (lo ++ hi) ++ (k, v) :: rights (lo ++ hi))))).
  { intros s3 (Hc3 & _). destruct Hm2 as (Hc2 & _). destruct Hm1 as (Hc1 & _).
    rewrite Hc3, Hc2, Hc1, Hcnt, wrap_size_succ, Hlen. done. }
  destruct hi as [|fq Chigh].
  - (* no ancestor with a non-zero factor *)
    exists (mk_state (with_count (wrap_size (count (tree s2) + 1)) (tree s2))
              (mem s2) (dlog s2)), (plug (setb <$> lo) (leaf a k v)).
    split.
    { unfold insert_rebalance. destruct (root_of _); simpl; by repeat hb_step. }
    destruct HZ2 as (HZa & HZb & HZc & HZd).
    destruct Hm1 as (? & ? & ? & ?). destruct Hm2 as (? & ? & ? & ?).
    unfold Inv, Repr, Zip. simpl in *.
    split_and!; try done; try congruence.
    + replace (cmp_func (tree s2)) with (cmp_func (tree s)) by congruence.
      unfold bst, keys. by rewrite Hent.
    + rewrite Hent. apply Hcount. apply same_meta_refl.
  - (* rebalance at q *)
    assert (∃ n, root_of (plug (setb <$> lo) (leaf a k v)) = Some n) as [n Hn'].
    { destruct lo as [|f lo _] using rev_ind; [by exists a|].
      rewrite fmap_app, plug_app. simpl. rewrite root_of_plug1. eauto. }
    simpl in Hcb2. destruct Hcb2 as (Hsib & Hfb & Hrange & Hcb3).
    destruct (hb_insert_rebalance_spec s2 fq Chigh _ n (height (plug lo E))
                HZ2 Hn' Hb2 Hh2) as (s3 & t3 & Hrun3 & HZ3 & Hb3 & Hh3 & He3 & Hm3);
      [|done..|].
    { intros H0. destruct lo as [|f lo]; [done|].
      by apply root_bal_plug_setb in H0. }
    rewrite Hn'. run Hrun3.
    exists (mk_state (with_count (wrap_size (count (tree s3) + 1)) (tree s3))
              (mem s3) (dlog s3)), (plug Chigh t3).
    split; [by repeat hb_step|].
    assert (Hent3 : entries (plug Chigh t3)
                    = lefts (lo ++ fq :: Chigh) ++ (k, v) :: rights (lo ++ fq :: Chigh)).
    { rewrite <- Hent. simpl. by rewrite !entries_plug, He3. }
    apply Zip_plug in HZ3.
    destruct HZ3 as (HZa & HZb & HZc & HZd).
    destruct Hm1 as (? & ? & ? & ?). destruct Hm2 as (? & ? & ? & ?).
    destruct Hm3 as (? & ? & ? & ?).
    unfold Inv, Repr, Zip. simpl in *.
    split_and!; try done; try congruence.
    + apply balanced_plug. split; [done|]. by rewrite Hh3.
    + replace (cmp_func (tree s3)) with (cmp_func (tree s)) by congruence.
      unfold bst, keys. by rewrite Hent3.
    + rewrite Hent3. apply Hcount. done.
Qed.
(** *** Which blocks an operation allocates and releases

    Field reads and writes, the rotations and the retracing loops work on
    the blocks that are there: the set of allocated blocks changes only in
    [node_new] and [FREE]. *)

Definition keeps_dom {A : Type} (m : M state A) : Prop :=
  ∀ s r s', m s = Ok (r, s') → dom (mem s') = dom (mem s).

Lemma kd_ret {A : Type} (a : A) : keeps_dom (ret a).
Proof. by intros s r s' [= _ <-]. Qed.

Lemma kd_bind {A B : Type} (m : M state A) (f : A → M state B) :
  keeps_dom m → (∀ a, keeps_dom (f a)) → keeps_dom (bind m f).
Proof.
  intros Hm Hf s r s' H. apply bind_inv in H as (a & s1 & H1 & H2).
  rewrite (Hf a _ _ _ H2). by apply (Hm _ _ _ H1).
Qed.

Lemma kd_rd {A : Type} (f : hb_node → A) p : keeps_dom (rd f p).
Proof.
  intros s r s'. unfold rd. destruct p as [a|]; [|done].
  destruct (mem s !! a); [|done]. by intros [= _ <-].
Qed.

Lemma kd_wr g p : keeps_dom (wr g p).
Proof.
  intros s r s'. unfold wr. destruct p as [a|]; [|done].
  destruct (mem s !! a) as [n|] eqn:Ha; [|done]. intros [= _ <-]. cbn [mem].
  rewrite dom_insert_L. apply (elem_of_dom_2 (D := gset positive)) in Ha. set_solver.
Qed.

Lemma kd_get {A : Type} (f : hb_tree → A) : keeps_dom (get_tree f).
Proof. by intros s r s' [= _ <-]. Qed.

Lemma kd_set g : keeps_dom (set_tree g).
Proof. by intros s r s' [= _ <-]. Qed.

Lemma kd_assert b : keeps_dom (ASSERT b).
Proof. intros s r s'. unfold ASSERT. destruct b; [|done]. by intros [= _ <-]. Qed.

Lemma kd_nofuel {A : Type} : keeps_dom (@nofuel state A).
Proof. by intros s r s'. Qed.

Lemma kd_call_del p : keeps_dom (call_del p).
Proof.
  unfold call_del. apply kd_bind; [apply kd_get|]. intros [|]; [|apply kd_ret].
  apply kd_bind; [apply kd_rd|]. intros k.
  apply kd_bind; [apply kd_rd|]. intros v. by intros s r s' [= _ <-].
Qed.

Ltac kd :=
  repeat first
    [ apply kd_ret | apply kd_rd | apply kd_wr | apply kd_get | apply kd_set
    | apply kd_assert | apply kd_nofuel | apply kd_call_del
    | assumption
    | apply kd_bind; [|intros ?]
    | match goal with
      | |- keeps_dom (if ?b then _ else _) => destruct b
      | |- keeps_dom (match ?x with _ => _ end) => destruct x
      | |- keeps_dom (let '(_, _) := ?x in _) => destruct x
      end ].

Lemma kd_rot_left node : keeps_dom (rot_left node).
Proof. unfold rot_left. kd. Qed.

Lemma kd_rot_right node : keeps_dom (rot_right node).
Proof. unfold rot_right. kd. Qed.

Lemma kd_walk_left fuel : ∀ node, keeps_dom (walk_left fuel node).
Proof. induction fuel as [|fuel IH]; intros node; cbn [walk_left]; kd. apply IH. Qed.

Lemma kd_insert_descend fuel k : ∀ node par q cmp,
  keeps_dom (insert_descend fuel k node par q cmp).
Proof.
  induction fuel as [|fuel IH]; intros node par q cmp;
    destruct node; cbn [insert_descend]; kd; apply IH.
Qed.

Lemma kd_insert_retrace fuel : ∀ node par q, keeps_dom (insert_retrace fuel node par q).
Proof.
  induction fuel as [|fuel IH]; intros node par q; cbn [insert_retrace]; kd. apply IH.
Qed.

Lemma kd_insert_rebalance node q : keeps_dom (insert_rebalance node q).
Proof. unfold insert_rebalance. kd; first [apply kd_rot_left|apply kd_rot_right]. Qed.

Lemma kd_remove_find fuel k : ∀ node par, keeps_dom (remove_find fuel k node par).
Proof.
  induction fuel as [|fuel IH]; intros node par;
    destruct node; cbn [remove_find]; kd; apply IH.
Qed.

Lemma kd_remove_step par left : keeps_dom (remove_step par left).
Proof. unfold remove_step. kd; first [apply kd_rot_left|apply kd_rot_right]. Qed.

Lemma kd_remove_retrace fuel : ∀ par left, keeps_dom (remove_retrace fuel par left).
Proof.
  induction fuel as [|fuel IH]; intros par left; cbn [remove_retrace]; kd;
    first [apply kd_remove_step|apply IH].
Qed.

Lemma kd_remove_swap fuel node par : keeps_dom (remove_swap fuel node par).
Proof. unfold remove_swap. kd. apply kd_walk_left. Qed.

(** [insert_new] with a block from the allocator adds that block and no
    other; without one it leaves the heap alone. *)
Lemma hb_insert_new_dom fuel k v par q cmp m ok s r s' :
  insert_new fuel k v par q cmp m ok s = Ok (r, s') →
  dom (mem s') = match m with
                 | Some a => {[a]} ∪ dom (mem s)
                 | None => dom (mem s)
                 end.
Proof.
  unfold insert_new. intros H. apply bind_inv in H as (node & s1 & H1 & H2).
  destruct m as [a|]; cbn in H1; injection H1 as <- <-.
  - cbn [is_null] in H2.
    assert (Hk : keeps_dom
      (wr (with_parent par) (Some a);;
       (if is_null par
        then set_tree (with_root (Some a));;
             (let* c := get_tree count in
              ASSERT (c =? 0);; set_tree (with_count 1);; ret ok)
        else (if cmp <? 0 then wr (with_llink (Some a)) par
              else wr (with_rlink (Some a)) par);;
             (let* node := insert_retrace fuel (Some a) par q in
              insert_rebalance node q;;
              (let* c := get_tree count in
               set_tree (with_count (wrap_size (c + 1)));; ret ok))))).
    { kd; first [apply kd_insert_retrace|apply kd_insert_rebalance]. }
    rewrite (Hk _ _ _ H2). cbn [mem]. by rewrite dom_insert_L.
  - cbn [is_null] in H2. by injection H2 as _ <-.
Qed.

(** A successful [hb_tree_remove] releases one block that was allocated. *)
Lemma hb_remove_dom fuel k s s' :
  hb_tree_remove fuel k s = Ok (true, s') →
  ∃ x, x ∈ dom (mem s) ∧ dom (mem s') = dom (mem s) ∖ {[x]}.
Proof.
  unfold hb_tree_remove. intros H.
  apply bind_inv in H as (rt & s0 & H0 & H). injection H0 as <- <-.
  apply bind_inv in H as ([node par] & s1 & H1 & H).
  apply kd_remove_find in H1.
  destruct (is_null node) eqn:Hn; [by injection H|].
  apply bind_inv in H as ([node2 par2] & s2 & H2 & H).
  apply kd_remove_swap in H2.
  unfold remove_splice in H.
  apply bind_inv in H as (nl & s3 & H3 & H).
  assert (Hnn : node2 ≠ NULL) by (intros ->; discriminate H3).
  apply kd_rd in H3.
  apply bind_inv in H as (out & s4 & H4 & H).
  assert (Hd4 : dom (mem s4) = dom (mem s3)).
  { destruct (negb (is_null nl)); [by injection H4 as _ <-|by apply kd_rd in H4]. }
  apply bind_inv in H as ([] & s5 & H5 & H). apply kd_call_del in H5.
  apply bind_inv in H as ([] & s6 & H6 & H).
  assert (Hk : keeps_dom
    ((if negb (is_null out) then wr (with_parent par2) out else ret tt);;
     (if is_null par2
      then set_tree (with_root out);;
           (let* c := get_tree count in
            set_tree (with_count (wrap_size (c - 1)));; ret true)
      else let* pl := rd llink par2 in
           (if ptr_eqb pl node2 then wr (with_llink out) par2
            else wr (with_rlink out) par2);;
           remove_retrace fuel par2 (ptr_eqb pl node2);;
           (let* c := get_tree count in
            set_tree (with_count (wrap_size (c - 1)));; ret true)))).
  { kd; apply kd_remove_retrace. }
  apply Hk in H.
  unfold FREE in H6. destruct node2 as [x|]; [|done].
  destruct (mem s5 !! x) as [n|] eqn:Hx; [|done]. injection H6 as <-.
  cbn [mem] in H. exists x.
  apply (elem_of_dom_2 (D := gset positive)) in Hx.
  rewrite H, dom_delete_L. split; [|congruence]. congruence.
Qed.

Lemma hb_insert_new_full s C a k v ok fuel :
  strict_total (cmp_func (tree s)) →
  Zip s C E → balanced (plug C E) → bst (cmp_func (tree s)) (plug C E) →
  path_ok (cmp_func (tree s)) k C →
  count (tree s) = wrap_size (Z.of_nat (length (entries (plug C E)))) →
  mem s !! a = None → (length C ≤ fuel)%nat →
  ∃ s' t',
    insert_new fuel k v (cpar C) (qof C) (lastcmp (cmp_func (tree s)) k C)
      (Some a) ok s = Ok (ok, s')
    ∧ Inv s' t'
    ∧ entries t' = lefts C ++ (k, v) :: rights C
    ∧ dlog s' = dlog s
    ∧ cmp_func (tree s') = cmp_func (tree s)
    ∧ del_func (tree s') = del_func (tree s)
    ∧ dom (mem s') = {[a]} ∪ dom (mem s).
Proof.
  intros Hcmp HZ Hbal Hbst Hp Hcnt Hn Hfuel.
  destruct (hb_insert_new_spec s C a k v ok fuel) as (s' & t' & Hrun & H); try done.
  exists s', t'. destruct H as (? & ? & ? & ? & ?). split_and!; try done.
  apply (hb_insert_new_dom _ _ _ _ _ _ _ _ _ _ _ Hrun).
Qed.
(** *** What the descent finds *)

Section descent.
Context (cmp : Z → Z → Z) (Hcmp : strict_total cmp).

Lemma descend_absent k t C :
  bst cmp t → descend cmp k [] t = (C, E) →
  entries t = lefts C ++ rights C ∧ path_ok cmp k C ∧ (k ∉ keys t)
  ∧ plug C E = t.
Proof.
  intros Hb Hd. apply descend_plug in Hd as (Hpl & Hp & _).
  specialize (Hp (Forall_nil_2 _)).
  simpl in Hpl. subst t. destruct (path_bounds cmp Hcmp k C E Hb Hp) as [Hl Hr].
  split_and!; [by rewrite entries_plug|done| |done].
  unfold keys. rewrite entries_plug. simpl. rewrite fmap_app, elem_of_app.
  rewrite Forall_forall in Hl, Hr.
  intros [H|H]; [apply Hl in H|apply Hr in H]; by apply (cmp_lt_irrefl cmp Hcmp k).
Qed.

Lemma descend_found k t C l a kk d b r :
  bst cmp t → descend cmp k [] t = (C, T l a kk d b r) →
  kk = k ∧ plug C (T l a k d b r) = t ∧ path_ok cmp k C
  ∧ entries t = (lefts C ++ entries l) ++ (k, d) :: (entries r ++ rights C).
Proof.
  intros Hb Hd. apply descend_plug in Hd as (Hpl & Hp & Hk).
  specialize (Hp (Forall_nil_2 _)).
  specialize (Hk _ _ _ _ _ _ eq_refl). apply (proj1 (cmp_eq _ Hcmp _ _)) in Hk. subst kk.
  simpl in Hpl. subst t. split_and!; [done..|].
  rewrite entries_plug. simpl. by rewrite <- !app_assoc.
Qed.

Lemma bst_lookup k v d t l r :
  bst cmp t → entries t = l ++ (k, d) :: r → (k, v) ∈ entries t → v = d.
Proof.
  intros Hb He Hin. apply (NoDup_fst_inj (entries t) k).
  - by apply (sorted_NoDup cmp Hcmp).
  - done.
  - rewrite He. set_solver.
Qed.

End descent.

(** *** Writing key, datum or balance factor of the focused node *)

Lemma hb_wr_data_spec s C l a k d b r g k' d' b' :
  (∀ x y z, g (mk_node k d x y z b) = mk_node k' d' x y z b') →
  Zip s C (T l a k d b r) →
  ∃ s', wr g (Some a) s = Ok (tt, s')
    ∧ Zip s' C (T l a k' d' b' r) ∧ same_meta s s'
    ∧ root (tree s') = root (tree s).
Proof.
  intros Hg (Hroot & (Ha & Hl & Hr) & HC & Hnd). simpl in Hnd. nd_out Hnd a.
  eexists. split; [unfold wr; by rewrite Ha|]. split; [|done].
  rewrite Hg.
  destruct C as [|[[] p kp dp bp sib] C']; simpl in *;
    [|destruct HC as (Hp & Hsib & HC'); nd_out Hnd p..];
    unfold frame_node in *; simpl in *; zip_solve Hnd.
Qed.

(** *** Search *)

Lemma hb_search_loop_spec k t : ∀ fuel C s,
  Zip s C t → (size t ≤ fuel)%nat →
  search_loop fuel k (root_of t) s
  = Ok (match (descend (cmp_func (tree s)) k C t).2 with
        | E => NULLZ
        | T _ _ _ d _ _ => d
        end, s).
Proof.
  induction t as [|l IHl a kk d b r IHr]; intros fuel C s HZ Hfuel.
  - by destruct fuel.
  - destruct fuel as [|fuel]; [simpl in Hfuel; lia|].
    simpl in Hfuel.
    pose proof (Zip_root_lookup _ _ _ _ _ _ _ _ HZ) as Ha.
    cbn [search_loop root_of descend].
    rewrite hb_bind_get. erewrite hb_bind_rd by exact Ha. cbn [key].
    destruct (cmp_func (tree s) k kk <? 0).
    { erewrite !hb_bind_rd by exact Ha. cbn [llink].
      apply Zip_down_l in HZ. apply (IHl fuel _ s HZ). lia. }
    destruct (cmp_func (tree s) k kk >? 0).
    { erewrite !hb_bind_rd by exact Ha. cbn [rlink].
      apply Zip_down_r in HZ. apply (IHr fuel _ s HZ). lia. }
    unfold rd. by rewrite Ha.
Qed.

Lemma hb_search_present s t k v fuel :
  strict_total (cmp_func (tree s)) → Inv s t → (k, v) ∈ entries t →
  (size t ≤ fuel)%nat →
  hb_tree_search fuel k s = Ok (v, s).
Proof.
  intros Hcmp (HR & _ & Hb & _) Hin Hfuel.
  unfold hb_tree_search. rewrite hb_bind_get.
  pose proof HR as (Hroot & _). simpl in Hroot. rewrite Hroot.
  rewrite (hb_search_loop_spec k t fuel [] s HR Hfuel).
  destruct (descend (cmp_func (tree s)) k [] t) as [C t'] eqn:Hd. simpl.
  destruct t' as [|l a kk d b r].
  - apply (descend_absent _ Hcmp) in Hd as (_ & _ & Hk & _); [|done].
    exfalso. apply Hk. unfold keys. apply list_elem_of_fmap. by exists (k, v).
  - apply (descend_found _ Hcmp) in Hd as (-> & _ & _ & He); [|done].
    by rewrite (bst_lookup _ Hcmp k v d t _ _ Hb He Hin).
Qed.

Lemma hb_search_absent s t k fuel :
  strict_total (cmp_func (tree s)) → Inv s t → k ∉ keys t →
  (size t ≤ fuel)%nat →
  hb_tree_search fuel k s = Ok (NULLZ, s).
Proof.
  intros Hcmp (HR & _ & Hb & _) Hin Hfuel.
  unfold hb_tree_search. rewrite hb_bind_get.
  pose proof HR as (Hroot & _). simpl in Hroot. rewrite Hroot.
  rewrite (hb_search_loop_spec k t fuel [] s HR Hfuel).
  destruct (descend (cmp_func (tree s)) k [] t) as [C t'] eqn:Hd. simpl.
  destruct t' as [|l a kk d b r]; [done|].
  apply (descend_found _ Hcmp) in Hd as (-> & _ & _ & He); [|done].
  exfalso. apply Hin. unfold keys. rewrite He, fmap_app, fmap_cons. set_solver.
Qed.

(** *** Insert and probe *)

(** The allocator answers NULL or a block that is not in use. *)
Definition malloc_ok (s : state) (m : ptr) : Prop :=
  match m with None => True | Some a => mem s !! a = None end.

Definition log_del (s : state) (k d : Z) : list (Z * Z) :=
  if del_func (tree s) then dlog s ++ [(k, d)] else dlog s.

Lemma hb_call_del_spec {B : Type} s a n (K : unit → M state B) :
  mem s !! a = Some n →
  bind (call_del (Some a)) K s
  = K tt (mk_state (tree s) (mem s) (log_del s (key n) (datum n))).
Proof.
  intros Ha. unfold call_del, log_del. rewrite bind_assoc, hb_bind_get.
  destruct (del_func (tree s)).
  - rewrite bind_assoc. erewrite hb_bind_rd by exact Ha.
    rewrite bind_assoc. erewrite hb_bind_rd by exact Ha. reflexivity.
  - rewrite bind_ret. by destruct s.
Qed.

Lemma hb_insert_full s t k v ow m fuel :
  strict_total (cmp_func (tree s)) → Inv s t → malloc_ok s m →
  (size t ≤ fuel)%nat →
  ((k ∉ keys t) ∧
     match m with
     | None => hb_tree_insert fuel k v ow m s = Ok (-1, s)
     | Some _ =>
         ∃ s' t' l r,
           hb_tree_insert fuel k v ow m s = Ok (0, s') ∧ Inv s' t'
           ∧ entries t = l ++ r ∧ entries t' = l ++ (k, v) :: r
           ∧ dlog s' = dlog s
           ∧ cmp_func (tree s') = cmp_func (tree s)
           ∧ del_func (tree s') = del_func (tree s)
           ∧ dom (mem s') = dom (mem s) ∪ match m with Some a => {[a]} | None => ∅ end
     end)
  ∨ (∃ l d r, entries t = l ++ (k, d) :: r ∧
       if ow then
         ∃ s' t',
           hb_tree_insert fuel k v ow m s = Ok (0, s') ∧ Inv s' t'
           ∧ entries t' = l ++ (k, v) :: r
           ∧ dlog s' = log_del s k d
           ∧ cmp_func (tree s') = cmp_func (tree s)
           ∧ del_func (tree s') = del_func (tree s)
           ∧ dom (mem s') = dom (mem s)
       else hb_tree_insert fuel k v ow m s = Ok (1, s)).
Proof.
  intros Hcmp HI Hm Hfuel. pose proof HI as (HR & Hbal & Hb & Hcnt).
  unfold hb_tree_insert. rewrite hb_bind_get.
  pose proof HR as (Hroot & _). simpl in Hroot. rewrite Hroot.
  pose proof (hb_insert_descend_spec k t fuel [] s HR Hfuel) as Hd.
  simpl in Hd. run Hd. clear Hd.
  destruct (descend (cmp_func (tree s)) k [] t) as [C t'] eqn:Hd.
  unfold dres. simpl.
  destruct t' as [|l a kk d b r].
  - left. apply (descend_absent _ Hcmp) in Hd as (He & Hp & Hk & Hpl); [|done].
    split; [done|]. destruct m as [a|].
    + subst t.
      destruct (hb_insert_new_full s C a k v 0 fuel Hcmp) as (s' & t' & H);
        try done.
      { apply Zip_plug. exact HR. }
      { pose proof (csize_length C). rewrite size_plug in Hfuel. simpl in Hfuel. lia. }
      exists s', t', (lefts C), (rights C). destruct H as (?&?&?&?&?&?&Hdm).
      split_and!; try done. rewrite Hdm. set_solver.
    + reflexivity.
  - right. apply (descend_found _ Hcmp) in Hd as (-> & Hpl & Hp & He); [|done].
    exists (lefts C ++ entries l), d, (entries r ++ rights C). split; [done|].
    destruct ow; [|reflexivity]. cbn [negb].
    subst t. apply (proj1 (Zip_plug _ _ _)) in HR.
    pose proof (Zip_root_lookup _ _ _ _ _ _ _ _ HR) as Ha.
    rewrite (hb_call_del_spec _ _ _ _ Ha). cbn [key datum].
    set (s1 := mk_state (tree s) (mem s) (log_del s k d)).
    assert (HZ1 : Zip s1 C (T l a k d b r)) by exact HR.
    destruct (hb_wr_data_spec s1 C l a k d b r (with_key k) k d b) as
      (s2 & Hrun2 & HZ2 & Hm2 & _); [done|done|].
    destruct (hb_wr_data_spec s2 C l a k d b r (with_datum v) k v b) as
      (s3 & Hrun3 & HZ3 & Hm3 & _); [done|done|].
    exists s3, (plug C (T l a k v b r)).
    split; [run Hrun2; run Hrun3; reflexivity|].
    destruct Hm2 as (? & ? & ? & ?). destruct Hm3 as (? & ? & ? & ?).
    assert (Hdom : dom (mem s3) = dom (mem s)).
    { by rewrite (kd_wr _ _ _ _ _ Hrun3), (kd_wr _ _ _ _ _ Hrun2). }
    subst s1. simpl in *.
    assert (Hent : entries (plug C (T l a k v b r))
                   = (lefts C ++ entries l) ++ (k, v) :: entries r ++ rights C).
    { rewrite entries_plug. simpl. by rewrite <- !app_assoc. }
    split_and!; try congruence.
    unfold Inv. split_and!.
    + by apply Zip_plug.
    + eapply balanced_plug_replace; [exact Hbal| |done].
      simpl in *. apply balanced_plug in Hbal as [Hbal _]. exact Hbal.
    + replace (cmp_func (tree s3)) with (cmp_func (tree s)) by congruence.
      unfold bst, keys in *. rewrite Hent. rewrite He in Hb.
      by rewrite fmap_app, fmap_cons in *.
    + rewrite Hent. replace (count (tree s3)) with (count (tree s)) by congruence.
      rewrite Hcnt, He. by rewrite !length_app.
Qed.

Lemma hb_insert_spec s t k v ow m fuel :
  strict_total (cmp_func (tree s)) → Inv s t → malloc_ok s m →
  (size t ≤ fuel)%nat →
  ((k ∉ keys t) ∧
     match m with
     | None => hb_tree_insert fuel k v ow m s = Ok (-1, s)
     | Some _ =>
         ∃ s' t' l r,
           hb_tree_insert fuel k v ow m s = Ok (0, s') ∧ Inv s' t'
           ∧ entries t = l ++ r ∧ entries t' = l ++ (k, v) :: r
           ∧ dlog s' = dlog s
           ∧ cmp_func (tree s') = cmp_func (tree s)
           ∧ del_func (tree s') = del_func (tree s)
     end)
  ∨ (∃ l d r, entries t = l ++ (k, d) :: r ∧
       if ow then
         ∃ s' t',
           hb_tree_insert fuel k v ow m s = Ok (0, s') ∧ Inv s' t'
           ∧ entries t' = l ++ (k, v) :: r
           ∧ dlog s' = log_del s k d
           ∧ cmp_func (tree s') = cmp_func (tree s)
           ∧ del_func (tree s') = del_func (tree s)
       else hb_tree_insert fuel k v ow m s = Ok (1, s)).
Proof.
  intros Hcmp HI Hm Hf.
  destruct (hb_insert_full s t k v ow m fuel Hcmp HI Hm Hf)
    as [[Hk H]|(l & d & r & He & H)].
  - left. split; [done|]. destruct m as [a|]; [|done].
    destruct H as (s' & t' & l & r & ? & ? & ? & ? & ? & ? & ? & _).
    by exists s', t', l, r.
  - right. exists l, d, r. split; [done|]. destruct ow; [|done].
    destruct H as (s' & t' & ? & ? & ? & ? & ? & ? & _). by exists s', t'.
Qed.
(** *** One step of the retracing loop of remove *)

Definition is_left (d : dir) : bool := match d with L => true | Rt => false end.

Lemma hb_remove_step_spec s f C' tcur :
  Zip s (f :: C') tcur → balanced tcur → balanced (fsib f) →
  fb f = match fdir f with
         | L => height (fsib f) - (height tcur + 1)
         | Rt => (height tcur + 1) - height (fsib f)
         end →
  -1 ≤ fb f ≤ 1 →
  ∃ s' t1 r, remove_step (Some (fa f)) (is_left (fdir f)) s = Ok (r, s')
    ∧ Zip s' C' t1 ∧ balanced t1 ∧ entries t1 = entries (plug1 f tcur)
    ∧ same_meta s s'
    ∧ ((r = None ∧ height t1 = 1 + Z.max (height tcur + 1) (height (fsib f)))
       ∨ (r = Some (root_of t1) ∧ root_of t1 ≠ NULL
          ∧ height t1 = Z.max (height tcur + 1) (height (fsib f)))).
Proof.
  intros HZ Hbal Hsib Hfb Hrange.
  destruct f as [dr q kq dq bq sib]. cbn [fa fb fsib fdir] in *.
  pose proof (height_nonneg sib) as Hsibnn.
  pose proof (height_nonneg tcur) as Htnn.
  apply Zip_plug1 in HZ.
  unfold remove_step.
  destruct dr; unfold plug1 in *; cbn [fa fb fsib fdir fk fd is_left] in *.
  - pose proof (Zip_root_lookup _ _ _ _ _ _ _ _ HZ) as Hq.
    destruct (hb_wr_bal_spec _ _ _ _ _ _ _ _ (wrap_schar (bq + 1)) HZ)
      as (s1 & Hrun1 & HZ1 & Hm1 & _).
    assert (bq = -1 ∨ bq = 0 ∨ bq = 1) as [-> | [-> | ->]] by lia.
    + exists s1, (T tcur q kq dq 0 sib), (Some (Some q)).
      split; [repeat hb_step0; run Hrun1; wsc; hb_simpl; reflexivity|].
      split; [exact HZ1|]. simpl in *. split_and!; try done; try lia.
      right. split_and!; try done; lia.
    + exists s1, (T tcur q kq dq 1 sib), None.
      split; [repeat hb_step0; run Hrun1; wsc; hb_simpl; reflexivity|].
      split; [exact HZ1|]. simpl in *. split_and!; try done; try lia.
      left. split_and!; try done; lia.
    + change (wrap_schar (1 + 1)) with 2 in HZ1.
      destruct sib as [|sl d kd dd bd sr]; [simpl in *; lia|].
      simpl in Hsib. destruct Hsib as (Hbd & Hbdr & Hsl & Hsr). simpl in Hfb.
      pose proof (height_nonneg sl). pose proof (height_nonneg sr).
      pose proof (Zip_root_lookup _ _ _ _ _ _ _ _ HZ1) as Hq1. cbn [root_of] in Hq1.
      assert (Hd1 : mem s1 !! d
                    = Some (mk_node kd dd (root_of sl) (root_of sr) (Some q) bd)).
      { apply Zip_down_r in HZ1. by apply Zip_root_lookup in HZ1. }
      assert (bd = -1 ∨ bd = 0 ∨ bd = 1) as [-> | [-> | ->]] by lia.
      * (* double rotation *)
        destruct sl as [|Aa x kx dx bx Cc]; [simpl in *; lia|].
        apply Zip_down_r in HZ1.
        destruct (hb_rot_right_spec _ _ _ _ _ _ _ _ _ _ _ _ _ HZ1)
          as (s2 & Hrun2 & HZ2 & Hm2).
        apply Zip_down_r in HZ2.
        destruct (hb_rot_left_spec _ _ _ _ _ _ _ _ _ _ _ _ _ HZ2)
          as (s3 & Hrun3 & HZ3 & Hm3).
        assert (Hq3 : parent <$> mem s3 !! q = Some (Some x)).
        { apply Zip_down_l in HZ3. apply Zip_root_lookup in HZ3. by rewrite HZ3. }
        destruct (mem s3 !! q) as [nq|] eqn:Hq3'; [|done].
        injection Hq3 as Hq3.
        eexists s3, _, (Some (Some x)).
        split; [repeat hb_step0; run Hrun1; wsc; hb_simpl; repeat hb_step;
                run Hrun2; repeat hb_step; run Hrun3; repeat hb_step;
                by rewrite Hq3|].
        split; [exact HZ3|].
        pose proof (same_meta_trans _ _ _ (same_meta_trans _ _ _ Hm1 Hm2) Hm3).
        simpl in Hsl. destruct Hsl as (Hbx & Hbxr & HAa & HCc).
        assert (bx = -1 ∨ bx = 0 ∨ bx = 1) as [-> | [-> | ->]] by lia;
          vm_compute rotl_b1; vm_compute rotl_b2;
          vm_compute rotr_b1; vm_compute rotr_b2;
          simpl in *; rewrite <- ?app_assoc; simpl; rewrite <- ?app_assoc; simpl;
          (split_and!; try done; try lia;
           right; split_and!; try done; lia).
      * (* single rotation, height kept *)
        destruct sr as [|Cc x kx dx bx Ee]; [simpl in *; lia|].
        destruct (hb_rot_left_spec _ _ _ _ _ _ _ _ _ _ _ _ _ HZ1)
          as (s2 & Hrun2 & HZ2 & Hm2).
        eexists s2, _, None.
        split; [repeat hb_step0; run Hrun1; wsc; hb_simpl; repeat hb_step;
                run Hrun2; reflexivity|].
        split; [exact HZ2|].
        pose proof (same_meta_trans _ _ _ Hm1 Hm2).
        vm_compute rotl_b1; vm_compute rotl_b2.
        simpl in *; destruct_and?; rewrite <- ?app_assoc; simpl.
        split_and!; try done; try lia.
        left. split_and!; try done; lia.
      * (* single rotation, height reduced *)
        destruct sr as [|Cc x kx dx bx Ee]; [simpl in *; lia|].
        destruct (hb_rot_left_spec _ _ _ _ _ _ _ _ _ _ _ _ _ HZ1)
          as (s2 & Hrun2 & HZ2 & Hm2).
        assert (Hq2 : parent <$> mem s2 !! q = Some (Some d)).
        { apply Zip_down_l in HZ2. apply Zip_root_lookup in HZ2. by rewrite HZ2. }
        destruct (mem s2 !! q) as [nq|] eqn:Hq2'; [|done].
        injection Hq2 as Hq2.
        eexists s2, _, (Some (Some d)).
        split; [repeat hb_step0; run Hrun1; wsc; hb_simpl; repeat hb_step;
                run Hrun2; repeat hb_step; by rewrite Hq2|].
        split; [exact HZ2|].
        pose proof (same_meta_trans _ _ _ Hm1 Hm2).
        vm_compute rotl_b1; vm_compute rotl_b2.
        simpl in *; destruct_and?; rewrite <- ?app_assoc; simpl.
        split_and!; try done; try lia.
        right. split_and!; try done; lia.
  - pose proof (Zip_root_lookup _ _ _ _ _ _ _ _ HZ) as Hq.
    destruct (hb_wr_bal_spec _ _ _ _ _ _ _ _ (wrap_schar (bq - 1)) HZ)
      as (s1 & Hrun1 & HZ1 & Hm1 & _).
    assert (bq = 1 ∨ bq = 0 ∨ bq = -1) as [-> | [-> | ->]] by lia.
    + exists s1, (T sib q kq dq 0 tcur), (Some (Some q)).
      split; [repeat hb_step0; run Hrun1; wsc; hb_simpl; reflexivity|].
      split; [exact HZ1|]. simpl in *. split_and!; try done; try lia.
      right. split_and!; try done; lia.
    + exists s1, (T sib q kq dq (-1) tcur), None.
      split; [repeat hb_step0; run Hrun1; wsc; hb_simpl; reflexivity|].
      split; [exact HZ1|]. simpl in *. split_and!; try done; try lia.
      left. split_and!; try done; lia.
    + change (wrap_schar (-1 - 1)) with (-2) in HZ1.
      destruct sib as [|sl d kd dd bd sr]; [simpl in *; lia|].
      simpl in Hsib. destruct Hsib as (Hbd & Hbdr & Hsl & Hsr). simpl in Hfb.
      pose proof (height_nonneg sl). pose proof (height_nonneg sr).
      pose proof (Zip_root_lookup _ _ _ _ _ _ _ _ HZ1) as Hq1. cbn [root_of] in Hq1.
      assert (Hd1 : mem s1 !! d
                    = Some (mk_node kd dd (root_of sl) (root_of sr) (Some q) bd)).
      { apply Zip_down_l in HZ1. by apply Zip_root_lookup in HZ1. }
      assert (bd = 1 ∨ bd = 0 ∨ bd = -1) as [-> | [-> | ->]] by lia.
      * (* double rotation *)
        destruct sr as [|Cc x kx dx bx Ee]; [simpl in *; lia|].
        apply Zip_down_l in HZ1.
        destruct (hb_rot_left_spec _ _ _ _ _ _ _ _ _ _ _ _ _ HZ1)
          as (s2 & Hrun2 & HZ2 & Hm2).
        apply Zip_down_l in HZ2.
        destruct (hb_rot_right_spec _ _ _ _ _ _ _ _ _ _ _ _ _ HZ2)
          as (s3 & Hrun3 & HZ3 & Hm3).
        assert (Hq3 : parent <$> mem s3 !! q = Some (Some x)).
        { apply Zip_down_r in HZ3. apply Zip_root_lookup in HZ3. by rewrite HZ3. }
        destruct (mem s3 !! q) as [nq|] eqn:Hq3'; [|done].
        injection Hq3 as Hq3.
        eexists s3, _, (Some (Some x)).
        split; [repeat hb_step0; run Hrun1; wsc; hb_simpl; repeat hb_step;
                run Hrun2; repeat hb_step; run Hrun3; repeat hb_step;
                by rewrite Hq3|].
        split; [exact HZ3|].
        pose proof (same_meta_trans _ _ _ (same_meta_trans _ _ _ Hm1 Hm2) Hm3).
        simpl in Hsr. destruct Hsr as (Hbx & Hbxr & HCc & HEe).
        assert (bx = -1 ∨ bx = 0 ∨ bx = 1) as [-> | [-> | ->]] by lia;
          vm_compute rotl_b1; vm_compute rotl_b2;
          vm_compute rotr_b1; vm_compute rotr_b2;
          simpl in *; rewrite <- ?app_assoc; simpl; rewrite <- ?app_assoc; simpl;
          (split_and!; try done; try lia;
           right; split_and!; try done; lia).
      * (* single rotation, height kept *)
        destruct sl as [|Aa x kx dx bx Cc]; [simpl in *; lia|].
        destruct (hb_rot_right_spec _ _ _ _ _ _ _ _ _ _ _ _ _ HZ1)
          as (s2 & Hrun2 & HZ2 & Hm2).
        eexists s2, _, None.
        split; [repeat hb_step0; run Hrun1; wsc; hb_simpl; repeat hb_step;
                run Hrun2; reflexivity|].
        split; [exact HZ2|].
        pose proof (same_meta_trans _ _ _ Hm1 Hm2).
        vm_compute rotr_b1; vm_compute rotr_b2.
        simpl in *; destruct_and?; rewrite <- ?app_assoc; simpl.
        split_and!; try done; try lia.
        left. split_and!; try done; lia.
      * (* single rotation, height reduced *)
        destruct sl as [|Aa x kx dx bx Cc]; [simpl in *; lia|].
        destruct (hb_rot_right_spec _ _ _ _ _ _ _ _ _ _ _ _ _ HZ1)
          as (s2 & Hrun2 & HZ2 & Hm2).
        assert (Hq2 : parent <$> mem s2 !! q = Some (Some d)).
        { apply Zip_down_r in HZ2. apply Zip_root_lookup in HZ2. by rewrite HZ2. }
        destruct (mem s2 !! q) as [nq|] eqn:Hq2'; [|done].
        injection Hq2 as Hq2.
        eexists s2, _, (Some (Some d)).
        split; [repeat hb_step0; run Hrun1; wsc; hb_simpl; repeat hb_step;
                run Hrun2; repeat hb_step; by rewrite Hq2|].
        split; [exact HZ2|].
        pose proof (same_meta_trans _ _ _ Hm1 Hm2).
        vm_compute rotr_b1; vm_compute rotr_b2.
        simpl in *; destruct_and?; rewrite <- ?app_assoc; simpl.
        split_and!; try done; try lia.
        right. split_and!; try done; lia.
Qed.

(** *** The retracing loop of remove *)

Lemma Zip_frame_lookup s f C t x :
  Zip s (f :: C) t → root_of t = Some x →
  mem s !! fa f = Some (frame_node f (Some x) (cpar C))
  ∧ (fdir f = Rt → root_of (fsib f) ≠ Some x).
Proof.
  intros (_ & _ & (Hf & _) & Hnd) Hx. rewrite Hx in Hf. split; [done|].
  intros _. apply root_of_ne. apply root_of_addrs in Hx.
  simpl in Hnd. apply NoDup_app in Hnd as (_ & Hnd & _).
  intros Hin. apply (Hnd x Hx). set_solver.
Qed.

Lemma hb_remove_retrace_spec C : ∀ s tcur f fuel,
  Zip s (f :: C) tcur → balanced tcur → cbal (f :: C) (height tcur + 1) →
  (length C < fuel)%nat →
  ∃ s' t', remove_retrace fuel (Some (fa f)) (is_left (fdir f)) s = Ok (tt, s')
    ∧ Repr s' t' ∧ balanced t'
    ∧ entries t' = entries (plug (f :: C) tcur)
    ∧ same_meta s s'.
Proof.
  induction C as [|f' C IH]; intros s tcur f fuel HZ Hbal Hcb Hfuel;
    (destruct fuel as [|fuel]; [simpl in Hfuel; lia|]);
    cbn [cbal] in Hcb; destruct Hcb as (Hsib & Hfb & Hrange & Hcb);
    destruct (hb_remove_step_spec s f _ tcur HZ Hbal Hsib Hfb Hrange)
      as (s1 & t1 & r & Hrun1 & HZ1 & Hb1 & He1 & Hm1 & Hr);
    cbn [remove_retrace]; run Hrun1.
  - destruct Hr as [(-> & Hh)|(-> & Hnn & Hh)].
    + exists s1, t1. by split_and!.
    + destruct t1 as [|l1 x k1 d1 b1 r1]; [done|].
      pose proof (Zip_root_lookup _ _ _ _ _ _ _ _ HZ1) as Hx.
      exists s1, (T l1 x k1 d1 b1 r1). split; [hb_simpl; repeat hb_step; reflexivity|]. by split_and!.
  - simpl in Hfuel.
    destruct Hr as [(-> & Hh)|(-> & Hnn & Hh)].
    + exists s1, (plug (f' :: C) t1). split; [done|]. split_and!; try done.
      * by apply Zip_plug.
      * apply balanced_plug. split; [done|]. by rewrite Hh.
      * by apply (entries_plug_congr (f' :: C)).
    + destruct t1 as [|l1 x k1 d1 b1 r1]; [done|].
      pose proof (Zip_root_lookup _ _ _ _ _ _ _ _ HZ1) as Hx.
      destruct (Zip_frame_lookup _ _ _ _ x HZ1 eq_refl) as [Hf' Hne].
      destruct (IH s1 (T l1 x k1 d1 b1 r1) f' fuel HZ1 Hb1) as
        (s2 & t2 & Hrun2 & HR2 & Hb2 & He2 & Hm2).
      { by replace (height (T l1 x k1 d1 b1 r1) + 1)
          with (1 + (height tcur + 1) `max` height (fsib f)) by lia. }
      { lia. }
      exists s2, t2.
      split.
      { hb_simpl. repeat hb_step. destruct f' as [[] p kp dp bp sib']; cbn in *.
        - repeat hb_step. exact Hrun2.
        - specialize (Hne eq_refl). repeat hb_step. exact Hrun2. }
      split_and!; try done.
      * rewrite He2. by apply (entries_plug_congr (f' :: C)).
      * by eapply same_meta_trans.
Qed.

(** *** Splicing the node out *)

Definition child_of (l r : atree) : atree :=
  match l with E => r | T _ _ _ _ _ _ => l end.

Definition splice_rest (fuel : nat) (C : list frame) : M state bool :=
  match C with
  | [] =>
      let* c := get_tree count in
      set_tree (with_count (wrap_size (c - 1)));;
      ret true
  | f :: _ =>
      remove_retrace fuel (Some (fa f)) (is_left (fdir f));;
      let* c := get_tree count in
      set_tree (with_count (wrap_size (c - 1)));;
      ret true
  end.

Lemma hb_splice_heap s C l n k d b r fuel :
  Zip s C (T l n k d b r) → l = E ∨ r = E →
  ∃ s', remove_splice fuel (Some n) (cpar C) s = splice_rest fuel C s'
    ∧ Zip s' C (child_of l r)
    ∧ count (tree s') = count (tree s)
    ∧ cmp_func (tree s') = cmp_func (tree s)
    ∧ del_func (tree s') = del_func (tree s)
    ∧ dlog s' = log_del s k d.
Proof.
  intros HZ Hlr.
  pose proof (Zip_root_lookup _ _ _ _ _ _ _ _ HZ) as Hn.
  unfold remove_splice.
  erewrite hb_bind_rd by exact Hn. hb_simpl.
  assert (Hout : (let* out := if negb (is_null (root_of l)) then ret (root_of l)
                              else rd rlink (Some n) in
                  call_del (Some n);;
                  FREE (Some n);;
                  (if negb (is_null out) then wr (with_parent (cpar C)) out else ret ());;
                  (if is_null (cpar C)
                   then
                    set_tree (with_root out);;
                    (let* c := get_tree count in
                     set_tree (with_count (wrap_size (c - 1)));; ret true)
                   else
                    let* pl := rd llink (cpar C) in
                    (if ptr_eqb pl (Some n)
                     then wr (with_llink out) (cpar C)
                     else wr (with_rlink out) (cpar C));;
                    remove_retrace fuel (cpar C) (ptr_eqb pl (Some n));;
                    (let* c := get_tree count in
                     set_tree (with_count (wrap_size (c - 1)));; ret true))) s
                 = (FREE (Some n);;
                    (if negb (is_null (root_of (child_of l r)))
                     then wr (with_parent (cpar C)) (root_of (child_of l r)) else ret ());;
                    (if is_null (cpar C)
                     then
                      set_tree (with_root (root_of (child_of l r)));;
                      (let* c := get_tree count in
                       set_tree (with_count (wrap_size (c - 1)));; ret true)
                     else
                      let* pl := rd llink (cpar C) in
                      (if ptr_eqb pl (Some n)
                       then wr (with_llink (root_of (child_of l r))) (cpar C)
                       else wr (with_rlink (root_of (child_of l r))) (cpar C));;
                      remove_retrace fuel (cpar C) (ptr_eqb pl (Some n));;
                      (let* c := get_tree count in
                       set_tree (with_count (wrap_size (c - 1)));; ret true)))
                     (mk_state (tree s) (mem s) (log_del s k d))).
  { destruct l as [|ll c kc dc bc lr]; hb_simpl.
    - erewrite hb_bind_rd by exact Hn. hb_simpl.
      by rewrite (hb_call_del_spec _ _ _ _ Hn).
    - rewrite bind_ret. by rewrite (hb_call_del_spec _ _ _ _ Hn). }
  rewrite Hout. clear Hout.
  set (s1 := mk_state (tree s) (mem s) (log_del s k d)).
  assert (HZ1 : Zip s1 C (T l n k d b r)) by exact HZ.
  assert (Hn1 : mem s1 !! n
                = Some (mk_node k d (root_of l) (root_of r) (cpar C) b)) by exact Hn.
  assert (Hmeta : count (tree s1) = count (tree s)
                  ∧ cmp_func (tree s1) = cmp_func (tree s)
                  ∧ del_func (tree s1) = del_func (tree s)
                  ∧ dlog s1 = log_del s k d) by done.
  clearbody s1. clear HZ Hn.
  destruct HZ1 as (Hroot & (_ & Hl & Hr) & HC & Hnd). simpl in Hnd.
  nd_out Hnd n.
  assert (Hnd' : NoDup ((addrs l ++ addrs r) ++ caddrs C)).
  { apply (NoDup_cons_1_2 n). nd_perm Hnd. }
  assert (Hch : addrs (child_of l r) = addrs l ++ addrs r).
  { destruct Hlr as [-> | ->]; [done|]. destruct l; simpl; by rewrite ?app_nil_r. }
  rewrite <- Hch in Hnd'.
  assert (HRch : R (mem s1) (Some n) (child_of l r)).
  { destruct Hlr as [-> | ->]; [done|]. by destruct l. }
  assert (Hnch : n ∉ addrs (child_of l r) ++ caddrs C).
  { rewrite Hch. intros Hin. apply Hout. revert Hin. in_tac. }
  clear Hout Hnd Hl Hr Hch Hlr.
  destruct (child_of l r) as [|cl c kc dc bc cr];
    [|destruct HRch as (Hc & Hcl & Hcr); nd_out Hnd' c];
    (destruct C as [|[[] p kp dp bp sib] C'];
     [|destruct HC as (Hp & Hsib & HC'); nd_out Hnd' p
      |destruct HC as (Hp & Hsib & HC'); nd_out Hnd' p;
       assert (root_of sib ≠ Some n)
         by (apply root_of_ne; intros ?; apply Hnch; simpl; in_tac)]);
    simpl in Hnch; simpl in *; unfold frame_node in *; simpl in *;
    (eexists; split;
       [unfold splice_rest;
        set (tail := (let* c := get_tree count in
                      set_tree (with_count (wrap_size (c - 1)));; ret true));
        repeat hb_step; reflexivity|];
     split; [|by destruct Hmeta as (? & ? & ? & ?)]);
    zip_solve Hnd'.
Qed.

Lemma child_of_facts l n k d b r :
  l = E ∨ r = E → balanced (T l n k d b r) →
  balanced (child_of l r)
  ∧ height (T l n k d b r) = height (child_of l r) + 1
  ∧ entries (child_of l r) = entries l ++ entries r.
Proof.
  intros Hlr (_ & _ & Hl & Hr).
  pose proof (height_nonneg l). pose proof (height_nonneg r).
  destruct Hlr as [-> | ->]; simpl.
  - split_and!; [done|lia|done].
  - destruct l; simpl in *; destruct_and?; split_and!; try done; try lia.
    by rewrite app_nil_r.
Qed.

Lemma Zip_with_count s C t c :
  Zip s C t → Zip (mk_state (with_count c (tree s)) (mem s) (dlog s)) C t.
Proof. by intros (? & ? & ? & ?). Qed.

Lemma hb_remove_splice_spec s C l n k d b r fuel :
  Zip s C (T l n k d b r) → l = E ∨ r = E →
  balanced (plug C (T l n k d b r)) → (length C < fuel)%nat →
  ∃ s' t', remove_splice fuel (Some n) (cpar C) s = Ok (true, s')
    ∧ Repr s' t' ∧ balanced t'
    ∧ entries t' = lefts C ++ (entries l ++ entries r) ++ rights C
    ∧ count (tree s') = wrap_size (count (tree s) - 1)
    ∧ cmp_func (tree s') = cmp_func (tree s)
    ∧ del_func (tree s') = del_func (tree s)
    ∧ dlog s' = log_del s k d.
Proof.
  intros HZ Hlr Hbal Hfuel.
  destruct (hb_splice_heap s C l n k d b r fuel HZ Hlr)
    as (s1 & -> & HZ1 & Hc1 & Hcmp1 & Hdel1 & Hlog1).
  apply balanced_plug in Hbal as [Hbt Hcb].
  destruct (child_of_facts l n k d b r Hlr Hbt) as (Hbc & Hhc & Hec).
  destruct C as [|f C]; unfold splice_rest.
  - eexists _, (child_of l r). split; [repeat hb_step; reflexivity|].
    split; [by apply Zip_with_count|]. simpl.
    rewrite app_nil_r. split_and!; try done. by rewrite Hc1.
  - rewrite Hhc in Hcb. simpl in Hfuel.
    destruct (hb_remove_retrace_spec C s1 (child_of l r) f fuel HZ1 Hbc Hcb)
      as (s2 & t2 & Hrun2 & HR2 & Hb2 & He2 & (Hc2 & Hcmp2 & Hdel2 & Hlog2)); [lia|].
    run Hrun2.
    eexists _, t2. split; [repeat hb_step; reflexivity|].
    split; [by apply Zip_with_count|]. simpl.
    split_and!; try congruence.
    rewrite He2. change (plug (f :: C) ?t) with (plug C (plug1 f t)).
    rewrite entries_plug, entries_plug1, Hec. simpl.
    by rewrite !app_nil_r, <- !app_assoc.
Qed.
(** *** Finding the node to remove, and its in-order successor *)

Lemma hb_remove_find_spec k t : ∀ fuel C s,
  Zip s C t → (size t ≤ fuel)%nat →
  remove_find fuel k (root_of t) (cpar C) s
  = Ok ((root_of (descend (cmp_func (tree s)) k C t).2,
         cpar (descend (cmp_func (tree s)) k C t).1), s).
Proof.
  induction t as [|l IHl a kk d b r IHr]; intros fuel C s HZ Hfuel.
  - by destruct fuel.
  - destruct fuel as [|fuel]; [simpl in Hfuel; lia|].
    simpl in Hfuel.
    pose proof (Zip_root_lookup _ _ _ _ _ _ _ _ HZ) as Ha.
    cbn [remove_find root_of descend].
    rewrite hb_bind_get. erewrite hb_bind_rd by exact Ha. cbn [key].
    destruct (Z.eqb_spec (cmp_func (tree s) k kk) 0) as [H0|H0].
    { rewrite H0. reflexivity. }
    destruct (Z.ltb_spec (cmp_func (tree s) k kk) 0) as [Hlt|Hge].
    { erewrite !hb_bind_rd by exact Ha. cbn [llink].
      apply Zip_down_l in HZ. apply (IHl fuel _ s HZ). lia. }
    destruct (Z.gtb_spec (cmp_func (tree s) k kk) 0) as [Hgt|Hle]; [|lia].
    erewrite !hb_bind_rd by exact Ha. cbn [rlink].
    apply Zip_down_r in HZ. apply (IHr fuel _ s HZ). lia.
Qed.

Fixpoint minctx (C : list frame) (t : atree) : list frame * atree :=
  match t with
  | E => (C, E)
  | T l a k d b r =>
      match l with
      | E => (C, t)
      | T _ _ _ _ _ _ => minctx (mk_frame L a k d b r :: C) l
      end
  end.

Fixpoint maxctx (C : list frame) (t : atree) : list frame * atree :=
  match t with
  | E => (C, E)
  | T l a k d b r =>
      match r with
      | E => (C, t)
      | T _ _ _ _ _ _ => maxctx (mk_frame Rt a k d b l :: C) r
      end
  end.

Lemma minctx_step C ll la lk ld lb lr a k d b r :
  minctx C (T (T ll la lk ld lb lr) a k d b r)
  = minctx (mk_frame L a k d b r :: C) (T ll la lk ld lb lr).
Proof. reflexivity. Qed.

Lemma maxctx_step C l a k d b rl ra rk rd rb rr :
  maxctx C (T l a k d b (T rl ra rk rd rb rr))
  = maxctx (mk_frame Rt a k d b l :: C) (T rl ra rk rd rb rr).
Proof. reflexivity. Qed.

Lemma Zip_plug_ctx s C Cm : ∀ t, Zip s C (plug Cm t) ↔ Zip s (Cm ++ C) t.
Proof.
  induction Cm as [|f Cm IH]; intros t; simpl; [done|].
  rewrite IH. apply Zip_plug1.
Qed.

Lemma lefts_app C1 C2 : lefts (C1 ++ C2) = lefts C2 ++ lefts C1.
Proof.
  induction C1 as [|f C1 IH]; simpl; [by rewrite app_nil_r|].
  by rewrite IH, <- app_assoc.
Qed.

Lemma rights_app C1 C2 : rights (C1 ++ C2) = rights C1 ++ rights C2.
Proof.
  induction C1 as [|f C1 IH]; simpl; [done|]. by rewrite IH, <- app_assoc.
Qed.

Lemma minctx_spec t : ∀ C, t ≠ E →
  ∃ Cm o ko do bo ro,
    minctx C t = (Cm ++ C, T E o ko do bo ro)
    ∧ plug Cm (T E o ko do bo ro) = t
    ∧ lefts Cm = []
    ∧ (length Cm < size t)%nat.
Proof.
  induction t as [|l IHl a k d b r _]; intros C Hne; [done|].
  destruct l as [|ll la lk ld lb lr].
  - exists [], a, k, d, b, r. simpl. split_and!; try done. lia.
  - destruct (IHl (mk_frame L a k d b r :: C)) as (Cm & o & ko & do & bo & ro & H1 & H2 & H3 & H4);
      [done|].
    exists (Cm ++ [mk_frame L a k d b r]), o, ko, do, bo, ro.
    rewrite minctx_step, H1, <- app_assoc. split_and!; [done| | |].
    + rewrite plug_app, H2. done.
    + rewrite lefts_app, H3. done.
    + rewrite length_app. simpl in *. lia.
Qed.

Lemma maxctx_spec t : ∀ C, t ≠ E →
  ∃ Cm o ko do bo lo,
    maxctx C t = (Cm ++ C, T lo o ko do bo E)
    ∧ plug Cm (T lo o ko do bo E) = t
    ∧ rights Cm = []
    ∧ (length Cm < size t)%nat.
Proof.
  induction t as [|l _ a k d b r IHr]; intros C Hne; [done|].
  destruct r as [|rl ra rk rd rb rr].
  - exists [], a, k, d, b, l. simpl. split_and!; try done. lia.
  - destruct (IHr (mk_frame Rt a k d b l :: C)) as (Cm & o & ko & do & bo & lo & H1 & H2 & H3 & H4);
      [done|].
    exists (Cm ++ [mk_frame Rt a k d b l]), o, ko, do, bo, lo.
    rewrite maxctx_step, H1, <- app_assoc. split_and!; [done| | |].
    + rewrite plug_app, H2. done.
    + rewrite rights_app, H3. done.
    + rewrite length_app. simpl in *. lia.
Qed.

Lemma hb_walk_left_spec t : ∀ fuel C s,
  Zip s C t → t ≠ E → (size t ≤ fuel)%nat →
  walk_left fuel (root_of t) s = Ok (root_of (minctx C t).2, s).
Proof.
  induction t as [|l IHl a k d b r _]; intros fuel C s HZ Hne Hfuel; [done|].
  destruct fuel as [|fuel]; [simpl in Hfuel; lia|]. simpl in Hfuel.
  pose proof (Zip_root_lookup _ _ _ _ _ _ _ _ HZ) as Ha.
  cbn [walk_left root_of]. erewrite hb_bind_rd by exact Ha. cbn [llink].
  destruct l as [|ll la lk ld lb lr]; [done|].
  apply Zip_down_l in HZ. rewrite minctx_step. cbn [root_of is_null].
  apply (IHl fuel _ s HZ); [done|simpl in *; lia].
Qed.

Lemma hb_walk_right_spec t : ∀ fuel C s,
  Zip s C t → t ≠ E → (size t ≤ fuel)%nat →
  walk_right fuel (root_of t) s = Ok (root_of (maxctx C t).2, s).
Proof.
  induction t as [|l _ a k d b r IHr]; intros fuel C s HZ Hne Hfuel; [done|].
  destruct fuel as [|fuel]; [simpl in Hfuel; lia|]. simpl in Hfuel.
  pose proof (Zip_root_lookup _ _ _ _ _ _ _ _ HZ) as Ha.
  cbn [walk_right root_of]. erewrite hb_bind_rd by exact Ha. cbn [rlink].
  destruct r as [|rl ra rk rd rb rr]; [done|].
  apply Zip_down_r in HZ. rewrite maxctx_step. cbn [root_of is_null].
  apply (IHr fuel _ s HZ); [done|simpl in *; lia].
Qed.

(** *** Balance does not depend on keys and data *)

Fixpoint erase (t : atree) : atree :=
  match t with
  | E => E
  | T l a k d b r => T (erase l) a 0 0 b (erase r)
  end.

Definition erase_frame (f : frame) : frame :=
  mk_frame (fdir f) (fa f) 0 0 (fb f) (erase (fsib f)).

Lemma height_erase t : height (erase t) = height t.
Proof. induction t; simpl; lia. Qed.

Lemma balanced_erase t : balanced (erase t) ↔ balanced t.
Proof.
  induction t as [|l IHl a k d b r IHr]; simpl; [done|].
  rewrite !height_erase, IHl, IHr. done.
Qed.

Lemma erase_plug C : ∀ t, erase (plug C t) = plug (erase_frame <$> C) (erase t).
Proof.
  induction C as [|f C IH]; intros t; [done|].
  rewrite fmap_cons. cbn [plug]. rewrite IH. f_equal.
  by destruct f as [[] a k d b sib].
Qed.

Lemma balanced_same_shape t t' :
  erase t = erase t' → balanced t → balanced t'.
Proof. intros He Hb. apply balanced_erase. rewrite <- He. by apply balanced_erase. Qed.

(** *** The swap with the in-order successor *)

Lemma hb_remove_swap_spec s C l a k d b r fuel :
  Zip s C (T l a k d b r) → (size r ≤ fuel)%nat →
  ∃ s' C2 l' n b' r',
    remove_swap fuel (Some a) (cpar C) s = Ok ((Some n, cpar C2), s')
    ∧ Zip s' C2 (T l' n k d b' r') ∧ (l' = E ∨ r' = E) ∧ same_meta s s'
    ∧ erase (plug C2 (T l' n k d b' r')) = erase (plug C (T l a k d b r))
    ∧ lefts C2 ++ (entries l' ++ entries r') ++ rights C2
      = lefts C ++ (entries l ++ entries r) ++ rights C
    ∧ (length C2 ≤ length C + size r)%nat.
Proof.
  intros HZ Hfuel.
  pose proof (Zip_root_lookup _ _ _ _ _ _ _ _ HZ) as Ha.
  unfold remove_swap. erewrite !hb_bind_rd by exact Ha. hb_simpl.
  destruct l as [|ll la lk ld lb lr].
  { exists s, C, E, a, b, r. hb_simpl. split; [done|].
    split_and!; [done|by left|apply same_meta_refl|done|done|lia]. }
  destruct r as [|rl ra rk rd rb rr].
  { exists s, C, (T ll la lk ld lb lr), a, b, E. hb_simpl. split; [done|].
    split_and!; [done|by right|apply same_meta_refl|done|done|lia]. }
  hb_simpl. cbn [andb].
  set (l := T ll la lk ld lb lr) in *. set (r := T rl ra rk rd rb rr) in *.
  destruct (minctx_spec r (mk_frame Rt a k d b l :: C)) as
    (Cm & o & ko & do & bo & ro & Hmin & Hpl & Hlefts & Hlen); [done|].
  pose proof (proj1 (Zip_down_r _ _ _ _ _ _ _ _) HZ) as HZr.
  pose proof (hb_walk_left_spec r fuel _ s HZr) as Hwalk.
  rewrite Hmin in Hwalk. cbn [snd root_of] in Hwalk.
  change (root_of r) with (Some ra) in Hwalk.
  erewrite bind_ok by (apply Hwalk; [done|lia]).
  (* focus on the successor *)
  assert (HZo : Zip s (Cm ++ mk_frame Rt a k d b l :: C) (T E o ko do bo ro)).
  { apply Zip_plug_ctx. by rewrite Hpl. }
  pose proof (Zip_root_lookup _ _ _ _ _ _ _ _ HZo) as Ho.
  erewrite !hb_bind_rd by first [exact Ha | exact Ho]. hb_simpl.
  (* node->key = out->key *)
  rewrite <- Hpl in HZ.
  destruct (hb_wr_data_spec s C l a k d b _ (with_key ko) ko d b
              (λ _ _ _, eq_refl) HZ) as (s1 & Hrun1 & HZ1 & Hm1 & _).
  run Hrun1.
  (* out->key = tmp *)
  apply Zip_down_r, Zip_plug_ctx in HZ1.
  destruct (hb_wr_data_spec s1 _ E o ko do bo ro (with_key k) k do bo
              (λ _ _ _, eq_refl) HZ1) as (s2 & Hrun2 & HZ2 & Hm2 & _).
  run Hrun2.
  pose proof (Zip_root_lookup _ _ _ _ _ _ _ _ HZ2) as Ho2.
  pose proof HZ2 as HZ2a. apply Zip_plug_ctx, Zip_down_r in HZ2a.
  pose proof (Zip_root_lookup _ _ _ _ _ _ _ _ HZ2a) as Ha2.
  erewrite !hb_bind_rd by first [exact Ha2 | exact Ho2]. hb_simpl.
  (* node->datum = out->datum *)
  destruct (hb_wr_data_spec s2 C l a ko d b _ (with_datum do) ko do b
              (λ _ _ _, eq_refl) HZ2a) as (s3 & Hrun3 & HZ3 & Hm3 & _).
  run Hrun3.
  apply Zip_down_r, Zip_plug_ctx in HZ3.
  destruct (hb_wr_data_spec s3 _ E o k do bo ro (with_datum d) k d bo
              (λ _ _ _, eq_refl) HZ3) as (s4 & Hrun4 & HZ4 & Hm4 & _).
  run Hrun4.
  pose proof (Zip_root_lookup _ _ _ _ _ _ _ _ HZ4) as Ho4.
  erewrite !hb_bind_rd by exact Ho4. hb_simpl.
  exists s4, (Cm ++ mk_frame Rt a ko do b l :: C), E, o, bo, ro.
  split; [done|]. split; [exact HZ4|]. split; [by left|].
  split; [eauto using same_meta_trans|].
  split_and!.
  - transitivity (erase (plug (Cm ++ mk_frame Rt a k d b l :: C) (T E o ko do bo ro))).
    + rewrite !erase_plug, !fmap_app, !fmap_cons. reflexivity.
    + f_equal. rewrite plug_app. cbn [plug plug1 fdir fa fk fd fb fsib].
      by rewrite Hpl.
  - rewrite lefts_app, rights_app, Hlefts. cbn [lefts rights fdir fsib fk fd entries].
    rewrite <- Hpl, entries_plug, Hlefts. cbn [entries].
    rewrite !app_nil_r, <- !app_assoc. cbn. by rewrite <- !app_assoc.
  - rewrite length_app. cbn [length]. lia.
Qed.

(** *** Remove *)

Lemma hb_remove_spec s t k fuel :
  strict_total (cmp_func (tree s)) → Inv s t → (size t ≤ fuel)%nat →
  ((k ∉ keys t) ∧ hb_tree_remove fuel k s = Ok (false, s))
  ∨ (∃ l d r s' t',
       entries t = l ++ (k, d) :: r
       ∧ hb_tree_remove fuel k s = Ok (true, s')
       ∧ Inv s' t' ∧ entries t' = l ++ r
       ∧ dlog s' = log_del s k d
       ∧ cmp_func (tree s') = cmp_func (tree s)
       ∧ del_func (tree s') = del_func (tree s)).
Proof.
  intros Hcmp (HR & Hbal & Hb & Hcnt) Hfuel.
  unfold hb_tree_remove. rewrite hb_bind_get.
  pose proof HR as (Hroot & _). simpl in Hroot. rewrite Hroot.
  pose proof (hb_remove_find_spec k t fuel [] s HR Hfuel) as Hf.
  simpl in Hf. run Hf. clear Hf.
  destruct (descend (cmp_func (tree s)) k [] t) as [C t'] eqn:Hd.
  cbn [fst snd].
  destruct t' as [|l a kk d b r].
  - left. apply (descend_absent _ Hcmp) in Hd as (_ & _ & Hk & _); [|done].
    done.
  - right. apply (descend_found _ Hcmp) in Hd as (-> & Hpl & Hp & He); [|done].
    hb_simpl. subst t. apply (proj1 (Zip_plug _ _ _)) in HR.
    rewrite size_plug in Hfuel. simpl in Hfuel.
    destruct (hb_remove_swap_spec s C l a k d b r fuel HR) as
      (s1 & C2 & l' & n & b' & r' & Hrun1 & HZ1 & Hlr & Hm1 & Her & Hent & Hlen);
      [lia|].
    run Hrun1.
    destruct (hb_remove_splice_spec s1 C2 l' n k d b' r' fuel HZ1 Hlr) as
      (s2 & t2 & Hrun2 & HR2 & Hb2 & He2 & Hc2 & Hcmp2 & Hdel2 & Hlog2).
    { by apply (balanced_same_shape _ _ (eq_sym Her)). }
    { pose proof (csize_length C). lia. }
    exists (lefts C ++ entries l), d, (entries r ++ rights C), s2, t2.
    destruct Hm1 as (Hc1 & Hcmp1 & Hdel1 & Hlog1).
    assert (He2' : entries t2 = (lefts C ++ entries l) ++ entries r ++ rights C).
    { rewrite He2, Hent. by rewrite <- !app_assoc. }
    split_and!; try congruence.
    + unfold Inv. split_and!; [done|done| |].
      * rewrite Hcmp2, Hcmp1. unfold bst, keys in *. rewrite He2'.
        rewrite He, fmap_app, fmap_cons in Hb. rewrite fmap_app.
        by apply sorted_remove_mid in Hb.
      * rewrite Hc2, Hc1, Hcnt, wrap_size_pred, He2', He. f_equal.
        rewrite !length_app. cbn [length]. rewrite !length_app. lia.
    + rewrite Hlog2. unfold log_del. by rewrite Hdel1, Hlog1.
Qed.
(** *** Probe *)

Lemma hb_probe_full s t k v m fuel :
  strict_total (cmp_func (tree s)) → Inv s t → malloc_ok s m →
  (size t ≤ fuel)%nat →
  ((k ∉ keys t) ∧
     match m with
     | None => hb_tree_probe fuel k v m s = Ok ((-1, v), s)
     | Some _ =>
         ∃ s' t' l r,
           hb_tree_probe fuel k v m s = Ok ((1, v), s') ∧ Inv s' t'
           ∧ entries t = l ++ r ∧ entries t' = l ++ (k, v) :: r
           ∧ dlog s' = dlog s
           ∧ cmp_func (tree s') = cmp_func (tree s)
           ∧ del_func (tree s') = del_func (tree s)
           ∧ dom (mem s') = dom (mem s) ∪ match m with Some a => {[a]} | None => ∅ end
     end)
  ∨ (∃ l d r, entries t = l ++ (k, d) :: r
       ∧ hb_tree_probe fuel k v m s = Ok ((0, d), s)).
Proof.
  intros Hcmp HI Hm Hfuel. pose proof HI as (HR & Hbal & Hb & Hcnt).
  unfold hb_tree_probe. rewrite hb_bind_get.
  pose proof HR as (Hroot & _). simpl in Hroot. rewrite Hroot.
  pose proof (hb_insert_descend_spec k t fuel [] s HR Hfuel) as Hd.
  simpl in Hd. run Hd. clear Hd.
  destruct (descend (cmp_func (tree s)) k [] t) as [C t'] eqn:Hd.
  unfold dres. simpl.
  destruct t' as [|l a kk d b r].
  - left. apply (descend_absent _ Hcmp) in Hd as (He & Hp & Hk & Hpl); [|done].
    split; [done|]. destruct m as [a|].
    + subst t.
      destruct (hb_insert_new_full s C a k v 1 fuel Hcmp) as (s' & t' & H);
        try done.
      { apply Zip_plug. exact HR. }
      { pose proof (csize_length C). rewrite size_plug in Hfuel. simpl in Hfuel. lia. }
      exists s', t', (lefts C), (rights C). destruct H as (Hrun&?&?&?&?&?&Hdm).
      split; [by run Hrun|]. split_and!; try done. rewrite Hdm. set_solver.
    + reflexivity.
  - right. apply (descend_found _ Hcmp) in Hd as (-> & Hpl & Hp & He); [|done].
    exists (lefts C ++ entries l), d, (entries r ++ rights C). split; [done|].
    subst t. apply (proj1 (Zip_plug _ _ _)) in HR.
    pose proof (Zip_root_lookup _ _ _ _ _ _ _ _ HR) as Ha.
    by repeat hb_step.
Qed.

Lemma hb_probe_spec s t k v m fuel :
  strict_total (cmp_func (tree s)) → Inv s t → malloc_ok s m →
  (size t ≤ fuel)%nat →
  ((k ∉ keys t) ∧
     match m with
     | None => hb_tree_probe fuel k v m s = Ok ((-1, v), s)
     | Some _ =>
         ∃ s' t' l r,
           hb_tree_probe fuel k v m s = Ok ((1, v), s') ∧ Inv s' t'
           ∧ entries t = l ++ r ∧ entries t' = l ++ (k, v) :: r
           ∧ dlog s' = dlog s
           ∧ cmp_func (tree s') = cmp_func (tree s)
           ∧ del_func (tree s') = del_func (tree s)
     end)
  ∨ (∃ l d r, entries t = l ++ (k, d) :: r
       ∧ hb_tree_probe fuel k v m s = Ok ((0, d), s)).
Proof.
  intros Hcmp HI Hm Hf.
  destruct (hb_probe_full s t k v m fuel Hcmp HI Hm Hf) as [[Hk H]|H]; [|by right].
  left. split; [done|]. destruct m as [a|]; [|done].
  destruct H as (s' & t' & l & r & ? & ? & ? & ? & ? & ? & ? & _).
  by exists s', t', l, r.
Qed.

(** *** Clear *)

Lemma hb_clear_loop_null fuel : clear_loop fuel NULL = ret tt.
Proof. by destruct fuel. Qed.

(** The order in which [hb_tree_clear] reaches the nodes: a node after
    both its subtrees; from a focus, the rest of the path follows. *)
Fixpoint postorder (t : atree) : list (Z * Z) :=
  match t with
  | E => []
  | T l _ k d _ r => postorder l ++ postorder r ++ [(k, d)]
  end.

Fixpoint cpost (C : list frame) : list (Z * Z) :=
  match C with
  | [] => []
  | f :: C' => postorder (fsib f) ++ (fk f, fd f) :: cpost C'
  end.

(** The cleanup calls of a clear, when the callback is set. *)
Definition log_many (s : state) (es : list (Z * Z)) : list (Z * Z) :=
  if del_func (tree s) then dlog s ++ es else dlog s.

Lemma postorder_perm t : postorder t ≡ₚ entries t.
Proof.
  induction t as [|l IHl a k d b r IHr]; simpl; [done|].
  rewrite IHl, IHr. solve_Permutation.
Qed.

Lemma hb_clear_loop_spec : ∀ fuel C t s,
  Zip s C t → t ≠ E →
  (2 * (size t + csize C) - length C ≤ fuel)%nat →
  ∃ s', clear_loop fuel (root_of t) s = Ok (tt, s')
    ∧ count (tree s') = wrap_size (count (tree s) - Z.of_nat (size t + csize C))
    ∧ cmp_func (tree s') = cmp_func (tree s)
    ∧ del_func (tree s') = del_func (tree s)
    ∧ dlog s' = log_many s (postorder t ++ cpost C)
    ∧ (∀ x, x ∈ addrs t ++ caddrs C → mem s' !! x = None)
    ∧ (∀ x, x ∉ addrs t ++ caddrs C → mem s' !! x = mem s !! x).
Proof.
  induction fuel as [|fuel IH]; intros C t s HZ Hne Hfuel.
  { destruct t; [done|]. pose proof (csize_length C). simpl in Hfuel. lia. }
  destruct t as [|l a k d b r]; [done|]. clear Hne.
  pose proof (Zip_root_lookup _ _ _ _ _ _ _ _ HZ) as Ha.
  cbn [clear_loop root_of]. erewrite hb_bind_rd by exact Ha. hb_simpl.
  destruct l as [|ll la lk ld lb lr].
  2:{ hb_simpl. apply Zip_down_l in HZ.
      destruct (IH _ _ s HZ) as (s' & Hrun & Hc & Hcmp' & Hdel' & Hlog & Hin & Hout);
        [done|simpl in *; lia|].
      exists s'. split; [exact Hrun|]. rewrite Hc. split_and!; try done.
      - do 2 f_equal. simpl. lia.
      - rewrite Hlog. f_equal. cbn [postorder cpost fsib fk fd].
        by rewrite <- !app_assoc.
      - intros x Hx. apply Hin. cbn [caddrs addrs fa fsib] in *.
        revert Hx. rewrite !elem_of_app, !elem_of_cons, !elem_of_app. tauto.
      - intros x Hx. apply Hout. cbn [caddrs addrs fa fsib] in *.
        revert Hx. rewrite !elem_of_app, !elem_of_cons, !elem_of_app. tauto. }
  hb_simpl. erewrite hb_bind_rd by exact Ha. hb_simpl.
  destruct r as [|rl ra rk rd rb rr].
  2:{ hb_simpl. apply Zip_down_r in HZ.
      destruct (IH _ _ s HZ) as (s' & Hrun & Hc & Hcmp' & Hdel' & Hlog & Hin & Hout);
        [done|simpl in *; lia|].
      exists s'. split; [exact Hrun|]. rewrite Hc. split_and!; try done.
      - do 2 f_equal. simpl. lia.
      - rewrite Hlog. f_equal. cbn [postorder cpost fsib fk fd app].
        by rewrite <- !app_assoc.
      - intros x Hx. apply Hin. cbn [caddrs addrs fa fsib app] in *.
        revert Hx. rewrite !elem_of_app, !elem_of_cons, !elem_of_app, !elem_of_cons.
        set_solver.
      - intros x Hx. apply Hout. cbn [caddrs addrs fa fsib app] in *.
        revert Hx. rewrite !elem_of_app, !elem_of_cons, !elem_of_app, !elem_of_cons.
        set_solver. }
  hb_simpl. rewrite (hb_call_del_spec _ _ _ _ Ha). hb_simpl.
  set (s1 := mk_state (tree s) (mem s) (log_del s k d)).
  assert (HZ1 : Zip s1 C (T E a k d b E)) by exact HZ.
  assert (Ha1 : mem s1 !! a = Some (mk_node k d NULL NULL (cpar C) b)) by exact Ha.
  assert (Hmeta : count (tree s1) = count (tree s)
                  ∧ cmp_func (tree s1) = cmp_func (tree s)
                  ∧ del_func (tree s1) = del_func (tree s)
                  ∧ dlog s1 = log_del s k d
                  ∧ mem s1 = mem s) by done.
  clearbody s1. clear HZ Ha.
  destruct Hmeta as (Hc1 & Hcmp1 & Hdel1 & Hlog1 & Hmem1).
  destruct HZ1 as (Hroot & _ & HC & Hnd). simpl in Hnd.
  destruct C as [|[dr p kp dp bp sib] C'].
  - eexists. split; [repeat hb_step; rewrite hb_clear_loop_null; reflexivity|]. simpl.
    rewrite Hc1. split_and!; try done.
    + intros x Hx. assert (x = a) as -> by set_solver. apply lookup_delete_eq.
    + intros x Hx. rewrite lookup_delete_ne by set_solver. by rewrite Hmem1.
  - simpl in HC. destruct HC as (Hp & Hsib & HC').
    nd_out Hnd a. nd_out Hnd p.
    assert (Hnd' : NoDup (p :: addrs sib ++ caddrs C')) by (by apply NoDup_cons_1_2 in Hnd).
    set (s2 := mk_state (with_count (wrap_size (count (tree s1) - 1)) (tree s1))
                 (<[p := mk_node kp dp
                           (match dr with L => NULL | Rt => root_of sib end)
                           (match dr with L => root_of sib | Rt => NULL end)
                           (cpar C') bp]> (delete a (mem s1))) (dlog s1)).
    assert (HZ2 : Zip s2 C' (plug1 (mk_frame dr p kp dp bp sib) E)).
    { apply Zip_plug1. subst s2.
      destruct dr; simpl in *; unfold frame_node in *; simpl in *; zip_solve Hnd'. }
    destruct (IH C' _ s2 HZ2) as (s' & Hrun & Hc & Hcmp' & Hdel' & Hlog & Hin' & Hout').
    { by destruct dr. }
    { simpl in Hfuel. destruct dr; unfold plug1; simpl; lia. }
    assert (Hpa : addrs (plug1 (mk_frame dr p kp dp bp sib) E) ++ caddrs C'
                  ≡ₚ p :: addrs sib ++ caddrs C').
    { destruct dr; unfold plug1; simpl; solve_Permutation. }
    exists s'. split.
    + rewrite root_of_plug1 in Hrun. cbn [fa] in Hrun. rewrite <- Hrun.
      destruct dr; simpl in *; unfold frame_node in *; simpl in *.
      * repeat hb_step. reflexivity.
      * sib_ne Hout sib a. repeat hb_step. reflexivity.
    + assert (cmp_func (tree s2) = cmp_func (tree s1)) by done.
      assert (Hd2 : del_func (tree s2) = del_func (tree s1)) by done.
      assert (Hc2 : count (tree s2) = wrap_size (count (tree s1) - 1)) by done.
      assert (Hl2 : dlog s2 = dlog s1) by done.
      rewrite Hc, Hc2, Hc1. split_and!; try congruence.
      * rewrite wrap_size_pred_sub. f_equal.
        destruct dr; unfold plug1; simpl; lia.
      * rewrite Hlog. unfold log_many. rewrite Hd2, Hdel1, Hl2, Hlog1.
        unfold log_del. cbn [postorder cpost fsib fk fd app].
        destruct (del_func (tree s)); [|done].
        rewrite <- !app_assoc. do 2 f_equal.
        destruct dr; unfold plug1; simpl; by rewrite <- ?app_assoc, ?app_nil_r.
      * intros x Hx. cbn [addrs caddrs fa fsib app] in Hx.
        destruct (decide (x = a)) as [->|Hxa].
        -- rewrite Hout'.
           ++ subst s2. cbn [mem]. rewrite lookup_insert_ne by ne_tac.
              apply lookup_delete_eq.
           ++ rewrite Hpa. exact Hout.
        -- apply Hin'. rewrite Hpa. set_solver.
      * intros x Hx. cbn [addrs caddrs fa fsib app] in Hx.
        rewrite Hout' by (rewrite Hpa; set_solver).
        subst s2. cbn [mem].
        rewrite lookup_insert_ne by set_solver.
        rewrite lookup_delete_ne by set_solver. by rewrite Hmem1.
Qed.

Lemma Inv_empty s :
  root (tree s) = NULL → count (tree s) = 0 → Inv s E.
Proof.
  intros Hr Hc. unfold Inv, Repr, Zip, bst, keys, sorted. simpl.
  split_and!; try done; constructor.
Qed.

Lemma hb_clear_spec s t fuel :
  Inv s t → (2 * size t ≤ fuel)%nat →
  ∃ s', hb_tree_clear fuel s = Ok (count (tree s), s')
    ∧ Inv s' E
    ∧ cmp_func (tree s') = cmp_func (tree s)
    ∧ del_func (tree s') = del_func (tree s)
    ∧ dlog s' = log_many s (postorder t)
    ∧ (∀ x, x ∈ addrs t → mem s' !! x = None)
    ∧ (∀ x, x ∉ addrs t → mem s' !! x = mem s !! x).
Proof.
  intros (HR & _ & _ & Hcnt) Hfuel.
  unfold hb_tree_clear. rewrite !hb_bind_get.
  pose proof HR as (Hroot & _). simpl in Hroot. rewrite Hroot.
  destruct t as [|l a k d b r].
  - simpl in *. rewrite hb_clear_loop_null. repeat hb_step. rewrite Hcnt.
    change (wrap_size 0 =? 0) with true. repeat hb_step.
    eexists. split; [reflexivity|]. split_and!; try done.
    + by apply Inv_empty.
    + unfold log_many. cbn. rewrite app_nil_r. by destruct (del_func (tree s)).
    + intros x Hx. by apply elem_of_nil in Hx.
  - destruct (hb_clear_loop_spec fuel [] _ s HR)
      as (s1 & Hrun & Hc & Hcmp & Hdel & Hlog & Hin & Hout);
      [done|simpl in *; lia|].
    run Hrun. repeat hb_step.
    assert (Hz : count (tree s1) = 0).
    { rewrite Hc, Hcnt, length_entries. simpl csize. rewrite Nat.add_0_r.
      unfold wrap_size. rewrite Zminus_mod_idemp_l, Z.sub_diag. done. }
    rewrite Hz. hb_simpl. repeat hb_step.
    cbn [cpost caddrs] in *. rewrite app_nil_r in *.
    eexists. split; [reflexivity|]. split_and!; try done.
    by apply Inv_empty.
Qed.
(** *** In-order successor and traversal *)

(** A position of the cursor: the node in focus and the path above it; the
    entries from the cursor onwards. *)
Definition rest_of (C : list frame) (t : atree) : list (Z * Z) :=
  entries t ++ rights C.

Lemma hb_climb_right_spec C : ∀ s t n fuel,
  Zip s C t → root_of t = Some n → (length C ≤ fuel)%nat →
  (rights C = [] ∧ climb_right fuel (Some n) (cpar C) s = Ok (NULL, s))
  ∨ (∃ C' l' a' k' d' b' r',
       climb_right fuel (Some n) (cpar C) s = Ok (Some a', s)
       ∧ Zip s C' (T l' a' k' d' b' r')
       ∧ (k', d') :: rest_of C' r' = rights C
       ∧ (length C' ≤ length C)%nat
       ∧ plug C' (T l' a' k' d' b' r') = plug C t).
Proof.
  induction C as [|f C IH]; intros s t n fuel HZ Hn Hfuel.
  - left. split; [done|]. by destruct fuel.
  - destruct fuel as [|fuel]; [simpl in Hfuel; lia|]. simpl in Hfuel.
    destruct (Zip_frame_lookup _ _ _ _ n HZ Hn) as [Hf Hne].
    cbn [climb_right cpar]. erewrite hb_bind_rd by exact Hf.
    destruct f as [[] p kp dp bp sib]; unfold frame_node; hb_simpl.
    + (* we came from the left: the parent is next *)
      assert (Hsn : root_of sib ≠ Some n).
      { destruct HZ as (_ & _ & _ & Hnd). apply root_of_ne.
        apply root_of_addrs in Hn. simpl in Hnd.
        apply NoDup_app in Hnd as (_ & Hnd & _).
        intros Hin. apply (Hnd n Hn). set_solver. }
      rewrite (ptr_eqb_ne _ _ Hsn).
      right. exists C, t, p, kp, dp, bp, sib.
      split; [done|]. apply Zip_plug1 in HZ. split; [exact HZ|].
      split; [by unfold rest_of|]. split; [simpl; lia|done].
    + rewrite ptr_eqb_refl. unfold frame_node in Hf. cbn in Hf.
      erewrite hb_bind_rd by exact Hf. hb_simpl.
      apply Zip_plug1 in HZ.
      destruct (IH s _ p fuel HZ (root_of_plug1 _ _)) as
        [[Hr Hrun]|(C' & l' & a' & k' & d' & b' & r' & Hrun & HZ' & Hrest & Hlen & Hpl)];
        [lia| |].
      * left. split; [by simpl|exact Hrun].
      * right. exists C', l', a', k', d', b', r'.
        split; [exact Hrun|]. split; [done|]. split; [by simpl|].
        split; [simpl; lia|done].
Qed.

Lemma hb_node_next_spec s C l a k d b r fuel :
  Zip s C (T l a k d b r) → (size (plug C (T l a k d b r)) ≤ fuel)%nat →
  (rest_of C r = [] ∧ node_next fuel (Some a) s = Ok (NULL, s))
  ∨ (∃ C' l' a' k' d' b' r',
       node_next fuel (Some a) s = Ok (Some a', s)
       ∧ Zip s C' (T l' a' k' d' b' r')
       ∧ (k', d') :: rest_of C' r' = rest_of C r
       ∧ plug C' (T l' a' k' d' b' r') = plug C (T l a k d b r)).
Proof.
  intros HZ Hfuel. rewrite size_plug in Hfuel. pose proof (csize_length C).
  pose proof (Zip_root_lookup _ _ _ _ _ _ _ _ HZ) as Ha.
  unfold node_next. hb_simpl. rewrite assert_true.
  erewrite hb_bind_rd by exact Ha. hb_simpl.
  destruct r as [|rl ra rk rd rb rr].
  - hb_simpl. erewrite hb_bind_rd by exact Ha. hb_simpl.
    destruct (hb_climb_right_spec C s _ a fuel HZ eq_refl) as
      [[Hr Hrun]|(C' & l' & a' & k' & d' & b' & r' & Hrun & HZ' & Hrest & Hlen & Hpl)];
      [simpl in Hfuel; lia| |].
    + left. by split.
    + right. exists C', l', a', k', d', b', r'. by split_and!.
  - hb_simpl.
    destruct (minctx_spec (T rl ra rk rd rb rr) (mk_frame Rt a k d b l :: C)) as
      (Cm & o & ko & do & bo & ro & Hmin & Hpl & Hlefts & Hlen); [done|].
    pose proof (proj1 (Zip_down_r _ _ _ _ _ _ _ _) HZ) as HZr.
    pose proof (hb_walk_left_spec _ fuel _ s HZr) as Hwalk.
    rewrite Hmin in Hwalk. cbn [snd root_of] in Hwalk.
    right. exists (Cm ++ mk_frame Rt a k d b l :: C), E, o, ko, do, bo, ro.
    split; [apply Hwalk; [done|simpl in *; lia]|].
    split; [apply Zip_plug_ctx; by rewrite Hpl|].
    split.
    { unfold rest_of. rewrite rights_app. cbn [rights fdir app].
      rewrite <- Hpl, entries_plug, Hlefts. cbn [entries app].
      by rewrite <- !app_assoc. }
    rewrite plug_app. cbn [plug plug1 fdir fa fk fd fb fsib]. by rewrite Hpl.
Qed.

Lemma hb_traverse_loop_spec {V : Type} (visit : V → Z → Z → bool * V) :
  ∀ es fuel0 fuel s C l a k d b r cnt v,
  Zip s C (T l a k d b r) → (k, d) :: rest_of C r = es →
  (size (plug C (T l a k d b r)) ≤ fuel0)%nat → (length es ≤ fuel)%nat →
  traverse_loop fuel0 fuel visit (Some a) cnt v s
  = Ok ((wrap_size (cnt + Z.of_nat (visit_run visit v es).1),
         (visit_run visit v es).2), s).
Proof.
  induction es as [|[k0 d0] es IH];
    intros fuel0 fuel s C l a k d b r cnt v HZ Hes Hf0 Hf; [done|].
  injection Hes as -> -> Hes.
  destruct fuel as [|fuel]; [simpl in Hf; lia|]. simpl in Hf.
  pose proof (Zip_root_lookup _ _ _ _ _ _ _ _ HZ) as Ha.
  cbn [traverse_loop visit_run]. erewrite !hb_bind_rd by exact Ha. hb_simpl.
  destruct (visit v k0 d0) as [go v'].
  destruct go; hb_simpl.
  2:{ unfold ret. do 3 f_equal. }
  destruct (hb_node_next_spec s C l a k0 d0 b r fuel0 HZ Hf0) as
    [[Hr Hrun]|(C' & l' & a' & k' & d' & b' & r' & Hrun & HZ' & Hrest & Hpl)].
  - run Hrun. rewrite Hr in Hes. subst es. simpl.
    destruct fuel; simpl; unfold ret; do 3 f_equal; lia.
  - run Hrun.
    rewrite (IH fuel0 fuel s C' l' a' k' d' b' r' _ v' HZ'); [|congruence|by rewrite Hpl|lia].
    destruct (visit_run visit v' es) as [n v'']. simpl.
    do 3 f_equal. unfold wrap_size. rewrite Zplus_mod_idemp_l. f_equal. lia.
Qed.

Lemma hb_traverse_spec {V : Type} (visit : V → Z → Z → bool * V) s t v fuel :
  Inv s t → (size t < fuel)%nat →
  hb_tree_traverse fuel visit v s
  = Ok ((wrap_size (Z.of_nat (visit_run visit v (entries t)).1),
         (visit_run visit v (entries t)).2), s).
Proof.
  intros (HR & _) Hfuel.
  unfold hb_tree_traverse. rewrite hb_bind_get.
  pose proof HR as (Hroot & _). simpl in Hroot. rewrite Hroot.
  destruct t as [|l a k d b r]; [done|].
  cbn [root_of is_null]. unfold node_min. cbn [is_null negb].
  rewrite bind_assoc, assert_true.
  destruct (minctx_spec (T l a k d b r) []) as
    (Cm & o & ko & do & bo & ro & Hmin & Hpl & Hlefts & Hlen); [done|].
  pose proof (hb_walk_left_spec _ fuel _ s HR) as Hwalk.
  rewrite Hmin in Hwalk. cbn [snd root_of] in Hwalk.
  erewrite bind_ok by (apply Hwalk; [done|lia]).
  rewrite app_nil_r in Hmin.
  assert (HZ : Zip s Cm (T E o ko do bo ro)).
  { rewrite <- (app_nil_r Cm). apply Zip_plug_ctx. by rewrite Hpl. }
  erewrite (hb_traverse_loop_spec visit (entries (T l a k d b r)) fuel fuel s Cm E o ko do bo ro 0 v HZ).
  - done.
  - unfold rest_of. rewrite <- Hpl, entries_plug, Hlefts. done.
  - rewrite Hpl. lia.
  - rewrite length_entries. lia.
Qed.
(** *** Sequences of operations

    The loops of [hb_tree.c] carry no bound of their own; the model runs
    them on fuel.  [fuel_of] is a bound read off the heap: no loop of an
    operation on a well-formed tree runs longer. *)

Definition fuel_of (s : state) : nat := S (2 * base.size (mem s)).

Inductive op : Type :=
| OpInsert (k v : Z) (overwrite : bool) (m : ptr)
| OpProbe (k v : Z) (m : ptr)
| OpRemove (k : Z)
| OpClear.

Definition state_of {A : Type} (r : res (A * state)) : res state :=
  match r with
  | Ok (_, s) => Ok s
  | AssertFail => AssertFail
  | Fault => Fault
  | NoFuel => NoFuel
  end.

Definition step (o : op) (s : state) : res state :=
  match o with
  | OpInsert k v ow m => state_of (hb_tree_insert (fuel_of s) k v ow m s)
  | OpProbe k v m => state_of (hb_tree_probe (fuel_of s) k v m s)
  | OpRemove k => state_of (hb_tree_remove (fuel_of s) k s)
  | OpClear => state_of (hb_tree_clear (fuel_of s) s)
  end.

Fixpoint run (os : list op) (s : state) : res state :=
  match os with
  | [] => Ok s
  | o :: os =>
      match step o s with
      | Ok s' => run os s'
      | e => e
      end
  end.

(** The allocator's answer to an operation is NULL or a block not in use. *)
Definition alloc_ok (o : op) (s : state) : Prop :=
  match o with
  | OpInsert _ _ _ m | OpProbe _ _ m => malloc_ok s m
  | _ => True
  end.

Fixpoint allocs_ok (os : list op) (s : state) : Prop :=
  match os with
  | [] => True
  | o :: os =>
      alloc_ok o s
      ∧ match step o s with
        | Ok s' => allocs_ok os s'
        | _ => True
        end
  end.

Lemma size_addrs t : size t = length (addrs t).
Proof.
  induction t as [|l IHl a k d b r IHr]; simpl; [done|].
  rewrite length_app. simpl. lia.
Qed.

Lemma R_lookup h par t a : R h par t → a ∈ addrs t → is_Some (h !! a).
Proof.
  revert par. induction t as [|l IHl a' k d b r IHr]; intros par; simpl.
  - by intros _ ?%elem_of_nil.
  - intros (Ha & Hl & Hr). rewrite elem_of_app, elem_of_cons.
    intros [?|[->|?]]; [by eapply IHl|by eexists|by eapply IHr].
Qed.

Lemma hb_size_heap s t : Repr s t → (size t ≤ base.size (mem s))%nat.
Proof.
  intros (_ & HR & _ & Hnd). rewrite app_nil_r in Hnd.
  rewrite size_addrs, <- (size_list_to_set (C := gset positive)) by done.
  rewrite <- (size_dom (D := gset positive)). apply subseteq_size.
  intros a Ha. apply elem_of_list_to_set in Ha. apply elem_of_dom.
  by eapply R_lookup.
Qed.

Lemma hb_step_inv o s t :
  strict_total (cmp_func (tree s)) → Inv s t → alloc_ok o s →
  ∃ s' t', step o s = Ok s' ∧ Inv s' t'
           ∧ cmp_func (tree s') = cmp_func (tree s).
Proof.
  intros Hcmp HI Ha.
  assert (Hsz : (size t ≤ base.size (mem s))%nat) by (apply hb_size_heap, HI).
  destruct o as [k v ow m|k v m|k|]; cbn [step alloc_ok] in *.
  - destruct (hb_insert_spec s t k v ow m (fuel_of s) Hcmp HI Ha)
      as [[_ H]|(l & d & r & _ & H)]; [unfold fuel_of; lia| |].
    + destruct m.
      * destruct H as (s' & t' & _ & _ & -> & ? & _ & _ & _ & ? & _). by exists s', t'.
      * rewrite H. by exists s, t.
    + destruct ow.
      * destruct H as (s' & t' & -> & ? & _ & _ & ? & _). by exists s', t'.
      * rewrite H. by exists s, t.
  - destruct (hb_probe_spec s t k v m (fuel_of s) Hcmp HI Ha)
      as [[_ H]|(l & d & r & _ & H)]; [unfold fuel_of; lia| |].
    + destruct m.
      * destruct H as (s' & t' & _ & _ & -> & ? & _ & _ & _ & ? & _). by exists s', t'.
      * rewrite H. by exists s, t.
    + rewrite H. by exists s, t.
  - destruct (hb_remove_spec s t k (fuel_of s) Hcmp HI)
      as [[_ H]|(l & d & r & s' & t' & _ & H & ? & _ & _ & ? & _)];
      [unfold fuel_of; lia| |]; rewrite H; [by exists s, t|by exists s', t'].
  - destruct (hb_clear_spec s t (fuel_of s) HI) as (s' & H & ? & ? & _);
      [unfold fuel_of; lia|]. rewrite H. by exists s', E.
Qed.

Lemma hb_run_inv os : ∀ s t,
  strict_total (cmp_func (tree s)) → Inv s t → allocs_ok os s →
  ∃ s' t', run os s = Ok s' ∧ Inv s' t'
           ∧ cmp_func (tree s') = cmp_func (tree s).
Proof.
  induction os as [|o os IH]; intros s t Hcmp HI Ha.
  - by exists s, t.
  - destruct Ha as [Ha Hrest].
    destruct (hb_step_inv o s t Hcmp HI Ha) as (s1 & t1 & Hstep & HI1 & Hc1).
    cbn [run]. rewrite Hstep in *.
    destruct (IH s1 t1) as (s' & t' & Hrun & HI' & Hc'); [by rewrite Hc1|done|done|].
    exists s', t'. split_and!; [done|done|congruence].
Qed.

(** *** The balance arithmetic of the rotations *)

Lemma hb_rotl_exact (A Cc Ee : atree) ba bd :
  ba = (1 + Z.max (height Cc) (height Ee)) - height A →
  bd = height Ee - height Cc →
  -60 ≤ ba ≤ 60 → -60 ≤ bd ≤ 60 →
  rotl_b1 ba bd = height Cc - height A
  ∧ rotl_b2 ba bd = height Ee - (1 + Z.max (height A) (height Cc)).
Proof.
  intros Ha Hd Hra Hrd. unfold rotl_b2, rotl_b1. rewrite MAX_max.
  rewrite (wrap_schar_small (ba - _)) by lia. rewrite MIN_min.
  rewrite wrap_schar_small by lia. lia.
Qed.

Lemma hb_rotr_exact (A Cc Ee : atree) bd bb :
  bd = height Ee - (1 + Z.max (height A) (height Cc)) →
  bb = height Cc - height A →
  -60 ≤ bd ≤ 60 → -60 ≤ bb ≤ 60 →
  rotr_b1 bd bb = height Ee - height Cc
  ∧ rotr_b2 bd bb = (1 + Z.max (height Cc) (height Ee)) - height A.
Proof.
  intros Hd Hb Hrd Hrb. unfold rotr_b2, rotr_b1. rewrite MIN_min.
  rewrite (wrap_schar_small (bd + _)) by lia. rewrite MAX_max.
  rewrite wrap_schar_small by lia. lia.
Qed.
(** *** Round trips through the operations *)

Lemma hb_insert_then_search s t k v ow m fuel s' :
  strict_total (cmp_func (tree s)) → Inv s t → malloc_ok s m →
  (size t < fuel)%nat →
  hb_tree_insert fuel k v ow m s = Ok (0, s') →
  hb_tree_search fuel k s' = Ok (v, s').
Proof.
  intros Hcmp HI Hm Hf Hins.
  destruct (hb_insert_spec s t k v ow m fuel Hcmp HI Hm) as [[_ H]|(l & d & r & He & H)];
    [lia| |].
  - destruct m; [|congruence].
    destruct H as (s1 & t1 & l & r & H & HI1 & He & He1 & _ & Hc & _).
    rewrite H in Hins. injection Hins as <-.
    apply (hb_search_present s1 t1); [by rewrite Hc|done| |].
    + rewrite He1. set_solver.
    + rewrite <- length_entries, He1, length_app. cbn [length].
      rewrite <- length_entries, He, length_app in Hf. lia.
  - destruct ow; [|congruence].
    destruct H as (s1 & t1 & H & HI1 & He1 & _ & Hc & _).
    rewrite H in Hins. injection Hins as <-.
    apply (hb_search_present s1 t1); [by rewrite Hc|done| |].
    + rewrite He1. set_solver.
    + rewrite <- length_entries, He1, length_app. cbn [length].
      rewrite <- length_entries, He, length_app in Hf. cbn [length] in Hf. lia.
Qed.

Lemma hb_overwrite_then_search s t k d v2 m fuel :
  strict_total (cmp_func (tree s)) → Inv s t → malloc_ok s m →
  (k, d) ∈ entries t → (size t ≤ fuel)%nat →
  ∃ s', hb_tree_insert fuel k v2 true m s = Ok (0, s')
        ∧ hb_tree_search fuel k s' = Ok (v2, s')
        ∧ dlog s' = log_del s k d.
Proof.
  intros Hcmp HI Hm Hin Hf.
  destruct (hb_insert_spec s t k v2 true m fuel Hcmp HI Hm) as [[Hk _]|(l & d' & r & He & H)];
    [lia| |].
  - exfalso. apply Hk. apply list_elem_of_fmap. by exists (k, d).
  - destruct H as (s1 & t1 & H & HI1 & He1 & Hd & Hc & _).
    assert (d' = d) as ->.
    { destruct HI as (_ & _ & Hb & _).
      apply (NoDup_fst_inj (entries t) k); [by apply (sorted_NoDup _ Hcmp)| |done].
      rewrite He. set_solver. }
    exists s1. split_and!; [done| |done].
    apply (hb_search_present s1 t1); [by rewrite Hc|done| |].
    + rewrite He1. set_solver.
    + rewrite <- length_entries, He1, length_app. cbn [length].
      rewrite <- length_entries, He, length_app in Hf. cbn [length] in Hf. lia.
Qed.

Lemma hb_remove_then_search s t k fuel s' :
  strict_total (cmp_func (tree s)) → Inv s t → (size t ≤ fuel)%nat →
  hb_tree_remove fuel k s = Ok (true, s') →
  hb_tree_search fuel k s' = Ok (NULLZ, s').
Proof.
  intros Hcmp HI Hf Hrm.
  destruct (hb_remove_spec s t k fuel Hcmp HI Hf)
    as [[_ H]|(l & d & r & s1 & t1 & He & H & HI1 & He1 & _ & Hc & _)]; [congruence|].
  rewrite H in Hrm. injection Hrm as <-.
  apply (hb_search_absent s1 t1); [by rewrite Hc|done| |].
  - destruct HI as (_ & _ & Hb & _). apply (sorted_NoDup _ Hcmp) in Hb.
    unfold keys in *. rewrite He, fmap_app, fmap_cons in Hb. rewrite He1, fmap_app.
    apply NoDup_app in Hb as (_ & Hl & Hr). apply NoDup_cons in Hr as [Hr _].
    cbn [fst] in *. intros [Hin|Hin]%elem_of_app; [|done].
    apply (Hl _ Hin). left.
  - rewrite <- length_entries, He1, length_app.
    rewrite <- length_entries, He, length_app in Hf. cbn [length] in Hf. lia.
Qed.

(** *** Allocation failure *)

Lemma hb_insert_nomem s t k v ow m fuel s' :
  strict_total (cmp_func (tree s)) → Inv s t → malloc_ok s m →
  (size t ≤ fuel)%nat →
  hb_tree_insert fuel k v ow m s = Ok (-1, s') → m = NULL ∧ s' = s.
Proof.
  intros Hcmp HI Hm Hf Hins.
  destruct (hb_insert_spec s t k v ow m fuel Hcmp HI Hm Hf) as [[_ H]|(l & d & r & He & H)].
  - destruct m.
    + destruct H as (s1 & t1 & l & r & H & _). congruence.
    + split; [done|congruence].
  - destruct ow; [|congruence].
    destruct H as (s1 & t1 & H & _). congruence.
Qed.

Lemma hb_probe_nomem s t k v m fuel d s' :
  strict_total (cmp_func (tree s)) → Inv s t → malloc_ok s m →
  (size t ≤ fuel)%nat →
  hb_tree_probe fuel k v m s = Ok ((-1, d), s') → m = NULL ∧ s' = s.
Proof.
  intros Hcmp HI Hm Hf Hins.
  destruct (hb_probe_spec s t k v m fuel Hcmp HI Hm Hf) as [[_ H]|(l & d' & r & He & H)].
  - destruct m.
    + destruct H as (s1 & t1 & l & r & H & _). congruence.
    + split; [done|congruence].
  - congruence.
Qed.
(** *** Extremes: [hb_tree_min], [hb_tree_max] *)

Definition first_key (es : list (Z * Z)) : Z :=
  match es with [] => NULLZ | e :: _ => e.1 end.

Definition last_key (es : list (Z * Z)) : Z :=
  match last es with None => NULLZ | Some e => e.1 end.

Lemma hb_min_spec s t fuel :
  Repr s t → (size t ≤ fuel)%nat →
  hb_tree_min fuel s = Ok (first_key (entries t), s).
Proof.
  intros HR Hfuel. unfold hb_tree_min. rewrite hb_bind_get.
  pose proof HR as (Hroot & _). simpl in Hroot. rewrite Hroot.
  destruct t as [|l a k d b r]; [done|].
  cbn [root_of is_null].
  destruct (minctx_spec (T l a k d b r) []) as
    (Cm & o & ko & do & bo & ro & Hmin & Hpl & Hlefts & Hlen); [done|].
  pose proof (hb_walk_left_spec _ fuel _ s HR) as Hwalk.
  rewrite Hmin in Hwalk. cbn [snd root_of] in Hwalk.
  erewrite bind_ok by (apply Hwalk; [done|lia]).
  assert (HZ : Zip s Cm (T E o ko do bo ro)).
  { rewrite <- (app_nil_r Cm). apply Zip_plug_ctx. by rewrite Hpl. }
  pose proof (Zip_root_lookup _ _ _ _ _ _ _ _ HZ) as Ho.
  unfold rd. rewrite Ho. cbn [key].
  rewrite <- Hpl, entries_plug, Hlefts. done.
Qed.

Lemma hb_max_spec s t fuel :
  Repr s t → (size t ≤ fuel)%nat →
  hb_tree_max fuel s = Ok (last_key (entries t), s).
Proof.
  intros HR Hfuel. unfold hb_tree_max. rewrite hb_bind_get.
  pose proof HR as (Hroot & _). simpl in Hroot. rewrite Hroot.
  destruct t as [|l a k d b r]; [done|].
  cbn [root_of is_null].
  destruct (maxctx_spec (T l a k d b r) []) as
    (Cm & o & ko & do & bo & lo & Hmax & Hpl & Hrights & Hlen); [done|].
  pose proof (hb_walk_right_spec _ fuel _ s HR) as Hwalk.
  rewrite Hmax in Hwalk. cbn [snd root_of] in Hwalk.
  erewrite bind_ok by (apply Hwalk; [done|lia]).
  assert (HZ : Zip s Cm (T lo o ko do bo E)).
  { rewrite <- (app_nil_r Cm). apply Zip_plug_ctx. by rewrite Hpl. }
  pose proof (Zip_root_lookup _ _ _ _ _ _ _ _ HZ) as Ho.
  unfold rd. rewrite Ho. cbn [key].
  rewrite <- Hpl, entries_plug, Hrights. cbn [entries]. rewrite app_nil_r.
  unfold last_key. rewrite app_assoc, last_snoc. done.
Qed.

(** In a sorted list the first key is below and the last key above every
    other one. *)
Lemma first_key_least cmp (Hcmp : strict_total cmp) (es : list (Z * Z)) k :
  sorted cmp es.*1 → k ∈ es.*1 → k = first_key es ∨ cmp (first_key es) k < 0.
Proof.
  destruct es as [|[k0 d0] es]; [by intros _ ?%elem_of_nil|].
  rewrite fmap_cons. cbn [fst first_key].
  intros [Hall _]%sorted_cons. rewrite elem_of_cons. intros [->|Hin]; [by left|].
  right. rewrite Forall_forall in Hall. by apply Hall.
Qed.

Lemma last_key_greatest cmp (Hcmp : strict_total cmp) (es : list (Z * Z)) k :
  sorted cmp es.*1 → k ∈ es.*1 → k = last_key es ∨ cmp k (last_key es) < 0.
Proof.
  destruct (decide (es = [])) as [->|Hne]; [by intros _ ?%elem_of_nil|].
  destruct (exists_last Hne) as (es' & [k0 d0] & ->).
  rewrite fmap_app. cbn [fmap list_fmap fst]. unfold last_key. rewrite last_snoc.
  cbn [fst].
  intros (Hall & _ & _)%sorted_app. rewrite elem_of_app, elem_of_cons.
  intros [Hin|[->|Hin]]; [|by left|by apply elem_of_nil in Hin].
  right. apply Hall; [done|]. left.
Qed.

Lemma first_key_elem (es : list (Z * Z)) : es ≠ [] → first_key es ∈ es.*1.
Proof. destruct es as [|[k d] es]; [done|]. intros _. cbn. left. Qed.

Lemma last_key_elem (es : list (Z * Z)) : es ≠ [] → last_key es ∈ es.*1.
Proof.
  intros Hne. destruct (exists_last Hne) as (es' & [k0 d0] & ->).
  unfold last_key. rewrite last_snoc, fmap_app, elem_of_app. right. cbn. left.
Qed.

(** *** Shape: [hb_tree_height], [hb_tree_mheight], [hb_tree_pathlen] *)

(** The length of the shortest path from the root to a missing child,
    counted in nodes. *)
Fixpoint mheight (t : atree) : Z :=
  match t with E => 0 | T l _ _ _ _ r => 1 + Z.min (mheight l) (mheight r) end.

(** The sum of the depths of all nodes, with the root at depth [d]. *)
Fixpoint depth_sum (t : atree) (d : Z) : Z :=
  match t with
  | E => 0
  | T l _ _ _ _ r => d + depth_sum l (d + 1) + depth_sum r (d + 1)
  end.

Lemma mheight_nonneg t : 0 ≤ mheight t.
Proof. induction t; simpl; lia. Qed.

Lemma mheight_le_height t : mheight t ≤ height t.
Proof. induction t; simpl; lia. Qed.

Lemma wrap_size_small z : 0 ≤ z < 2 ^ 64 → wrap_size z = z.
Proof. intros. unfold wrap_size. by apply Z.mod_small. Qed.

Lemma hb_node_height_spec t : ∀ fuel C s,
  Zip s C t → t ≠ E → (size t ≤ fuel)%nat → height t < 2 ^ 64 →
  node_height fuel (root_of t) s = Ok (height t - 1, s).
Proof.
  induction t as [|l IHl a k d b r IHr]; intros fuel C s HZ Hne Hfuel Hh; [done|].
  destruct fuel as [|fuel]; [simpl in Hfuel; lia|]. simpl in Hfuel.
  pose proof (Zip_root_lookup _ _ _ _ _ _ _ _ HZ) as Ha.
  pose proof (height_nonneg l). pose proof (height_nonneg r). cbn [height] in Hh.
  cbn [node_height root_of is_null negb]. rewrite assert_true.
  erewrite hb_bind_rd by exact Ha. cbn [llink].
  assert (HL : ∀ (B : Type) (K : Z → M state B),
    bind (if negb (is_null (root_of l))
          then let* h := node_height fuel (root_of l) in ret (wrap_size (h + 1))
          else ret 0) K s = K (height l) s).
  { intros B K. destruct l as [|ll la lk ld lb lr]; [done|].
    cbn [root_of is_null negb]. rewrite bind_assoc.
    apply Zip_down_l in HZ.
    erewrite bind_ok by (apply (IHl fuel _ s HZ); [done|simpl in *; lia|lia]).
    rewrite bind_ret. f_equal. rewrite wrap_size_small; lia. }
  rewrite HL.
  erewrite hb_bind_rd by exact Ha. cbn [rlink].
  assert (HR : ∀ (B : Type) (K : Z → M state B),
    bind (if negb (is_null (root_of r))
          then let* h := node_height fuel (root_of r) in ret (wrap_size (h + 1))
          else ret 0) K s = K (height r) s).
  { intros B K. destruct r as [|rl ra rk rd rb rr]; [done|].
    cbn [root_of is_null negb]. rewrite bind_assoc.
    apply Zip_down_r in HZ.
    erewrite bind_ok by (apply (IHr fuel _ s HZ); [done|simpl in *; lia|lia]).
    rewrite bind_ret. f_equal. rewrite wrap_size_small; lia. }
  rewrite HR.
  unfold ret. rewrite MAX_max. do 2 f_equal. cbn [height]. lia.
Qed.

Lemma hb_node_mheight_spec t : ∀ fuel C s,
  Zip s C t → t ≠ E → (size t ≤ fuel)%nat → height t < 2 ^ 64 →
  node_mheight fuel (root_of t) s = Ok (mheight t - 1, s).
Proof.
  induction t as [|l IHl a k d b r IHr]; intros fuel C s HZ Hne Hfuel Hh; [done|].
  destruct fuel as [|fuel]; [simpl in Hfuel; lia|]. simpl in Hfuel.
  pose proof (Zip_root_lookup _ _ _ _ _ _ _ _ HZ) as Ha.
  pose proof (height_nonneg l). pose proof (height_nonneg r).
  pose proof (mheight_nonneg l). pose proof (mheight_nonneg r).
  pose proof (mheight_le_height l). pose proof (mheight_le_height r).
  cbn [height] in Hh.
  cbn [node_mheight root_of is_null negb]. rewrite assert_true.
  erewrite hb_bind_rd by exact Ha. cbn [llink].
  assert (HL : ∀ (B : Type) (K : Z → M state B),
    bind (if negb (is_null (root_of l))
          then let* h := node_mheight fuel (root_of l) in ret (wrap_size (h + 1))
          else ret 0) K s = K (mheight l) s).
  { intros B K. destruct l as [|ll la lk ld lb lr]; [done|].
    cbn [root_of is_null negb]. rewrite bind_assoc.
    apply Zip_down_l in HZ.
    erewrite bind_ok by (apply (IHl fuel _ s HZ); [done|simpl in *; lia|lia]).
    rewrite bind_ret. f_equal. rewrite wrap_size_small; lia. }
  rewrite HL.
  erewrite hb_bind_rd by exact Ha. cbn [rlink].
  assert (HR : ∀ (B : Type) (K : Z → M state B),
    bind (if negb (is_null (root_of r))
          then let* h := node_mheight fuel (root_of r) in ret (wrap_size (h + 1))
          else ret 0) K s = K (mheight r) s).
  { intros B K. destruct r as [|rl ra rk rd rb rr]; [done|].
    cbn [root_of is_null negb]. rewrite bind_assoc.
    apply Zip_down_r in HZ.
    erewrite bind_ok by (apply (IHr fuel _ s HZ); [done|simpl in *; lia|lia]).
    rewrite bind_ret. f_equal. rewrite wrap_size_small; lia. }
  rewrite HR.
  unfold ret. rewrite MIN_min. do 2 f_equal. cbn [mheight]. lia.
Qed.

Lemma depth_sum_nonneg t : ∀ d, 0 ≤ d → 0 ≤ depth_sum t d.
Proof.
  induction t as [|l IHl a k v b r IHr]; intros d Hd; simpl; [lia|].
  specialize (IHl (d + 1)). specialize (IHr (d + 1)). lia.
Qed.

Lemma depth_sum_succ t : ∀ d, depth_sum t (d + 1) = depth_sum t d + Z.of_nat (size t).
Proof.
  induction t as [|l IHl a k v b r IHr]; intros d; simpl; [lia|].
  rewrite (IHl (d + 1)), (IHr (d + 1)). lia.
Qed.

Lemma hb_node_pathlen_spec t : ∀ fuel C s lvl,
  Zip s C t → t ≠ E → (size t ≤ fuel)%nat → 0 ≤ lvl → depth_sum t lvl < 2 ^ 64 →
  node_pathlen fuel (root_of t) lvl s = Ok (depth_sum t lvl - lvl - Z.of_nat (size t) + 1, s).
Proof.
  induction t as [|l IHl a k d b r IHr]; intros fuel C s lvl HZ Hne Hfuel Hlvl Hh; [done|].
  destruct fuel as [|fuel]; [simpl in Hfuel; lia|]. simpl in Hfuel.
  pose proof (Zip_root_lookup _ _ _ _ _ _ _ _ HZ) as Ha.
  cbn [depth_sum] in Hh.
  pose proof (depth_sum_nonneg l (lvl + 1) ltac:(lia)) as Hl0.
  pose proof (depth_sum_nonneg r (lvl + 1) ltac:(lia)) as Hr0.
  pose proof (depth_sum_nonneg l lvl ltac:(lia)) as Hl1.
  pose proof (depth_sum_nonneg r lvl ltac:(lia)) as Hr1.
  pose proof (depth_sum_succ l lvl) as Hl2. pose proof (depth_sum_succ r lvl) as Hr2.
  cbn [node_pathlen root_of is_null negb]. rewrite assert_true.
  erewrite hb_bind_rd by exact Ha. cbn [llink].
  assert (HL : ∀ (B : Type) (K : Z → M state B),
    bind (if negb (is_null (root_of l))
          then let* p := node_pathlen fuel (root_of l) (wrap_size (lvl + 1)) in
               ret (wrap_size (0 + wrap_size (lvl + p)))
          else ret 0) K s = K (depth_sum l lvl) s).
  { intros B K. destruct l as [|ll la lk ld lb lr]; [done|].
    cbn [root_of is_null negb]. rewrite bind_assoc.
    apply Zip_down_l in HZ.
    assert (lvl + 1 ≤ depth_sum (T ll la lk ld lb lr) (lvl + 1)).
    { cbn [depth_sum].
      pose proof (depth_sum_nonneg ll (lvl + 1 + 1) ltac:(lia)).
      pose proof (depth_sum_nonneg lr (lvl + 1 + 1) ltac:(lia)). lia. }
    rewrite (wrap_size_small (lvl + 1)) by lia.
    erewrite bind_ok by (apply (IHl fuel _ s _ HZ); [done|simpl in *; lia|lia|lia]).
    rewrite bind_ret. f_equal.
    match goal with |- context [wrap_size (lvl + ?e)] =>
      replace (lvl + e) with (depth_sum (T ll la lk ld lb lr) lvl) by lia end.
    rewrite (wrap_size_small (depth_sum _ lvl)) by lia.
    rewrite wrap_size_small; lia. }
  rewrite HL.
  erewrite hb_bind_rd by exact Ha. cbn [rlink].
  assert (HR : ∀ (B : Type) (K : Z → M state B),
    bind (if negb (is_null (root_of r))
          then let* p := node_pathlen fuel (root_of r) (wrap_size (lvl + 1)) in
               ret (wrap_size (depth_sum l lvl + wrap_size (lvl + p)))
          else ret (depth_sum l lvl)) K s = K (depth_sum l lvl + depth_sum r lvl) s).
  { intros B K. destruct r as [|rl ra rk rd rb rr].
    { cbn. rewrite bind_ret. f_equal. lia. }
    cbn [root_of is_null negb]. rewrite bind_assoc.
    apply Zip_down_r in HZ.
    assert (lvl + 1 ≤ depth_sum (T rl ra rk rd rb rr) (lvl + 1)).
    { cbn [depth_sum].
      pose proof (depth_sum_nonneg rl (lvl + 1 + 1) ltac:(lia)).
      pose proof (depth_sum_nonneg rr (lvl + 1 + 1) ltac:(lia)). lia. }
    rewrite (wrap_size_small (lvl + 1)) by lia.
    erewrite bind_ok by (apply (IHr fuel _ s _ HZ); [done|simpl in *; lia|lia|lia]).
    rewrite bind_ret. f_equal.
    match goal with |- context [wrap_size (lvl + ?e)] =>
      replace (lvl + e) with (depth_sum (T rl ra rk rd rb rr) lvl) by lia end.
    rewrite (wrap_size_small (depth_sum (T rl ra rk rd rb rr) lvl)) by lia.
    rewrite wrap_size_small; lia. }
  rewrite HR.
  unfold ret. do 2 f_equal. cbn [depth_sum size]. lia.
Qed.

(** The three queries on a stored tree with fewer than [2^64] nodes. *)
Lemma hb_height_spec s t fuel :
  Repr s t → (size t ≤ fuel)%nat → Z.of_nat (size t) < 2 ^ 64 →
  hb_tree_height fuel s = Ok (Z.max 0 (height t - 1), s)
  ∧ hb_tree_mheight fuel s = Ok (Z.max 0 (mheight t - 1), s).
Proof.
  intros HR Hfuel Hsz. unfold hb_tree_height, hb_tree_mheight. rewrite !hb_bind_get.
  pose proof HR as (Hroot & _). simpl in Hroot. rewrite Hroot.
  destruct t as [|l a k d b r]; [done|].
  pose proof (size_height (T l a k d b r)).
  pose proof (height_nonneg l). pose proof (height_nonneg r).
  pose proof (mheight_nonneg l). pose proof (mheight_nonneg r).
  cbn [root_of is_null negb].
  pose proof (hb_node_height_spec _ fuel [] s HR ltac:(done) Hfuel ltac:(lia)) as Hh1.
  pose proof (hb_node_mheight_spec _ fuel [] s HR ltac:(done) Hfuel ltac:(lia)) as Hh2.
  cbn [root_of] in Hh1, Hh2. rewrite Hh1, Hh2.
  split; do 2 f_equal; cbn [height mheight]; lia.
Qed.

Lemma hb_pathlen_spec s t fuel :
  Repr s t → (size t ≤ fuel)%nat → depth_sum t 1 < 2 ^ 64 →
  hb_tree_pathlen fuel s = Ok (depth_sum t 0, s).
Proof.
  intros HR Hfuel Hsz. unfold hb_tree_pathlen. rewrite !hb_bind_get.
  pose proof HR as (Hroot & _). simpl in Hroot. rewrite Hroot.
  destruct t as [|l a k d b r]; [done|].
  cbn [root_of is_null negb].
  pose proof (hb_node_pathlen_spec _ fuel [] s 1 HR ltac:(done) Hfuel ltac:(lia) Hsz) as Hp1.
  cbn [root_of] in Hp1. rewrite Hp1.
  do 2 f_equal. pose proof (depth_sum_succ (T l a k d b r) 0) as H.
  change (0 + 1) with 1 in H. lia.
Qed.

(** A height-balanced tree is shallow: the longest path is at most twice
    the shortest, and the levels down to the shortest path are full. *)
Lemma balanced_height_mheight t : balanced t → height t ≤ 2 * mheight t.
Proof.
  induction t as [|l IHl a k d b r IHr]; simpl; [lia|].
  intros (-> & Hb & Hbl & Hbr). specialize (IHl Hbl). specialize (IHr Hbr). lia.
Qed.

Lemma mheight_size t : 2 ^ mheight t ≤ Z.of_nat (size t) + 1.
Proof.
  induction t as [|l IHl a k d b r IHr]; simpl mheight; [simpl; lia|].
  pose proof (mheight_nonneg l). pose proof (mheight_nonneg r).
  rewrite Z.pow_add_r by lia. change (2 ^ 1) with 2.
  assert (2 ^ Z.min (mheight l) (mheight r) ≤ 2 ^ mheight l)
    by (apply Z.pow_le_mono_r; lia).
  assert (2 ^ Z.min (mheight l) (mheight r) ≤ 2 ^ mheight r)
    by (apply Z.pow_le_mono_r; lia).
  cbn [size]. lia.
Qed.
(** *** In-order predecessor *)

Lemma hb_climb_left_spec C : ∀ s t n fuel,
  Zip s C t → root_of t = Some n → (length C ≤ fuel)%nat →
  (lefts C = [] ∧ climb_left fuel (Some n) (cpar C) s = Ok (NULL, s))
  ∨ (∃ C' l' a' k' d' b' r',
       climb_left fuel (Some n) (cpar C) s = Ok (Some a', s)
       ∧ Zip s C' (T l' a' k' d' b' r')
       ∧ (lefts C' ++ entries l') ++ [(k', d')] = lefts C
       ∧ (length C' ≤ length C)%nat
       ∧ plug C' (T l' a' k' d' b' r') = plug C t).
Proof.
  induction C as [|f C IH]; intros s t n fuel HZ Hn Hfuel.
  - left. split; [done|]. by destruct fuel.
  - destruct fuel as [|fuel]; [simpl in Hfuel; lia|]. simpl in Hfuel.
    destruct (Zip_frame_lookup _ _ _ _ n HZ Hn) as [Hf Hne].
    cbn [climb_left cpar]. erewrite hb_bind_rd by exact Hf.
    destruct f as [[] p kp dp bp sib]; unfold frame_node; hb_simpl.
    + rewrite ptr_eqb_refl. unfold frame_node in Hf. cbn in Hf.
      erewrite hb_bind_rd by exact Hf. hb_simpl.
      apply Zip_plug1 in HZ.
      destruct (IH s _ p fuel HZ (root_of_plug1 _ _)) as
        [[Hr Hrun]|(C' & l' & a' & k' & d' & b' & r' & Hrun & HZ' & Hrest & Hlen & Hpl)];
        [lia| |].
      * left. split; [simpl; by rewrite Hr|exact Hrun].
      * right. exists C', l', a', k', d', b', r'.
        split; [exact Hrun|]. split; [done|]. split; [simpl; by rewrite app_nil_r|].
        split; [simpl; lia|done].
    + (* we came from the right: the parent is the predecessor *)
      specialize (Hne eq_refl). cbn [fsib] in Hne. rewrite (ptr_eqb_ne _ _ Hne).
      right. exists C, sib, p, kp, dp, bp, t.
      split; [done|]. apply Zip_plug1 in HZ. split; [exact HZ|].
      split; [simpl; by rewrite <- !app_assoc|]. split; [simpl; lia|done].
Qed.

Lemma hb_node_prev_spec s C l a k d b r fuel :
  Zip s C (T l a k d b r) → (size (plug C (T l a k d b r)) ≤ fuel)%nat →
  (lefts C ++ entries l = [] ∧ node_prev fuel (Some a) s = Ok (NULL, s))
  ∨ (∃ C' l' a' k' d' b' r',
       node_prev fuel (Some a) s = Ok (Some a', s)
       ∧ Zip s C' (T l' a' k' d' b' r')
       ∧ (lefts C' ++ entries l') ++ [(k', d')] = lefts C ++ entries l
       ∧ plug C' (T l' a' k' d' b' r') = plug C (T l a k d b r)).
Proof.
  intros HZ Hfuel. rewrite size_plug in Hfuel. pose proof (csize_length C).
  pose proof (Zip_root_lookup _ _ _ _ _ _ _ _ HZ) as Ha.
  unfold node_prev. hb_simpl. rewrite assert_true.
  erewrite hb_bind_rd by exact Ha. hb_simpl.
  destruct l as [|ll la lk ld lb lr].
  - hb_simpl. erewrite hb_bind_rd by exact Ha. hb_simpl.
    destruct (hb_climb_left_spec C s _ a fuel HZ eq_refl) as
      [[Hr Hrun]|(C' & l' & a' & k' & d' & b' & r' & Hrun & HZ' & Hrest & Hlen & Hpl)];
      [simpl in Hfuel; lia| |].
    + left. split; [by rewrite Hr|done].
    + right. exists C', l', a', k', d', b', r'. split_and!; try done.
      cbn [entries]. by rewrite app_nil_r.
  - hb_simpl.
    destruct (maxctx_spec (T ll la lk ld lb lr) (mk_frame L a k d b r :: C)) as
      (Cm & o & ko & do & bo & lo & Hmax & Hpl & Hrights & Hlen); [done|].
    pose proof (proj1 (Zip_down_l _ _ _ _ _ _ _ _) HZ) as HZl.
    pose proof (hb_walk_right_spec _ fuel _ s HZl) as Hwalk.
    rewrite Hmax in Hwalk. cbn [snd root_of] in Hwalk.
    right. exists (Cm ++ mk_frame L a k d b r :: C), lo, o, ko, do, bo, E.
    split; [apply Hwalk; [done|simpl in *; lia]|].
    split; [apply Zip_plug_ctx; by rewrite Hpl|].
    split.
    { rewrite lefts_app. cbn [lefts fdir]. rewrite app_nil_r.
      rewrite <- Hpl, entries_plug, Hrights. cbn [entries]. rewrite !app_nil_r.
      by rewrite <- !app_assoc. }
    rewrite plug_app. cbn [plug plug1 fdir fa fk fd fb fsib]. by rewrite Hpl.
Qed.

(** *** Positions

    The nodes in key order are [addrs t], their entries [entries t]; the
    focus [(C, T l a k d b r)] is at index [idx C l] of both. *)

Definition idx (C : list frame) (l : atree) : nat := (length (lefts C) + size l)%nat.

Fixpoint laddrs (C : list frame) : list positive :=
  match C with
  | [] => []
  | f :: C' =>
      laddrs C' ++ match fdir f with
                   | L => []
                   | Rt => addrs (fsib f) ++ [fa f]
                   end
  end.

Fixpoint raddrs (C : list frame) : list positive :=
  match C with
  | [] => []
  | f :: C' =>
      match fdir f with
      | L => fa f :: addrs (fsib f)
      | Rt => []
      end ++ raddrs C'
  end.

Lemma addrs_plug C : ∀ t, addrs (plug C t) = laddrs C ++ addrs t ++ raddrs C.
Proof.
  induction C as [|f C IH]; intros t; simpl.
  - by rewrite app_nil_r.
  - rewrite IH. destruct f as [[] a k d b sib]; unfold plug1; simpl.
    + by rewrite app_nil_r, <- !app_assoc.
    + by rewrite <- !app_assoc.
Qed.

Lemma length_addrs t : length (addrs t) = size t.
Proof. induction t; simpl; [done|]. rewrite length_app. simpl. lia. Qed.

Lemma length_laddrs C : length (laddrs C) = length (lefts C).
Proof.
  induction C as [|f C IH]; simpl; [done|].
  rewrite !length_app, IH. destruct (fdir f); simpl; [done|].
  by rewrite !length_app, length_addrs, length_entries.
Qed.

Lemma idx_addrs C l a k d b r :
  addrs (plug C (T l a k d b r)) !! idx C l = Some a.
Proof.
  rewrite addrs_plug. cbn [addrs]. unfold idx.
  rewrite lookup_app_r by (rewrite length_laddrs; lia).
  rewrite length_laddrs, <- app_assoc.
  rewrite lookup_app_r by (rewrite length_addrs; lia).
  rewrite length_addrs. by replace (_ + _ - _ - _)%nat with O by lia.
Qed.

Lemma idx_entries C l a k d b r :
  entries (plug C (T l a k d b r)) !! idx C l = Some (k, d).
Proof.
  rewrite entries_plug. cbn [entries]. unfold idx.
  rewrite lookup_app_r by lia. rewrite <- app_assoc.
  rewrite lookup_app_r by (rewrite length_entries; lia).
  rewrite length_entries. by replace (_ + _ - _ - _)%nat with O by lia.
Qed.

Lemma idx_rest C l a k d b r :
  (idx C l + S (length (rest_of C r)))%nat = size (plug C (T l a k d b r)).
Proof.
  rewrite <- length_entries, entries_plug. cbn [entries]. unfold idx, rest_of.
  rewrite !length_app. cbn [length]. rewrite ?length_app, !length_entries. lia.
Qed.

(** Every node of the tree is the focus of a path from the root. *)
Lemma focus_exists t : ∀ i a,
  addrs t !! i = Some a →
  ∃ C l k d b r, plug C (T l a k d b r) = t ∧ idx C l = i.
Proof.
  induction t as [|l IHl a0 k0 d0 b0 r IHr]; intros i a Hi; [done|].
  cbn [addrs] in Hi.
  destruct (Nat.lt_ge_cases i (length (addrs l))) as [Hlt|Hge].
  - rewrite lookup_app_l in Hi by done.
    destruct (IHl i a Hi) as (C & l' & k & d & b & r' & Hpl & Hidx).
    exists (C ++ [mk_frame L a0 k0 d0 b0 r]), l', k, d, b, r'.
    rewrite plug_app, Hpl. split; [done|].
    unfold idx in *. rewrite lefts_app. cbn. done.
  - rewrite lookup_app_r in Hi by done.
    destruct (i - length (addrs l))%nat as [|j] eqn:Hj.
    + injection Hi as <-. exists [], l, k0, d0, b0, r. split; [done|].
      unfold idx. cbn. rewrite length_addrs in *. lia.
    + cbn in Hi.
      destruct (IHr j a Hi) as (C & l' & k & d & b & r' & Hpl & Hidx).
      exists (C ++ [mk_frame Rt a0 k0 d0 b0 l]), l', k, d, b, r'.
      rewrite plug_app, Hpl. split; [done|].
      unfold idx in *. rewrite lefts_app. cbn.
      rewrite !length_app, length_entries. cbn. rewrite length_addrs in *. lia.
Qed.

Lemma Repr_focus s t i a :
  Repr s t → addrs t !! i = Some a →
  ∃ C l k d b r, Zip s C (T l a k d b r) ∧ plug C (T l a k d b r) = t ∧ idx C l = i.
Proof.
  intros HR Hi. destruct (focus_exists t i a Hi) as (C & l & k & d & b & r & Hpl & Hidx).
  exists C, l, k, d, b, r. split; [|done]. apply Zip_plug. unfold Repr in HR. by rewrite Hpl.
Qed.

(** *** The iterator functions, by position *)

Definition at_pos (t : atree) (i : nat) : bool * ptr :=
  match addrs t !! i with
  | Some a => (true, Some a)
  | None => (false, NULL)
  end.

Lemma hb_itor_first_spec s t fuel itor :
  Repr s t → (size t ≤ fuel)%nat →
  hb_itor_first fuel itor s = Ok (at_pos t 0, s).
Proof.
  intros HR Hfuel. unfold hb_itor_first. rewrite hb_bind_get.
  pose proof HR as (Hroot & _). simpl in Hroot. rewrite Hroot.
  destruct t as [|l a k d b r]; [done|].
  cbn [root_of is_null negb]. unfold node_min. cbn [is_null negb].
  rewrite !bind_assoc, assert_true.
  destruct (minctx_spec (T l a k d b r) []) as
    (Cm & o & ko & do & bo & ro & Hmin & Hpl & Hlefts & Hlen); [done|].
  pose proof (hb_walk_left_spec _ fuel _ s HR) as Hwalk.
  rewrite Hmin in Hwalk. cbn [snd root_of] in Hwalk.
  erewrite bind_ok by (apply Hwalk; [done|lia]).
  unfold ret, at_pos. cbn [is_null negb].
  pose proof (idx_addrs Cm E o ko do bo ro) as Hi.
  rewrite Hpl in Hi. unfold idx in Hi. rewrite Hlefts in Hi.
  change (length [] + size E)%nat with 0%nat in Hi.
  by rewrite Hi.
Qed.

Lemma hb_itor_last_spec s t fuel itor :
  Repr s t → (size t ≤ fuel)%nat →
  hb_itor_last fuel itor s = Ok (at_pos t (size t - 1), s).
Proof.
  intros HR Hfuel. unfold hb_itor_last. rewrite hb_bind_get.
  pose proof HR as (Hroot & _). simpl in Hroot. rewrite Hroot.
  destruct t as [|l a k d b r]; [done|].
  cbn [root_of is_null negb]. unfold node_max. cbn [is_null negb].
  rewrite !bind_assoc, assert_true.
  destruct (maxctx_spec (T l a k d b r) []) as
    (Cm & o & ko & do & bo & lo & Hmax & Hpl & Hrights & Hlen); [done|].
  pose proof (hb_walk_right_spec _ fuel _ s HR) as Hwalk.
  rewrite Hmax in Hwalk. cbn [snd root_of] in Hwalk.
  erewrite bind_ok by (apply Hwalk; [done|lia]).
  unfold ret, at_pos. cbn [is_null negb].
  pose proof (idx_addrs Cm lo o ko do bo E) as Hi.
  pose proof (idx_rest Cm lo o ko do bo E) as Hr.
  unfold rest_of in Hr. rewrite Hrights in Hr. cbn [entries app length] in Hr.
  rewrite Hpl in Hi, Hr.
  replace (size (T l a k d b r) - 1)%nat with (idx Cm lo) by lia.
  by rewrite Hi.
Qed.

Lemma hb_itor_next_spec s t fuel i a :
  Repr s t → (size t ≤ fuel)%nat → addrs t !! i = Some a →
  hb_itor_next fuel (Some a) s = Ok (at_pos t (S i), s).
Proof.
  intros HR Hfuel Hi.
  destruct (Repr_focus s t i a HR Hi) as (C & l & k & d & b & r & HZ & Hpl & Hidx).
  unfold hb_itor_next. cbn [is_null].
  pose proof (idx_rest C l a k d b r) as Hrest. rewrite Hpl, Hidx in Hrest.
  destruct (hb_node_next_spec s C l a k d b r fuel HZ) as
    [[Hr Hrun]|(C' & l' & a' & k' & d' & b' & r' & Hrun & HZ' & Hr & Hpl')].
  { by rewrite Hpl. }
  - run Hrun. unfold at_pos. rewrite Hr in Hrest. cbn in Hrest.
    rewrite lookup_ge_None_2; [done|]. rewrite length_addrs. lia.
  - run Hrun. unfold at_pos.
    pose proof (idx_addrs C' l' a' k' d' b' r') as Hi'.
    pose proof (idx_rest C' l' a' k' d' b' r') as Hrest'.
    rewrite Hpl', Hpl in Hi', Hrest'. rewrite <- Hr in Hrest. cbn [length] in Hrest.
    replace (S i) with (idx C' l') by lia. by rewrite Hi'.
Qed.

Lemma idx_before C l : idx C l = length (lefts C ++ entries l).
Proof. unfold idx. by rewrite length_app, length_entries. Qed.

Lemma hb_itor_prev_spec s t fuel i a :
  Repr s t → (size t ≤ fuel)%nat → addrs t !! i = Some a →
  hb_itor_prev fuel (Some a) s
  = Ok (match i with O => (false, NULL) | S j => at_pos t j end, s).
Proof.
  intros HR Hfuel Hi.
  destruct (Repr_focus s t i a HR Hi) as (C & l & k & d & b & r & HZ & Hpl & Hidx).
  unfold hb_itor_prev. cbn [is_null].
  rewrite idx_before in Hidx.
  destruct (hb_node_prev_spec s C l a k d b r fuel HZ) as
    [[Hr Hrun]|(C' & l' & a' & k' & d' & b' & r' & Hrun & HZ' & Hr & Hpl')].
  { by rewrite Hpl. }
  - run Hrun. rewrite Hr in Hidx. cbn in Hidx. by subst i.
  - run Hrun. rewrite <- Hr, length_app in Hidx. cbn [length] in Hidx.
    rewrite <- idx_before in Hidx.
    pose proof (idx_addrs C' l' a' k' d' b' r') as Hi'.
    rewrite Hpl', Hpl in Hi'.
    destruct i as [|j]; [lia|]. replace j with (idx C' l') by lia.
    unfold at_pos. by rewrite Hi'.
Qed.

Lemma hb_itor_read_spec s t i a :
  Repr s t → addrs t !! i = Some a →
  ∃ k d, entries t !! i = Some (k, d)
         ∧ hb_itor_key (Some a) s = Ok (k, s)
         ∧ hb_itor_data (Some a) s = Ok (d, s).
Proof.
  intros HR Hi.
  destruct (Repr_focus s t i a HR Hi) as (C & l & k & d & b & r & HZ & Hpl & Hidx).
  pose proof (Zip_root_lookup _ _ _ _ _ _ _ _ HZ) as Ha.
  exists k, d. split_and!.
  - rewrite <- Hpl, <- Hidx. apply idx_entries.
  - unfold hb_itor_key, rd. cbn [is_null]. by rewrite Ha.
  - unfold hb_itor_data, rd. cbn [is_null]. by rewrite Ha.
Qed.

(** [hb_itor_prevn] from position [i]: [n] steps back, or off the front. *)
Lemma hb_itor_prevn_spec s t fuel : ∀ n i a,
  Repr s t → (size t ≤ fuel)%nat → addrs t !! i = Some a →
  hb_itor_prevn fuel (Some a) n s
  = Ok (if (n <=? i)%nat then at_pos t (i - n) else (false, NULL), s).
Proof.
  induction n as [|n IH]; intros i a HR Hfuel Hi.
  - cbn [hb_itor_prevn]. unfold ret, at_pos. rewrite Nat.sub_0_r, Hi. done.
  - cbn [hb_itor_prevn].
    erewrite bind_ok by (by eapply hb_itor_prev_spec).
    destruct i as [|j]; [done|].
    assert (Hj : is_Some (addrs t !! j)).
    { apply lookup_lt_is_Some. apply lookup_lt_Some in Hi. lia. }
    destruct Hj as [a' Hj]. unfold at_pos at 1. rewrite Hj. cbn [negb].
    rewrite (IH j a' HR Hfuel Hj). done.
Qed.

(** *** [hb_itor_search] and [hb_itor_set_data] *)

Lemma hb_itor_search_loop_spec k t : ∀ fuel C s,
  Zip s C t → (size t ≤ fuel)%nat →
  itor_search_loop fuel k (root_of t) s
  = Ok (root_of (descend (cmp_func (tree s)) k C t).2, s).
Proof.
  induction t as [|l IHl a kk d b r IHr]; intros fuel C s HZ Hfuel.
  - by destruct fuel.
  - destruct fuel as [|fuel]; [simpl in Hfuel; lia|].
    simpl in Hfuel.
    pose proof (Zip_root_lookup _ _ _ _ _ _ _ _ HZ) as Ha.
    cbn [itor_search_loop root_of descend].
    rewrite hb_bind_get. erewrite hb_bind_rd by exact Ha. cbn [key].
    destruct (Z.eqb_spec (cmp_func (tree s) k kk) 0) as [H0|H0].
    { rewrite H0. reflexivity. }
    destruct (Z.ltb_spec (cmp_func (tree s) k kk) 0) as [Hlt|Hge].
    { erewrite !hb_bind_rd by exact Ha. cbn [llink].
      apply Zip_down_l in HZ. apply (IHl fuel _ s HZ). lia. }
    destruct (Z.gtb_spec (cmp_func (tree s) k kk) 0) as [Hgt|Hle]; [|lia].
    erewrite !hb_bind_rd by exact Ha. cbn [rlink].
    apply Zip_down_r in HZ. apply (IHr fuel _ s HZ). lia.
Qed.

Lemma hb_itor_search_spec s t k fuel itor :
  strict_total (cmp_func (tree s)) → Inv s t → (size t ≤ fuel)%nat →
  ((k ∉ keys t) ∧ hb_itor_search fuel itor k s = Ok ((false, NULL), s))
  ∨ (∃ i a d, addrs t !! i = Some a ∧ entries t !! i = Some (k, d)
              ∧ hb_itor_search fuel itor k s = Ok ((true, Some a), s)).
Proof.
  intros Hcmp (HR & _ & Hb & _) Hfuel.
  unfold hb_itor_search. rewrite hb_bind_get.
  pose proof HR as (Hroot & _). simpl in Hroot. rewrite Hroot.
  erewrite bind_ok by (by apply (hb_itor_search_loop_spec k t fuel [] s HR)).
  destruct (descend (cmp_func (tree s)) k [] t) as [C t'] eqn:Hd. cbn [snd].
  destruct t' as [|l a kk d b r].
  - left. apply (descend_absent _ Hcmp) in Hd as (_ & _ & Hk & _); [|done]. done.
  - right. apply (descend_found _ Hcmp) in Hd as (-> & Hpl & _ & _); [|done].
    exists (idx C l), a, d. rewrite <- Hpl. split_and!; [apply idx_addrs|apply idx_entries|done].
Qed.

(** Writing the datum of the node at position [i]. *)
Lemma hb_itor_set_data_spec s t i a v old :
  Inv s t → addrs t !! i = Some a →
  ∃ k d s' t',
    entries t !! i = Some (k, d)
    ∧ hb_itor_set_data (Some a) v old s
      = Ok ((true, match old with None => None | Some _ => Some d end), s')
    ∧ Inv s' t'
    ∧ entries t' = <[i := (k, v)]> (entries t)
    ∧ addrs t' = addrs t
    ∧ same_meta s s'.
Proof.
  intros (HR & Hbal & Hb & Hcnt) Hi.
  destruct (Repr_focus s t i a HR Hi) as (C & l & k & d & b & r & HZ & Hpl & Hidx).
  pose proof (Zip_root_lookup _ _ _ _ _ _ _ _ HZ) as Ha.
  destruct (hb_wr_data_spec s C l a k d b r (with_datum v) k v b) as
    (s' & Hrun & HZ' & Hm & _); [done|done|].
  exists k, d, s', (plug C (T l a k v b r)).
  assert (He : entries (plug C (T l a k v b r)) = <[i := (k, v)]> (entries t)).
  { rewrite <- Hpl, !entries_plug. cbn [entries]. rewrite <- Hidx. unfold idx.
    rewrite insert_app_r_alt by lia. f_equal.
    rewrite insert_app_l by (rewrite length_app, length_entries; simpl; lia).
    f_equal. rewrite insert_app_r_alt by (rewrite length_entries; lia).
    rewrite length_entries. by replace (_ + _ - _ - _)%nat with O by lia. }
  split_and!.
  - rewrite <- Hpl, <- Hidx. apply idx_entries.
  - unfold hb_itor_set_data. cbn [is_null].
    destruct old as [c|].
    + rewrite bind_assoc. erewrite hb_bind_rd by exact Ha. rewrite bind_ret.
      erewrite bind_ok by exact Hrun. done.
    + rewrite bind_ret. erewrite bind_ok by exact Hrun. done.
  - destruct Hm as (Hc & Hcm & Hdl & Hlg).
    split_and!.
    + by apply Zip_plug.
    + rewrite <- Hpl in Hbal. apply balanced_plug in Hbal as [Hb1 Hb2].
      apply balanced_plug. split; [exact Hb1|exact Hb2].
    + rewrite Hcm. unfold bst, keys in *. rewrite He.
      rewrite list_fmap_insert. cbn [fst].
      rewrite list_insert_id; [done|].
      rewrite list_lookup_fmap. rewrite <- Hpl, <- Hidx, idx_entries. done.
    + rewrite Hc, Hcnt, He. by rewrite length_insert.
  - exact He.
  - rewrite <- Hpl, !addrs_plug. done.
  - exact Hm.
Qed.

Lemma hb_itor_new_spec s t fuel :
  Repr s t → (size t ≤ fuel)%nat →
  hb_itor_new fuel true s = Ok (Some (at_pos t 0).2, s)
  ∧ hb_itor_new fuel false s = Ok (None, s).
Proof.
  intros HR Hfuel. split; [|done]. unfold hb_itor_new.
  erewrite bind_ok by (by apply hb_itor_first_spec).
  by destruct (at_pos t 0).
Qed.

(** *** [hb_tree_free] *)

Lemma hb_free_spec s t fuel :
  Inv s t → (2 * size t ≤ fuel)%nat →
  match t with
  | E => hb_tree_free fuel s = Ok ((0, false), s)
  | T _ _ _ _ _ _ =>
      ∃ s', hb_tree_free fuel s = Ok ((count (tree s), true), s')
        ∧ Inv s' E
        ∧ dlog s' = log_many s (postorder t)
        ∧ (∀ x, x ∈ addrs t → mem s' !! x = None)
        ∧ (∀ x, x ∉ addrs t → mem s' !! x = mem s !! x)
  end.
Proof.
  intros HI Hfuel. pose proof HI as (HR & _).
  unfold hb_tree_free. rewrite hb_bind_get.
  pose proof HR as (Hroot & _). simpl in Hroot. rewrite Hroot.
  destruct t as [|l a k d b r]; [done|].
  cbn [root_of is_null].
  destruct (hb_clear_spec s _ fuel HI Hfuel) as (s' & Hrun & HI' & _ & _ & Hlog & Hin & Hout).
  exists s'. erewrite bind_ok by exact Hrun. done.
Qed.

End HB.

Module SL.

(** ** The skip list, [skiplist.c] *)


(** [link] is the flexible array member: [link_count] cells. *)
Record skip_node : Type := mk_node {
  key : Z;
  datum : Z;
  prev : ptr;
  link_count : nat;
  link : list ptr
}.

Definition MAX_LINK : nat := 32.

Record skiplist : Type := mk_list {
  head : ptr;
  max_link : nat;
  top_link : nat;
  cmp_func : Z → Z → Z;
  del_func : bool;   (* whether the cleanup callback is non-NULL *)
  count : Z;
  randgen : Z
}.

Definition RGEN_A : Z := 1664525.
Definition RGEN_M : Z := 1013904223.

Record state : Type := mk_state {
  lst : skiplist;
  mem : gmap positive skip_node;
  dlog : list (Z * Z)
}.

Definition with_key (v : Z) (n : skip_node) : skip_node :=
  mk_node v (datum n) (prev n) (link_count n) (link n).
Definition with_datum (v : Z) (n : skip_node) : skip_node :=
  mk_node (key n) v (prev n) (link_count n) (link n).
Definition with_prev (v : ptr) (n : skip_node) : skip_node :=
  mk_node (key n) (datum n) v (link_count n) (link n).
Definition with_link (k : nat) (v : ptr) (n : skip_node) : skip_node :=
  mk_node (key n) (datum n) (prev n) (link_count n) (<[k := v]> (link n)).

Definition with_top_link (v : nat) (l : skiplist) : skiplist :=
  mk_list (head l) (max_link l) v (cmp_func l) (del_func l) (count l) (randgen l).
Definition with_count (v : Z) (l : skiplist) : skiplist :=
  mk_list (head l) (max_link l) (top_link l) (cmp_func l) (del_func l) v (randgen l).
Definition with_randgen (v : Z) (l : skiplist) : skiplist :=
  mk_list (head l) (max_link l) (top_link l) (cmp_func l) (del_func l) (count l) v.

Definition rd {A : Type} (f : skip_node → A) (p : ptr) : M state A :=
  λ s, match p with
       | None => Fault
       | Some a => match mem s !! a with
                   | None => Fault
                   | Some n => Ok (f n, s)
                   end
       end.

Definition wr (g : skip_node → skip_node) (p : ptr) : M state unit :=
  λ s, match p with
       | None => Fault
       | Some a => match mem s !! a with
                   | None => Fault
                   | Some n => Ok (tt, mk_state (lst s) (<[a := g n]> (mem s)) (dlog s))
                   end
       end.

(** [p->link[k]]: a cell past the node's [link_count] is outside the block. *)
Definition rd_link (k : nat) (p : ptr) : M state ptr :=
  let* ls := rd link p in
  match ls !! k with
  | Some v => ret v
  | None => fault
  end.

Definition wr_link (k : nat) (v : ptr) (p : ptr) : M state unit :=
  let* ls := rd link p in
  if (k <? length ls)%nat then wr (with_link k v) p else fault.

(** The local array [update[MAX_LINK]]. *)
Definition arr_get (k : nat) (update : list ptr) : M state ptr :=
  match update !! k with
  | Some v => ret v
  | None => fault
  end.

Definition arr_set (k : nat) (v : ptr) (update : list ptr) : M state (list ptr) :=
  if (k <? length update)%nat then ret (<[k := v]> update) else fault.

Definition get_list {A : Type} (f : skiplist → A) : M state A :=
  λ s, Ok (f (lst s), s).
Definition set_list (g : skiplist → skiplist) : M state unit :=
  λ s, Ok (tt, mk_state (g (lst s)) (mem s) (dlog s)).

(** Modelled from the spec: the allocator collaborator behind the MALLOC and
    FREE macros of [dict_private.h] (not among the sources); see [HB.FREE]. *)
Definition FREE (p : ptr) : M state unit :=
  λ s, match p with
       | None => Ok (tt, s)
       | Some a => match mem s !! a with
                   | None => Fault
                   | Some _ => Ok (tt, mk_state (lst s) (delete a (mem s)) (dlog s))
                   end
       end.

Definition call_del (node : ptr) : M state unit :=
  let* d := get_list del_func in
  if d : bool then
    let* k := rd key node in
    let* v := rd datum node in
    λ s, Ok (tt, mk_state (lst s) (mem s) (dlog s ++ [(k, v)]))
  else ret tt.

(** [node_new]: [m] is the block answered by MALLOC. *)
Definition node_new (m : ptr) (k v : Z) (lc : nat) : M state ptr :=
  ASSERT (1 <=? lc)%nat;;
  λ s, match m with
       | None => Ok (NULL, s)
       | Some a =>
           Ok (Some a, mk_state (lst s)
                         (<[a := mk_node k v NULL lc (replicate lc NULL)]> (mem s))
                         (dlog s))
       end.

(** [skiplist_new], after a successful allocation of the list object: [m]
    is the block answered for the head node, [seed] the value of [rand()].
    The answer is [None] when the function returns NULL. *)
Definition skiplist_new (cmp : Z → Z → Z) (del : bool) (max_link : nat)
    (m : ptr) (seed : Z) : res (option state) :=
  if negb (0 <? max_link)%nat then AssertFail
  else
    let max_link := if (MAX_LINK <? max_link)%nat then MAX_LINK else max_link in
    match node_new m NULLZ NULLZ max_link
            (mk_state (mk_list NULL 0 0 cmp del 0 0) ∅ []) with
    | Ok (hd, s) =>
        if is_null hd then Ok None
        else Ok (Some (mk_state (mk_list hd max_link 0 cmp del 0 (wrap_u32 seed))
                         (mem s) (dlog s)))
    | AssertFail => AssertFail
    | Fault => Fault
    | NoFuel => NoFuel
    end.

(** The loop of [rand_link_count], [for (; i+1 < max_link; ++i)]: [d] is
    [max_link - (i+1)], the number of values of [i] for which the test still
    holds. *)
Fixpoint rand_loop (d : nat) (r : Z) (i : nat) : nat :=
  match d with
  | O => i
  | S d =>
      if r >? wrap_u32 (Z.shiftl 1 (32 - Z.of_nat i)) then i
      else rand_loop d r (S i)
  end.

Definition rand_link_count : M state nat :=
  let* rg := get_list randgen in
  let r := wrap_u32 (rg * RGEN_A + RGEN_M) in
  set_list (with_randgen r);;
  let* ml := get_list max_link in
  ret (rand_loop (ml - 2) r 1).

(** [while (x->link[k] && cmp(key, x->link[k]->key) > 0) x = x->link[k];] *)
Fixpoint advance (fuel : nat) (k : nat) (ky : Z) (x : ptr) : M state ptr :=
  match fuel with
  | O => nofuel
  | S fuel =>
      let* n := rd_link k x in
      if is_null n then ret x
      else
        let* cmpf := get_list cmp_func in
        let* nk := rd key n in
        if cmpf ky nk >? 0 then advance fuel k ky n else ret x
  end.

(** [for (k = top_link+1; k-->0; ) { ASSERT; while ...; update[k] = x; }]
    with [n] the value of [k] before the test. *)
Fixpoint descend (fuel : nat) (n : nat) (ky : Z) (x : ptr) (update : list ptr)
  : M state (ptr * list ptr) :=
  match n with
  | O => ret (x, update)
  | S k =>
      let* lc := rd link_count x in
      ASSERT (k <? lc)%nat;;
      let* x := advance fuel k ky x in
      let* update := arr_set k x update in
      descend fuel k ky x update
  end.

(** [for (k = top_link+1; k <= nlinks; k++) { ASSERT(!update[k]);
    update[k] = list->head; }] with [n] iterations left. *)
Fixpoint raise_update (n k : nat) (update : list ptr) : M state (list ptr) :=
  match n with
  | O => ret update
  | S n =>
      let* uk := arr_get k update in
      ASSERT (is_null uk);;
      let* hd := get_list head in
      let* update := arr_set k hd update in
      raise_update n (S k) update
  end.

(** [for (k = 0; k < nlinks; k++) { ASSERT; x->link[k] = update[k]->link[k];
    update[k]->link[k] = x; }] with [n] iterations left. *)
Fixpoint splice (n k : nat) (x : ptr) (update : list ptr) : M state unit :=
  match n with
  | O => ret tt
  | S n =>
      let* uk := arr_get k update in
      let* lc := rd link_count uk in
      ASSERT (k <? lc)%nat;;
      let* nx := rd_link k uk in
      wr_link k nx x;;
      wr_link k x uk;;
      splice n (S k) x update
  end.

Definition node_insert (ky v : Z) (update : list ptr) (m : ptr) : M state ptr :=
  let* nlinks := rand_link_count in
  let* ml := get_list max_link in
  ASSERT (nlinks <? ml)%nat;;
  let* x := node_new m ky v nlinks in
  if is_null x then ret NULL
  else
    let* top := get_list top_link in
    let* update :=
      (if (top <? nlinks)%nat then
         let* update := raise_update (nlinks - top) (top + 1) update in
         set_list (with_top_link nlinks);;
         ret update
       else ret update) in
    let* u0 := arr_get 0 update in
    wr (with_prev u0) x;;
    let* u0n := rd_link 0 u0 in
    (if negb (is_null u0n) then wr (with_prev x) u0n else ret tt);;
    splice nlinks 0 x update;;
    let* c := get_list count in
    set_list (with_count (wrap_size (c + 1)));;
    ret x.

Definition skiplist_insert (fuel : nat) (ky v : Z) (overwrite : bool) (m : ptr)
  : M state Z :=
  let* hd := get_list head in
  let* top := get_list top_link in
  let* (x, update) := descend fuel (top + 1) ky hd (replicate MAX_LINK NULL) in
  let* x := rd_link 0 x in
  let* cmpf := get_list cmp_func in
  let* dup := (if is_null x then ret false
               else let* xk := rd key x in ret (cmpf ky xk =? 0)) in
  if dup : bool then
    if negb overwrite then ret 1
    else
      call_del x;;
      wr (with_key ky) x;;
      wr (with_datum v) x;;
      ret 0
  else
    let* n := node_insert ky v update m in
    ret (if is_null n then -1 else 0).

(** The inner [while] of [skiplist_probe]: [inl x] when an equal key is met
    at [x], [inr x] when the loop ends at [x]. *)
Fixpoint probe_advance (fuel : nat) (k : nat) (ky : Z) (x : ptr) : M state (ptr + ptr) :=
  match fuel with
  | O => nofuel
  | S fuel =>
      let* n := rd_link k x in
      if is_null n then ret (inr x)
      else
        let* cmpf := get_list cmp_func in
        let* nk := rd key n in
        let cmp := cmpf ky nk in
        if cmp <? 0 then ret (inr x)
        else
          let* lc := rd link_count n in
          ASSERT (k <? lc)%nat;;
          if cmp =? 0 then ret (inl n)
          else probe_advance fuel k ky n
  end.

Fixpoint probe_descend (fuel : nat) (n : nat) (ky : Z) (x : ptr) (update : list ptr)
  : M state (ptr + list ptr) :=
  match n with
  | O => ret (inr update)
  | S k =>
      let* lc := rd link_count x in
      ASSERT (k <? lc)%nat;;
      let* r := probe_advance fuel k ky x in
      match r with
      | inl x => ret (inl x)
      | inr x =>
          let* update := arr_set k x update in
          probe_descend fuel k ky x update
      end
  end.

(** [skiplist_probe]: the cell [*datum] holds [v] on entry; the answer pairs
    the return code with the cell's content on exit. *)
Definition skiplist_probe (fuel : nat) (ky v : Z) (m : ptr) : M state (Z * Z) :=
  let* hd := get_list head in
  let* top := get_list top_link in
  let* r := probe_descend fuel (top + 1) ky hd (replicate MAX_LINK NULL) in
  match r with
  | inl x =>
      let* d := rd datum x in
      ret (0, d)
  | inr update =>
      let* n := node_insert ky v update m in
      ret (if is_null n then -1 else 1, v)
  end.

(** The inner [while] of [skiplist_search] and [skiplist_itor_search]. *)
Fixpoint search_advance (fuel : nat) (k : nat) (ky : Z) (x : ptr) : M state (ptr + ptr) :=
  match fuel with
  | O => nofuel
  | S fuel =>
      let* n := rd_link k x in
      if is_null n then ret (inr x)
      else
        let* cmpf := get_list cmp_func in
        let* nk := rd key n in
        let cmp := cmpf ky nk in
        if cmp <? 0 then ret (inr x)
        else if cmp =? 0 then ret (inl n)
        else search_advance fuel k ky n
  end.

(** The outer [for] of [skiplist_search]: the node found, or NULL. *)
Fixpoint search_descend (fuel : nat) (n : nat) (ky : Z) (x : ptr) : M state ptr :=
  match n with
  | O => ret NULL
  | S k =>
      let* r := search_advance fuel k ky x in
      match r with
      | inl x => ret x
      | inr x => search_descend fuel k ky x
      end
  end.

Definition skiplist_search (fuel : nat) (ky : Z) : M state Z :=
  let* hd := get_list head in
  let* top := get_list top_link in
  let* x := search_descend fuel (top + 1) ky hd in
  if is_null x then ret NULLZ else rd datum x.

(** [for (k = 0; k <= top_link; k++) { ...; if (update[k]->link[k] != x)
    break; update[k]->link[k] = x->link[k]; }] with [n] iterations left. *)
Fixpoint unlink (n k : nat) (x : ptr) (update : list ptr) : M state unit :=
  match n with
  | O => ret tt
  | S n =>
      let* uk := arr_get k update in
      ASSERT (negb (is_null uk));;
      let* lc := rd link_count uk in
      ASSERT (k <? lc)%nat;;
      let* ul := rd_link k uk in
      if negb (ptr_eqb ul x) then ret tt
      else
        let* xl := rd_link k x in
        wr_link k xl uk;;
        unlink n (S k) x update
  end.

(** [while (list->top_link > 0 && !list->head->link[list->top_link])
    list->top_link--;] by recursion on the value of [top_link]. *)
Fixpoint shrink (top : nat) : M state unit :=
  match top with
  | O => ret tt
  | S top' =>
      let* hd := get_list head in
      let* hl := rd_link top hd in
      if is_null hl then
        set_list (with_top_link top');;
        shrink top'
      else ret tt
  end.

Definition skiplist_remove (fuel : nat) (ky : Z) : M state bool :=
  let* hd := get_list head in
  let* top := get_list top_link in
  let* (x, update) := descend fuel (top + 1) ky hd (replicate MAX_LINK NULL) in
  let* x := rd_link 0 x in
  let* cmpf := get_list cmp_func in
  let* miss := (if is_null x then ret true
                else let* xk := rd key x in ret (negb (cmpf ky xk =? 0))) in
  if miss : bool then ret false
  else
    unlink (top + 1) 0 x update;;
    call_del x;;
    FREE x;;
    let* top := get_list top_link in
    shrink top;;
    let* c := get_list count in
    set_list (with_count (wrap_size (c - 1)));;
    ret true.

Fixpoint clear_loop (fuel : nat) (node : ptr) : M state unit :=
  match node with
  | None => ret tt
  | Some _ =>
      match fuel with
      | O => nofuel
      | S fuel =>
          let* next := rd_link 0 node in
          call_del node;;
          FREE node;;
          clear_loop fuel next
      end
  end.

(** [while (list->top_link) list->head->link[--list->top_link] = NULL;] *)
Fixpoint clear_links (top : nat) : M state unit :=
  match top with
  | O => ret tt
  | S top' =>
      set_list (with_top_link top');;
      let* hd := get_list head in
      wr_link top' NULL hd;;
      clear_links top'
  end.

Definition skiplist_clear (fuel : nat) : M state Z :=
  let* hd := get_list head in
  let* node := rd_link 0 hd in
  clear_loop fuel node;;
  let* cnt := get_list count in
  set_list (with_count 0);;
  let* top := get_list top_link in
  wr_link top NULL hd;;
  clear_links top;;
  ret cnt.

Fixpoint traverse_loop {V : Type} (fuel : nat) (visit : V → Z → Z → bool * V)
    (node : ptr) (cnt : Z) (v : V) : M state (Z * V) :=
  match node with
  | None => ret (cnt, v)
  | Some _ =>
      match fuel with
      | O => nofuel
      | S fuel =>
          let cnt := wrap_size (cnt + 1) in
          let* k := rd key node in
          let* d := rd datum node in
          let '(go, v) := visit v k d in
          if negb go then ret (cnt, v)
          else
            let* nx := rd_link 0 node in
            traverse_loop fuel visit nx cnt v
      end
  end.

Definition skiplist_traverse {V : Type} (fuel : nat) (visit : V → Z → Z → bool * V)
    (v : V) : M state (Z * V) :=
  let* hd := get_list head in
  let* node := rd_link 0 hd in
  traverse_loop fuel visit node 0 v.

Definition skiplist_count : M state Z := get_list count.

(** The inner [for] of [skiplist_verify], with [n] iterations left. *)
Fixpoint verify_links (n k : nat) (node : ptr) : M state unit :=
  match n with
  | O => ret tt
  | S n =>
      let* l := rd_link k node in
      (if negb (is_null l) then
         let* lc := rd link_count l in
         ASSERT (k <=? lc)%nat
       else ret tt);;
      verify_links n (S k) node
  end.

Fixpoint verify_loop (fuel : nat) (node : ptr) : M state unit :=
  match node with
  | None => ret tt
  | Some _ =>
      match fuel with
      | O => nofuel
      | S fuel =>
          let* lc := rd link_count node in
          ASSERT (1 <=? lc)%nat;;
          let* top := get_list top_link in
          ASSERT (lc <=? top)%nat;;
          verify_links lc 0 node;;
          let* nx := rd_link 0 node in
          verify_loop fuel nx
      end
  end.

Definition skiplist_verify (fuel : nat) : M state unit :=
  let* top := get_list top_link in
  let* ml := get_list max_link in
  ASSERT (top <=? ml)%nat;;
  let* hd := get_list head in
  let* node := rd_link 0 hd in
  verify_loop fuel node.

(** *** Iterators: the iterator's [node] field is passed in and handed
    back. *)

(** [VALID(itor)] *)
Definition VALID (itor : ptr) : M state bool :=
  let* hd := get_list head in
  ret (negb (is_null itor) && negb (ptr_eqb itor hd)).

Definition skiplist_itor_first (itor : ptr) : M state (bool * ptr) :=
  let* hd := get_list head in
  let* node := rd_link 0 hd in
  let* b := VALID node in
  ret (b, node).

(** [while (x->link[k]) x = x->link[k];] *)
Fixpoint run_level (fuel : nat) (k : nat) (x : ptr) : M state ptr :=
  match fuel with
  | O => nofuel
  | S fuel =>
      let* n := rd_link k x in
      if is_null n then ret x else run_level fuel k n
  end.

Fixpoint last_descend (fuel : nat) (n : nat) (x : ptr) : M state ptr :=
  match n with
  | O => ret x
  | S k =>
      let* x := run_level fuel k x in
      last_descend fuel k x
  end.

Definition skiplist_itor_last (fuel : nat) (itor : ptr) : M state (bool * ptr) :=
  let* hd := get_list head in
  let* top := get_list top_link in
  let* x := last_descend fuel top hd in
  if ptr_eqb x hd then ret (false, NULL) else ret (true, x).

Definition skiplist_itor_next (itor : ptr) : M state (bool * ptr) :=
  if is_null itor then skiplist_itor_first itor
  else
    let* node := rd_link 0 itor in
    let* b := VALID node in
    ret (b, node).

Definition skiplist_itor_prev (fuel : nat) (itor : ptr) : M state (bool * ptr) :=
  if is_null itor then skiplist_itor_last fuel itor
  else
    let* node := rd prev itor in
    let* b := VALID node in
    ret (b, node).

Fixpoint skiplist_itor_nextn (itor : ptr) (cnt : nat) : M state (bool * ptr) :=
  match cnt with
  | O => let* b := VALID itor in ret (b, itor)
  | S cnt =>
      let* (b, itor) := skiplist_itor_next itor in
      if negb b then ret (false, itor)
      else skiplist_itor_nextn itor cnt
  end.

Fixpoint skiplist_itor_prevn (fuel : nat) (itor : ptr) (cnt : nat) : M state (bool * ptr) :=
  match cnt with
  | O => let* b := VALID itor in ret (b, itor)
  | S cnt =>
      let* (b, itor) := skiplist_itor_prev fuel itor in
      if negb b then ret (false, itor)
      else skiplist_itor_prevn fuel itor cnt
  end.

(** [skiplist_itor_new]: [m] tells whether MALLOC answers with a block for
    the iterator object; the answer is the new iterator's [node] field,
    [None] when the function returns NULL. *)
Definition skiplist_itor_new (m : bool) : M state (option ptr) :=
  if m then
    let* (_, node) := skiplist_itor_first NULL in
    ret (Some node)
  else ret None.

Definition skiplist_itor_valid (itor : ptr) : M state bool := VALID itor.

Definition skiplist_itor_invalidate (itor : ptr) : ptr := NULL.

Definition skiplist_itor_search (fuel : nat) (itor : ptr) (ky : Z)
  : M state (bool * ptr) :=
  let* hd := get_list head in
  let* top := get_list top_link in
  let* x := search_descend fuel (top + 1) ky hd in
  ret (negb (is_null x), x).

Definition skiplist_itor_key (itor : ptr) : M state Z :=
  if is_null itor then ret NULLZ else rd key itor.

Definition skiplist_itor_data (itor : ptr) : M state Z :=
  if is_null itor then ret NULLZ else rd datum itor.

(** [skiplist_itor_set_data]: [old] is the cell [*prev_datum] on entry,
    [None] for a NULL [prev_datum]; the answer pairs the return value with
    the cell on exit. *)
Definition skiplist_itor_set_data (itor : ptr) (v : Z) (old : option Z)
  : M state (bool * option Z) :=
  if is_null itor then ret (false, old)
  else
    let* old := (match old with
                 | None => ret None
                 | Some _ => let* d := rd datum itor in ret (Some d)
                 end) in
    wr (with_datum v) itor;;
    ret (true, old).

(** [skiplist_free]: the list object is not in the node heap; after
    [skiplist_clear] the head node is released, then the list object. *)
Definition skiplist_free (fuel : nat) : M state Z :=
  let* cnt := skiplist_clear fuel in
  let* hd := get_list head in
  FREE hd;;
  ret cnt.
(** *** The list a heap stores

    The nodes of a skip list, in the order of the bottom level: address,
    key, datum and level count of each.  The head is the first item of the
    chain, with [max_link] levels. *)

Record item : Type := mk_item { ia : positive; ik : Z; id : Z; ilc : nat }.

(** The first node at level [k] in [q], or [dflt] when there is none. *)
Fixpoint nxtd (k : nat) (q : list item) (dflt : ptr) : ptr :=
  match q with
  | [] => dflt
  | y :: q' => if (k <? ilc y)%nat then Some (ia y) else nxtd k q' dflt
  end.

(** The last node at level [k] in [p], or [dflt] when there is none. *)
Fixpoint predk (k : nat) (dflt : positive) (p : list item) : positive :=
  match p with
  | [] => dflt
  | x :: p' => predk k (if (k <? ilc x)%nat then ia x else dflt) p'
  end.

(** The node of [x] is in the heap with its key, datum and level count, and
    its forward link at each level [k] is [succ k]. *)
Definition node_ok (h : gmap positive skip_node) (x : item) (succ : nat → ptr) : Prop :=
  ∃ pv ls,
    h !! ia x = Some (mk_node (ik x) (id x) pv (ilc x) ls)
    ∧ length ls = ilc x
    ∧ ∀ k, (k < ilc x)%nat → ls !! k = Some (succ k).

(** The segment [xs] is laid out in [h]; [tl k] is the level-[k] link that
    leaves the segment. *)
Fixpoint RN (h : gmap positive skip_node) (tl : nat → ptr) (xs : list item) : Prop :=
  match xs with
  | [] => True
  | x :: q => node_ok h x (λ k, nxtd k q (tl k)) ∧ RN h tl q
  end.

Definition no_tl : nat → ptr := λ _, NULL.

Definition hitem (hd : positive) (ml : nat) : item := mk_item hd NULLZ NULLZ ml.

Definition SLInv (s : state) (xs : list item) : Prop :=
  ∃ hd,
    head (lst s) = Some hd
    ∧ RN (mem s) no_tl (hitem hd (max_link (lst s)) :: xs)
    ∧ NoDup (hd :: (ia <$> xs))
    ∧ Forall (λ x, 1 ≤ ilc x ≤ top_link (lst s) + 1)%nat xs
    ∧ (top_link (lst s) < max_link (lst s) ≤ MAX_LINK)%nat
    ∧ sorted (cmp_func (lst s)) (ik <$> xs)
    ∧ count (lst s) = wrap_size (Z.of_nat (length xs)).

Definition sl_entries (xs : list item) : list (Z * Z) := (λ x, (ik x, id x)) <$> xs.

(** *** Running field accesses *)

Lemma sl_bind_rd {A B : Type} (f : skip_node → A) (k : A → M state B) a n s :
  mem s !! a = Some n → bind (rd f (Some a)) k s = k (f n) s.
Proof. intros H. unfold bind, rd. by rewrite H. Qed.

Lemma sl_bind_wr {B : Type} (g : skip_node → skip_node) (k : unit → M state B) a n s :
  mem s !! a = Some n →
  bind (wr g (Some a)) k s = k tt (mk_state (lst s) (<[a := g n]> (mem s)) (dlog s)).
Proof. intros H. unfold bind, wr. by rewrite H. Qed.

Lemma sl_bind_get {A B : Type} (f : skiplist → A) (k : A → M state B) s :
  bind (get_list f) k s = k (f (lst s)) s.
Proof. reflexivity. Qed.

Lemma sl_bind_set {B : Type} (g : skiplist → skiplist) (k : unit → M state B) s :
  bind (set_list g) k s = k tt (mk_state (g (lst s)) (mem s) (dlog s)).
Proof. reflexivity. Qed.

Lemma sl_bind_rd_link {B : Type} (j : nat) (k : ptr → M state B) a n v s :
  mem s !! a = Some n → link n !! j = Some v →
  bind (rd_link j (Some a)) k s = k v s.
Proof.
  intros H Hj. unfold rd_link. rewrite bind_assoc.
  erewrite sl_bind_rd by exact H. by rewrite Hj.
Qed.

Lemma sl_bind_wr_link {B : Type} (j : nat) (v : ptr) (k : unit → M state B) a n s :
  mem s !! a = Some n → (j < length (link n))%nat →
  bind (wr_link j v (Some a)) k s
  = k tt (mk_state (lst s) (<[a := with_link j v n]> (mem s)) (dlog s)).
Proof.
  intros H Hj. unfold wr_link. rewrite bind_assoc.
  erewrite sl_bind_rd by exact H.
  apply Nat.ltb_lt in Hj. rewrite Hj. by erewrite sl_bind_wr by exact H.
Qed.

(** *** Basic facts *)

Lemma nxtd_app k q r d : nxtd k (q ++ r) d = nxtd k q (nxtd k r d).
Proof. induction q as [|y q IH]; simpl; [done|]. by rewrite IH. Qed.

Lemma predk_snoc k d p x :
  predk k d (p ++ [x]) = if (k <? ilc x)%nat then ia x else predk k d p.
Proof.
  revert d. induction p as [|y p IH]; intros d; simpl; [done|]. by rewrite IH.
Qed.

Lemma nxtd_none k q d :
  Forall (λ x, ilc x ≤ k)%nat q → nxtd k q d = d.
Proof.
  induction 1 as [|y q Hy _ IH]; simpl; [done|].
  destruct (Nat.ltb_spec k (ilc y)); [lia|done].
Qed.

Lemma nxtd_zero q d :
  Forall (λ x, 1 ≤ ilc x)%nat q →
  nxtd 0 q d = match q with [] => d | y :: _ => Some (ia y) end.
Proof.
  destruct 1 as [|y q Hy _]; simpl; [done|].
  destruct (Nat.ltb_spec 0 (ilc y)); [done|lia].
Qed.

Lemma nxtd_elem k q d a :
  nxtd k q d = Some a → d = Some a ∨ a ∈ ia <$> q.
Proof.
  induction q as [|y q IH]; simpl; [by left|].
  destruct (k <? ilc y)%nat.
  - intros [= <-]. right. set_solver.
  - intros H. destruct (IH H); [by left|right; set_solver].
Qed.

Lemma node_ok_ext h x f g :
  (∀ k, (k < ilc x)%nat → f k = g k) → node_ok h x f → node_ok h x g.
Proof.
  intros Hfg (pv & ls & H1 & H2 & H3). exists pv, ls. split_and!; [done..|].
  intros k Hk. rewrite <- Hfg by done. by apply H3.
Qed.

Lemma RN_ext h tl tl' xs :
  (∀ k, tl k = tl' k) → RN h tl xs → RN h tl' xs.
Proof.
  intros Ht. induction xs as [|x q IH]; simpl; [done|].
  intros [H1 H2]. split; [|by apply IH].
  eapply node_ok_ext; [|exact H1]. intros k _. simpl. by rewrite Ht.
Qed.

Lemma RN_app h tl xs ys :
  RN h tl (xs ++ ys) ↔ RN h (λ k, nxtd k ys (tl k)) xs ∧ RN h tl ys.
Proof.
  induction xs as [|x q IH]; simpl; [tauto|].
  rewrite IH. split.
  - intros (H1 & H2 & H3). split_and!; [|done..].
    eapply node_ok_ext; [|exact H1]. intros k _. simpl. by rewrite nxtd_app.
  - intros ((H1 & H2) & H3). split_and!; [|done..].
    eapply node_ok_ext; [|exact H1]. intros k _. simpl. by rewrite nxtd_app.
Qed.

Lemma node_ok_frame h h' x f :
  h' !! ia x = h !! ia x → node_ok h x f → node_ok h' x f.
Proof. intros He (pv & ls & H1 & H2). exists pv, ls. by rewrite He. Qed.

Lemma RN_frame h h' tl xs :
  (∀ a, a ∈ ia <$> xs → h' !! a = h !! a) → RN h tl xs → RN h' tl xs.
Proof.
  induction xs as [|x q IH]; simpl; [done|].
  intros Hf [H1 H2]. split.
  - eapply node_ok_frame; [|exact H1]. apply Hf. set_solver.
  - apply IH; [|done]. intros a Ha. apply Hf. set_solver.
Qed.

Lemma RN_lookup h tl xs x :
  RN h tl xs → x ∈ xs →
  ∃ pv ls, h !! ia x = Some (mk_node (ik x) (id x) pv (ilc x) ls)
           ∧ length ls = ilc x.
Proof.
  induction xs as [|y q IH]; simpl; [by intros _ ?%elem_of_nil|].
  intros [H1 H2]. rewrite elem_of_cons. intros [->|Hin]; [|by apply IH].
  destruct H1 as (pv & ls & ? & ? & _). by exists pv, ls.
Qed.

(** The level-[k] link of the last level-[k] node of a segment leaves the
    segment. *)
Lemma RN_pred_link h tl k x p :
  RN h tl (x :: p) → (k < ilc x)%nat →
  ∃ y pv ls,
    y ∈ x :: p ∧ ia y = predk k (ia x) p
    ∧ h !! ia y = Some (mk_node (ik y) (id y) pv (ilc y) ls)
    ∧ length ls = ilc y ∧ (k < ilc y)%nat
    ∧ ls !! k = Some (tl k).
Proof.
  revert x tl. induction p as [|z p IH] using rev_ind; intros x tl.
  - simpl. intros [(pv & ls & H1 & H2 & H3) _] Hk.
    exists x, pv, ls. split_and!; try done; [set_solver|by apply H3].
  - intros HR Hk. rewrite app_comm_cons in HR. apply RN_app in HR as [HR Hz].
    rewrite predk_snoc.
    destruct (Nat.ltb_spec k (ilc z)) as [Hlt|Hge].
    + simpl in Hz. destruct Hz as [(pv & ls & H1 & H2 & H3) _].
      exists z, pv, ls. split_and!; try done; [set_solver|by apply H3].
    + destruct (IH x _ HR Hk) as (y & pv & ls & Hy & ? & ? & ? & ? & Hl).
      exists y, pv, ls. split_and!; try done; [set_solver|].
      rewrite Hl. simpl. destruct (Nat.ltb_spec k (ilc z)); [lia|done].
Qed.
(** *** Walking a level *)

Ltac sl_simpl :=
  cbn [is_null negb key datum prev link_count link
       with_key with_datum with_prev with_link
       mem lst dlog head max_link top_link cmp_func del_func count randgen
       with_top_link with_count with_randgen
       ia ik id ilc hitem fst snd].

Ltac sl_step :=
  first
    [ rewrite sl_bind_get
    | rewrite sl_bind_set
    | rewrite bind_ret
    | rewrite bind_assoc
    | rewrite assert_true
    | erewrite sl_bind_rd by (sl_simpl; first [eassumption | reflexivity]) ];
  sl_simpl.

Ltac sl_run H := erewrite bind_ok by exact H; sl_simpl.

(** The inner loop of [skiplist_insert] and [skiplist_remove] on the list:
    from the node [cur], over the nodes [post] that follow it. *)
Fixpoint awalk (cmp : Z → Z → Z) (k : nat) (ky : Z) (cur : positive)
    (post : list item) : positive :=
  match post with
  | [] => cur
  | y :: q =>
      if (k <? ilc y)%nat then
        if cmp ky (ik y) >? 0 then awalk cmp k ky (ia y) q else cur
      else awalk cmp k ky cur q
  end.

(** The inner loop of [skiplist_search] and [skiplist_probe] on the list. *)
Fixpoint swalk (cmp : Z → Z → Z) (k : nat) (ky : Z) (cur : positive)
    (post : list item) : item + positive :=
  match post with
  | [] => inr cur
  | y :: q =>
      if (k <? ilc y)%nat then
        if cmp ky (ik y) <? 0 then inr cur
        else if cmp ky (ik y) =? 0 then inl y
        else swalk cmp k ky (ia y) q
      else swalk cmp k ky cur q
  end.

Lemma awalk_lo cmp k ky hd pre lo hi :
  Forall (λ x, cmp ky (ik x) > 0) lo →
  Forall (λ x, ¬ cmp ky (ik x) > 0) hi →
  awalk cmp k ky (predk k hd pre) (lo ++ hi) = predk k hd (pre ++ lo).
Proof.
  intros Hlo Hhi. revert pre. induction Hlo as [|y lo Hy _ IH]; intros pre.
  - rewrite app_nil_r. simpl. generalize (predk k hd pre) as cur.
    induction Hhi as [|y hi Hy _ IH]; intros cur; simpl; [done|].
    destruct (k <? ilc y)%nat; [|done].
    destruct (Z.gtb_spec (cmp ky (ik y)) 0); [lia|done].
  - simpl. replace (pre ++ y :: lo) with ((pre ++ [y]) ++ lo) by by rewrite <- app_assoc.
    rewrite <- IH, predk_snoc.
    destruct (k <? ilc y)%nat; [|done].
    destruct (Z.gtb_spec (cmp ky (ik y)) 0); [done|lia].
Qed.

Lemma swalk_absent cmp k ky hd pre lo hi :
  Forall (λ x, cmp ky (ik x) > 0) lo →
  Forall (λ x, cmp ky (ik x) < 0) hi →
  swalk cmp k ky (predk k hd pre) (lo ++ hi) = inr (predk k hd (pre ++ lo)).
Proof.
  intros Hlo Hhi. revert pre. induction Hlo as [|y lo Hy _ IH]; intros pre.
  - rewrite app_nil_r. simpl. generalize (predk k hd pre) as cur.
    induction Hhi as [|y hi Hy _ IH]; intros cur; simpl; [done|].
    destruct (k <? ilc y)%nat; [|done].
    destruct (Z.ltb_spec (cmp ky (ik y)) 0); [done|lia].
  - simpl. replace (pre ++ y :: lo) with ((pre ++ [y]) ++ lo) by by rewrite <- app_assoc.
    rewrite <- IH, predk_snoc.
    destruct (k <? ilc y)%nat; [|done].
    destruct (Z.ltb_spec (cmp ky (ik y)) 0); [lia|].
    destruct (Z.eqb_spec (cmp ky (ik y)) 0); [lia|done].
Qed.

Lemma swalk_present cmp k ky hd pre lo z hi :
  Forall (λ x, cmp ky (ik x) > 0) lo →
  cmp ky (ik z) = 0 →
  Forall (λ x, cmp ky (ik x) < 0) hi →
  swalk cmp k ky (predk k hd pre) (lo ++ z :: hi)
  = if (k <? ilc z)%nat then inl z else inr (predk k hd (pre ++ lo)).
Proof.
  intros Hlo Hz Hhi. revert pre. induction Hlo as [|y lo Hy _ IH]; intros pre.
  - rewrite app_nil_r. simpl. rewrite Hz. simpl.
    destruct (k <? ilc z)%nat; [done|].
    generalize (predk k hd pre) as cur.
    induction Hhi as [|y hi Hy _ IH]; intros cur; simpl; [done|].
    destruct (k <? ilc y)%nat; [|done].
    destruct (Z.ltb_spec (cmp ky (ik y)) 0); [done|lia].
  - simpl. replace (pre ++ y :: lo) with ((pre ++ [y]) ++ lo) by by rewrite <- app_assoc.
    rewrite <- IH, predk_snoc.
    destruct (k <? ilc y)%nat; [|done].
    destruct (Z.ltb_spec (cmp ky (ik y)) 0); [lia|].
    destruct (Z.eqb_spec (cmp ky (ik y)) 0); [lia|done].
Qed.

(** The node where level [k+1] ends is a level-[k] node of the prefix. *)
Lemma predk_prefix k hd lo :
  ∃ pre post, lo = pre ++ post ∧ predk (S k) hd lo = predk k hd pre.
Proof.
  induction lo as [|y lo IH] using rev_ind.
  - by exists [], [].
  - rewrite predk_snoc. destruct (Nat.ltb_spec (S k) (ilc y)).
    + exists (lo ++ [y]), []. rewrite app_nil_r, predk_snoc.
      destruct (Nat.ltb_spec k (ilc y)); [done|lia].
    + destruct IH as (pre & post & -> & ->).
      exists pre, (post ++ [y]). by rewrite app_assoc.
Qed.

(** Above every level count, the last node is the head. *)
Lemma predk_above k hd p :
  Forall (λ x, ilc x ≤ k)%nat p → predk k hd p = hd.
Proof.
  revert hd. induction p as [|y p IH]; intros hd Hp; simpl; [done|].
  apply Forall_cons in Hp as [Hy Hp].
  destruct (Nat.ltb_spec k (ilc y)); [lia|]. by apply IH.
Qed.

(** A list sorted by [cmp] splits at any key. *)
Lemma sl_split3 cmp xs ky :
  strict_total cmp → sorted cmp (ik <$> xs) →
  ∃ lo hi,
    Forall (λ x, cmp ky (ik x) > 0) lo
    ∧ Forall (λ x, cmp ky (ik x) < 0) hi
    ∧ (xs = lo ++ hi ∨ ∃ z, ik z = ky ∧ xs = lo ++ z :: hi).
Proof.
  intros Hcmp. induction xs as [|x q IH]; intros Hs.
  - exists [], []. split_and!; [done..|by left].
  - rewrite fmap_cons in Hs. apply sorted_cons in Hs as [Hx Hs].
    destruct (cmp_cases _ Hcmp (ik x) ky) as [Hlt|[Heq|Hgt]].
    + destruct (IH Hs) as (lo & hi & Hlo & Hhi & Hsp).
      exists (x :: lo), hi. split_and!; [|done|].
      * constructor; [|done]. apply (cmp_gt_lt _ Hcmp) in Hlt. lia.
      * destruct Hsp as [->|(z & Hz & ->)]; [by left|right; by exists z].
    + exists [], q. split_and!; [done| |right; by exists x].
      rewrite Forall_fmap in Hx. subst ky. exact Hx.
    + exists [], (x :: q). split_and!; [done| |by left].
      constructor; [done|]. rewrite Forall_fmap in Hx.
      eapply Forall_impl; [exact Hx|]. cbn. intros y Hy.
      by apply (cmp_trans _ Hcmp _ (ik x)).
Qed.

(** *** The loops on the heap *)

Section walk.
Context (s : state) (hd : positive) (ml : nat).

Lemma sl_advance_spec k ky post : ∀ pre fuel,
  RN (mem s) no_tl (hitem hd ml :: pre ++ post) →
  (k < ml)%nat → (length post < fuel)%nat →
  advance fuel k ky (Some (predk k hd pre)) s
  = Ok (Some (awalk (cmp_func (lst s)) k ky (predk k hd pre) post), s).
Proof.
  induction post as [|y q IH]; intros pre fuel HR Hk Hf.
  - destruct fuel as [|fuel]; [simpl in Hf; lia|]. cbn [advance awalk].
    rewrite app_nil_r in HR.
    destruct (RN_pred_link _ _ k _ _ HR Hk) as (c & pv & ls & _ & Hc & Hl & _ & _ & Hk').
    cbn [hitem ia] in Hc. rewrite Hc in Hl.
    erewrite sl_bind_rd_link by eassumption. done.
  - assert (HR' := HR). rewrite app_comm_cons in HR'. apply RN_app in HR' as [HRp HRq].
    destruct (RN_pred_link _ _ k _ _ HRp Hk) as (c & pv & ls & _ & Hc & Hl & _ & _ & Hk').
    cbn [hitem ia] in Hc. rewrite Hc in Hl.
    cbn [awalk]. cbn [nxtd] in Hk'.
    assert (HR2 : RN (mem s) no_tl (hitem hd ml :: (pre ++ [y]) ++ q))
      by by rewrite <- app_assoc.
    destruct (Nat.ltb_spec k (ilc y)) as [Hlt|Hge].
    + destruct fuel as [|fuel]; [simpl in Hf; lia|]. cbn [advance].
      erewrite sl_bind_rd_link by eassumption. sl_simpl.
      destruct HRq as [(pvy & lsy & Hy & _) _].
      repeat sl_step.
      destruct (Z.gtb_spec (cmp_func (lst s) ky (ik y)) 0); [|done].
      specialize (IH (pre ++ [y]) fuel HR2 Hk). rewrite predk_snoc in IH.
      apply Nat.ltb_lt in Hlt. rewrite Hlt in IH. apply IH. simpl in Hf. lia.
    + specialize (IH (pre ++ [y]) fuel HR2 Hk). rewrite predk_snoc in IH.
      apply Nat.ltb_ge in Hge. rewrite Hge in IH. apply IH. simpl in Hf. lia.
Qed.

Lemma sl_search_advance_spec k ky post : ∀ pre fuel,
  RN (mem s) no_tl (hitem hd ml :: pre ++ post) →
  (k < ml)%nat → (length post < fuel)%nat →
  search_advance fuel k ky (Some (predk k hd pre)) s
  = Ok (match swalk (cmp_func (lst s)) k ky (predk k hd pre) post with
        | inl z => inl (Some (ia z))
        | inr c => inr (Some c)
        end, s).
Proof.
  induction post as [|y q IH]; intros pre fuel HR Hk Hf.
  - destruct fuel as [|fuel]; [simpl in Hf; lia|]. cbn [search_advance swalk].
    rewrite app_nil_r in HR.
    destruct (RN_pred_link _ _ k _ _ HR Hk) as (c & pv & ls & _ & Hc & Hl & _ & _ & Hk').
    cbn [hitem ia] in Hc. rewrite Hc in Hl.
    erewrite sl_bind_rd_link by eassumption. done.
  - assert (HR' := HR). rewrite app_comm_cons in HR'. apply RN_app in HR' as [HRp HRq].
    destruct (RN_pred_link _ _ k _ _ HRp Hk) as (c & pv & ls & _ & Hc & Hl & _ & _ & Hk').
    cbn [hitem ia] in Hc. rewrite Hc in Hl.
    cbn [swalk]. cbn [nxtd] in Hk'.
    assert (HR2 : RN (mem s) no_tl (hitem hd ml :: (pre ++ [y]) ++ q))
      by by rewrite <- app_assoc.
    destruct (Nat.ltb_spec k (ilc y)) as [Hlt|Hge].
    + destruct fuel as [|fuel]; [simpl in Hf; lia|]. cbn [search_advance].
      erewrite sl_bind_rd_link by eassumption. sl_simpl.
      destruct HRq as [(pvy & lsy & Hy & _) _].
      repeat sl_step.
      destruct (Z.ltb_spec (cmp_func (lst s) ky (ik y)) 0); [done|].
      destruct (Z.eqb_spec (cmp_func (lst s) ky (ik y)) 0); [done|].
      specialize (IH (pre ++ [y]) fuel HR2 Hk). rewrite predk_snoc in IH.
      apply Nat.ltb_lt in Hlt. rewrite Hlt in IH. apply IH. simpl in Hf. lia.
    + specialize (IH (pre ++ [y]) fuel HR2 Hk). rewrite predk_snoc in IH.
      apply Nat.ltb_ge in Hge. rewrite Hge in IH. apply IH. simpl in Hf. lia.
Qed.

End walk.
(** *** The descent through the levels *)

Section descent.
Context (s : state) (hd : positive) (ml : nat) (ky : Z) (lo rest : list item).
Context (HR : RN (mem s) no_tl (hitem hd ml :: lo ++ rest)).
Context (Hlo : Forall (λ x, cmp_func (lst s) ky (ik x) > 0) lo).

(** Where the descent stands before level [n - 1]. *)
Definition at_level (n : nat) (cur : positive) : Prop :=
  match n with
  | O => cur = predk 0 hd lo
  | S k => ∃ pre post, lo = pre ++ post ∧ cur = predk k hd pre
  end.

Lemma at_level_next k : at_level k (predk k hd lo).
Proof. destruct k as [|k]; [done|]. apply predk_prefix. Qed.

Lemma at_level_head n : at_level (S n) hd.
Proof. by exists [], lo. Qed.

Lemma sl_node_at k pre post :
  lo = pre ++ post → (k < ml)%nat →
  ∃ n, mem s !! predk k hd pre = Some n ∧ (k < link_count n)%nat.
Proof.
  intros -> Hk. rewrite <- app_assoc, app_comm_cons in HR.
  apply RN_app in HR as [HRp _].
  destruct (RN_pred_link _ _ k _ _ HRp Hk) as (c & pv & ls & _ & Hc & Hl & _ & ? & _).
  cbn [hitem ia] in Hc. rewrite Hc in Hl. eexists. split; [exact Hl|done].
Qed.

Lemma sl_descend_spec fuel n : ∀ cur update,
  Forall (λ x, ¬ cmp_func (lst s) ky (ik x) > 0) rest →
  (n ≤ ml)%nat → (ml ≤ MAX_LINK)%nat → length update = MAX_LINK →
  (length (lo ++ rest) < fuel)%nat →
  at_level n cur →
  ∃ update',
    descend fuel n ky (Some cur) update s = Ok ((Some (predk 0 hd lo), update'), s)
    ∧ length update' = MAX_LINK
    ∧ (∀ j, (j < n)%nat → update' !! j = Some (Some (predk j hd lo)))
    ∧ (∀ j, (n ≤ j)%nat → update' !! j = update !! j).
Proof.
  intros cur update Hrest. revert cur update.
  induction n as [|k IH]; intros cur update Hn Hml Hu Hf Hat.
  - simpl in Hat. subst cur. exists update. split_and!; [done..|lia|done].
  - destruct Hat as (pre & post & Hsp & ->).
    destruct (sl_node_at k pre post Hsp) as (nd & Hnd & Hlc); [lia|].
    cbn [descend]. repeat sl_step.
    apply Nat.ltb_lt in Hlc. rewrite Hlc. rewrite assert_true.
    assert (Hadv := sl_advance_spec s hd ml k ky (post ++ rest) pre fuel).
    rewrite app_assoc, <- Hsp in Hadv.
    rewrite Hsp, Forall_app in Hlo. destruct Hlo as [_ Hpost].
    rewrite (awalk_lo _ _ _ _ _ _ _ Hpost Hrest), <- Hsp in Hadv.
    erewrite bind_ok; cycle 1.
    { apply Hadv; [done|lia|]. rewrite Hsp, <- app_assoc, length_app in Hf.
      lia. }
    unfold arr_set. rewrite Hu.
    assert (Hk32 : (k <? MAX_LINK)%nat = true) by (apply Nat.ltb_lt; lia).
    rewrite Hk32, bind_ret.
    destruct (IH (predk k hd lo) (<[k := Some (predk k hd lo)]> update))
      as (u' & Hrun & Hlen & Hlt & Hge);
      [lia|done|by rewrite length_insert|done|apply at_level_next|].
    exists u'. split_and!; [done..| |].
    + intros j Hj. destruct (decide (j = k)) as [->|Hne].
      * rewrite Hge by lia. rewrite list_lookup_insert_eq; [done|]. rewrite Hu. lia.
      * apply Hlt. lia.
    + intros j Hj. rewrite Hge by lia. apply list_lookup_insert_ne. lia.
Qed.

Lemma sl_search_descend_absent fuel n : ∀ cur,
  Forall (λ x, cmp_func (lst s) ky (ik x) < 0) rest →
  (n ≤ ml)%nat → (length (lo ++ rest) < fuel)%nat →
  at_level n cur →
  search_descend fuel n ky (Some cur) s = Ok (NULL, s).
Proof.
  intros cur Hrest. revert cur.
  induction n as [|k IH]; intros cur Hn Hf Hat; [done|].
  destruct Hat as (pre & post & Hsp & ->).
  cbn [search_descend].
  assert (Hadv := sl_search_advance_spec s hd ml k ky (post ++ rest) pre fuel).
  rewrite app_assoc, <- Hsp in Hadv.
  rewrite Hsp, Forall_app in Hlo. destruct Hlo as [_ Hpost].
  rewrite (swalk_absent _ _ _ _ _ _ _ Hpost Hrest), <- Hsp in Hadv.
  erewrite bind_ok; cycle 1.
  { apply Hadv; [done|lia|]. rewrite Hsp, <- app_assoc, length_app in Hf. lia. }
  apply IH; [lia|done|apply at_level_next].
Qed.

Lemma sl_search_descend_present fuel n z hi : ∀ cur,
  rest = z :: hi →
  cmp_func (lst s) ky (ik z) = 0 →
  Forall (λ x, cmp_func (lst s) ky (ik x) < 0) hi →
  (1 ≤ ilc z)%nat →
  (1 ≤ n ≤ ml)%nat → (length (lo ++ rest) < fuel)%nat →
  at_level n cur →
  search_descend fuel n ky (Some cur) s = Ok (Some (ia z), s).
Proof.
  intros cur -> Hz Hhi Hlc. revert cur.
  induction n as [|k IH]; intros cur Hn Hf Hat; [lia|].
  destruct Hat as (pre & post & Hsp & ->).
  cbn [search_descend].
  assert (Hadv := sl_search_advance_spec s hd ml k ky (post ++ z :: hi) pre fuel).
  rewrite app_assoc, <- Hsp in Hadv.
  rewrite Hsp, Forall_app in Hlo. destruct Hlo as [_ Hpost].
  rewrite (swalk_present _ _ _ _ _ _ _ _ Hpost Hz Hhi), <- Hsp in Hadv.
  erewrite bind_ok; cycle 1.
  { apply Hadv; [done|lia|]. rewrite Hsp, <- app_assoc, length_app in Hf. lia. }
  destruct (Nat.ltb_spec k (ilc z)); [done|].
  apply IH; [lia|done|apply at_level_next].
Qed.

End descent.

(** *** Search *)

Lemma sl_gt_iff cmp (Hcmp : strict_total cmp) x y : cmp x y > 0 ↔ cmp y x < 0.
Proof. rewrite <- (cmp_gt_lt _ Hcmp). lia. Qed.

Lemma sl_split_absent cmp xs ky :
  strict_total cmp → sorted cmp (ik <$> xs) → ky ∉ ik <$> xs →
  ∃ lo hi, xs = lo ++ hi
    ∧ Forall (λ x, cmp ky (ik x) > 0) lo ∧ Forall (λ x, cmp ky (ik x) < 0) hi.
Proof.
  intros Hcmp Hs Hni.
  destruct (sl_split3 cmp xs ky Hcmp Hs) as (lo & hi & Hlo & Hhi & [->|(z & Hz & ->)]).
  - by exists lo, hi.
  - exfalso. apply Hni. rewrite fmap_app, fmap_cons, Hz. set_solver.
Qed.

Lemma sl_split_present cmp xs x :
  strict_total cmp → sorted cmp (ik <$> xs) → x ∈ xs →
  ∃ lo hi, xs = lo ++ x :: hi
    ∧ Forall (λ y, cmp (ik x) (ik y) > 0) lo ∧ Forall (λ y, cmp (ik x) (ik y) < 0) hi.
Proof.
  intros Hcmp Hs Hin.
  apply list_elem_of_split in Hin as (lo & hi & ->).
  exists lo, hi. split; [done|].
  rewrite fmap_app, fmap_cons in Hs.
  apply sorted_app in Hs as (H1 & _ & H2). apply sorted_cons in H2 as [H2 _].
  split.
  - apply Forall_forall. intros y Hy. apply (sl_gt_iff _ Hcmp).
    apply H1; [|set_solver]. by apply list_elem_of_fmap_2.
  - by rewrite Forall_fmap in H2.
Qed.

Lemma sl_search_absent s xs ky fuel :
  strict_total (cmp_func (lst s)) → SLInv s xs →
  (ky ∉ ik <$> xs) → (length xs < fuel)%nat →
  skiplist_search fuel ky s = Ok (NULLZ, s).
Proof.
  intros Hcmp (hd & Hhd & HR & Hnd & Hlc & Htop & Hs & Hc) Hni Hf.
  destruct (sl_split_absent _ _ _ Hcmp Hs Hni) as (lo & hi & -> & Hlo & Hhi).
  unfold skiplist_search. repeat sl_step. rewrite Hhd.
  erewrite bind_ok; cycle 1.
  { eapply sl_search_descend_absent; try eassumption; [lia|].
    rewrite Nat.add_1_r. apply at_level_head. }
  done.
Qed.

Lemma sl_search_present s xs x fuel :
  strict_total (cmp_func (lst s)) → SLInv s xs →
  x ∈ xs → (length xs < fuel)%nat →
  skiplist_search fuel (ik x) s = Ok (id x, s).
Proof.
  intros Hcmp (hd & Hhd & HR & Hnd & Hlc & Htop & Hs & Hc) Hin Hf.
  assert (Hx : (1 ≤ ilc x)%nat).
  { rewrite Forall_forall in Hlc. by apply Hlc. }
  destruct (sl_split_present _ _ _ Hcmp Hs Hin) as (lo & hi & -> & Hlo & Hhi).
  unfold skiplist_search. repeat sl_step. rewrite Hhd.
  erewrite bind_ok; cycle 1.
  { eapply (sl_search_descend_present s hd _ (ik x) lo (x :: hi)); try eassumption;
      [done|by apply (cmp_refl _ Hcmp)|lia|].
    rewrite Nat.add_1_r. apply at_level_head. }
  sl_simpl.
  cbn [RN] in HR. destruct HR as [_ HR']. apply RN_app in HR' as [_ HRx].
  destruct HRx as [(pv & ls & Hl & _) _].
  unfold rd. by rewrite Hl.
Qed.
(** *** Traversal *)

Lemma wrap_size_idem z : wrap_size (wrap_size z) = wrap_size z.
Proof. unfold wrap_size. by rewrite Z.mod_mod. Qed.

Lemma sl_traverse_loop_spec {V : Type} (visit : V → Z → Z → bool * V) s :
  ∀ post fuel cnt v,
  RN (mem s) no_tl post → Forall (λ x, 1 ≤ ilc x)%nat post →
  (length post ≤ fuel)%nat → wrap_size cnt = cnt →
  traverse_loop fuel visit (nxtd 0 post NULL) cnt v s
  = Ok ((wrap_size (cnt + Z.of_nat (visit_run visit v (sl_entries post)).1),
         (visit_run visit v (sl_entries post)).2), s).
Proof.
  induction post as [|y q IH]; intros fuel cnt v HR Hlc Hf Hcnt.
  - simpl. rewrite Z.add_0_r, Hcnt. by destruct fuel.
  - apply Forall_cons in Hlc as [Hy Hq].
    destruct HR as [(pv & ls & Hl & Hlen & Hlk) HRq].
    cbn [nxtd]. destruct (Nat.ltb_spec 0 (ilc y)); [|lia].
    destruct fuel as [|fuel]; [simpl in Hf; lia|]. simpl in Hf.
    cbn [traverse_loop sl_entries fmap list_fmap visit_run].
    repeat sl_step.
    destruct (visit v (ik y) (id y)) as [go v'].
    destruct go; sl_simpl.
    2:{ unfold ret. do 3 f_equal. }
    erewrite sl_bind_rd_link; [|exact Hl|by apply Hlk]. cbn beta.
    unfold no_tl at 1.
    rewrite (IH fuel (wrap_size (cnt + 1)) v' HRq Hq); [|lia|apply wrap_size_idem].
    fold (sl_entries q).
    destruct (visit_run visit v' (sl_entries q)) as [n v'']. simpl.
    do 3 f_equal. unfold wrap_size. rewrite Zplus_mod_idemp_l. f_equal. lia.
Qed.

Lemma sl_traverse_spec {V : Type} (visit : V → Z → Z → bool * V) s xs v fuel :
  SLInv s xs → (length xs ≤ fuel)%nat →
  skiplist_traverse fuel visit v s
  = Ok ((wrap_size (Z.of_nat (visit_run visit v (sl_entries xs)).1),
         (visit_run visit v (sl_entries xs)).2), s).
Proof.
  intros (hd & Hhd & HR & Hnd & Hlc & Htop & Hs & Hc) Hf.
  unfold skiplist_traverse. rewrite sl_bind_get, Hhd.
  destruct HR as [(pv & ls & Hl & Hlen & Hlk) HRq]. cbn [hitem ia ilc] in *.
  erewrite sl_bind_rd_link; [|exact Hl|apply Hlk; lia]. cbn beta.
  unfold no_tl at 1.
  rewrite sl_traverse_loop_spec; [done|done| |done|done].
  eapply Forall_impl; [exact Hlc|]. cbn. lia.
Qed.

(** *** The level drawn for a new node *)

Lemma sl_rand_loop_bounds d r i : (i ≤ rand_loop d r i ≤ i + d)%nat.
Proof.
  revert i. induction d as [|d IH]; intros i; simpl; [lia|].
  destruct (r >? _); [lia|]. specialize (IH (S i)). lia.
Qed.

Lemma sl_rand_link_count_spec s :
  rand_link_count s
  = Ok (rand_loop (max_link (lst s) - 2)
          (wrap_u32 (randgen (lst s) * RGEN_A + RGEN_M)) 1,
        mk_state (with_randgen (wrap_u32 (randgen (lst s) * RGEN_A + RGEN_M)) (lst s))
          (mem s) (dlog s)).
Proof. reflexivity. Qed.

Lemma sl_rand_link_count_bounds s n s' :
  rand_link_count s = Ok (n, s') →
  (1 ≤ n)%nat ∧ (n ≤ Nat.max 1 (max_link (lst s) - 1))%nat
  ∧ lst s' = with_randgen (randgen (lst s')) (lst s)
  ∧ mem s' = mem s ∧ dlog s' = dlog s.
Proof.
  rewrite sl_rand_link_count_spec. intros [= <- <-].
  pose proof (sl_rand_loop_bounds (max_link (lst s) - 2)
                (wrap_u32 (randgen (lst s) * RGEN_A + RGEN_M)) 1).
  split_and!; [lia|lia|done..].
Qed.
(** *** Relinking *)

(** The last node at level [k] in [L], if any. *)
Fixpoint lastk (k : nat) (L : list item) : option positive :=
  match L with
  | [] => None
  | x :: q =>
      match lastk k q with
      | Some u => Some u
      | None => if (k <? ilc x)%nat then Some (ia x) else None
      end
  end.

Lemma predk_lastk k d L : predk k d L = default d (lastk k L).
Proof.
  revert d. induction L as [|x q IH]; intros d; simpl; [done|].
  rewrite IH. destruct (lastk k q); [done|]. simpl. by destruct (k <? ilc x)%nat.
Qed.

Lemma lastk_none k L : lastk k L = None → Forall (λ x, ilc x ≤ k)%nat L.
Proof.
  induction L as [|x q IH]; simpl; [done|].
  destruct (lastk k q); [done|].
  destruct (Nat.ltb_spec k (ilc x)); [done|]. intros _. constructor; [done|by apply IH].
Qed.

Lemma lastk_elem k L u : lastk k L = Some u → u ∈ ia <$> L.
Proof.
  induction L as [|x q IH]; simpl; [done|].
  destruct (lastk k q).
  - intros [= <-]. right. by apply IH.
  - destruct (k <? ilc x)%nat; [|done]. intros [= <-]. left.
Qed.

Lemma nxtd_lastk k q u d d' : lastk k q = Some u → nxtd k q d = nxtd k q d'.
Proof.
  induction q as [|x q IH]; simpl; [done|].
  destruct (k <? ilc x)%nat; [done|].
  destruct (lastk k q); [|done]. intros E. by apply IH.
Qed.

Lemma lastk_head k hd ml L :
  (k < ml)%nat → lastk k (hitem hd ml :: L) = Some (predk k hd L).
Proof.
  intros Hk. rewrite predk_lastk. simpl. destruct (lastk k L); [done|].
  apply Nat.ltb_lt in Hk. by rewrite Hk.
Qed.

Lemma RN_tl_level h tl tl' k q :
  Forall (λ x, ilc x ≤ k)%nat q → (∀ j, j ≠ k → tl j = tl' j) →
  RN h tl q → RN h tl' q.
Proof.
  intros Hq Ht. induction Hq as [|x q Hx _ IH]; simpl; [done|].
  intros [H1 H2]. split; [|by apply IH].
  eapply node_ok_ext; [|exact H1]. intros j Hj. cbn beta.
  rewrite (Ht j) by lia. done.
Qed.

Lemma RN_fresh h tl L a : RN h tl L → h !! a = None → a ∉ ia <$> L.
Proof.
  intros HR Ha Hin. apply list_elem_of_fmap in Hin as (x & -> & Hx).
  destruct (RN_lookup _ _ _ _ HR Hx) as (? & ? & Hl & _). congruence.
Qed.

(** Storing [v] in the level-[k] link of the last level-[k] node of a
    segment changes the link that leaves the segment at that level. *)
Lemma RN_set_tail h tl k v L u n :
  NoDup (ia <$> L) → RN h tl L → lastk k L = Some u → h !! u = Some n →
  RN (<[u := with_link k v n]> h) (λ j, if decide (j = k) then v else tl j) L.
Proof.
  induction L as [|x q IH]; [done|].
  rewrite fmap_cons, NoDup_cons. intros [Hx Hnd] [Hok Hq] Hlast Hu.
  cbn [lastk] in Hlast. cbn [RN].
  destruct (lastk k q) as [u'|] eqn:Hlq.
  - injection Hlast as ->.
    assert (ia x ≠ u) by (intros E; apply Hx; rewrite E; by apply (lastk_elem k)).
    split; [|by apply IH].
    eapply node_ok_frame; [by apply lookup_insert_ne|].
    eapply node_ok_ext; [|exact Hok]. intros j _. cbn beta.
    destruct (decide (j = k)) as [->|]; [|done]. by eapply nxtd_lastk.
  - destruct (Nat.ltb_spec k (ilc x)) as [Hk|]; [|done]. injection Hlast as <-.
    apply lastk_none in Hlq. split.
    + destruct Hok as (pv & ls & Hl & Hlen & Hlk).
      rewrite Hl in Hu. injection Hu as <-.
      exists pv, (<[k := v]> ls). rewrite lookup_insert_eq, length_insert.
      split_and!; [done..|]. intros j Hj.
      destruct (decide (j = k)) as [->|Hne].
      * rewrite list_lookup_insert_eq by lia. rewrite nxtd_none by done.
        rewrite ?decide_True by done. done.
      * rewrite list_lookup_insert_ne by done. rewrite Hlk by done.
        rewrite ?decide_False by done. done.
    + eapply (RN_tl_level _ tl); [exact Hlq| |].
      { intros j Hj. by rewrite decide_False. }
      eapply RN_frame; [|exact Hq]. intros a Ha. apply lookup_insert_ne.
      intros <-. by apply Hx.
Qed.

Lemma RN_set_prev h tl L b n p :
  h !! b = Some n → RN h tl L → RN (<[b := with_prev p n]> h) tl L.
Proof.
  intros Hb. induction L as [|x q IH]; simpl; [done|].
  intros [Hok Hq]. split; [|by apply IH].
  destruct (decide (ia x = b)) as [<-|Hne].
  - destruct Hok as (pv & ls & Hl & Hlen & Hlk).
    rewrite Hl in Hb. injection Hb as <-.
    exists p, ls. by rewrite lookup_insert_eq.
  - eapply node_ok_frame; [|exact Hok]. by apply lookup_insert_ne.
Qed.

Lemma RN_set_key_datum h tl pre x post k' d' n :
  NoDup (ia <$> (pre ++ x :: post)) →
  h !! ia x = Some n →
  RN h tl (pre ++ x :: post) →
  RN (<[ia x := with_datum d' (with_key k' n)]> h) tl
     (pre ++ mk_item (ia x) k' d' (ilc x) :: post).
Proof.
  intros Hnd Hn HR. rewrite fmap_app, fmap_cons in Hnd.
  apply NoDup_app in Hnd as (_ & Hpre & Hnd). apply NoDup_cons in Hnd as [Hpost _].
  apply RN_app in HR as [HRpre [Hx HRpost]]. apply RN_app. cbn [RN]. split_and!.
  - eapply RN_frame; [|exact HRpre]. intros a Ha. apply lookup_insert_ne.
    intros <-. apply (Hpre _ Ha). left.
  - destruct Hx as (pv & ls & Hl & Hlen & Hlk).
    rewrite Hl in Hn. injection Hn as <-.
    exists pv, ls. cbn [ia ik id ilc]. by rewrite lookup_insert_eq.
  - eapply RN_frame; [|exact HRpost]. intros a Ha. apply lookup_insert_ne.
    by intros <-.
Qed.

(** *** [node_insert] *)

Lemma sl_raise_update_spec n : ∀ k update s hd,
  head (lst s) = Some hd → (k + n ≤ length update)%nat →
  (∀ j, (k ≤ j < k + n)%nat → update !! j = Some NULL) →
  ∃ update',
    raise_update n k update s = Ok (update', s)
    ∧ length update' = length update
    ∧ (∀ j, (k ≤ j < k + n)%nat → update' !! j = Some (Some hd))
    ∧ (∀ j, ¬ (k ≤ j < k + n)%nat → update' !! j = update !! j).
Proof.
  induction n as [|n IH]; intros k update s hd Hhd Hlen Hnull.
  - exists update. split_and!; [done..|lia|done].
  - cbn [raise_update]. unfold arr_get. rewrite (Hnull k) by lia.
    repeat sl_step. rewrite Hhd. unfold arr_set.
    assert (Hk : (k <? length update)%nat = true) by (apply Nat.ltb_lt; lia).
    rewrite Hk, bind_ret.
    destruct (IH (S k) (<[k := Some hd]> update) s hd) as (u' & Hrun & Hl & Hin & Hout);
      [done|rewrite length_insert; lia| |].
    { intros j Hj. rewrite list_lookup_insert_ne by lia. apply Hnull. lia. }
    exists u'. rewrite length_insert in Hl. split_and!; [done..| |].
    + intros j Hj. destruct (decide (j = k)) as [->|].
      * rewrite Hout by lia. by rewrite list_lookup_insert_eq by lia.
      * apply Hin. lia.
    + intros j Hj. rewrite Hout by lia. apply list_lookup_insert_ne. lia.
Qed.

(** Two heaps hold the same nodes, with the same [prev] fields. *)
Definition same_prev (h h' : gmap positive skip_node) : Prop :=
  ∀ b, prev <$> (h' !! b) = prev <$> (h !! b).

Lemma same_prev_refl h : same_prev h h.
Proof. by intros b. Qed.

Lemma same_prev_trans h1 h2 h3 :
  same_prev h1 h2 → same_prev h2 h3 → same_prev h1 h3.
Proof. intros H1 H2 b. by rewrite H2, H1. Qed.

Lemma same_prev_insert h a n n' :
  h !! a = Some n → prev n' = prev n → same_prev h (<[a := n']> h).
Proof.
  intros Ha Hp b. destruct (decide (b = a)) as [->|].
  - rewrite lookup_insert_eq, Ha. cbn. by rewrite Hp.
  - by rewrite lookup_insert_ne.
Qed.

Section splice.
Context (hd : positive) (ml : nat) (lo hi : list item).
Context (a : positive) (ky v : Z) (nl : nat) (update : list ptr).
Context (Hnd : NoDup (a :: hd :: (ia <$> lo ++ hi))).
Context (Hupd : ∀ i, (i < nl)%nat → update !! i = Some (Some (predk i hd lo))).
Context (Hnl : (nl ≤ ml)%nat).

(** The links leaving [lo] when the levels below [j] have been spliced. *)
Definition tlj (j : nat) : nat → ptr :=
  λ i, if (i <? j)%nat then Some a else nxtd i hi NULL.

Definition spliced (s : state) (j : nat) : Prop :=
  RN (mem s) (tlj j) (hitem hd ml :: lo)
  ∧ RN (mem s) no_tl hi
  ∧ ∃ pv ls, mem s !! a = Some (mk_node ky v pv nl ls)
             ∧ length ls = nl
             ∧ ∀ i, (i < j)%nat → ls !! i = Some (nxtd i hi NULL).

Lemma sl_splice_spec n : ∀ j s,
  (j + n = nl)%nat → spliced s j →
  ∃ s', splice n j (Some a) update s = Ok (tt, s')
        ∧ spliced s' nl ∧ lst s' = lst s ∧ dlog s' = dlog s
        ∧ same_prev (mem s) (mem s').
Proof.
  induction n as [|n IH]; intros j s Hj Hsp.
  - exists s. replace nl with j by lia. done.
  - destruct Hsp as (HRlo & HRhi & pv & ls & Ha & Hlen & Hls).
    cbn [splice]. unfold arr_get. rewrite Hupd by lia. rewrite bind_ret.
    assert (Hjml : (j < ilc (hitem hd ml))%nat) by (simpl; lia).
    destruct (RN_pred_link _ _ j _ _ HRlo Hjml)
      as (c & pvc & lsc & Hcin & Hc & Hcl & Hclen & Hclc & Hck).
    cbn [hitem ia] in Hc. rewrite Hc in Hcl.
    apply NoDup_cons in Hnd as [Hafresh Hnd'].
    assert (Hua : predk j hd lo ≠ a).
    { intros E. apply Hafresh. rewrite <- E, <- Hc.
      rewrite fmap_app. change (ia c ∈ (ia <$> hitem hd ml :: lo) ++ (ia <$> hi)).
      apply elem_of_app. left. by apply list_elem_of_fmap_2. }
    repeat sl_step. apply Nat.ltb_lt in Hclc. rewrite Hclc, assert_true.
    erewrite sl_bind_rd_link; [|exact Hcl|exact Hck]. cbn beta.
    erewrite sl_bind_wr_link; [|exact Ha|sl_simpl; lia].
    erewrite sl_bind_wr_link; cycle 1.
    { sl_simpl. rewrite lookup_insert_ne by done. exact Hcl. }
    { sl_simpl. apply Nat.ltb_lt in Hclc. lia. }
    sl_simpl.
    match goal with |- context [splice n (S j) _ _ ?s1] => set (s' := s1) end.
    destruct (IH (S j) s') as (s'' & Hrun & Hsp' & Hl & Hd & Hpv); [lia| |].
    2:{ exists s''. rewrite Hrun. split_and!; try done.
        eapply same_prev_trans; [|exact Hpv]. subst s'. sl_simpl.
        intros b. destruct (decide (b = predk j hd lo)) as [->|].
        { by rewrite lookup_insert_eq, Hcl. }
        rewrite lookup_insert_ne by done.
        destruct (decide (b = a)) as [->|].
        { by rewrite lookup_insert_eq, Ha. }
        by rewrite lookup_insert_ne. }
    subst s'. unfold spliced. sl_simpl. split_and!.
    + eapply RN_ext; cycle 1.
      { eapply (RN_set_tail _ (tlj j) j (Some a) (hitem hd ml :: lo)).
        - rewrite fmap_app, app_comm_cons in Hnd'.
          by apply NoDup_app in Hnd' as (? & _).
        - eapply RN_frame; [|exact HRlo]. intros b Hb. apply lookup_insert_ne.
          intros <-. apply Hafresh. rewrite fmap_app.
          change (a ∈ (ia <$> hitem hd ml :: lo) ++ (ia <$> hi)).
          apply elem_of_app. by left.
        - apply lastk_head. lia.
        - rewrite lookup_insert_ne by done. exact Hcl. }
      intros i. cbn beta. unfold tlj.
      destruct (decide (i = j)) as [->|].
      * destruct (Nat.ltb_spec j (S j)); [done|lia].
      * destruct (Nat.ltb_spec i j), (Nat.ltb_spec i (S j)); try lia; done.
    + eapply RN_frame; [|exact HRhi]. intros b Hb.
      rewrite fmap_app, app_comm_cons in Hnd'.
      apply NoDup_app in Hnd' as (_ & Hdis & _).
      rewrite !lookup_insert_ne; [done| |].
      * intros <-. apply Hafresh. rewrite fmap_app.
        change (a ∈ (ia <$> hitem hd ml :: lo) ++ (ia <$> hi)).
        apply elem_of_app. by right.
      * intros <-. eapply Hdis; [|exact Hb]. rewrite <- Hc.
        by apply (list_elem_of_fmap_2 ia) in Hcin.
    + exists pv, (<[j := tlj j j]> ls).
      rewrite lookup_insert_ne by done. rewrite lookup_insert_eq.
      split_and!; [done|by rewrite length_insert|].
      intros i Hi. destruct (decide (i = j)) as [->|].
      * rewrite list_lookup_insert_eq by lia. unfold tlj.
        destruct (Nat.ltb_spec j j); [lia|done].
      * rewrite list_lookup_insert_ne by done. apply Hls. lia.
Qed.

Lemma sl_spliced_RN s :
  spliced s nl →
  RN (mem s) no_tl (hitem hd ml :: lo ++ mk_item a ky v nl :: hi).
Proof.
  intros (HRlo & HRhi & pv & ls & Ha & Hlen & Hls).
  rewrite app_comm_cons. apply RN_app. split.
  - eapply RN_ext; [|exact HRlo]. intros i. unfold tlj. simpl.
    by destruct (i <? nl)%nat.
  - split; [|done]. exists pv, ls. done.
Qed.

End splice.
(** *** [node_insert] and [skiplist_insert] *)

(** The allocator answers NULL or a block that is not in use. *)
Definition malloc_ok (s : state) (m : ptr) : Prop :=
  match m with None => True | Some a => mem s !! a = None end.

Definition log_del (s : state) (k d : Z) : list (Z * Z) :=
  if del_func (lst s) then dlog s ++ [(k, d)] else dlog s.

(** The state after the generator has stepped. *)
Definition stepped (s : state) : state :=
  mk_state (with_randgen (wrap_u32 (randgen (lst s) * RGEN_A + RGEN_M)) (lst s))
    (mem s) (dlog s).

(** The level count the next insertion draws. *)
Definition next_level (s : state) : nat :=
  rand_loop (max_link (lst s) - 2) (wrap_u32 (randgen (lst s) * RGEN_A + RGEN_M)) 1.

Lemma sl_bind_rand {B : Type} (K : nat → M state B) s :
  bind rand_link_count K s = K (next_level s) (stepped s).
Proof. reflexivity. Qed.

Lemma sl_next_level_bounds s :
  (1 ≤ next_level s)%nat ∧ (next_level s ≤ Nat.max 1 (max_link (lst s) - 1))%nat.
Proof.
  unfold next_level.
  pose proof (sl_rand_loop_bounds (max_link (lst s) - 2)
                (wrap_u32 (randgen (lst s) * RGEN_A + RGEN_M)) 1). lia.
Qed.

Lemma sl_bind_node_new {B : Type} (K : ptr → M state B) a k v lc s :
  (1 ≤ lc)%nat →
  bind (node_new (Some a) k v lc) K s
  = K (Some a) (mk_state (lst s)
                  (<[a := mk_node k v NULL lc (replicate lc NULL)]> (mem s)) (dlog s)).
Proof.
  intros Hlc. unfold node_new. apply Nat.leb_le in Hlc. rewrite Hlc.
  rewrite bind_assoc, assert_true. reflexivity.
Qed.

Lemma sl_bind_node_new_null {B : Type} (K : ptr → M state B) k v lc s :
  (1 ≤ lc)%nat → bind (node_new NULL k v lc) K s = K NULL s.
Proof.
  intros Hlc. unfold node_new. apply Nat.leb_le in Hlc. rewrite Hlc.
  rewrite bind_assoc, assert_true. reflexivity.
Qed.

(** With [max_link = 1] the drawn level count is 1 and the assertion of
    [node_insert] fails. *)
Lemma sl_node_insert_assert s ky v update m :
  max_link (lst s) = 1%nat → node_insert ky v update m s = AssertFail.
Proof.
  intros Hml. unfold node_insert. rewrite sl_bind_rand.
  unfold next_level. rewrite Hml. cbn [Nat.sub rand_loop].
  rewrite sl_bind_get. unfold stepped. sl_simpl. rewrite Hml. reflexivity.
Qed.

(** When the allocator answers NULL only the generator has stepped. *)
Lemma sl_node_insert_nomem s ky v update :
  (2 ≤ max_link (lst s))%nat →
  node_insert ky v update NULL s = Ok (NULL, stepped s).
Proof.
  intros Hml. unfold node_insert. rewrite sl_bind_rand.
  destruct (sl_next_level_bounds s) as [H1 H2].
  rewrite sl_bind_get. unfold stepped at 1 2. sl_simpl.
  assert (Hlt : (next_level s <? max_link (lst s))%nat = true)
    by (apply Nat.ltb_lt; lia).
  rewrite Hlt, assert_true.
  rewrite sl_bind_node_new_null by done. reflexivity.
Qed.

Lemma sl_update_raise s hd top nl lo update :
  head (lst s) = Some hd → top_link (lst s) = top →
  length update = MAX_LINK → (nl < MAX_LINK)%nat →
  Forall (λ x, ilc x ≤ top + 1)%nat lo →
  (∀ j, (j < top + 1)%nat → update !! j = Some (Some (predk j hd lo))) →
  (∀ j, (top + 1 ≤ j)%nat → update !! j = replicate MAX_LINK NULL !! j) →
  ∃ update',
    (if (top <? nl)%nat then
       let* update := raise_update (nl - top) (top + 1) update in
       set_list (with_top_link nl);;
       ret update
     else ret update) s
    = Ok (update', mk_state (with_top_link (Nat.max top nl) (lst s)) (mem s) (dlog s))
    ∧ ∀ i, (i < nl)%nat → update' !! i = Some (Some (predk i hd lo)).
Proof.
  intros Hhd Htop Hlen Hnl Hlc Hlow Hhigh.
  destruct (Nat.ltb_spec top nl) as [Hlt|Hge].
  - destruct (sl_raise_update_spec (nl - top) (top + 1) update s hd)
      as (u' & Hrun & Hl & Hin & Hout); [done|lia| |].
    { intros j Hj. rewrite Hhigh by lia. apply lookup_replicate_2. lia. }
    exists u'. split.
    + erewrite bind_ok by exact Hrun. rewrite sl_bind_set.
      replace (Nat.max top nl) with nl by lia. done.
    + intros i Hi. destruct (Nat.lt_ge_cases i (top + 1)).
      * rewrite Hout by lia. by apply Hlow.
      * rewrite Hin by lia. rewrite predk_above; [done|].
        eapply Forall_impl; [exact Hlc|]. cbn. lia.
  - exists update. split.
    + replace (Nat.max top nl) with top by lia. subst top. by destruct s as [[]].
    + intros i Hi. apply Hlow. lia.
Qed.

(** What [node_insert] does to the [prev] fields: the new node [a] points
    back at [u0], the node [nx] that follows it points back at [a], and
    nothing else changes. *)
Definition ins_prev (h h' : gmap positive skip_node) (a u0 : positive) (nx : ptr)
  : Prop :=
  prev <$> (h' !! a) = Some (Some u0)
  ∧ (∀ y, nx = Some y → prev <$> (h' !! y) = Some (Some a))
  ∧ (∀ b, b ≠ a → Some b ≠ nx → prev <$> (h' !! b) = prev <$> (h !! b)).

Lemma sl_node_insert_full s hd lo hi ky v update a :
  strict_total (cmp_func (lst s)) →
  head (lst s) = Some hd →
  RN (mem s) no_tl (hitem hd (max_link (lst s)) :: lo ++ hi) →
  NoDup (hd :: (ia <$> lo ++ hi)) →
  Forall (λ x, 1 ≤ ilc x ≤ top_link (lst s) + 1)%nat (lo ++ hi) →
  (top_link (lst s) < max_link (lst s) ≤ MAX_LINK)%nat →
  sorted (cmp_func (lst s)) (ik <$> lo ++ hi) →
  count (lst s) = wrap_size (Z.of_nat (length (lo ++ hi))) →
  Forall (λ x, cmp_func (lst s) ky (ik x) > 0) lo →
  Forall (λ x, cmp_func (lst s) ky (ik x) < 0) hi →
  length update = MAX_LINK →
  (∀ j, (j < top_link (lst s) + 1)%nat → update !! j = Some (Some (predk j hd lo))) →
  (∀ j, (top_link (lst s) + 1 ≤ j)%nat → update !! j = replicate MAX_LINK NULL !! j) →
  (2 ≤ max_link (lst s))%nat →
  mem s !! a = None →
  ∃ s',
    node_insert ky v update (Some a) s = Ok (Some a, s')
    ∧ SLInv s' (lo ++ mk_item a ky v (next_level s) :: hi)
    ∧ dlog s' = dlog s
    ∧ cmp_func (lst s') = cmp_func (lst s)
    ∧ del_func (lst s') = del_func (lst s)
    ∧ max_link (lst s') = max_link (lst s)
    ∧ top_link (lst s') = Nat.max (top_link (lst s)) (next_level s)
    ∧ ins_prev (mem s) (mem s') a (predk 0 hd lo) (nxtd 0 hi NULL)
    ∧ head (lst s') = head (lst s).
Proof.
  intros Hcmp Hhd HR Hnd Hlc Htop Hs Hc Hlo Hhi Hlen Hlow Hhigh Hml Ha.
  destruct (sl_next_level_bounds s) as [Hn1 Hn2].
  set (nl := next_level s) in *.
  set (ml := max_link (lst s)) in *.
  assert (Hnl : (nl < ml)%nat) by lia.
  unfold node_insert. rewrite sl_bind_rand. fold nl.
  rewrite sl_bind_get. unfold stepped at 1 2. sl_simpl. fold ml.
  apply Nat.ltb_lt in Hnl as Hnlb. rewrite Hnlb, assert_true.
  rewrite sl_bind_node_new by done. sl_simpl.
  rewrite sl_bind_get.
  set (s1 := mk_state _ _ _).
  assert (Hlclo : Forall (λ x, ilc x ≤ top_link (lst s) + 1)%nat lo).
  { apply Forall_app in Hlc as [Hlc _]. eapply Forall_impl; [exact Hlc|]. cbn. lia. }
  destruct (sl_update_raise s1 hd (top_link (lst s)) nl lo update)
    as (u2 & Hrun & Hu2); [done|done|done|lia|done|done|done|].
  sl_simpl. sl_run Hrun. clear Hrun. subst s1. sl_simpl.
  unfold arr_get. rewrite Hu2 by lia. rewrite bind_ret.
  (* the addresses *)
  assert (Hfresh : a ∉ ia <$> (hitem hd ml :: lo ++ hi)) by by eapply RN_fresh.
  assert (Hnda : NoDup (a :: hd :: (ia <$> lo ++ hi))) by by constructor.
  assert (HR0 := HR). rewrite app_comm_cons in HR0. apply RN_app in HR0 as [HRlo HRhi].
  assert (H0ml : (0 < ilc (hitem hd ml))%nat) by (simpl; lia).
  destruct (RN_pred_link _ _ 0%nat _ _ HRlo H0ml)
    as (c & pvc & lsc & Hcin & Hcp & Hcl & Hclen & Hclc & Hck).
  cbn [hitem ia] in Hcp. rewrite Hcp in Hcl.
  assert (Hua : predk 0 hd lo ≠ a).
  { intros E. apply Hfresh. rewrite <- E, <- Hcp, app_comm_cons, fmap_app.
    apply elem_of_app. left. by apply list_elem_of_fmap_2. }
  erewrite sl_bind_wr by (sl_simpl; apply lookup_insert_eq). sl_simpl.
  erewrite sl_bind_rd_link; cycle 1.
  { sl_simpl. rewrite lookup_insert_ne by done. rewrite lookup_insert_ne by done.
    exact Hcl. }
  { exact Hck. }
  cbn beta. rewrite insert_insert_eq.
  set (na := with_prev _ _).
  (* both cases of the successor's [prev] lead to a heap ready for splicing *)
  assert (Hsp : ∃ s2,
    (if negb (is_null (nxtd 0 hi (no_tl 0%nat)))
     then wr (with_prev (Some a)) (nxtd 0 hi (no_tl 0%nat)) else ret tt)
      (mk_state (with_top_link (Nat.max (top_link (lst s)) nl) (lst (stepped s)))
         (<[a := na]> (mem s)) (dlog s))
    = Ok (tt, s2)
    ∧ lst s2 = with_top_link (Nat.max (top_link (lst s)) nl) (lst (stepped s))
    ∧ dlog s2 = dlog s
    ∧ spliced hd ml lo hi a ky v nl s2 0
    ∧ ins_prev (mem s) (mem s2) a (predk 0 hd lo) (nxtd 0 hi NULL)).
  { assert (Hbase : spliced hd ml lo hi a ky v nl
              (mk_state (with_top_link (Nat.max (top_link (lst s)) nl) (lst (stepped s)))
                 (<[a := na]> (mem s)) (dlog s)) 0).
    { unfold spliced. sl_simpl. split_and!.
      - eapply RN_frame; [|exact HRlo]. intros b Hb. apply lookup_insert_ne.
        intros <-. apply Hfresh. rewrite app_comm_cons, fmap_app.
        apply elem_of_app. by left.
      - eapply RN_frame; [|exact HRhi]. intros b Hb. apply lookup_insert_ne.
        intros <-. apply Hfresh. rewrite app_comm_cons, fmap_app.
        apply elem_of_app. by right.
      - eexists _, _. rewrite lookup_insert_eq. subst na. unfold with_prev. sl_simpl.
        split_and!; [reflexivity|by rewrite length_replicate|lia]. }
    destruct hi as [|y hi'].
    { eexists. split_and!; [reflexivity|done|done|exact Hbase|].
      unfold ins_prev. sl_simpl. split_and!.
      - by rewrite lookup_insert_eq.
      - intros y Hy. discriminate.
      - intros b Hb _. by rewrite lookup_insert_ne. }
    apply Forall_app in Hlc as [_ Hlchi]. apply Forall_cons in Hlchi as [Hy _].
    cbn [nxtd]. destruct (Nat.ltb_spec 0 (ilc y)); [|lia]. cbn [is_null negb].
    destruct HRhi as [(pvy & lsy & Hyl & Hylen & Hylk) HRhi'].
    assert (Hya : ia y ≠ a).
    { intros E. apply Hfresh. rewrite <- E, app_comm_cons, fmap_app.
      apply elem_of_app. right. rewrite fmap_cons. left. }
    unfold wr. sl_simpl. rewrite lookup_insert_ne by done. rewrite Hyl.
    eexists. split_and!; [reflexivity|done|done| |].
    2:{ unfold ins_prev. sl_simpl. split_and!.
        - rewrite lookup_insert_ne by done. by rewrite lookup_insert_eq.
        - intros y' [= <-]. by rewrite lookup_insert_eq.
        - intros b Hb Hby. rewrite !lookup_insert_ne; [done|done|congruence]. }
    destruct Hbase as (B1 & B2 & pv & ls & B3 & B4 & B5).
    cbn [mem lst dlog] in B1, B2, B3.
    unfold spliced. sl_simpl. split_and!.
    - eapply RN_set_prev; [|exact B1]. by rewrite lookup_insert_ne.
    - eapply RN_set_prev; [|exact B2]. by rewrite lookup_insert_ne.
    - exists pv, ls. rewrite lookup_insert_ne by done. done. }
  destruct Hsp as (s2 & Hrun & Hl2 & Hd2 & Hsp & Hip).
  sl_run Hrun. clear Hrun.
  destruct (sl_splice_spec hd ml lo hi a ky v nl u2 Hnda Hu2 ltac:(lia) nl 0%nat s2)
    as (s3 & Hrun & Hsp3 & Hl3 & Hd3 & Hpv3); [done|done|].
  sl_run Hrun. clear Hrun.
  repeat sl_step.
  eexists. split; [reflexivity|]. sl_simpl. rewrite Hl3, Hl2, Hd3, Hd2. unfold stepped. sl_simpl.
  split; [|split_and!; try done].
  2:{ destruct Hip as (P1 & P2 & P3). unfold ins_prev.
      split_and!; intros; rewrite Hpv3; auto. }
  exists hd. sl_simpl. fold ml. split_and!.
  - done.
  - by apply sl_spliced_RN.
  - rewrite fmap_app, fmap_cons. cbn [ia].
    eapply NoDup_Permutation_proper; [|exact Hnda]. rewrite fmap_app. solve_Permutation.
  - apply Forall_app in Hlc as [Hl Hh]. apply Forall_app. split; [|constructor].
    + eapply Forall_impl; [exact Hl|]. cbn. lia.
    + cbn [ilc]. lia.
    + eapply Forall_impl; [exact Hh|]. cbn. lia.
  - lia.
  - lia.
  - rewrite fmap_app, fmap_cons. cbn [ik]. rewrite fmap_app in Hs.
    apply (sorted_insert_mid _ Hcmp); [done| |].
    + rewrite Forall_fmap. eapply Forall_impl; [exact Hlo|]. cbn. intros x.
      by rewrite (sl_gt_iff _ Hcmp).
    + by rewrite Forall_fmap.
  - rewrite Hc, wrap_size_succ. f_equal. rewrite !length_app. cbn [length]. lia.
Qed.

Lemma sl_node_insert_spec s hd lo hi ky v update a :
  strict_total (cmp_func (lst s)) →
  head (lst s) = Some hd →
  RN (mem s) no_tl (hitem hd (max_link (lst s)) :: lo ++ hi) →
  NoDup (hd :: (ia <$> lo ++ hi)) →
  Forall (λ x, 1 ≤ ilc x ≤ top_link (lst s) + 1)%nat (lo ++ hi) →
  (top_link (lst s) < max_link (lst s) ≤ MAX_LINK)%nat →
  sorted (cmp_func (lst s)) (ik <$> lo ++ hi) →
  count (lst s) = wrap_size (Z.of_nat (length (lo ++ hi))) →
  Forall (λ x, cmp_func (lst s) ky (ik x) > 0) lo →
  Forall (λ x, cmp_func (lst s) ky (ik x) < 0) hi →
  length update = MAX_LINK →
  (∀ j, (j < top_link (lst s) + 1)%nat → update !! j = Some (Some (predk j hd lo))) →
  (∀ j, (top_link (lst s) + 1 ≤ j)%nat → update !! j = replicate MAX_LINK NULL !! j) →
  (2 ≤ max_link (lst s))%nat →
  mem s !! a = None →
  ∃ s',
    node_insert ky v update (Some a) s = Ok (Some a, s')
    ∧ SLInv s' (lo ++ mk_item a ky v (next_level s) :: hi)
    ∧ dlog s' = dlog s
    ∧ cmp_func (lst s') = cmp_func (lst s)
    ∧ del_func (lst s') = del_func (lst s)
    ∧ max_link (lst s') = max_link (lst s).
Proof.
  intros. destruct (sl_node_insert_full s hd lo hi ky v update a)
    as (s' & ? & ? & ? & ? & ? & ? & _); try done.
  by exists s'.
Qed.
(** *** [skiplist_insert] *)

Lemma sl_call_del_spec {B : Type} s a n (K : unit → M state B) :
  mem s !! a = Some n →
  bind (call_del (Some a)) K s
  = K tt (mk_state (lst s) (mem s) (log_del s (key n) (datum n))).
Proof.
  intros Ha. unfold call_del, log_del. rewrite bind_assoc, sl_bind_get.
  destruct (del_func (lst s)).
  - rewrite bind_assoc. erewrite sl_bind_rd by exact Ha.
    rewrite bind_assoc. erewrite sl_bind_rd by exact Ha. reflexivity.
  - rewrite bind_ret. by destruct s.
Qed.

(** The descent of [skiplist_insert] and [skiplist_remove], followed by the
    step to the bottom-level successor. *)
Lemma sl_locate s hd lo rest ky fuel :
  head (lst s) = Some hd →
  RN (mem s) no_tl (hitem hd (max_link (lst s)) :: lo ++ rest) →
  (top_link (lst s) < max_link (lst s) ≤ MAX_LINK)%nat →
  Forall (λ x, 1 ≤ ilc x)%nat rest →
  Forall (λ x, cmp_func (lst s) ky (ik x) > 0) lo →
  Forall (λ x, ¬ cmp_func (lst s) ky (ik x) > 0) rest →
  (length (lo ++ rest) < fuel)%nat →
  ∃ update,
    (∀ (B : Type) (K : ptr → list ptr → M state B),
       (let* (x, update) := descend fuel (top_link (lst s) + 1) ky (Some hd)
                              (replicate MAX_LINK NULL) in
        let* x := rd_link 0 x in K x update) s
       = K (nxtd 0 rest NULL) update s)
    ∧ length update = MAX_LINK
    ∧ (∀ j, (j < top_link (lst s) + 1)%nat → update !! j = Some (Some (predk j hd lo)))
    ∧ (∀ j, (top_link (lst s) + 1 ≤ j)%nat →
            update !! j = replicate MAX_LINK NULL !! j).
Proof.
  intros Hhd HR Htop Hlc Hlo Hrest Hf.
  destruct (sl_descend_spec s hd _ ky lo rest HR Hlo fuel (top_link (lst s) + 1)
              hd (replicate MAX_LINK NULL))
    as (u & Hrun & Hlen & Hlow & Hhigh);
    [done|lia|lia|by rewrite length_replicate|done| |].
  { rewrite Nat.add_1_r. apply at_level_head. }
  exists u. split_and!; [|done..].
  intros B K. erewrite bind_ok by exact Hrun. cbn beta iota.
  assert (HR0 := HR). rewrite app_comm_cons in HR0. apply RN_app in HR0 as [HRlo _].
  assert (H0 : (0 < ilc (hitem hd (max_link (lst s))))%nat) by (simpl; lia).
  destruct (RN_pred_link _ _ 0%nat _ _ HRlo H0)
    as (c & pvc & lsc & _ & Hcp & Hcl & _ & _ & Hck).
  cbn [hitem ia] in Hcp. rewrite Hcp in Hcl.
  erewrite sl_bind_rd_link; [|exact Hcl|exact Hck]. done.
Qed.

Lemma sl_insert_full s xs ky v ow m fuel :
  strict_total (cmp_func (lst s)) → SLInv s xs → malloc_ok s m →
  (length xs < fuel)%nat →
  ((ky ∉ ik <$> xs)
   ∧ (max_link (lst s) = 1%nat → skiplist_insert fuel ky v ow m s = AssertFail)
   ∧ ((2 ≤ max_link (lst s))%nat →
      match m with
      | None => skiplist_insert fuel ky v ow m s = Ok (-1, stepped s)
      | Some a =>
          ∃ s' lo hi,
            xs = lo ++ hi
            ∧ skiplist_insert fuel ky v ow m s = Ok (0, s')
            ∧ SLInv s' (lo ++ mk_item a ky v (next_level s) :: hi)
            ∧ dlog s' = dlog s
            ∧ cmp_func (lst s') = cmp_func (lst s)
            ∧ del_func (lst s') = del_func (lst s)
            ∧ max_link (lst s') = max_link (lst s)
            ∧ top_link (lst s') = Nat.max (top_link (lst s)) (next_level s)
            ∧ (∀ hd, head (lst s) = Some hd →
                 ins_prev (mem s) (mem s') a (predk 0 hd lo) (nxtd 0 hi NULL))
            ∧ head (lst s') = head (lst s)
      end))
  ∨ (∃ lo z hi,
       xs = lo ++ z :: hi ∧ ik z = ky
       ∧ if ow then
           ∃ s', skiplist_insert fuel ky v ow m s = Ok (0, s')
                 ∧ SLInv s' (lo ++ mk_item (ia z) ky v (ilc z) :: hi)
                 ∧ dlog s' = log_del s (ik z) (id z)
                 ∧ cmp_func (lst s') = cmp_func (lst s)
                 ∧ del_func (lst s') = del_func (lst s)
                 ∧ max_link (lst s') = max_link (lst s)
                 ∧ top_link (lst s') = top_link (lst s)
                 ∧ same_prev (mem s) (mem s')
                 ∧ head (lst s') = head (lst s)
         else skiplist_insert fuel ky v ow m s = Ok (1, s)).
Proof.
  intros Hcmp (hd & Hhd & HR & Hnd & Hlc & Htop & Hs & Hc) Hm Hf.
  assert (Hlc1 : Forall (λ x, 1 ≤ ilc x)%nat xs).
  { eapply Forall_impl; [exact Hlc|]. cbn. lia. }
  destruct (sl_split3 _ xs ky Hcmp Hs) as (lo & hi & Hlo & Hhi & [->|(z & Hz & ->)]).
  - (* a new key *)
    left. split.
    { rewrite fmap_app, elem_of_app. intros [Hin|Hin];
        apply list_elem_of_fmap in Hin as (x & -> & Hx).
      - rewrite Forall_forall in Hlo. specialize (Hlo _ Hx).
        rewrite (cmp_refl _ Hcmp) in Hlo. lia.
      - rewrite Forall_forall in Hhi. specialize (Hhi _ Hx).
        rewrite (cmp_refl _ Hcmp) in Hhi. lia. }
    destruct (sl_locate s hd lo hi ky fuel) as (u & Hrun & Hlen & Hlow & Hhigh);
      try done.
    { by apply Forall_app in Hlc1 as [_ ?]. }
    { eapply Forall_impl; [exact Hhi|]. cbn. lia. }
    assert (Hgo : ∀ mm, skiplist_insert fuel ky v ow mm s
              = (let* n := node_insert ky v u mm in
                 ret (if is_null n then -1 else 0)) s).
    { intros mm. unfold skiplist_insert. rewrite !sl_bind_get, Hhd.
      rewrite Hrun. rewrite sl_bind_get.
      destruct hi as [|y hi']; [done|].
      apply Forall_app in Hlc1 as [_ Hy]. apply Forall_cons in Hy as [Hy _].
      cbn [nxtd]. destruct (Nat.ltb_spec 0 (ilc y)); [|lia]. cbn [is_null].
      cbn [RN] in HR. destruct HR as [_ HR]. apply RN_app in HR as [_ [Hyok _]].
      destruct Hyok as (pv & ls & Hyl & _).
      rewrite bind_assoc. erewrite sl_bind_rd by exact Hyl. sl_simpl.
      rewrite bind_ret.
      apply Forall_cons in Hhi as [Hky _].
      destruct (Z.eqb_spec (cmp_func (lst s) ky (ik y)) 0); [lia|done]. }
    split.
    + intros Hml. rewrite Hgo. unfold bind.
      by rewrite sl_node_insert_assert.
    + intros Hml. destruct m as [a|].
      * destruct (sl_node_insert_full s hd lo hi ky v u a)
          as (s' & Hrun' & Hinv & Hd' & Hc' & Hdl' & Hm' & Ht' & Hp' & Hh'); try done.
        exists s', lo, hi. split; [done|]. split.
        { rewrite Hgo. by erewrite bind_ok by exact Hrun'. }
        split_and!; try done. intros hd' Hhd'. rewrite Hhd in Hhd'. by injection Hhd' as <-.
      * rewrite Hgo. by erewrite bind_ok by (by apply sl_node_insert_nomem).
  - (* the key is present *)
    subst ky. right. exists lo, z, hi. split; [done|]. split; [done|].
    assert (Hzz : cmp_func (lst s) (ik z) (ik z) = 0) by by apply (cmp_refl _ Hcmp).
    destruct (sl_locate s hd lo (z :: hi) (ik z) fuel) as (u & Hrun & Hlen & Hlow & Hhigh);
      try done.
    { by apply Forall_app in Hlc1 as [_ ?]. }
    { constructor; [lia|]. eapply Forall_impl; [exact Hhi|]. cbn. lia. }
    apply Forall_app in Hlc1 as [_ Hy]. apply Forall_cons in Hy as [Hy _].
    assert (HR0 := HR). cbn [RN] in HR0. destruct HR0 as [_ HR0].
    apply RN_app in HR0 as [_ [Hzok _]].
    destruct Hzok as (pv & ls & Hzl & _).
    unfold skiplist_insert. rewrite !sl_bind_get, Hhd.
    rewrite Hrun. rewrite sl_bind_get.
    cbn [nxtd]. destruct (Nat.ltb_spec 0 (ilc z)); [|lia]. cbn [is_null].
    rewrite bind_assoc. erewrite sl_bind_rd by exact Hzl. sl_simpl.
    rewrite bind_ret, Hzz. cbn [Z.eqb].
    destruct ow; cbn [negb]; [|done].
    erewrite sl_call_del_spec by exact Hzl. sl_simpl.
    erewrite sl_bind_wr by (sl_simpl; exact Hzl). sl_simpl.
    erewrite sl_bind_wr by (sl_simpl; apply lookup_insert_eq). sl_simpl.
    rewrite insert_insert_eq.
    eexists. split; [reflexivity|]. sl_simpl. split; [|split_and!; try done].
    2:{ intros b. destruct (decide (b = ia z)) as [->|].
        - by rewrite lookup_insert_eq, Hzl.
        - by rewrite lookup_insert_ne. }
    exists hd. sl_simpl. split_and!; try done.
    + rewrite app_comm_cons.
      apply (RN_set_key_datum _ _ (hitem hd (max_link (lst s)) :: lo) z hi (ik z) v
               (mk_node (ik z) (id z) pv (ilc z) ls)); [|done|done].
      by rewrite <- app_comm_cons, fmap_cons.
    + by rewrite fmap_app, fmap_cons in *.
    + apply Forall_app in Hlc as [Hl Hh]. apply Forall_cons in Hh as [Hz' Hh].
      apply Forall_app. split; [done|]. by constructor.
    + lia.
    + lia.
    + by rewrite fmap_app, fmap_cons in *.
    + rewrite Hc. by rewrite !length_app.
Qed.

Lemma sl_insert_spec s xs ky v ow m fuel :
  strict_total (cmp_func (lst s)) → SLInv s xs → malloc_ok s m →
  (length xs < fuel)%nat →
  ((ky ∉ ik <$> xs)
   ∧ (max_link (lst s) = 1%nat → skiplist_insert fuel ky v ow m s = AssertFail)
   ∧ ((2 ≤ max_link (lst s))%nat →
      match m with
      | None => skiplist_insert fuel ky v ow m s = Ok (-1, stepped s)
      | Some a =>
          ∃ s' lo hi,
            xs = lo ++ hi
            ∧ skiplist_insert fuel ky v ow m s = Ok (0, s')
            ∧ SLInv s' (lo ++ mk_item a ky v (next_level s) :: hi)
            ∧ dlog s' = dlog s
            ∧ cmp_func (lst s') = cmp_func (lst s)
            ∧ del_func (lst s') = del_func (lst s)
            ∧ max_link (lst s') = max_link (lst s)
      end))
  ∨ (∃ lo z hi,
       xs = lo ++ z :: hi ∧ ik z = ky
       ∧ if ow then
           ∃ s', skiplist_insert fuel ky v ow m s = Ok (0, s')
                 ∧ SLInv s' (lo ++ mk_item (ia z) ky v (ilc z) :: hi)
                 ∧ dlog s' = log_del s (ik z) (id z)
                 ∧ cmp_func (lst s') = cmp_func (lst s)
                 ∧ del_func (lst s') = del_func (lst s)
                 ∧ max_link (lst s') = max_link (lst s)
         else skiplist_insert fuel ky v ow m s = Ok (1, s)).
Proof.
  intros Hcmp HI Hm Hf.
  destruct (sl_insert_full s xs ky v ow m fuel Hcmp HI Hm Hf)
    as [(Hk & H1 & H2)|(lo & z & hi & Hxs & Hz & H)].
  - left. split_and!; [done..|]. intros Hml. specialize (H2 Hml).
    destruct m as [a|]; [|done].
    destruct H2 as (s' & lo & hi & ? & ? & ? & ? & ? & ? & ? & _). by exists s', lo, hi.
  - right. exists lo, z, hi. split_and!; [done..|].
    destruct ow; [|done].
    destruct H as (s' & ? & ? & ? & ? & ? & ? & _). by exists s'.
Qed.
(** *** [skiplist_remove] *)

Lemma nxtd_null k q : nxtd k q NULL = NULL → Forall (λ x, ilc x ≤ k)%nat q.
Proof.
  induction q as [|y q IH]; simpl; [done|].
  destruct (Nat.ltb_spec k (ilc y)); [done|]. intros Hn. constructor; [done|by apply IH].
Qed.

Lemma sl_bind_free {B : Type} (K : unit → M state B) a n s :
  mem s !! a = Some n →
  bind (FREE (Some a)) K s = K tt (mk_state (lst s) (delete a (mem s)) (dlog s)).
Proof. intros H. unfold bind, FREE. by rewrite H. Qed.

Section unlink.
Context (hd : positive) (ml top : nat) (lo hi : list item) (z : item).
Context (update : list ptr).
Context (Hnd : NoDup (hd :: (ia <$> lo ++ z :: hi))).
Context (Hupd : ∀ i, (i < top + 1)%nat → update !! i = Some (Some (predk i hd lo))).
Context (Htop : (top < ml)%nat) (Hz : (ilc z ≤ top + 1)%nat).

(** The links leaving [lo] when the levels below [j] have been unlinked. *)
Definition tlu (j : nat) : nat → ptr :=
  λ i, if (i <? j)%nat then nxtd i hi NULL else nxtd i (z :: hi) NULL.

Definition unlinked (s : state) (j : nat) : Prop :=
  RN (mem s) (tlu j) (hitem hd ml :: lo)
  ∧ node_ok (mem s) z (λ k, nxtd k hi NULL)
  ∧ RN (mem s) no_tl hi.

Lemma sl_unlink_spec n : ∀ j s,
  (j + n = top + 1)%nat → (j ≤ ilc z)%nat → unlinked s j →
  ∃ s', unlink n j (Some (ia z)) update s = Ok (tt, s')
        ∧ unlinked s' (ilc z) ∧ lst s' = lst s ∧ dlog s' = dlog s
        ∧ same_prev (mem s) (mem s').
Proof.
  induction n as [|n IH]; intros j s Hj Hjz Hun.
  - exists s. replace (ilc z) with j by lia. done.
  - destruct Hun as (HRlo & Hzok & HRhi).
    cbn [unlink]. unfold arr_get. rewrite Hupd by lia. rewrite bind_ret.
    cbn [is_null negb]. rewrite assert_true.
    assert (Hjml : (j < ilc (hitem hd ml))%nat) by (simpl; lia).
    destruct (RN_pred_link _ _ j _ _ HRlo Hjml)
      as (c & pvc & lsc & Hcin & Hc & Hcl & Hclen & Hclc & Hck).
    cbn [hitem ia] in Hc. rewrite Hc in Hcl.
    assert (Hnd' := Hnd). rewrite fmap_app, fmap_cons, app_comm_cons in Hnd'.
    apply NoDup_app in Hnd' as (Hndlo & Hdis & Hndz).
    apply NoDup_cons in Hndz as [Hzhi Hndhi].
    assert (Hcin' : predk j hd lo ∈ hd :: (ia <$> lo)).
    { rewrite <- Hc. by apply (list_elem_of_fmap_2 ia) in Hcin. }
    assert (Huz : predk j hd lo ≠ ia z).
    { intros E. apply (Hdis _ Hcin'). rewrite E. left. }
    repeat sl_step. apply Nat.ltb_lt in Hclc. rewrite Hclc, assert_true.
    erewrite sl_bind_rd_link; [|exact Hcl|exact Hck]. cbn beta.
    unfold tlu at 1. destruct (Nat.ltb_spec j j); [lia|]. cbn [nxtd].
    destruct (Nat.ltb_spec j (ilc z)) as [Hlt|Hge].
    + rewrite ptr_eqb_refl. cbn [negb].
      destruct Hzok as (pvz & lsz & Hzl & Hzlen & Hzlk).
      erewrite sl_bind_rd_link; [|exact Hzl|by apply Hzlk]. cbn beta.
      erewrite sl_bind_wr_link; [|exact Hcl|sl_simpl; apply Nat.ltb_lt in Hclc; lia].
      match goal with |- context [unlink n (S j) _ _ ?s1] => set (s' := s1) end.
      destruct (IH (S j) s') as (s'' & Hrun & Hun' & Hl & Hd & Hpv); [lia|lia| |].
      2:{ exists s''. rewrite Hrun. split_and!; try done.
          eapply same_prev_trans; [|exact Hpv]. subst s'. sl_simpl.
          intros b. destruct (decide (b = predk j hd lo)) as [->|].
          - by rewrite lookup_insert_eq, Hcl.
          - by rewrite lookup_insert_ne. }
      subst s'. unfold unlinked. sl_simpl. split_and!.
      * eapply RN_ext; cycle 1.
        { eapply (RN_set_tail _ (tlu j) j (nxtd j hi NULL) (hitem hd ml :: lo));
            [done|exact HRlo|apply lastk_head; lia|exact Hcl]. }
        intros i. cbn beta. unfold tlu.
        destruct (decide (i = j)) as [->|].
        -- destruct (Nat.ltb_spec j (S j)); [done|lia].
        -- destruct (Nat.ltb_spec i j), (Nat.ltb_spec i (S j)); try lia; done.
      * eapply node_ok_frame; [by apply lookup_insert_ne|].
        by exists pvz, lsz.
      * eapply RN_frame; [|exact HRhi]. intros b Hb. apply lookup_insert_ne.
        intros <-. apply (Hdis _ Hcin'). by right.
    + assert (Hne : ptr_eqb (nxtd j hi NULL) (Some (ia z)) = false).
      { apply ptr_eqb_ne. intros E. apply nxtd_elem in E as [E|E]; [done|].
        by apply Hzhi. }
      rewrite Hne. cbn [negb]. exists s. replace (ilc z) with j by lia.
      done.
Qed.

Lemma sl_unlinked_RN s :
  unlinked s (ilc z) →
  RN (delete (ia z) (mem s)) no_tl (hitem hd ml :: lo ++ hi).
Proof.
  intros (HRlo & Hzok & HRhi).
  assert (Hnd' := Hnd). rewrite fmap_app, fmap_cons, app_comm_cons in Hnd'.
  apply NoDup_app in Hnd' as (Hndlo & Hdis & Hndz).
  apply NoDup_cons in Hndz as [Hzhi Hndhi].
  rewrite app_comm_cons. apply RN_app. split.
  - eapply RN_frame; cycle 1.
    { eapply RN_ext; [|exact HRlo]. intros i. unfold tlu. cbn [nxtd].
      destruct (Nat.ltb_spec i (ilc z)) as [H1|H1]; [done|]. done. }
    intros b Hb. apply lookup_delete_ne. intros <-. apply (Hdis _ Hb). left.
  - eapply RN_frame; [|exact HRhi].
    intros b Hb. apply lookup_delete_ne. by intros <-.
Qed.

End unlink.

Lemma sl_shrink_spec hd xs top : ∀ s,
  head (lst s) = Some hd → top_link (lst s) = top →
  RN (mem s) no_tl (hitem hd (max_link (lst s)) :: xs) →
  (top < max_link (lst s))%nat →
  Forall (λ x, ilc x ≤ top + 1)%nat xs →
  ∃ top',
    shrink top s = Ok (tt, mk_state (with_top_link top' (lst s)) (mem s) (dlog s))
    ∧ (top' ≤ top)%nat ∧ Forall (λ x, ilc x ≤ top' + 1)%nat xs
    ∧ (top' = 0%nat ∨ nxtd top' xs NULL ≠ NULL).
Proof.
  induction top as [|top IH]; intros s Hhd Htop HR Hml Hlc.
  - exists 0%nat. split; [|split_and!; try done; by left]. cbn [shrink]. unfold ret.
    rewrite <- Htop. by destruct s as [[]].
  - cbn [shrink]. rewrite sl_bind_get, Hhd.
    assert (HR0 := HR). destruct HR0 as [(pv & ls & Hl & Hlen & Hlk) _].
    cbn [hitem ia ilc] in *.
    erewrite sl_bind_rd_link; [|exact Hl|by apply Hlk]. cbn beta.
    unfold no_tl at 1.
    destruct (nxtd (S top) xs NULL) as [y|] eqn:Hn; cbn [is_null].
    + exists (S top). split; [|split_and!; try done; right; by rewrite Hn].
      unfold ret. rewrite <- Htop.
      by destruct s as [[]].
    + apply nxtd_null in Hn. rewrite sl_bind_set.
      destruct (IH (mk_state (with_top_link top (lst s)) (mem s) (dlog s)))
        as (top' & Hrun & Hle & Hlc' & Hex); [done|done|done|sl_simpl; lia| |].
      { eapply Forall_impl; [exact Hn|]. cbn. lia. }
      exists top'. split; [|split_and!; [lia|done|done]].
      rewrite Hrun. done.
Qed.

Lemma sl_remove_full s xs ky fuel :
  strict_total (cmp_func (lst s)) → SLInv s xs → (length xs < fuel)%nat →
  ((ky ∉ ik <$> xs) ∧ skiplist_remove fuel ky s = Ok (false, s))
  ∨ (∃ lo z hi s',
       xs = lo ++ z :: hi ∧ ik z = ky
       ∧ skiplist_remove fuel ky s = Ok (true, s')
       ∧ SLInv s' (lo ++ hi)
       ∧ dlog s' = log_del s (ik z) (id z)
       ∧ cmp_func (lst s') = cmp_func (lst s)
       ∧ del_func (lst s') = del_func (lst s)
       ∧ max_link (lst s') = max_link (lst s)
       ∧ (top_link (lst s') = 0%nat
          ∨ nxtd (top_link (lst s')) (lo ++ hi) NULL ≠ NULL)
       ∧ mem s' !! ia z = None
       ∧ (∀ b, b ≠ ia z → prev <$> (mem s' !! b) = prev <$> (mem s !! b))
       ∧ head (lst s') = head (lst s)).
Proof.
  intros Hcmp (hd & Hhd & HR & Hnd & Hlc & Htop & Hs & Hc) Hf.
  assert (Hlc1 : Forall (λ x, 1 ≤ ilc x)%nat xs).
  { eapply Forall_impl; [exact Hlc|]. cbn. lia. }
  destruct (sl_split3 _ xs ky Hcmp Hs) as (lo & hi & Hlo & Hhi & [->|(z & Hz & ->)]).
  - left. split.
    { rewrite fmap_app, elem_of_app. intros [Hin|Hin];
        apply list_elem_of_fmap in Hin as (x & -> & Hx).
      - rewrite Forall_forall in Hlo. specialize (Hlo _ Hx).
        rewrite (cmp_refl _ Hcmp) in Hlo. lia.
      - rewrite Forall_forall in Hhi. specialize (Hhi _ Hx).
        rewrite (cmp_refl _ Hcmp) in Hhi. lia. }
    destruct (sl_locate s hd lo hi ky fuel) as (u & Hrun & Hlen & Hlow & Hhigh);
      try done.
    { by apply Forall_app in Hlc1 as [_ ?]. }
    { eapply Forall_impl; [exact Hhi|]. cbn. lia. }
    unfold skiplist_remove. rewrite !sl_bind_get, Hhd.
    rewrite Hrun. rewrite sl_bind_get.
    destruct hi as [|y hi']; [done|].
    apply Forall_app in Hlc1 as [_ Hy]. apply Forall_cons in Hy as [Hy _].
    cbn [nxtd]. destruct (Nat.ltb_spec 0 (ilc y)); [|lia]. cbn [is_null].
    cbn [RN] in HR. destruct HR as [_ HR]. apply RN_app in HR as [_ [Hyok _]].
    destruct Hyok as (pv & ls & Hyl & _).
    rewrite bind_assoc. erewrite sl_bind_rd by exact Hyl. sl_simpl.
    rewrite bind_ret.
    apply Forall_cons in Hhi as [Hky _].
    destruct (Z.eqb_spec (cmp_func (lst s) ky (ik y)) 0); [lia|done].
  - subst ky. right.
    assert (Hzz : cmp_func (lst s) (ik z) (ik z) = 0) by by apply (cmp_refl _ Hcmp).
    destruct (sl_locate s hd lo (z :: hi) (ik z) fuel) as (u & Hrun & Hlen & Hlow & Hhigh);
      try done.
    { by apply Forall_app in Hlc1 as [_ ?]. }
    { constructor; [lia|]. eapply Forall_impl; [exact Hhi|]. cbn. lia. }
    assert (Hlcz := Hlc). apply Forall_app in Hlcz as [Hlclo Hlcz].
    apply Forall_cons in Hlcz as [Hzlc Hlchi].
    assert (HR0 := HR). rewrite app_comm_cons in HR0.
    apply RN_app in HR0 as [HRlo [Hzok HRhi]].
    assert (Hzl := Hzok). destruct Hzl as (pv & ls & Hzl & _).
    unfold skiplist_remove. rewrite !sl_bind_get, Hhd.
    rewrite Hrun. rewrite sl_bind_get.
    cbn [nxtd]. destruct (Nat.ltb_spec 0 (ilc z)); [|lia]. cbn [is_null].
    rewrite bind_assoc. erewrite sl_bind_rd by exact Hzl. sl_simpl.
    rewrite bind_ret, Hzz. cbn [Z.eqb negb].
    destruct (sl_unlink_spec hd (max_link (lst s)) (top_link (lst s)) lo hi z u
                Hnd Hlow ltac:(lia) ltac:(lia) (top_link (lst s) + 1) 0%nat s)
      as (s1 & Hrun1 & Hun & Hl1 & Hd1 & Hpv1); [lia|lia| |].
    { unfold unlinked. split_and!; [|done..].
      eapply RN_ext; [|exact HRlo]. intros i. unfold tlu.
      by destruct (Nat.ltb_spec i 0); [lia|]. }
    sl_run Hrun1. clear Hrun1.
    assert (Hzl1 : ∃ pv1 ls1, mem s1 !! ia z
                = Some (mk_node (ik z) (id z) pv1 (ilc z) ls1)).
    { destruct Hun as (_ & (pv1 & ls1 & ? & _) & _). by exists pv1, ls1. }
    destruct Hzl1 as (pv1 & ls1 & Hzl1).
    erewrite sl_call_del_spec by exact Hzl1. sl_simpl.
    erewrite sl_bind_free by (sl_simpl; exact Hzl1). sl_simpl.
    rewrite sl_bind_get. sl_simpl.
    apply (sl_unlinked_RN hd (max_link (lst s)) lo hi z Hnd) in Hun.
    set (s2 := mk_state _ _ _).
    destruct (sl_shrink_spec hd (lo ++ hi) (top_link (lst s1)) s2)
      as (top' & Hrun2 & Hle & Hlc' & Hex).
    1-5: subst s2; sl_simpl; rewrite ?Hl1.
    { done. }
    { done. }
    { done. }
    { lia. }
    { apply Forall_app. split.
      - eapply Forall_impl; [exact Hlclo|]. cbn. lia.
      - eapply Forall_impl; [exact Hlchi|]. cbn. lia. }
    sl_run Hrun2. clear Hrun2. subst s2. sl_simpl.
    repeat sl_step.
    exists lo, z, hi. eexists. split; [done|]. split; [done|].
    split; [reflexivity|]. sl_simpl. rewrite Hl1.
    split; [|split_and!; try done].
    2:{ by unfold log_del; rewrite Hl1, Hd1. }
    2:{ apply lookup_delete_eq. }
    2:{ intros b Hb. rewrite lookup_delete_ne by done. apply Hpv1. }
    exists hd. sl_simpl. split_and!.
    + done.
    + done.
    + eapply NoDup_Permutation_proper; [|eapply NoDup_cons_1_2, NoDup_Permutation_proper;
        [|exact Hnd]].
      2:{ rewrite fmap_app, fmap_cons.
          instantiate (1 := hd :: (ia <$> lo) ++ (ia <$> hi)). instantiate (1 := ia z).
          solve_Permutation. }
      rewrite fmap_app. done.
    + apply Forall_app in Hlc' as [A B]. apply Forall_app. split.
      * rewrite Forall_forall in *. intros x Hx. specialize (A x Hx).
        specialize (Hlclo x Hx). cbn in *. lia.
      * rewrite Forall_forall in *. intros x Hx. specialize (B x Hx).
        specialize (Hlchi x Hx). cbn in *. lia.
    + rewrite Hl1 in Hle. lia.
    + lia.
    + rewrite fmap_app, fmap_cons in Hs. rewrite fmap_app.
      by apply sorted_remove_mid in Hs.
    + rewrite Hc, wrap_size_pred. f_equal. rewrite !length_app. cbn [length]. lia.
Qed.

Lemma sl_remove_spec s xs ky fuel :
  strict_total (cmp_func (lst s)) → SLInv s xs → (length xs < fuel)%nat →
  ((ky ∉ ik <$> xs) ∧ skiplist_remove fuel ky s = Ok (false, s))
  ∨ (∃ lo z hi s',
       xs = lo ++ z :: hi ∧ ik z = ky
       ∧ skiplist_remove fuel ky s = Ok (true, s')
       ∧ SLInv s' (lo ++ hi)
       ∧ dlog s' = log_del s (ik z) (id z)
       ∧ cmp_func (lst s') = cmp_func (lst s)
       ∧ del_func (lst s') = del_func (lst s)
       ∧ max_link (lst s') = max_link (lst s)).
Proof.
  intros Hcmp HI Hf.
  destruct (sl_remove_full s xs ky fuel Hcmp HI Hf)
    as [?|(lo & z & hi & s' & ? & ? & ? & ? & ? & ? & ? & ? & _)]; [by left|right].
  by exists lo, z, hi, s'.
Qed.
(** *** [skiplist_probe] *)

Section probe_walk.
Context (s : state) (hd : positive) (ml : nat).

Lemma sl_probe_advance_spec k ky post : ∀ pre fuel,
  RN (mem s) no_tl (hitem hd ml :: pre ++ post) →
  (k < ml)%nat → (length post < fuel)%nat →
  probe_advance fuel k ky (Some (predk k hd pre)) s
  = Ok (match swalk (cmp_func (lst s)) k ky (predk k hd pre) post with
        | inl z => inl (Some (ia z))
        | inr c => inr (Some c)
        end, s).
Proof.
  induction post as [|y q IH]; intros pre fuel HR Hk Hf.
  - destruct fuel as [|fuel]; [simpl in Hf; lia|]. cbn [probe_advance swalk].
    rewrite app_nil_r in HR.
    destruct (RN_pred_link _ _ k _ _ HR Hk) as (c & pv & ls & _ & Hc & Hl & _ & _ & Hk').
    cbn [hitem ia] in Hc. rewrite Hc in Hl.
    erewrite sl_bind_rd_link by eassumption. done.
  - assert (HR' := HR). rewrite app_comm_cons in HR'. apply RN_app in HR' as [HRp HRq].
    destruct (RN_pred_link _ _ k _ _ HRp Hk) as (c & pv & ls & _ & Hc & Hl & _ & _ & Hk').
    cbn [hitem ia] in Hc. rewrite Hc in Hl.
    cbn [swalk]. cbn [nxtd] in Hk'.
    assert (HR2 : RN (mem s) no_tl (hitem hd ml :: (pre ++ [y]) ++ q))
      by by rewrite <- app_assoc.
    destruct (Nat.ltb_spec k (ilc y)) as [Hlt|Hge].
    + destruct fuel as [|fuel]; [simpl in Hf; lia|]. cbn [probe_advance].
      erewrite sl_bind_rd_link by eassumption. sl_simpl.
      destruct HRq as [(pvy & lsy & Hy & _) _].
      repeat sl_step.
      destruct (Z.ltb_spec (cmp_func (lst s) ky (ik y)) 0); [done|].
      repeat sl_step. apply Nat.ltb_lt in Hlt as Hltb. rewrite Hltb, assert_true.
      destruct (Z.eqb_spec (cmp_func (lst s) ky (ik y)) 0); [done|].
      specialize (IH (pre ++ [y]) fuel HR2 Hk). rewrite predk_snoc in IH.
      rewrite Hltb in IH. apply IH. simpl in Hf. lia.
    + specialize (IH (pre ++ [y]) fuel HR2 Hk). rewrite predk_snoc in IH.
      apply Nat.ltb_ge in Hge. rewrite Hge in IH. apply IH. simpl in Hf. lia.
Qed.

End probe_walk.

Section probe_descent.
Context (s : state) (hd : positive) (ml : nat) (ky : Z) (lo rest : list item).
Context (HR : RN (mem s) no_tl (hitem hd ml :: lo ++ rest)).
Context (Hlo : Forall (λ x, cmp_func (lst s) ky (ik x) > 0) lo).

Lemma sl_probe_descend_absent fuel n : ∀ cur update,
  Forall (λ x, cmp_func (lst s) ky (ik x) < 0) rest →
  (n ≤ ml)%nat → (ml ≤ MAX_LINK)%nat → length update = MAX_LINK →
  (length (lo ++ rest) < fuel)%nat →
  at_level hd lo n cur →
  ∃ update',
    probe_descend fuel n ky (Some cur) update s = Ok (inr update', s)
    ∧ length update' = MAX_LINK
    ∧ (∀ j, (j < n)%nat → update' !! j = Some (Some (predk j hd lo)))
    ∧ (∀ j, (n ≤ j)%nat → update' !! j = update !! j).
Proof.
  intros cur update Hrest. revert cur update.
  induction n as [|k IH]; intros cur update Hn Hml Hu Hf Hat.
  - exists update. split_and!; [done..|lia|done].
  - destruct Hat as (pre & post & Hsp & ->).
    destruct (sl_node_at s hd ml ky lo rest HR Hlo k pre post Hsp) as (nd & Hnd & Hlc); [lia|].
    cbn [probe_descend]. repeat sl_step.
    apply Nat.ltb_lt in Hlc. rewrite Hlc. rewrite assert_true.
    assert (Hadv := sl_probe_advance_spec s hd ml k ky (post ++ rest) pre fuel).
    rewrite app_assoc, <- Hsp in Hadv.
    rewrite Hsp, Forall_app in Hlo. destruct Hlo as [_ Hpost].
    rewrite (swalk_absent _ _ _ _ _ _ _ Hpost Hrest), <- Hsp in Hadv.
    erewrite bind_ok; cycle 1.
    { apply Hadv; [done|lia|]. rewrite Hsp, <- app_assoc, length_app in Hf. lia. }
    unfold arr_set. rewrite Hu.
    assert (Hk32 : (k <? MAX_LINK)%nat = true) by (apply Nat.ltb_lt; lia).
    rewrite Hk32, bind_ret.
    destruct (IH (predk k hd lo) (<[k := Some (predk k hd lo)]> update))
      as (u' & Hrun & Hlen & Hlt & Hge);
      [lia|done|by rewrite length_insert|done|apply at_level_next|].
    exists u'. split_and!; [done..| |].
    + intros j Hj. destruct (decide (j = k)) as [->|Hne].
      * rewrite Hge by lia. rewrite list_lookup_insert_eq; [done|]. rewrite Hu. lia.
      * apply Hlt. lia.
    + intros j Hj. rewrite Hge by lia. apply list_lookup_insert_ne. lia.
Qed.

Lemma sl_probe_descend_present fuel n z hi : ∀ cur update,
  rest = z :: hi →
  cmp_func (lst s) ky (ik z) = 0 →
  Forall (λ x, cmp_func (lst s) ky (ik x) < 0) hi →
  (1 ≤ ilc z)%nat →
  (1 ≤ n ≤ ml)%nat → (ml ≤ MAX_LINK)%nat → length update = MAX_LINK →
  (length (lo ++ rest) < fuel)%nat →
  at_level hd lo n cur →
  probe_descend fuel n ky (Some cur) update s = Ok (inl (Some (ia z)), s).
Proof.
  intros cur update -> Hz Hhi Hlc. revert cur update.
  induction n as [|k IH]; intros cur update Hn Hml Hu Hf Hat; [lia|].
  destruct Hat as (pre & post & Hsp & ->).
  destruct (sl_node_at s hd ml ky lo (z :: hi) HR Hlo k pre post Hsp) as (nd & Hnd & Hlck); [lia|].
  cbn [probe_descend]. repeat sl_step.
  apply Nat.ltb_lt in Hlck. rewrite Hlck. rewrite assert_true.
  assert (Hadv := sl_probe_advance_spec s hd ml k ky (post ++ z :: hi) pre fuel).
  rewrite app_assoc, <- Hsp in Hadv.
  rewrite Hsp, Forall_app in Hlo. destruct Hlo as [_ Hpost].
  rewrite (swalk_present _ _ _ _ _ _ _ _ Hpost Hz Hhi), <- Hsp in Hadv.
  erewrite bind_ok; cycle 1.
  { apply Hadv; [done|lia|]. rewrite Hsp, <- app_assoc, length_app in Hf. lia. }
  destruct (Nat.ltb_spec k (ilc z)); [done|].
  unfold arr_set. rewrite Hu.
  assert (Hk32 : (k <? MAX_LINK)%nat = true) by (apply Nat.ltb_lt; lia).
  rewrite Hk32, bind_ret.
  apply IH; [lia|done|by rewrite length_insert|done|apply at_level_next].
Qed.

End probe_descent.

Lemma sl_probe_full s xs ky v m fuel :
  strict_total (cmp_func (lst s)) → SLInv s xs → malloc_ok s m →
  (length xs < fuel)%nat →
  ((ky ∉ ik <$> xs)
   ∧ (max_link (lst s) = 1%nat → skiplist_probe fuel ky v m s = AssertFail)
   ∧ ((2 ≤ max_link (lst s))%nat →
      match m with
      | None => skiplist_probe fuel ky v m s = Ok ((-1, v), stepped s)
      | Some a =>
          ∃ s' lo hi,
            xs = lo ++ hi
            ∧ skiplist_probe fuel ky v m s = Ok ((1, v), s')
            ∧ SLInv s' (lo ++ mk_item a ky v (next_level s) :: hi)
            ∧ dlog s' = dlog s
            ∧ cmp_func (lst s') = cmp_func (lst s)
            ∧ del_func (lst s') = del_func (lst s)
            ∧ max_link (lst s') = max_link (lst s)
            ∧ top_link (lst s') = Nat.max (top_link (lst s)) (next_level s)
            ∧ (∀ hd, head (lst s) = Some hd →
                 ins_prev (mem s) (mem s') a (predk 0 hd lo) (nxtd 0 hi NULL))
            ∧ head (lst s') = head (lst s)
      end))
  ∨ (∃ lo z hi,
       xs = lo ++ z :: hi ∧ ik z = ky
       ∧ skiplist_probe fuel ky v m s = Ok ((0, id z), s)).
Proof.
  intros Hcmp (hd & Hhd & HR & Hnd & Hlc & Htop & Hs & Hc) Hm Hf.
  assert (Hlc1 : Forall (λ x, 1 ≤ ilc x)%nat xs).
  { eapply Forall_impl; [exact Hlc|]. cbn. lia. }
  destruct (sl_split3 _ xs ky Hcmp Hs) as (lo & hi & Hlo & Hhi & [->|(z & Hz & ->)]).
  - left. split.
    { rewrite fmap_app, elem_of_app. intros [Hin|Hin];
        apply list_elem_of_fmap in Hin as (x & -> & Hx).
      - rewrite Forall_forall in Hlo. specialize (Hlo _ Hx).
        rewrite (cmp_refl _ Hcmp) in Hlo. lia.
      - rewrite Forall_forall in Hhi. specialize (Hhi _ Hx).
        rewrite (cmp_refl _ Hcmp) in Hhi. lia. }
    destruct (sl_probe_descend_absent s hd _ ky lo hi HR Hlo fuel
                (top_link (lst s) + 1) hd (replicate MAX_LINK NULL))
      as (u & Hrun & Hlen & Hlow & Hhigh);
      [done|lia|lia|by rewrite length_replicate|done| |].
    { rewrite Nat.add_1_r. apply at_level_head. }
    assert (Hgo : ∀ mm, skiplist_probe fuel ky v mm s
              = (let* n := node_insert ky v u mm in
                 ret (if is_null n then -1 else 1, v)) s).
    { intros mm. unfold skiplist_probe. rewrite !sl_bind_get, Hhd.
      by erewrite bind_ok by exact Hrun. }
    split.
    + intros Hml. rewrite Hgo. unfold bind.
      by rewrite sl_node_insert_assert.
    + intros Hml. destruct m as [a|].
      * destruct (sl_node_insert_full s hd lo hi ky v u a)
          as (s' & Hrun' & Hinv & Hd' & Hc' & Hdl' & Hm' & Ht' & Hp' & Hh'); try done.
        exists s', lo, hi. split; [done|]. split.
        { rewrite Hgo. by erewrite bind_ok by exact Hrun'. }
        split_and!; try done. intros hd' Hhd'. rewrite Hhd in Hhd'. by injection Hhd' as <-.
      * rewrite Hgo. by erewrite bind_ok by (by apply sl_node_insert_nomem).
  - subst ky. right. exists lo, z, hi. split; [done|]. split; [done|].
    assert (Hzz : cmp_func (lst s) (ik z) (ik z) = 0) by by apply (cmp_refl _ Hcmp).
    apply Forall_app in Hlc1 as [_ Hy]. apply Forall_cons in Hy as [Hy _].
    assert (HR0 := HR). cbn [RN] in HR0. destruct HR0 as [_ HR0].
    apply RN_app in HR0 as [_ [Hzok _]].
    destruct Hzok as (pv & ls & Hzl & _).
    unfold skiplist_probe. rewrite !sl_bind_get, Hhd.
    erewrite bind_ok; cycle 1.
    { eapply (sl_probe_descend_present s hd _ (ik z) lo (z :: hi) HR Hlo fuel
                (top_link (lst s) + 1) z hi); try done; try lia; try (by rewrite length_replicate).
      rewrite Nat.add_1_r. apply at_level_head. }
    cbn beta iota. by erewrite sl_bind_rd by exact Hzl.
Qed.

Lemma sl_probe_spec s xs ky v m fuel :
  strict_total (cmp_func (lst s)) → SLInv s xs → malloc_ok s m →
  (length xs < fuel)%nat →
  ((ky ∉ ik <$> xs)
   ∧ (max_link (lst s) = 1%nat → skiplist_probe fuel ky v m s = AssertFail)
   ∧ ((2 ≤ max_link (lst s))%nat →
      match m with
      | None => skiplist_probe fuel ky v m s = Ok ((-1, v), stepped s)
      | Some a =>
          ∃ s' lo hi,
            xs = lo ++ hi
            ∧ skiplist_probe fuel ky v m s = Ok ((1, v), s')
            ∧ SLInv s' (lo ++ mk_item a ky v (next_level s) :: hi)
            ∧ dlog s' = dlog s
            ∧ cmp_func (lst s') = cmp_func (lst s)
            ∧ del_func (lst s') = del_func (lst s)
            ∧ max_link (lst s') = max_link (lst s)
      end))
  ∨ (∃ lo z hi,
       xs = lo ++ z :: hi ∧ ik z = ky
       ∧ skiplist_probe fuel ky v m s = Ok ((0, id z), s)).
Proof.
  intros Hcmp HI Hm Hf.
  destruct (sl_probe_full s xs ky v m fuel Hcmp HI Hm Hf)
    as [(Hk & H1 & H2)|H]; [|by right].
  left. split_and!; [done..|]. intros Hml. specialize (H2 Hml).
  destruct m as [a|]; [|done].
  destruct H2 as (s' & lo & hi & ? & ? & ? & ? & ? & ? & ? & _). by exists s', lo, hi.
Qed.
(** *** [skiplist_new] *)

Lemma sl_new_spec cmp del ml a seed :
  (1 ≤ ml)%nat →
  ∃ s, skiplist_new cmp del ml (Some a) seed = Ok (Some s)
       ∧ SLInv s []
       ∧ cmp_func (lst s) = cmp ∧ del_func (lst s) = del
       ∧ max_link (lst s) = Nat.min ml MAX_LINK
       ∧ dlog s = [].
Proof.
  intros Hml. unfold skiplist_new.
  destruct (Nat.ltb_spec 0 ml) as [_|]; [|lia]. cbn [negb].
  set (ml' := if (MAX_LINK <? ml)%nat then MAX_LINK else ml).
  assert (Hml' : ml' = Nat.min ml MAX_LINK).
  { subst ml'. destruct (Nat.ltb_spec MAX_LINK ml); lia. }
  assert (H1 : (1 ≤ ml')%nat) by (rewrite Hml'; unfold MAX_LINK; lia).
  unfold node_new, bind, ASSERT.
  destruct (Nat.leb_spec 1 ml') as [_|]; [|lia]. cbn beta iota. cbn [is_null mem lst dlog].
  eexists. split; [reflexivity|]. sl_simpl. split; [|done].
  exists a. sl_simpl. split_and!; try done.
  - cbn [RN]. split; [|done]. exists NULL, (replicate ml' NULL).
    cbn [hitem ia ik id ilc]. rewrite lookup_insert_eq, length_replicate.
    split_and!; [done..|]. intros k Hk. by apply lookup_replicate_2.
  - cbn. apply NoDup_singleton.
  - lia.
  - constructor.
Qed.

(** A list made with [max_link = 1] is accepted. *)
Lemma sl_new_one cmp del a seed :
  ∃ s, skiplist_new cmp del 1 (Some a) seed = Ok (Some s)
       ∧ max_link (lst s) = 1%nat ∧ SLInv s [].
Proof.
  destruct (sl_new_spec cmp del 1 a seed) as (s & H & HI & _ & _ & Hm & _); [lia|].
  exists s. split_and!; [done| |done]. rewrite Hm. reflexivity.
Qed.
(** *** Round trips through the operations *)

Lemma sl_insert_then_search s xs ky v ow m fuel s' :
  strict_total (cmp_func (lst s)) → SLInv s xs → malloc_ok s m →
  (S (length xs) < fuel)%nat →
  skiplist_insert fuel ky v ow m s = Ok (0, s') →
  skiplist_search fuel ky s' = Ok (v, s').
Proof.
  intros Hcmp HI Hm Hf Hins.
  destruct (sl_insert_spec s xs ky v ow m fuel Hcmp HI Hm)
    as [(_ & H1 & H2)|(lo & z & hi & -> & Hz & H)]; [lia| |].
  - destruct HI as (hd & _ & _ & _ & _ & Htop & _).
    destruct (decide (max_link (lst s) = 1%nat)) as [E|E];
      [rewrite (H1 E) in Hins; done|].
    specialize (H2 ltac:(lia)). destruct m; [|congruence].
    destruct H2 as (s1 & lo & hi & -> & H & HI1 & _ & Hc & _).
    rewrite H in Hins. injection Hins as <-.
    eapply (sl_search_present s1 _ (mk_item p ky v (next_level s)));
      [by rewrite Hc|exact HI1|set_solver|].
    rewrite length_app in *. cbn [length]. lia.
  - destruct ow; [|congruence].
    destruct H as (s1 & H & HI1 & _ & Hc & _).
    rewrite H in Hins. injection Hins as <-.
    eapply (sl_search_present s1 _ (mk_item (ia z) ky v (ilc z)));
      [by rewrite Hc|exact HI1|set_solver|].
    rewrite length_app in *. cbn [length] in *. lia.
Qed.

Lemma sl_overwrite_then_search s xs ky d v2 m fuel :
  strict_total (cmp_func (lst s)) → SLInv s xs → malloc_ok s m →
  (ky, d) ∈ sl_entries xs → (length xs < fuel)%nat →
  ∃ s', skiplist_insert fuel ky v2 true m s = Ok (0, s')
        ∧ skiplist_search fuel ky s' = Ok (v2, s')
        ∧ dlog s' = log_del s ky d.
Proof.
  intros Hcmp HI Hm Hin Hf.
  destruct (sl_insert_spec s xs ky v2 true m fuel Hcmp HI Hm)
    as [(Hk & _)|(lo & z & hi & -> & Hz & H)]; [lia| |].
  - exfalso. apply Hk. apply list_elem_of_fmap in Hin as (x & [= -> ->] & Hx).
    by apply list_elem_of_fmap_2.
  - destruct H as (s1 & H & HI1 & Hd & Hc & _).
    assert (id z = d) as <-.
    { destruct HI as (hd & _ & _ & _ & _ & _ & Hs & _).
      apply (sorted_NoDup _ Hcmp) in Hs.
      apply (NoDup_fst_inj (sl_entries (lo ++ z :: hi)) ky); [|..|done].
      - unfold sl_entries. by rewrite <- list_fmap_compose.
      - unfold sl_entries. rewrite fmap_app, fmap_cons, Hz. set_solver. }
    exists s1. split_and!; [done| |by rewrite <- Hz].
    eapply (sl_search_present s1 _ (mk_item (ia z) ky v2 (ilc z)));
      [by rewrite Hc|exact HI1|set_solver|].
    rewrite length_app in *. cbn [length] in *. lia.
Qed.

Lemma sl_remove_then_search s xs ky fuel s' :
  strict_total (cmp_func (lst s)) → SLInv s xs → (length xs < fuel)%nat →
  skiplist_remove fuel ky s = Ok (true, s') →
  skiplist_search fuel ky s' = Ok (NULLZ, s').
Proof.
  intros Hcmp HI Hf Hrm.
  destruct (sl_remove_spec s xs ky fuel Hcmp HI Hf)
    as [[_ H]|(lo & z & hi & s1 & -> & Hz & H & HI1 & _ & Hc & _)]; [congruence|].
  rewrite H in Hrm. injection Hrm as <-.
  apply (sl_search_absent s1 (lo ++ hi)); [by rewrite Hc|done| |].
  - destruct HI as (hd & _ & _ & _ & _ & _ & Hs & _).
    apply (sorted_NoDup _ Hcmp) in Hs.
    rewrite fmap_app, fmap_cons in Hs. rewrite fmap_app.
    apply NoDup_app in Hs as (_ & Hl & Hr). apply NoDup_cons in Hr as [Hr _].
    rewrite Hz in *. intros [Hin|Hin]%elem_of_app; [|done].
    apply (Hl _ Hin). left.
  - rewrite length_app in *. cbn [length] in Hf. lia.
Qed.

(** *** Allocation failure, and the assertion of [node_insert] *)

Lemma sl_insert_nomem s xs ky v ow m fuel s' :
  strict_total (cmp_func (lst s)) → SLInv s xs → malloc_ok s m →
  (length xs < fuel)%nat →
  skiplist_insert fuel ky v ow m s = Ok (-1, s') → m = NULL ∧ s' = stepped s.
Proof.
  intros Hcmp HI Hm Hf Hins.
  destruct (sl_insert_spec s xs ky v ow m fuel Hcmp HI Hm Hf)
    as [(_ & H1 & H2)|(lo & z & hi & -> & Hz & H)].
  - destruct HI as (hd & _ & _ & _ & _ & Htop & _).
    destruct (decide (max_link (lst s) = 1%nat)) as [E|E];
      [rewrite (H1 E) in Hins; done|].
    specialize (H2 ltac:(lia)). destruct m.
    + destruct H2 as (s1 & lo & hi & _ & H & _). congruence.
    + split; [done|congruence].
  - destruct ow; [|congruence].
    destruct H as (s1 & H & _). congruence.
Qed.

Lemma sl_probe_nomem s xs ky v m fuel d s' :
  strict_total (cmp_func (lst s)) → SLInv s xs → malloc_ok s m →
  (length xs < fuel)%nat →
  skiplist_probe fuel ky v m s = Ok ((-1, d), s') → m = NULL ∧ s' = stepped s.
Proof.
  intros Hcmp HI Hm Hf Hins.
  destruct (sl_probe_spec s xs ky v m fuel Hcmp HI Hm Hf)
    as [(_ & H1 & H2)|(lo & z & hi & -> & Hz & H)].
  - destruct HI as (hd & _ & _ & _ & _ & Htop & _).
    destruct (decide (max_link (lst s) = 1%nat)) as [E|E];
      [rewrite (H1 E) in Hins; done|].
    specialize (H2 ltac:(lia)). destruct m.
    + destruct H2 as (s1 & lo & hi & _ & H & _). congruence.
    + split; [done|congruence].
  - congruence.
Qed.

(** With [max_link >= 2] no assertion fails: insert and probe return. *)
Lemma sl_insert_total s xs ky v ow m fuel :
  strict_total (cmp_func (lst s)) → SLInv s xs → malloc_ok s m →
  (length xs < fuel)%nat → (2 ≤ max_link (lst s))%nat →
  ∃ r s', skiplist_insert fuel ky v ow m s = Ok (r, s').
Proof.
  intros Hcmp HI Hm Hf Hml.
  destruct (sl_insert_spec s xs ky v ow m fuel Hcmp HI Hm Hf)
    as [(_ & _ & H2)|(lo & z & hi & -> & Hz & H)].
  - specialize (H2 Hml). destruct m.
    + destruct H2 as (s1 & lo & hi & _ & H & _). by eexists _, _.
    + by eexists _, _.
  - destruct ow.
    + destruct H as (s1 & H & _). by eexists _, _.
    + by eexists _, _.
Qed.

Lemma sl_probe_total s xs ky v m fuel :
  strict_total (cmp_func (lst s)) → SLInv s xs → malloc_ok s m →
  (length xs < fuel)%nat → (2 ≤ max_link (lst s))%nat →
  ∃ r s', skiplist_probe fuel ky v m s = Ok (r, s').
Proof.
  intros Hcmp HI Hm Hf Hml.
  destruct (sl_probe_spec s xs ky v m fuel Hcmp HI Hm Hf)
    as [(_ & _ & H2)|(lo & z & hi & -> & Hz & H)].
  - specialize (H2 Hml). destruct m.
    + destruct H2 as (s1 & lo & hi & _ & H & _). by eexists _, _.
    + by eexists _, _.
  - by eexists _, _.
Qed.

(** With [max_link = 1] the first insert or probe of a key that is not in
    the list fails the assertion. *)
Lemma sl_insert_one s xs ky v ow m fuel :
  strict_total (cmp_func (lst s)) → SLInv s xs → malloc_ok s m →
  (length xs < fuel)%nat → max_link (lst s) = 1%nat → (ky ∉ ik <$> xs) →
  skiplist_insert fuel ky v ow m s = AssertFail.
Proof.
  intros Hcmp HI Hm Hf Hml Hk.
  destruct (sl_insert_spec s xs ky v ow m fuel Hcmp HI Hm Hf)
    as [(_ & H1 & _)|(lo & z & hi & -> & Hz & H)]; [by apply H1|].
  exfalso. apply Hk. rewrite fmap_app, fmap_cons, Hz. set_solver.
Qed.

Lemma sl_probe_one s xs ky v m fuel :
  strict_total (cmp_func (lst s)) → SLInv s xs → malloc_ok s m →
  (length xs < fuel)%nat → max_link (lst s) = 1%nat → (ky ∉ ik <$> xs) →
  skiplist_probe fuel ky v m s = AssertFail.
Proof.
  intros Hcmp HI Hm Hf Hml Hk.
  destruct (sl_probe_spec s xs ky v m fuel Hcmp HI Hm Hf)
    as [(_ & H1 & _)|(lo & z & hi & -> & Hz & H)]; [by apply H1|].
  exfalso. apply Hk. rewrite fmap_app, fmap_cons, Hz. set_solver.
Qed.
(** *** [skiplist_clear] *)

(** The cleanup calls of a clear: every entry, in order, when the callback
    is set. *)
Definition log_all (s : state) (es : list (Z * Z)) : list (Z * Z) :=
  if del_func (lst s) then dlog s ++ es else dlog s.

Lemma sl_clear_loop_spec hd : ∀ post s fuel,
  RN (mem s) no_tl post → NoDup (hd :: (ia <$> post)) →
  Forall (λ x, 1 ≤ ilc x)%nat post → (length post ≤ fuel)%nat →
  ∀ hn, mem s !! hd = Some hn →
  ∃ s', clear_loop fuel (nxtd 0 post NULL) s = Ok (tt, s')
        ∧ lst s' = lst s
        ∧ mem s' !! hd = Some hn
        ∧ dlog s' = log_all s (sl_entries post)
        ∧ (∀ a, a ∈ ia <$> post → mem s' !! a = None)
        ∧ (∀ a, a ∉ ia <$> post → mem s' !! a = mem s !! a).
Proof.
  induction post as [|y q IH]; intros s fuel HR Hnd Hlc Hf hn Hhd.
  - exists s. cbn [nxtd clear_loop]. split_and!; [by destruct fuel|done|done| | |done].
    + unfold log_all. cbn. rewrite app_nil_r. by destruct (del_func (lst s)).
    + intros a Ha. by apply elem_of_nil in Ha.
  - apply Forall_cons in Hlc as [Hy Hq].
    destruct HR as [(pv & ls & Hl & Hlen & Hlk) HRq].
    cbn [nxtd]. destruct (Nat.ltb_spec 0 (ilc y)); [|lia].
    destruct fuel as [|fuel]; [simpl in Hf; lia|]. simpl in Hf.
    cbn [clear_loop].
    erewrite sl_bind_rd_link; [|exact Hl|by apply Hlk]. cbn beta.
    erewrite sl_call_del_spec by exact Hl. sl_simpl.
    erewrite sl_bind_free by (sl_simpl; exact Hl). sl_simpl.
    rewrite fmap_cons in Hnd.
    apply NoDup_cons in Hnd as [Hhdn Hnd]. apply NoDup_cons in Hnd as [Hyq Hndq].
    match goal with |- context [clear_loop fuel _ ?s1] => set (s1' := s1) end.
    destruct (IH s1' fuel) with (hn := hn) as (s' & Hrun & Hl' & Hh' & Hd' & Hin' & Hout').
    { subst s1'. sl_simpl. eapply RN_frame; [|exact HRq].
      intros a Ha. apply lookup_delete_ne. by intros <-. }
    { constructor; [|done]. intros Hin. apply Hhdn. by right. }
    { done. }
    { lia. }
    { subst s1'. sl_simpl. rewrite lookup_delete_ne; [done|].
      intros <-. apply Hhdn. left. }
    exists s'. unfold no_tl at 1. split_and!; [done|by rewrite Hl'|done| | |].
    + rewrite Hd'. subst s1'. unfold log_all, log_del. sl_simpl.
      cbn [sl_entries fmap list_fmap].
      destruct (del_func (lst s)); [|done]. by rewrite <- app_assoc.
    + intros a Ha. rewrite fmap_cons in Ha.
      destruct (decide (a ∈ ia <$> q)) as [Hq'|Hq']; [by apply Hin'|].
      rewrite Hout' by done. subst s1'. sl_simpl.
      assert (a = ia y) as -> by set_solver. apply lookup_delete_eq.
    + intros a Ha. rewrite fmap_cons in Ha.
      rewrite Hout' by set_solver. subst s1'. sl_simpl.
      apply lookup_delete_ne. set_solver.
Qed.

(** [clear_links] stores NULL in the head's cells below [top]. *)
Lemma sl_clear_links_spec hd top : ∀ s hn,
  head (lst s) = Some hd → mem s !! hd = Some hn →
  (top ≤ length (link hn))%nat →
  ∃ hn',
    clear_links top s
    = Ok (tt, mk_state (with_top_link (if top is O then top_link (lst s) else O) (lst s))
                (<[hd := hn']> (mem s)) (dlog s))
    ∧ key hn' = key hn ∧ datum hn' = datum hn ∧ link_count hn' = link_count hn
    ∧ length (link hn') = length (link hn)
    ∧ (∀ k, (k < top)%nat → link hn' !! k = Some NULL)
    ∧ (∀ k, (top ≤ k)%nat → link hn' !! k = link hn !! k).
Proof.
  induction top as [|top IH]; intros s hn Hhd Hhn Htop.
  - exists hn. cbn [clear_links]. split_and!; try done; [|lia].
    unfold ret. rewrite insert_id by done. by destruct s as [[]].
  - cbn [clear_links]. rewrite sl_bind_set, sl_bind_get. sl_simpl. rewrite Hhd.
    erewrite sl_bind_wr_link; [|sl_simpl; exact Hhn|lia]. sl_simpl.
    match goal with |- context [clear_links top ?s1] => set (s1' := s1) end.
    destruct (IH s1' (with_link top NULL hn)) as (hn' & Hrun & Hk & Hd & Hlc & Hlen & Hlt & Hge).
    { done. }
    { subst s1'. sl_simpl. apply lookup_insert_eq. }
    { cbn. rewrite length_insert. lia. }
    exists hn'. rewrite Hrun. subst s1'. sl_simpl. rewrite insert_insert_eq.
    cbn in Hlen. rewrite length_insert in Hlen.
    split_and!; try done.
    + by destruct top.
    + intros k Hk'. destruct (decide (k = top)) as [->|].
      * rewrite Hge by lia. cbn. apply list_lookup_insert_eq. lia.
      * apply Hlt. lia.
    + intros k Hk'. rewrite Hge by lia. cbn. apply list_lookup_insert_ne. lia.
Qed.

Lemma sl_clear_spec s xs fuel :
  SLInv s xs → (length xs ≤ fuel)%nat →
  ∃ s', skiplist_clear fuel s = Ok (count (lst s), s')
        ∧ SLInv s' []
        ∧ dlog s' = log_all s (sl_entries xs)
        ∧ cmp_func (lst s') = cmp_func (lst s)
        ∧ del_func (lst s') = del_func (lst s)
        ∧ max_link (lst s') = max_link (lst s)
        ∧ head (lst s') = head (lst s)
        ∧ (∀ a, a ∈ ia <$> xs → mem s' !! a = None)
        ∧ (∀ a, a ∉ ia <$> xs → Some a ≠ head (lst s) → mem s' !! a = mem s !! a).
Proof.
  intros (hd & Hhd & HR & Hnd & Hlc & Htop & Hs & Hc) Hf.
  assert (Hlc1 : Forall (λ x, 1 ≤ ilc x)%nat xs).
  { eapply Forall_impl; [exact Hlc|]. cbn. lia. }
  destruct HR as [(pv & ls & Hl & Hlen & Hlk) HRq]. cbn [hitem ia ik id ilc] in *.
  unfold skiplist_clear. rewrite sl_bind_get, Hhd.
  erewrite sl_bind_rd_link; [|exact Hl|apply Hlk; lia]. cbn beta. unfold no_tl at 1.
  destruct (sl_clear_loop_spec hd xs s fuel HRq Hnd Hlc1 Hf _ Hl)
    as (s1 & Hrun & Hl1 & Hh1 & Hd1 & Hin1 & Hout1).
  sl_run Hrun. clear Hrun.
  repeat sl_step. rewrite Hl1.
  erewrite sl_bind_wr_link; [|sl_simpl; exact Hh1|sl_simpl; lia]. sl_simpl.
  match goal with |- context [bind (clear_links _) _ ?s2] => set (s2' := s2) end.
  destruct (sl_clear_links_spec hd (top_link (lst s)) s2'
              (with_link (top_link (lst s)) NULL
                 (mk_node NULLZ NULLZ pv (max_link (lst s)) ls)))
    as (hn' & Hrun & Hk & Hd & Hlc' & Hlen' & Hlt & Hge).
  { done. }
  { subst s2'. sl_simpl. apply lookup_insert_eq. }
  { cbn. rewrite length_insert. lia. }
  sl_run Hrun. clear Hrun. subst s2'. sl_simpl. rewrite insert_insert_eq.
  eexists. split; [reflexivity|]. sl_simpl.
  split; [|split_and!; try done].
  2:{ intros a Ha. rewrite lookup_insert_ne; [by apply Hin1|].
      intros <-. apply NoDup_cons_1_1 in Hnd. done. }
  2:{ intros a Ha Hne. rewrite lookup_insert_ne by congruence. by apply Hout1. }
  exists hd. sl_simpl. split_and!; try done.
  - cbn [RN]. split; [|done].
    destruct hn' as [k' d' pv' lc' ls']. cbn in Hk, Hd, Hlc', Hlen', Hlt, Hge.
    rewrite length_insert in Hlen'. subst k' d' lc'.
    exists pv', ls'. cbn [hitem ia ik id ilc nxtd]. rewrite lookup_insert_eq.
    split_and!; [reflexivity|congruence|].
    intros k Hk.
    destruct (Nat.lt_ge_cases k (top_link (lst s))) as [Hlt'|Hge'].
    + by apply Hlt.
    + rewrite Hge by done. destruct (decide (k = top_link (lst s))) as [->|].
      * apply list_lookup_insert_eq. lia.
      * rewrite list_lookup_insert_ne by done. rewrite Hlk by done.
        unfold no_tl. rewrite nxtd_none; [done|].
        eapply Forall_impl; [exact Hlc|]. cbn. lia.
  - cbn. apply NoDup_singleton.
  - destruct (top_link (lst s)); lia.
  - lia.
  - constructor.
Qed.
(** *** Sequences of operations

    As for the tree, the loops run on fuel, and [fuel_of] is a bound read
    off the heap. *)

Definition fuel_of (s : state) : nat := S (base.size (mem s)).

Inductive op : Type :=
| OpInsert (k v : Z) (overwrite : bool) (m : ptr)
| OpProbe (k v : Z) (m : ptr)
| OpRemove (k : Z)
| OpClear.

Definition state_of {A : Type} (r : res (A * state)) : res state :=
  match r with
  | Ok (_, s) => Ok s
  | AssertFail => AssertFail
  | Fault => Fault
  | NoFuel => NoFuel
  end.

Definition step (o : op) (s : state) : res state :=
  match o with
  | OpInsert k v ow m => state_of (skiplist_insert (fuel_of s) k v ow m s)
  | OpProbe k v m => state_of (skiplist_probe (fuel_of s) k v m s)
  | OpRemove k => state_of (skiplist_remove (fuel_of s) k s)
  | OpClear => state_of (skiplist_clear (fuel_of s) s)
  end.

Fixpoint run (os : list op) (s : state) : res state :=
  match os with
  | [] => Ok s
  | o :: os =>
      match step o s with
      | Ok s' => run os s'
      | e => e
      end
  end.

Definition alloc_ok (o : op) (s : state) : Prop :=
  match o with
  | OpInsert _ _ _ m | OpProbe _ _ m => malloc_ok s m
  | _ => True
  end.

Fixpoint allocs_ok (os : list op) (s : state) : Prop :=
  match os with
  | [] => True
  | o :: os =>
      alloc_ok o s
      ∧ match step o s with
        | Ok s' => allocs_ok os s'
        | _ => True
        end
  end.

Lemma sl_size_heap s xs : SLInv s xs → (length xs < base.size (mem s))%nat.
Proof.
  intros (hd & _ & HR & Hnd & _).
  change (S (length xs) ≤ base.size (mem s))%nat.
  replace (S (length xs)) with (length (hd :: (ia <$> xs)))
    by (cbn; by rewrite length_fmap).
  rewrite <- (size_list_to_set (C := gset positive)) by done.
  rewrite <- (size_dom (D := gset positive)). apply subseteq_size.
  intros a Ha. apply elem_of_list_to_set in Ha. apply elem_of_dom.
  change (a ∈ ia <$> (hitem hd (max_link (lst s)) :: xs)) in Ha.
  apply list_elem_of_fmap in Ha as (x & -> & Hx).
  destruct (RN_lookup _ _ _ _ HR Hx) as (? & ? & -> & _). by eexists.
Qed.

Lemma sl_step_inv o s xs :
  strict_total (cmp_func (lst s)) → SLInv s xs → alloc_ok o s →
  (2 ≤ max_link (lst s))%nat →
  ∃ s' xs', step o s = Ok s' ∧ SLInv s' xs'
            ∧ cmp_func (lst s') = cmp_func (lst s)
            ∧ max_link (lst s') = max_link (lst s).
Proof.
  intros Hcmp HI Ha Hml.
  assert (Hsz := sl_size_heap s xs HI).
  assert (Hf : (length xs < fuel_of s)%nat) by (unfold fuel_of; lia).
  destruct o as [k v ow m|k v m|k|]; cbn [step alloc_ok] in *.
  - destruct (sl_insert_spec s xs k v ow m (fuel_of s) Hcmp HI Ha Hf)
      as [(_ & _ & H)|(lo & z & hi & -> & _ & H)].
    + specialize (H Hml). destruct m.
      * destruct H as (s' & lo & hi & _ & -> & ? & _ & ? & _ & ?). by eexists s', _.
      * rewrite H. by exists (stepped s), xs.
    + destruct ow.
      * destruct H as (s' & -> & ? & _ & ? & _ & ?). by eexists s', _.
      * rewrite H. by eexists s, _.
  - destruct (sl_probe_spec s xs k v m (fuel_of s) Hcmp HI Ha Hf)
      as [(_ & _ & H)|(lo & z & hi & -> & _ & H)].
    + specialize (H Hml). destruct m.
      * destruct H as (s' & lo & hi & _ & -> & ? & _ & ? & _ & ?). by eexists s', _.
      * rewrite H. by exists (stepped s), xs.
    + rewrite H. by eexists s, _.
  - destruct (sl_remove_spec s xs k (fuel_of s) Hcmp HI Hf)
      as [[_ H]|(lo & z & hi & s' & -> & _ & H & ? & _ & ? & _ & ?)];
      rewrite H; [by eexists s, _|by eexists s', _].
  - destruct (sl_clear_spec s xs (fuel_of s) HI) as (s' & H & ? & _ & ? & _ & ? & _); [lia|].
    rewrite H. by eexists s', _.
Qed.

Lemma sl_run_inv os : ∀ s xs,
  strict_total (cmp_func (lst s)) → SLInv s xs → allocs_ok os s →
  (2 ≤ max_link (lst s))%nat →
  ∃ s' xs', run os s = Ok s' ∧ SLInv s' xs'
            ∧ cmp_func (lst s') = cmp_func (lst s)
            ∧ max_link (lst s') = max_link (lst s).
Proof.
  induction os as [|o os IH]; intros s xs Hcmp HI Ha Hml.
  - by exists s, xs.
  - destruct Ha as [Ha Hrest].
    destruct (sl_step_inv o s xs Hcmp HI Ha Hml) as (s1 & xs1 & Hstep & HI1 & Hc1 & Hm1).
    cbn [run]. rewrite Hstep in *.
    destruct (IH s1 xs1) as (s' & xs' & Hrun & HI' & Hc' & Hm');
      [by rewrite Hc1|done|done|lia|].
    exists s', xs'. split_and!; [done|done|congruence|congruence].
Qed.
(** *** Iterators, by position

    The nodes in key order are the items [xs]; the iterator at position [i]
    holds the address of [xs !! i]. *)

Definition sl_at (xs : list item) (i : nat) : bool * ptr :=
  match xs !! i with
  | Some x => (true, Some (ia x))
  | None => (false, NULL)
  end.

(** The node of an item of a well-formed list. *)
Lemma sl_item_node s xs pre x post :
  SLInv s xs → xs = pre ++ x :: post →
  ∃ pv ls,
    mem s !! ia x = Some (mk_node (ik x) (id x) pv (ilc x) ls)
    ∧ length ls = ilc x
    ∧ (∀ k, (k < ilc x)%nat → ls !! k = Some (nxtd k post NULL))
    ∧ (1 ≤ ilc x)%nat
    ∧ head (lst s) ≠ Some (ia x).
Proof.
  intros (hd & Hhd & HR & Hnd & Hlc & _) ->.
  cbn [RN] in HR. destruct HR as [_ HR]. apply RN_app in HR as [_ [Hx _]].
  destruct Hx as (pv & ls & Hl & Hlen & Hlk).
  exists pv, ls. split_and!; try done.
  - apply Forall_app in Hlc as [_ Hlc]. apply Forall_cons in Hlc as [Hx _]. lia.
  - rewrite Hhd. intros [= ->]. apply NoDup_cons_1_1 in Hnd. apply Hnd.
    rewrite fmap_app, fmap_cons. set_solver.
Qed.

Lemma sl_lookup_split (xs : list item) i x :
  xs !! i = Some x → xs = take i xs ++ x :: drop (S i) xs.
Proof. intros H. by rewrite (take_drop_middle _ _ _ H). Qed.

Lemma sl_valid_item s x :
  head (lst s) ≠ Some (ia x) → VALID (Some (ia x)) s = Ok (true, s).
Proof.
  intros Hne. unfold VALID. rewrite sl_bind_get. unfold ret. cbn [is_null negb].
  rewrite ptr_eqb_ne by (by intros E). done.
Qed.

Lemma sl_valid_null s : VALID NULL s = Ok (false, s).
Proof. done. Qed.

(** The step to the bottom-level successor, followed by [VALID]. *)
Lemma sl_next_of s xs post :
  SLInv s xs → (∃ pre, xs = pre ++ post) →
  (let* b := VALID (nxtd 0 post NULL) in ret (b, nxtd 0 post NULL)) s
  = Ok (sl_at post 0, s).
Proof.
  intros HI (pre & Hxs). destruct post as [|y post']; [done|].
  destruct (sl_item_node s xs pre y post' HI Hxs) as (pv & ls & Hl & _ & _ & Hlc & Hne).
  cbn [nxtd]. destruct (Nat.ltb_spec 0 (ilc y)); [|lia].
  erewrite bind_ok by (by apply sl_valid_item). done.
Qed.

Lemma sl_itor_first_spec s xs itor :
  SLInv s xs → skiplist_itor_first itor s = Ok (sl_at xs 0, s).
Proof.
  intros HI. pose proof HI as (hd & Hhd & HR & _).
  destruct HR as [(pv & ls & Hl & Hlen & Hlk) _]. cbn [hitem ia ik id ilc] in *.
  destruct HI as (hd' & Hhd' & HR' & Hnd & Hlc & Htop & Hrest).
  assert (HI : SLInv s xs) by (exists hd'; done).
  unfold skiplist_itor_first. rewrite sl_bind_get, Hhd.
  erewrite sl_bind_rd_link; [|exact Hl|apply Hlk; lia]. cbn beta. unfold no_tl.
  apply (sl_next_of s xs xs HI). by exists [].
Qed.

Lemma sl_itor_next_spec s xs i x :
  SLInv s xs → xs !! i = Some x →
  skiplist_itor_next (Some (ia x)) s = Ok (sl_at xs (S i), s).
Proof.
  intros HI Hi. pose proof (sl_lookup_split xs i x Hi) as Hxs.
  destruct (sl_item_node s xs _ x _ HI Hxs) as (pv & ls & Hl & Hlen & Hlk & Hlc & Hne).
  unfold skiplist_itor_next. cbn [is_null].
  erewrite sl_bind_rd_link; [|exact Hl|apply Hlk; lia]. cbn beta.
  rewrite (sl_next_of s xs (drop (S i) xs) HI).
  - unfold sl_at. by rewrite lookup_drop, Nat.add_0_r.
  - exists (take i xs ++ [x]). by rewrite <- app_assoc.
Qed.

Lemma sl_itor_nextn_spec s xs : ∀ n i x,
  SLInv s xs → xs !! i = Some x →
  skiplist_itor_nextn (Some (ia x)) n s = Ok (sl_at xs (i + n), s).
Proof.
  induction n as [|n IH]; intros i x HI Hi.
  - cbn [skiplist_itor_nextn]. pose proof (sl_lookup_split xs i x Hi) as Hxs.
    destruct (sl_item_node s xs _ x _ HI Hxs) as (_ & _ & _ & _ & _ & _ & Hne).
    erewrite bind_ok by (by apply sl_valid_item).
    unfold ret, sl_at. by rewrite Nat.add_0_r, Hi.
  - cbn [skiplist_itor_nextn].
    erewrite bind_ok by (by eapply sl_itor_next_spec).
    replace (i + S n)%nat with (S i + n)%nat by lia.
    unfold sl_at at 1. destruct (xs !! S i) as [y|] eqn:Hy; cbn [negb].
    + by apply IH.
    + unfold ret, sl_at. rewrite lookup_ge_None_2; [done|].
      apply lookup_ge_None in Hy. lia.
Qed.

Lemma sl_itor_read_spec s xs i x :
  SLInv s xs → xs !! i = Some x →
  skiplist_itor_key (Some (ia x)) s = Ok (ik x, s)
  ∧ skiplist_itor_data (Some (ia x)) s = Ok (id x, s).
Proof.
  intros HI Hi. pose proof (sl_lookup_split xs i x Hi) as Hxs.
  destruct (sl_item_node s xs _ x _ HI Hxs) as (pv & ls & Hl & _).
  unfold skiplist_itor_key, skiplist_itor_data, rd. cbn [is_null]. by rewrite Hl.
Qed.

(** *** [skiplist_itor_last] *)

Lemma predk_skip k d p y q :
  (k < ilc y)%nat → predk k d (p ++ y :: q) = predk k (ia y) q.
Proof.
  intros Hy. revert d. induction p as [|x p IH]; intros d; simpl; [|by rewrite IH].
  apply Nat.ltb_lt in Hy. by rewrite Hy.
Qed.

Lemma nxtd_split k q a :
  nxtd k q NULL = Some a →
  ∃ p y q', q = p ++ y :: q' ∧ ia y = a ∧ (k < ilc y)%nat
            ∧ Forall (λ x, ilc x ≤ k)%nat p.
Proof.
  induction q as [|y q IH]; simpl; [done|].
  destruct (Nat.ltb_spec k (ilc y)) as [Hlt|Hge].
  - intros [= <-]. by exists [], y, q.
  - intros H. destruct (IH H) as (p & y' & q' & -> & ? & ? & ?).
    exists (y :: p), y', q'. split_and!; try done. by constructor.
Qed.

Lemma sl_run_level_spec s k : ∀ post fuel x,
  RN (mem s) no_tl (x :: post) → (k < ilc x)%nat → (length post < fuel)%nat →
  run_level fuel k (Some (ia x)) s = Ok (Some (predk k (ia x) post), s).
Proof.
  induction post as [post IH] using (induction_ltof1 _ (@length item)).
  unfold ltof in IH. intros fuel x HR Hk Hf.
  destruct fuel as [|fuel]; [lia|]. cbn [run_level].
  pose proof HR as [(pv & ls & Hl & Hlen & Hlk) HRp].
  erewrite sl_bind_rd_link; [|exact Hl|by apply Hlk]. cbn beta. unfold no_tl.
  destruct (nxtd k post NULL) as [a|] eqn:Hn; cbn [is_null].
  - destruct (nxtd_split k post a Hn) as (p & y & q' & -> & <- & Hy & Hp).
    apply RN_app in HRp as [_ HRy].
    rewrite predk_skip by done.
    apply IH; [|done|done|].
    + rewrite length_app. cbn. lia.
    + rewrite length_app in Hf. cbn in Hf. lia.
  - apply nxtd_null in Hn. rewrite predk_above by done. done.
Qed.

(** The address of the last item of a non-empty list. *)
Definition last_addr (d : positive) (xs : list item) : positive :=
  match last xs with Some x => ia x | None => d end.

Lemma last_addr_cons d x xs : last_addr d (x :: xs) = last_addr (ia x) xs.
Proof.
  unfold last_addr. destruct xs as [|y xs]; [done|].
  rewrite last_cons. by destruct (last (y :: xs)).
Qed.

Lemma last_addr_app d p y q : last_addr d (p ++ y :: q) = last_addr (ia y) q.
Proof.
  unfold last_addr. rewrite last_app. cbn [last]. rewrite last_cons.
  by destruct (last q).
Qed.

Lemma sl_last_descend_spec s fuel : ∀ n post x,
  RN (mem s) no_tl (x :: post) → (n ≤ ilc x)%nat → (length post < fuel)%nat →
  Forall (λ y, 1 ≤ ilc y)%nat post →
  last_descend fuel n (Some (ia x)) s
  = Ok (Some (match n with O => ia x | S _ => last_addr (ia x) post end), s).
Proof.
  induction n as [|k IH]; intros post x HR Hn Hf Hlc; [done|].
  cbn [last_descend].
  erewrite bind_ok by (apply (sl_run_level_spec s k post fuel x); [done|lia|done]).
  pose proof HR as [_ HRp].
  destruct (lastk k post) as [u|] eqn:Hu.
  - (* the level ends at a node of [post] *)
    assert (Hsp : ∃ p y q, post = p ++ y :: q ∧ ia y = u ∧ (k < ilc y)%nat
                           ∧ Forall (λ z, ilc z ≤ k)%nat q).
    { clear -Hu. revert u Hu. induction post as [|y q IHq]; intros u; simpl; [done|].
      destruct (lastk k q) as [u'|] eqn:Hq.
      - intros [= <-]. destruct (IHq u' eq_refl) as (p & y' & q' & -> & ? & ? & ?).
        by exists (y :: p), y', q'.
      - destruct (Nat.ltb_spec k (ilc y)); [|done]. intros [= <-].
        exists [], y, q. split_and!; try done. by apply lastk_none. }
    destruct Hsp as (p & y & q & -> & <- & Hy & Hq).
    rewrite predk_skip by done. rewrite (predk_above k (ia y) q Hq).
    apply RN_app in HRp as [_ HRy].
    apply Forall_app in Hlc as [_ Hlc]. apply Forall_cons in Hlc as [_ Hlcq].
    rewrite (IH q y HRy); [|lia| |done].
    2:{ rewrite length_app in Hf. cbn in Hf. lia. }
    rewrite last_addr_app. destruct k as [|k']; [|done].
    (* below level 1 nothing follows *)
    destruct q as [|z q']; [done|].
    apply Forall_cons in Hq as [Hz _]. apply Forall_cons in Hlcq as [Hz' _]. lia.
  - apply lastk_none in Hu. rewrite (predk_above k (ia x) post Hu).
    rewrite (IH post x HR); [|lia|done|done].
    destruct k as [|k']; [|done].
    destruct post as [|z q']; [done|].
    apply Forall_cons in Hu as [Hz _]. apply Forall_cons in Hlc as [Hz' _]. lia.
Qed.

Lemma sl_itor_last_spec s xs fuel itor :
  SLInv s xs → (length xs < fuel)%nat →
  skiplist_itor_last fuel itor s
  = Ok (match top_link (lst s) with
        | O => (false, NULL)
        | S _ => sl_at xs (length xs - 1)
        end, s).
Proof.
  intros (hd & Hhd & HR & Hnd & Hlc & Htop & _) Hf.
  unfold skiplist_itor_last. rewrite !sl_bind_get, Hhd.
  assert (Hlc1 : Forall (λ y, 1 ≤ ilc y)%nat xs).
  { eapply Forall_impl; [exact Hlc|]. cbn. lia. }
  pose proof (sl_last_descend_spec s fuel (top_link (lst s)) xs
                (hitem hd (max_link (lst s))) HR) as Hld.
  cbn [hitem ia ilc] in Hld.
  erewrite bind_ok by (apply Hld; [lia|done|done]).
  destruct (top_link (lst s)) as [|t].
  - by rewrite ptr_eqb_refl.
  - unfold sl_at, last_addr.
    replace (length xs - 1)%nat with (pred (length xs)) by lia.
    rewrite <- last_lookup.
    destruct (last xs) as [x|] eqn:Hx.
    + rewrite ptr_eqb_ne; [done|]. intros [= E].
      apply NoDup_cons_1_1 in Hnd. apply Hnd. rewrite <- E.
      apply list_elem_of_fmap_2. apply last_Some in Hx as [l' ->]. set_solver.
    + by rewrite ptr_eqb_refl.
Qed.

(** *** [skiplist_itor_search] and [skiplist_itor_set_data] *)

Lemma sl_itor_search_spec s xs ky fuel itor :
  strict_total (cmp_func (lst s)) → SLInv s xs → (length xs < fuel)%nat →
  ((ky ∉ ik <$> xs) ∧ skiplist_itor_search fuel itor ky s = Ok ((false, NULL), s))
  ∨ (∃ i x, xs !! i = Some x ∧ ik x = ky
            ∧ skiplist_itor_search fuel itor ky s = Ok ((true, Some (ia x)), s)).
Proof.
  intros Hcmp (hd & Hhd & HR & Hnd & Hlc & Htop & Hs & Hc) Hf.
  destruct (sl_split3 _ xs ky Hcmp Hs) as (lo & hi & Hlo & Hhi & [->|(z & Hz & ->)]).
  - left. split.
    { rewrite fmap_app, elem_of_app. intros [Hin|Hin];
        apply list_elem_of_fmap in Hin as (x & -> & Hx).
      - rewrite Forall_forall in Hlo. specialize (Hlo _ Hx).
        rewrite (cmp_refl _ Hcmp) in Hlo. lia.
      - rewrite Forall_forall in Hhi. specialize (Hhi _ Hx).
        rewrite (cmp_refl _ Hcmp) in Hhi. lia. }
    unfold skiplist_itor_search. repeat sl_step. rewrite Hhd.
    erewrite bind_ok; cycle 1.
    { eapply sl_search_descend_absent; try eassumption; [lia|].
      rewrite Nat.add_1_r. apply at_level_head. }
    done.
  - right. exists (length lo), z. split_and!; [|done|].
    { by rewrite list_lookup_middle. }
    assert (Hzlc : (1 ≤ ilc z)%nat).
    { apply Forall_app in Hlc as [_ Hlc]. apply Forall_cons in Hlc as [? _]. lia. }
    unfold skiplist_itor_search. repeat sl_step. rewrite Hhd.
    erewrite bind_ok; cycle 1.
    { eapply (sl_search_descend_present s hd _ ky lo (z :: hi)); try eassumption;
        [done|subst ky; by apply (cmp_refl _ Hcmp)|lia|].
      rewrite Nat.add_1_r. apply at_level_head. }
    done.
Qed.

Lemma sl_itor_set_data_spec s xs i x v old :
  SLInv s xs → xs !! i = Some x →
  ∃ s',
    skiplist_itor_set_data (Some (ia x)) v old s
    = Ok ((true, match old with None => None | Some _ => Some (id x) end), s')
    ∧ SLInv s' (<[i := mk_item (ia x) (ik x) v (ilc x)]> xs)
    ∧ lst s' = lst s ∧ dlog s' = dlog s
    ∧ same_prev (mem s) (mem s').
Proof.
  intros HI Hi. pose proof (sl_lookup_split xs i x Hi) as Hxs.
  destruct (sl_item_node s xs _ x _ HI Hxs) as (pv & ls & Hl & Hlen & Hlk & Hlc1 & Hne).
  destruct HI as (hd & Hhd & HR & Hnd & Hlc & Htop & Hs & Hc).
  assert (Hins : <[i := mk_item (ia x) (ik x) v (ilc x)]> xs
                 = take i xs ++ mk_item (ia x) (ik x) v (ilc x) :: drop (S i) xs).
  { rewrite Hxs at 1. apply lookup_lt_Some in Hi.
    rewrite insert_app_r_alt by (rewrite length_take; lia).
    rewrite length_take. by replace (i - i `min` length xs)%nat with O by lia. }
  eexists. split.
  { unfold skiplist_itor_set_data. cbn [is_null].
    destruct old as [c|].
    - rewrite bind_assoc. erewrite sl_bind_rd by exact Hl. rewrite bind_ret.
      erewrite sl_bind_wr by exact Hl. reflexivity.
    - rewrite bind_ret. erewrite sl_bind_wr by exact Hl. reflexivity. }
  sl_simpl. split_and!; try done.
  2:{ by eapply same_prev_insert. }
  exists hd. sl_simpl. rewrite Hins. split_and!; try done.
  - rewrite app_comm_cons.
    replace (with_datum v (mk_node (ik x) (id x) pv (ilc x) ls))
      with (with_datum v (with_key (ik x) (mk_node (ik x) (id x) pv (ilc x) ls))) by done.
    apply (RN_set_key_datum _ _ (hitem hd (max_link (lst s)) :: take i xs) x
             (drop (S i) xs) (ik x) v); [|done|].
    + rewrite <- app_comm_cons, fmap_cons. cbn [hitem ia]. by rewrite <- Hxs.
    + rewrite <- app_comm_cons. by rewrite <- Hxs.
  - rewrite fmap_app, fmap_cons. cbn [ia].
    rewrite Hxs, fmap_app, fmap_cons in Hnd. done.
  - rewrite Hxs in Hlc. apply Forall_app in Hlc as [Hl1 Hl2].
    apply Forall_cons in Hl2 as [Hx Hl2]. apply Forall_app. split; [done|].
    by constructor.
  - lia.
  - lia.
  - rewrite fmap_app, fmap_cons. cbn [ik].
    rewrite Hxs, fmap_app, fmap_cons in Hs. done.
  - rewrite Hc. f_equal. f_equal. rewrite Hxs at 1.
    rewrite !length_app. done.
Qed.
(** *** The [prev] pointers

    [node_insert] makes every node point back at the node before it, the
    first node at the head; [skiplist_remove] leaves them alone. *)

Fixpoint prev_ok (h : gmap positive skip_node) (p : positive) (xs : list item) : Prop :=
  match xs with
  | [] => True
  | x :: q => prev <$> (h !! ia x) = Some (Some p) ∧ prev_ok h (ia x) q
  end.

Definition PrevInv (s : state) (xs : list item) : Prop :=
  ∃ hd, head (lst s) = Some hd ∧ prev_ok (mem s) hd xs.

Lemma prev_ok_app h p xs ys :
  prev_ok h p (xs ++ ys) ↔ prev_ok h p xs ∧ prev_ok h (last_addr p xs) ys.
Proof.
  revert p. induction xs as [|x q IH]; intros p; cbn [app prev_ok].
  - unfold last_addr. cbn. tauto.
  - rewrite IH, last_addr_cons. tauto.
Qed.

Lemma prev_ok_frame h h' p xs :
  (∀ x, x ∈ xs → prev <$> (h' !! ia x) = prev <$> (h !! ia x)) →
  prev_ok h p xs → prev_ok h' p xs.
Proof.
  revert p. induction xs as [|x q IH]; intros p Hf; cbn [prev_ok]; [done|].
  intros [H1 H2]. split.
  - rewrite Hf; [done|]. left.
  - apply IH; [|done]. intros y Hy. apply Hf. by right.
Qed.

Lemma prev_ok_lookup h p xs i x :
  prev_ok h p xs → xs !! i = Some x →
  prev <$> (h !! ia x)
  = Some (Some (match i with O => p | S j => default p (ia <$> xs !! j) end)).
Proof.
  revert p i. induction xs as [|y q IH]; intros p i; [done|].
  cbn [prev_ok]. intros [H1 H2]. destruct i as [|i]; cbn.
  - by intros [= <-].
  - intros Hi. rewrite (IH _ _ H2 Hi). destruct i as [|i]; [done|]. cbn.
    destruct (q !! i) eqn:E; [done|].
    apply lookup_lt_Some in Hi. apply lookup_ge_None in E. lia.
Qed.

Lemma predk_zero hd lo :
  Forall (λ x, 1 ≤ ilc x)%nat lo → predk 0 hd lo = last_addr hd lo.
Proof.
  revert hd. induction lo as [|x q IH]; intros hd Hlc; [done|].
  apply Forall_cons in Hlc as [Hx Hq]. cbn [predk].
  destruct (Nat.ltb_spec 0 (ilc x)); [|lia].
  rewrite last_addr_cons. by apply IH.
Qed.

(** Insertion of a new node keeps the chain of [prev] pointers. *)
Lemma prev_ok_insert h h' hd lo hi a ky v nl :
  NoDup (a :: hd :: (ia <$> lo ++ hi)) →
  Forall (λ x, 1 ≤ ilc x)%nat (lo ++ hi) →
  ins_prev h h' a (predk 0 hd lo) (nxtd 0 hi NULL) →
  prev_ok h hd (lo ++ hi) →
  prev_ok h' hd (lo ++ mk_item a ky v nl :: hi).
Proof.
  intros Hnd Hlc (P1 & P2 & P3) Hp.
  apply Forall_app in Hlc as [Hlo Hhi].
  apply prev_ok_app in Hp as [Hplo Hphi].
  apply NoDup_cons in Hnd as [Ha Hnd]. apply NoDup_cons in Hnd as [Hhd Hnd].
  rewrite fmap_app in Ha, Hhd, Hnd.
  apply NoDup_app in Hnd as (Hndlo & Hdis & Hndhi).
  rewrite nxtd_zero in P2, P3 by done.
  apply prev_ok_app. split.
  - eapply prev_ok_frame; [|exact Hplo]. intros x Hx.
    assert (Hxa : ia x ∈ ia <$> lo) by by apply list_elem_of_fmap_2.
    apply P3.
    + intros E. apply Ha. rewrite <- E. set_solver.
    + destruct hi as [|y hi']; [done|]. intros [= E].
      apply (Hdis _ Hxa). rewrite E. cbn. left.
  - cbn [prev_ok ia]. rewrite <- predk_zero by done. split; [done|].
    destruct hi as [|y hi']; [done|]. cbn [prev_ok] in *.
    destruct Hphi as [_ Hphi]. split; [by apply P2|].
    apply NoDup_cons in Hndhi as [Hy Hndhi'].
    eapply prev_ok_frame; [|exact Hphi]. intros x Hx.
    assert (Hxa : ia x ∈ ia <$> hi') by by apply list_elem_of_fmap_2.
    apply P3.
    + intros E. apply Ha. rewrite <- E. cbn. set_solver.
    + intros [= E]. apply Hy. by rewrite <- E.
Qed.

Lemma prev_ok_same h h' p xs : same_prev h h' → prev_ok h p xs → prev_ok h' p xs.
Proof. intros Hs. apply prev_ok_frame. intros x _. apply Hs. Qed.

(** [skiplist_itor_prev] on a list whose [prev] pointers are in order:
    from the first node the iterator lands on the head, which is not a
    valid position. *)
Lemma sl_itor_prev_spec s xs fuel i x :
  SLInv s xs → PrevInv s xs → xs !! i = Some x →
  skiplist_itor_prev fuel (Some (ia x)) s
  = Ok (match i with O => (false, head (lst s)) | S j => sl_at xs j end, s).
Proof.
  intros HI (hd & Hhd & Hp) Hi.
  pose proof (sl_lookup_split xs i x Hi) as Hxs.
  destruct (sl_item_node s xs _ x _ HI Hxs) as (pv & ls & Hl & _).
  pose proof (prev_ok_lookup _ _ _ _ _ Hp Hi) as Hpv. rewrite Hl in Hpv.
  cbn in Hpv. injection Hpv as ->.
  unfold skiplist_itor_prev. cbn [is_null].
  erewrite sl_bind_rd by exact Hl. cbn [prev].
  destruct i as [|j].
  - unfold VALID. rewrite bind_assoc, sl_bind_get, Hhd, bind_ret.
    cbn [is_null negb]. rewrite ptr_eqb_refl. done.
  - assert (Hj : is_Some (xs !! j)).
    { apply lookup_lt_is_Some. apply lookup_lt_Some in Hi. lia. }
    destruct Hj as [y Hy]. unfold sl_at. rewrite Hy. cbn.
    pose proof (sl_lookup_split xs j y Hy) as Hys.
    destruct (sl_item_node s xs _ y _ HI Hys) as (_ & _ & _ & _ & _ & _ & Hne).
    erewrite bind_ok by (by apply sl_valid_item). done.
Qed.

(** [skiplist_itor_prevn] from position [i]: [n] steps back, or onto the
    head with answer false. *)
Lemma sl_itor_prevn_spec s xs fuel : ∀ n i x,
  SLInv s xs → PrevInv s xs → xs !! i = Some x →
  skiplist_itor_prevn fuel (Some (ia x)) n s
  = Ok (if (n <=? i)%nat then sl_at xs (i - n) else (false, head (lst s)), s).
Proof.
  induction n as [|n IH]; intros i x HI HP Hi.
  - cbn [skiplist_itor_prevn]. pose proof (sl_lookup_split xs i x Hi) as Hxs.
    destruct (sl_item_node s xs _ x _ HI Hxs) as (_ & _ & _ & _ & _ & _ & Hne).
    erewrite bind_ok by (by apply sl_valid_item).
    unfold ret, sl_at. by rewrite Nat.sub_0_r, Hi.
  - cbn [skiplist_itor_prevn].
    erewrite bind_ok by (by eapply sl_itor_prev_spec).
    destruct i as [|j]; [done|].
    assert (Hj : is_Some (xs !! j)).
    { apply lookup_lt_is_Some. apply lookup_lt_Some in Hi. lia. }
    destruct Hj as [y Hy]. unfold sl_at at 1. rewrite Hy. cbn [negb].
    rewrite (IH j y HI HP Hy). done.
Qed.

(** *** What [skiplist_verify] accepts *)

Lemma sl_verify_links_spec s x post : ∀ n k,
  RN (mem s) no_tl (x :: post) → (k + n = ilc x)%nat →
  verify_links n k (Some (ia x)) s = Ok (tt, s).
Proof.
  induction n as [|n IH]; intros k HR Hk; [done|].
  cbn [verify_links].
  pose proof HR as [(pv & ls & Hl & Hlen & Hlk) HRp].
  erewrite sl_bind_rd_link; [|exact Hl|apply Hlk; lia]. cbn beta. unfold no_tl.
  destruct (nxtd k post NULL) as [a|] eqn:Hn; cbn [is_null negb].
  - destruct (nxtd_split k post a Hn) as (p & y & q' & -> & <- & Hy & Hp).
    apply RN_app in HRp as [_ [(pvy & lsy & Hyl & _) _]].
    rewrite bind_assoc. erewrite sl_bind_rd by exact Hyl. cbn [link_count].
    destruct (Nat.leb_spec k (ilc y)); [|lia]. rewrite assert_true.
    apply IH; [done|lia].
  - rewrite bind_ret. apply IH; [done|lia].
Qed.

Lemma sl_verify_loop_spec s : ∀ post fuel,
  RN (mem s) no_tl post →
  Forall (λ x, 1 ≤ ilc x ≤ top_link (lst s))%nat post →
  (length post < fuel)%nat →
  verify_loop fuel (nxtd 0 post NULL) s = Ok (tt, s).
Proof.
  induction post as [|x q IH]; intros fuel HR Hlc Hf.
  - by destruct fuel.
  - apply Forall_cons in Hlc as [Hx Hq]. cbn [nxtd].
    destruct (Nat.ltb_spec 0 (ilc x)); [|lia].
    destruct fuel as [|fuel]; [cbn in Hf; lia|]. cbn in Hf.
    cbn [verify_loop].
    pose proof HR as [(pv & ls & Hl & Hlen & Hlk) HRq].
    erewrite sl_bind_rd by exact Hl. cbn [link_count].
    destruct (Nat.leb_spec 1 (ilc x)); [|lia]. rewrite assert_true, sl_bind_get.
    destruct (Nat.leb_spec (ilc x) (top_link (lst s))); [|lia]. rewrite assert_true.
    erewrite bind_ok by (apply (sl_verify_links_spec s x q); [done|lia]).
    erewrite sl_bind_rd_link; [|exact Hl|apply Hlk; lia]. cbn beta.
    apply IH; [done|done|lia].
Qed.

Lemma sl_verify_spec s xs fuel :
  SLInv s xs → Forall (λ x, ilc x ≤ top_link (lst s))%nat xs →
  (length xs < fuel)%nat →
  skiplist_verify fuel s = Ok (tt, s).
Proof.
  intros (hd & Hhd & HR & Hnd & Hlc & Htop & _) Hv Hf.
  unfold skiplist_verify. rewrite !sl_bind_get.
  destruct (Nat.leb_spec (top_link (lst s)) (max_link (lst s))); [|lia].
  rewrite assert_true, sl_bind_get, Hhd.
  destruct HR as [(pv & ls & Hl & Hlen & Hlk) HRq]. cbn [hitem ia ik id ilc] in *.
  erewrite sl_bind_rd_link; [|exact Hl|apply Hlk; lia]. cbn beta.
  apply sl_verify_loop_spec; [done| |done].
  rewrite Forall_forall in *. intros x Hx. specialize (Hlc x Hx). specialize (Hv x Hx).
  cbn in *. lia.
Qed.

(** *** [skiplist_free] *)

Lemma sl_free_spec s xs fuel :
  SLInv s xs → (length xs ≤ fuel)%nat →
  ∃ s' hd, head (lst s) = Some hd
    ∧ skiplist_free fuel s = Ok (count (lst s), s')
    ∧ dlog s' = log_all s (sl_entries xs)
    ∧ (∀ a, a ∈ hd :: (ia <$> xs) → mem s' !! a = None)
    ∧ (∀ a, a ∉ hd :: (ia <$> xs) → mem s' !! a = mem s !! a).
Proof.
  intros HI Hf.
  destruct (sl_clear_spec s xs fuel HI Hf)
    as (s1 & Hrun & HI1 & Hlog & _ & _ & _ & Hh1 & Hin & Hout).
  destruct HI as (hd & Hhd & _).
  destruct HI1 as (hd1 & Hhd1 & HR1 & _).
  rewrite Hh1, Hhd in Hhd1. injection Hhd1 as <-.
  destruct HR1 as [(pv & ls & Hl & _) _]. cbn [hitem ia] in Hl.
  unfold skiplist_free. erewrite bind_ok by exact Hrun.
  rewrite sl_bind_get, Hh1, Hhd.
  erewrite sl_bind_free by exact Hl.
  eexists _, hd. split; [done|]. split; [reflexivity|]. sl_simpl. split_and!; [done| |].
  - intros a [->|Ha]%elem_of_cons; [apply lookup_delete_eq|].
    destruct (decide (a = hd)) as [->|]; [apply lookup_delete_eq|].
    rewrite lookup_delete_ne by done. by apply Hin.
  - intros a Ha. apply not_elem_of_cons in Ha as [Hne Ha].
    rewrite lookup_delete_ne by done. apply Hout; [done|]. rewrite Hhd. congruence.
Qed.
(** *** Lists that were never removed from

    Without [skiplist_remove] the list keeps two more properties: the
    [prev] pointers are in order, and no level count exceeds [top_link],
    which is what [skiplist_verify] checks. *)

Definition Strong (s : state) (xs : list item) : Prop :=
  SLInv s xs ∧ PrevInv s xs ∧ Forall (λ x, ilc x ≤ top_link (lst s))%nat xs.

Definition keeps (o : op) : bool :=
  match o with OpRemove _ => false | _ => true end.

Lemma Strong_new s : SLInv s [] → Strong s [].
Proof.
  intros HI. split_and!; [done| |constructor].
  destruct HI as (hd & Hhd & _). by exists hd.
Qed.

Lemma Strong_stepped s xs : Strong s xs → Strong (stepped s) xs.
Proof. intros (HI & HP & Hv). split_and!; done. Qed.

Lemma Strong_insert s s' lo hi a ky v :
  Strong s (lo ++ hi) →
  SLInv s' (lo ++ mk_item a ky v (next_level s) :: hi) →
  top_link (lst s') = Nat.max (top_link (lst s)) (next_level s) →
  (∀ hd, head (lst s) = Some hd →
     ins_prev (mem s) (mem s') a (predk 0 hd lo) (nxtd 0 hi NULL)) →
  head (lst s') = head (lst s) →
  Strong s' (lo ++ mk_item a ky v (next_level s) :: hi).
Proof.
  intros (HI & (hd & Hhd & Hp) & Hv) HI' Ht Hip Hh.
  split_and!; [done| |].
  - exists hd. split; [congruence|].
    destruct HI' as (hd' & Hhd' & _ & Hnd' & _).
    rewrite Hh, Hhd in Hhd'. injection Hhd' as <-.
    destruct HI as (hd0 & Hhd0 & _ & _ & Hlc & _).
    eapply (prev_ok_insert (mem s)); [| |by apply Hip|done].
    + eapply NoDup_Permutation_proper; [|exact Hnd'].
      rewrite !fmap_app, fmap_cons. cbn [ia]. solve_Permutation.
    + eapply Forall_impl; [exact Hlc|]. cbn. lia.
  - rewrite Ht. apply Forall_app in Hv as [Hl Hr]. apply Forall_app. split; [|constructor].
    + eapply Forall_impl; [exact Hl|]. cbn. lia.
    + cbn. lia.
    + eapply Forall_impl; [exact Hr|]. cbn. lia.
Qed.

Lemma sl_step_grow o s xs :
  strict_total (cmp_func (lst s)) → Strong s xs → alloc_ok o s →
  (2 ≤ max_link (lst s))%nat → keeps o = true →
  ∃ s' xs', step o s = Ok s' ∧ Strong s' xs'
            ∧ cmp_func (lst s') = cmp_func (lst s)
            ∧ max_link (lst s') = max_link (lst s).
Proof.
  intros Hcmp HS Ha Hml Hk. pose proof HS as (HI & HP & Hv).
  assert (Hsz := sl_size_heap s xs HI).
  assert (Hf : (length xs < fuel_of s)%nat) by (unfold fuel_of; lia).
  destruct o as [k v ow m|k v m|k|]; cbn [step alloc_ok] in *; [| |done|].
  - destruct (sl_insert_full s xs k v ow m (fuel_of s) Hcmp HI Ha Hf)
      as [(_ & _ & H)|(lo & z & hi & -> & _ & H)].
    + specialize (H Hml). destruct m.
      * destruct H as (s' & lo & hi & -> & -> & HI' & _ & Hc' & _ & Hm' & Ht & Hip & Hh).
        eexists s', _. split_and!; [done| |done|done].
        by apply Strong_insert.
      * rewrite H. exists (stepped s), xs. split_and!; first [done|by apply Strong_stepped].
    + destruct ow.
      * destruct H as (s' & -> & HI' & _ & Hc' & _ & Hm' & Ht & Hsp & Hh).
        eexists s', _. split_and!; [done| |done|done].
        split_and!; [done| |].
        -- destruct HP as (hd & Hhd & Hp). exists hd. split; [congruence|].
           apply (prev_ok_same _ _ _ _ Hsp) in Hp.
           apply prev_ok_app in Hp as [Hp1 Hp2]. apply prev_ok_app. split; [done|].
           cbn [prev_ok ia] in *. done.
        -- rewrite Ht. apply Forall_app in Hv as [Hl Hr]. apply Forall_app. split; [done|].
           apply Forall_cons in Hr as [Hz Hr]. by constructor.
      * rewrite H. by eexists s, _.
  - destruct (sl_probe_full s xs k v m (fuel_of s) Hcmp HI Ha Hf)
      as [(_ & _ & H)|(lo & z & hi & -> & _ & H)].
    + specialize (H Hml). destruct m.
      * destruct H as (s' & lo & hi & -> & -> & HI' & _ & Hc' & _ & Hm' & Ht & Hip & Hh).
        eexists s', _. split_and!; [done| |done|done].
        by apply Strong_insert.
      * rewrite H. exists (stepped s), xs. split_and!; first [done|by apply Strong_stepped].
    + rewrite H. by eexists s, _.
  - destruct (sl_clear_spec s xs (fuel_of s) HI) as (s' & H & HI' & _ & ? & _ & ? & _); [lia|].
    rewrite H. exists s', []. split_and!; first [done|by apply Strong_new].
Qed.

Lemma sl_run_grow os : ∀ s xs,
  strict_total (cmp_func (lst s)) → Strong s xs → allocs_ok os s →
  (2 ≤ max_link (lst s))%nat → forallb keeps os = true →
  ∃ s' xs', run os s = Ok s' ∧ Strong s' xs'
            ∧ cmp_func (lst s') = cmp_func (lst s)
            ∧ max_link (lst s') = max_link (lst s).
Proof.
  induction os as [|o os IH]; intros s xs Hcmp HS Ha Hml Hk.
  - by exists s, xs.
  - destruct Ha as [Ha Hrest]. cbn [forallb] in Hk. apply andb_true_iff in Hk as [Hk Hks].
    destruct (sl_step_grow o s xs Hcmp HS Ha Hml Hk) as (s1 & xs1 & Hstep & HS1 & Hc1 & Hm1).
    cbn [run]. rewrite Hstep in *.
    destruct (IH s1 xs1) as (s' & xs' & Hrun & HS' & Hc' & Hm');
      [by rewrite Hc1|done|done|lia|done|].
    exists s', xs'. split_and!; [done|done|congruence|congruence].
Qed.

(** *** Which blocks insert and remove allocate and release *)

Lemma sl_dom_of_prev (h h' : gmap positive skip_node) b :
  prev <$> (h' !! b) = prev <$> (h !! b) → b ∈ dom h' ↔ b ∈ dom h.
Proof.
  intros H. rewrite !elem_of_dom. unfold is_Some.
  destruct (h' !! b), (h !! b); cbn in H; try done; naive_solver.
Qed.

Lemma sl_insert_dom (h h' : gmap positive skip_node) a u0 nx :
  ins_prev h h' a u0 nx → (∀ y, nx = Some y → y ∈ dom h) →
  dom h' = {[a]} ∪ dom h.
Proof.
  intros (P1 & P2 & P3) Hnx. apply set_eq. intros b.
  rewrite elem_of_union, elem_of_singleton.
  destruct (decide (b = a)) as [->|Hba].
  - split; [by left|]. intros _. apply elem_of_dom.
    destruct (h' !! a); [by eexists|done].
  - destruct (decide (Some b = nx)) as [Hy|Hy].
    + split; [intros _; right; by apply Hnx|]. intros _. apply elem_of_dom.
      specialize (P2 b (eq_sym Hy)). destruct (h' !! b); [by eexists|done].
    + rewrite (sl_dom_of_prev h h' b (P3 b Hba Hy)). naive_solver.
Qed.

Lemma sl_remove_dom (h h' : gmap positive skip_node) z :
  h' !! z = None → (∀ b, b ≠ z → prev <$> (h' !! b) = prev <$> (h !! b)) →
  dom h' = dom h ∖ {[z]}.
Proof.
  intros Hz Hp. apply set_eq. intros b.
  rewrite elem_of_difference, elem_of_singleton.
  destruct (decide (b = z)) as [->|Hbz].
  - rewrite elem_of_dom, Hz. split; [by intros [? ?]|naive_solver].
  - rewrite (sl_dom_of_prev h h' b (Hp b Hbz)). naive_solver.
Qed.

End SL.

(** * The two engines on concrete containers

    Small containers built by the operations themselves; the statements of
    the next section are exhibited on them. *)

Definition state_of_new (r : res (option SL.state)) : SL.state :=
  match r with
  | Ok (Some s) => s
  | _ => SL.mk_state (SL.mk_list NULL 0 0 zcmp true 0 0) ∅ []
  end.

Definition state_after {S A : Type} (m : M S A) (s : S) : S :=
  match m s with Ok (_, s') => s' | _ => s end.

(** An AVL tree with the entries (1,10), (2,20), (3,NULL), the cleanup
    callback set. *)
Definition hb_ex_ops : list HB.op :=
  [HB.OpInsert 2 20 false (Some 1%positive);
   HB.OpInsert 1 10 false (Some 2%positive);
   HB.OpInsert 3 NULLZ false (Some 3%positive)].

Definition hb_ex : HB.state :=
  match HB.run hb_ex_ops (HB.hb_tree_new zcmp true) with
  | Ok s => s
  | _ => HB.hb_tree_new zcmp true
  end.

Definition hb_ex_tree : HB.atree :=
  HB.T (HB.T HB.E 2 1 10 0 HB.E) 1 2 20 0 (HB.T HB.E 3 3 NULLZ 0 HB.E).

Lemma hb_ex_inv : HB.Inv hb_ex hb_ex_tree.
Proof.
  unfold HB.Inv, HB.Repr, HB.Zip, HB.bst, HB.keys, sorted.
  split_and!.
  - reflexivity.
  - cbn [HB.R hb_ex_tree HB.cpar HB.root_of].
    split_and!; try done; vm_compute; reflexivity.
  - done.
  - cbn. repeat constructor; set_solver.
  - cbn. lia.
  - cbn. repeat constructor.
  - reflexivity.
Qed.

(** A skip list of at most four levels with the same entries. *)
Definition sl_ex0 : SL.state :=
  state_of_new (SL.skiplist_new zcmp true 4 (Some 1%positive) 12345).

Definition sl_ex : SL.state :=
  state_after (SL.skiplist_insert 10 2 20 false (Some 2%positive);;
               SL.skiplist_insert 10 1 10 false (Some 3%positive);;
               SL.skiplist_insert 10 3 NULLZ false (Some 4%positive)) sl_ex0.

Definition sl_ex_items : list SL.item :=
  [SL.mk_item 3 1 10 3; SL.mk_item 2 2 20 3; SL.mk_item 4 3 NULLZ 1].

Ltac sl_node_ok :=
  eexists _, _; split_and!;
  [ vm_compute; reflexivity
  | reflexivity
  | let k := fresh "k" in
    let Hk := fresh "Hk" in
    intros k Hk; repeat (destruct k as [|k]; [reflexivity|]);
    vm_compute in Hk; lia ].

Lemma sl_ex_inv : SL.SLInv sl_ex sl_ex_items.
Proof.
  exists 1%positive. split_and!.
  - reflexivity.
  - cbn [SL.RN sl_ex_items]. split_and!; try done; sl_node_ok.
  - cbn. repeat constructor; set_solver.
  - repeat constructor; vm_compute; lia.
  - vm_compute; lia.
  - vm_compute. lia.
  - cbn. repeat constructor.
  - reflexivity.
Qed.

(** A skip list made with [max_link = 1]. *)
Definition sl_one : SL.state :=
  state_of_new (SL.skiplist_new zcmp false 1 (Some 1%positive) 0).

Lemma sl_one_inv : SL.SLInv sl_one [].
Proof.
  destruct (SL.sl_new_spec zcmp false 1 1%positive 0) as (s & H & HI & _); [lia|].
  unfold sl_one. by rewrite H.
Qed.

(** A skip list of at most two levels after insert 1, insert 2, remove 1. *)
Definition sl_two0 : SL.state :=
  state_of_new (SL.skiplist_new zcmp false 2 (Some 1%positive) 0).

Definition sl_two : SL.state :=
  state_after (SL.skiplist_insert 10 1 10 false (Some 2%positive);;
               SL.skiplist_insert 10 2 20 false (Some 3%positive);;
               SL.skiplist_remove 10 1) sl_two0.

(** The tree 50(20(10,30),60). *)
Definition hb_five_ops : list HB.op :=
  [HB.OpInsert 50 500 false (Some 1%positive);
   HB.OpInsert 20 200 false (Some 2%positive);
   HB.OpInsert 60 600 false (Some 3%positive);
   HB.OpInsert 10 100 false (Some 4%positive);
   HB.OpInsert 30 300 false (Some 5%positive)].

Definition hb_five : HB.state :=
  match HB.run hb_five_ops (HB.hb_tree_new zcmp false) with
  | Ok s => s
  | _ => HB.hb_tree_new zcmp false
  end.

(** [hb_tree_insert] of key 25 into [hb_five] with the block 6, from the
    allocation to the argument of the call [rot_left(tree, q->llink)]
    (hb_tree.c:227-246); the descent has left [parent] on the node of 30
    (block 5, with [cmp < 0]) and [q] on the node of 50 (block 1). *)
Definition hb_insert_25_to_rotation : M HB.state ptr :=
  let* node := HB.node_new (Some 6%positive) 25 250 in
  HB.wr (HB.with_parent (Some 5%positive)) node;;
  HB.wr (HB.with_llink node) (Some 5%positive);;
  let* node := HB.insert_retrace 10 node (Some 5%positive) (Some 1%positive) in
  let* b := HB.rd HB.bal (Some 1%positive) in
  HB.wr (HB.with_bal (wrap_schar (b - 1))) (Some 1%positive);;
  HB.rd HB.llink (Some 1%positive).

Definition hb_mid : HB.state := state_after hb_insert_25_to_rotation hb_five.

Definition hb_mid_rot : HB.state :=
  state_after (HB.rot_left (Some 2%positive)) hb_mid.

(** The node of 50 with the subtree of 60 on its right, above the subtree
    of 20. *)
Definition hb_mid_frame : HB.frame :=
  HB.mk_frame HB.L 1 50 500 (-2) (HB.T HB.E 3 60 600 0 HB.E).

Definition hb_mid_sub : HB.atree :=
  HB.T (HB.T HB.E 4 10 100 0 HB.E) 2 20 200 1
    (HB.T (HB.T HB.E 6 25 250 0 HB.E) 5 30 300 (-1) HB.E).

Definition hb_mid_rot_sub : HB.atree :=
  HB.T (HB.T (HB.T HB.E 4 10 100 0 HB.E) 2 20 200 0 (HB.T HB.E 6 25 250 0 HB.E))
    5 30 300 (-2) HB.E.

(** Every stored balance factor is the true height difference, whatever its
    size. *)
Fixpoint true_factors (t : HB.atree) : Prop :=
  match t with
  | HB.E => True
  | HB.T l _ _ _ b r =>
      b = HB.height r - HB.height l ∧ true_factors l ∧ true_factors r
  end.

(** A right-leaning chain 1, 2, 3 whose root carries balance factor +2, as
    [hb_tree_remove] meets it on the way up. *)
Definition hb_chain_tree : HB.atree :=
  HB.T HB.E 1 1 10 2 (HB.T HB.E 2 2 20 1 (HB.T HB.E 3 3 30 0 HB.E)).

Definition hb_chain : HB.state :=
  HB.mk_state (HB.mk_tree (Some 1%positive) 3 zcmp false)
    (<[1%positive := HB.mk_node 1 10 NULL (Some 2%positive) NULL 2]>
       (<[2%positive := HB.mk_node 2 20 NULL (Some 3%positive) (Some 1%positive) 1]>
          (<[3%positive := HB.mk_node 3 30 NULL NULL (Some 2%positive) 0]> ∅)))
    [].

Lemma hb_chain_zip : HB.Zip hb_chain [] hb_chain_tree.
Proof.
  unfold HB.Zip. split_and!.
  - reflexivity.
  - cbn [HB.R hb_chain_tree HB.cpar HB.root_of].
    split_and!; try done; vm_compute; reflexivity.
  - done.
  - cbn. repeat constructor; set_solver.
Qed.

(** The mirror image: a left-leaning chain 3, 2, 1 with root balance -2. *)
Definition hb_chain_l_tree : HB.atree :=
  HB.T (HB.T (HB.T HB.E 3 1 10 0 HB.E) 2 2 20 (-1) HB.E) 1 3 30 (-2) HB.E.

Definition hb_chain_l : HB.state :=
  HB.mk_state (HB.mk_tree (Some 1%positive) 3 zcmp false)
    (<[1%positive := HB.mk_node 3 30 (Some 2%positive) NULL NULL (-2)]>
       (<[2%positive := HB.mk_node 2 20 (Some 3%positive) NULL (Some 1%positive) (-1)]>
          (<[3%positive := HB.mk_node 1 10 NULL NULL (Some 2%positive) 0]> ∅)))
    [].

Lemma hb_chain_l_zip : HB.Zip hb_chain_l [] hb_chain_l_tree.
Proof.
  unfold HB.Zip. split_and!.
  - reflexivity.
  - cbn [HB.R hb_chain_l_tree HB.cpar HB.root_of].
    split_and!; try done; vm_compute; reflexivity.
  - done.
  - cbn. repeat constructor; set_solver.
Qed.
(** * The specification's claims *)

(** C1.  For the AVL engine: after every sequence of insert, probe, remove
    and clear operations run from a new tree with a strict total order
    (every allocation answered by NULL or a block not in use), the run
    returns, and the resulting heap stores a tree [t] that is a binary
    search tree under the order and in which every stored balance factor is
    the height of the right subtree minus the height of the left subtree and
    lies in -1..1 ([HB.balanced]). *)
Theorem C1_avl_invariant (cmp : Z → Z → Z) (del : bool) (os : list HB.op) :
  strict_total cmp →
  HB.allocs_ok os (HB.hb_tree_new cmp del) →
  ∃ s t,
    HB.run os (HB.hb_tree_new cmp del) = Ok s
    ∧ HB.Repr s t ∧ HB.bst cmp t ∧ HB.balanced t.
Proof.
  intros Hcmp Ha.
  destruct (HB.hb_run_inv os (HB.hb_tree_new cmp del) HB.E)
    as (s & t & Hrun & (HR & Hb & Hs & _) & Hc);
    [done|by apply HB.Inv_empty|done|].
  exists s, t. split_and!; try done. by rewrite Hc in Hs.
Qed.

Lemma C1_avl_invariant_witness :
  ∃ s t,
    HB.run (hb_ex_ops ++ [HB.OpProbe 4 40 (Some 4%positive); HB.OpRemove 2;
                          HB.OpInsert 5 50 true NULL; HB.OpRemove 1;
                          HB.OpClear; HB.OpInsert 6 60 false (Some 1%positive)])
      (HB.hb_tree_new zcmp true) = Ok s
    ∧ HB.Repr s t ∧ HB.bst zcmp t ∧ HB.balanced t.
Proof.
  apply (C1_avl_invariant zcmp true _ zcmp_strict_total).
  vm_compute. repeat split.
Defined.

(** C2.  In the AVL engine [hb_itor_nextn] does not step forward: the code
    calls [hb_itor_prev], so it is [hb_itor_prevn].  On the tree with keys
    1, 2, 3, from the first node (key 1, at address 2), [next] reaches key 2
    (address 1), and [nextn 1] leaves the iterator invalid. *)
Theorem C2_hb_nextn_steps_backward :
  (∀ fuel itor n s,
     HB.hb_itor_nextn fuel itor n s = HB.hb_itor_prevn fuel itor n s)
  ∧ HB.hb_itor_first 10 NULL hb_ex = Ok ((true, Some 2%positive), hb_ex)
  ∧ HB.hb_itor_key (Some 2%positive) hb_ex = Ok (1, hb_ex)
  ∧ HB.hb_itor_next 10 (Some 2%positive) hb_ex = Ok ((true, Some 1%positive), hb_ex)
  ∧ HB.hb_itor_key (Some 1%positive) hb_ex = Ok (2, hb_ex)
  ∧ HB.hb_itor_nextn 10 (Some 2%positive) 1 hb_ex = Ok ((false, NULL), hb_ex).
Proof.
  split.
  - (* the two functions have the same body *)
    intros fuel itor n s. reflexivity.
  - split_and!; vm_compute; reflexivity.
Qed.

(** C3.  In the skip-list engine [skiplist_remove] leaves [top_link] one
    below the level count in use.  With [max_link = 2]: after insert 1,
    insert 2, remove 1 the list holds one entry whose node has level count
    1, and [top_link] is 0; the check of [skiplist_verify] that no level
    count exceeds [top_link] fails, and [skiplist_itor_last] finds no
    last entry although search finds key 2. *)
Theorem C3_remove_lowers_top_link :
  SL.skiplist_new zcmp false 2 (Some 1%positive) 0 = Ok (Some sl_two0)
  ∧ (SL.skiplist_insert 10 1 10 false (Some 2%positive);;
     SL.skiplist_insert 10 2 20 false (Some 3%positive);;
     SL.skiplist_remove 10 1) sl_two0 = Ok (true, sl_two)
  ∧ SL.count (SL.lst sl_two) = 1
  ∧ SL.link_count <$> (SL.mem sl_two !! 3%positive) = Some 1%nat
  ∧ SL.top_link (SL.lst sl_two) = 0%nat
  ∧ SL.skiplist_verify 10 sl_two = AssertFail
  ∧ SL.skiplist_search 10 2 sl_two = Ok (20, sl_two)
  ∧ SL.skiplist_itor_last 10 NULL sl_two = Ok ((false, NULL), sl_two).
Proof. split_and!; vm_compute; reflexivity. Qed.

(** C4.  When insert or probe answers -1 (the allocator returned NULL),
    the AVL tree's state is the state before the call; the skip list's
    state differs from the state before the call in nothing but the
    generator's seed ([SL.stepped]): nodes, links, level counts, [top_link],
    the count and the log of cleanup calls are the same. *)
Theorem C4_alloc_failure_changes_nothing :
  (∀ s t k v ow m fuel s',
     strict_total (HB.cmp_func (HB.tree s)) → HB.Inv s t → HB.malloc_ok s m →
     (HB.size t ≤ fuel)%nat →
     HB.hb_tree_insert fuel k v ow m s = Ok (-1, s') → m = NULL ∧ s' = s)
  ∧ (∀ s t k v m fuel d s',
       strict_total (HB.cmp_func (HB.tree s)) → HB.Inv s t → HB.malloc_ok s m →
       (HB.size t ≤ fuel)%nat →
       HB.hb_tree_probe fuel k v m s = Ok ((-1, d), s') → m = NULL ∧ s' = s)
  ∧ (∀ s xs k v ow m fuel s',
       strict_total (SL.cmp_func (SL.lst s)) → SL.SLInv s xs → SL.malloc_ok s m →
       (length xs < fuel)%nat →
       SL.skiplist_insert fuel k v ow m s = Ok (-1, s') →
       m = NULL ∧ s' = SL.stepped s
       ∧ SL.mem s' = SL.mem s ∧ SL.dlog s' = SL.dlog s
       ∧ SL.count (SL.lst s') = SL.count (SL.lst s)
       ∧ SL.top_link (SL.lst s') = SL.top_link (SL.lst s)
       ∧ SL.head (SL.lst s') = SL.head (SL.lst s))
  ∧ (∀ s xs k v m fuel d s',
       strict_total (SL.cmp_func (SL.lst s)) → SL.SLInv s xs → SL.malloc_ok s m →
       (length xs < fuel)%nat →
       SL.skiplist_probe fuel k v m s = Ok ((-1, d), s') →
       m = NULL ∧ s' = SL.stepped s
       ∧ SL.mem s' = SL.mem s ∧ SL.dlog s' = SL.dlog s
       ∧ SL.count (SL.lst s') = SL.count (SL.lst s)
       ∧ SL.top_link (SL.lst s') = SL.top_link (SL.lst s)
       ∧ SL.head (SL.lst s') = SL.head (SL.lst s)).
Proof.
  split_and!.
  - intros. by eapply HB.hb_insert_nomem.
  - intros. by eapply HB.hb_probe_nomem.
  - intros s xs k v ow m fuel s' Hcmp HI Hm Hf H.
    destruct (SL.sl_insert_nomem _ _ _ _ _ _ _ _ Hcmp HI Hm Hf H) as [-> ->]. done.
  - intros s xs k v m fuel d s' Hcmp HI Hm Hf H.
    destruct (SL.sl_probe_nomem _ _ _ _ _ _ _ _ Hcmp HI Hm Hf H) as [-> ->]. done.
Qed.

Lemma C4_alloc_failure_witness :
  state_after (HB.hb_tree_insert 10 7 70 false NULL) hb_ex = hb_ex
  ∧ state_after (HB.hb_tree_probe 10 7 70 NULL) hb_ex = hb_ex
  ∧ (SL.mem (state_after (SL.skiplist_insert 10 7 70 false NULL) sl_ex) = SL.mem sl_ex
     ∧ SL.dlog (state_after (SL.skiplist_insert 10 7 70 false NULL) sl_ex) = SL.dlog sl_ex)
  ∧ (SL.mem (state_after (SL.skiplist_probe 10 7 70 NULL) sl_ex) = SL.mem sl_ex
     ∧ SL.dlog (state_after (SL.skiplist_probe 10 7 70 NULL) sl_ex) = SL.dlog sl_ex).
Proof.
  destruct C4_alloc_failure_changes_nothing as (H1 & H2 & H3 & H4).
  split_and!.
  - apply (H1 hb_ex hb_ex_tree 7 70 false NULL 10%nat);
      [apply zcmp_strict_total|apply hb_ex_inv|done|vm_compute; lia
      |vm_compute; reflexivity].
  - apply (H2 hb_ex hb_ex_tree 7 70 NULL 10%nat 70);
      [apply zcmp_strict_total|apply hb_ex_inv|done|vm_compute; lia
      |vm_compute; reflexivity].
  - apply (H3 sl_ex sl_ex_items 7 70 false NULL 10%nat);
      [apply zcmp_strict_total|apply sl_ex_inv|done|vm_compute; lia
      |vm_compute; reflexivity].
  - apply (H3 sl_ex sl_ex_items 7 70 false NULL 10%nat);
      [apply zcmp_strict_total|apply sl_ex_inv|done|vm_compute; lia
      |vm_compute; reflexivity].
  - apply (H4 sl_ex sl_ex_items 7 70 NULL 10%nat 70);
      [apply zcmp_strict_total|apply sl_ex_inv|done|vm_compute; lia
      |vm_compute; reflexivity].
  - apply (H4 sl_ex sl_ex_items 7 70 NULL 10%nat 70);
      [apply zcmp_strict_total|apply sl_ex_inv|done|vm_compute; lia
      |vm_compute; reflexivity].
Defined.

(** C5.  For either engine with a strict total order: after an insert of
    [(k, v)] that answers 0, search for [k] returns [v]; an insert of
    [(k, v2)] with overwrite on a container holding [(k, d)] answers 0,
    after it search for [k] returns [v2], and the log of cleanup calls has
    grown by the one call on [(k, d)] when the callback is set
    ([log_del]); after a remove of [k] that answers true, search for [k]
    returns NULL. *)
Theorem C5_round_trips :
  (∀ s t fuel,
     strict_total (HB.cmp_func (HB.tree s)) → HB.Inv s t →
     (HB.size t < fuel)%nat →
     (∀ k v ow m s',
        HB.malloc_ok s m →
        HB.hb_tree_insert fuel k v ow m s = Ok (0, s') →
        HB.hb_tree_search fuel k s' = Ok (v, s'))
     ∧ (∀ k d v2 m,
          HB.malloc_ok s m → (k, d) ∈ HB.entries t →
          ∃ s', HB.hb_tree_insert fuel k v2 true m s = Ok (0, s')
                ∧ HB.hb_tree_search fuel k s' = Ok (v2, s')
                ∧ HB.dlog s'
                  = if HB.del_func (HB.tree s) then HB.dlog s ++ [(k, d)]
                    else HB.dlog s)
     ∧ (∀ k s',
          HB.hb_tree_remove fuel k s = Ok (true, s') →
          HB.hb_tree_search fuel k s' = Ok (NULLZ, s')))
  ∧ (∀ s xs fuel,
       strict_total (SL.cmp_func (SL.lst s)) → SL.SLInv s xs →
       (S (length xs) < fuel)%nat →
       (∀ k v ow m s',
          SL.malloc_ok s m →
          SL.skiplist_insert fuel k v ow m s = Ok (0, s') →
          SL.skiplist_search fuel k s' = Ok (v, s'))
       ∧ (∀ k d v2 m,
            SL.malloc_ok s m → (k, d) ∈ SL.sl_entries xs →
            ∃ s', SL.skiplist_insert fuel k v2 true m s = Ok (0, s')
                  ∧ SL.skiplist_search fuel k s' = Ok (v2, s')
                  ∧ SL.dlog s'
                    = if SL.del_func (SL.lst s) then SL.dlog s ++ [(k, d)]
                      else SL.dlog s)
       ∧ (∀ k s',
            SL.skiplist_remove fuel k s = Ok (true, s') →
            SL.skiplist_search fuel k s' = Ok (NULLZ, s'))).
Proof.
  split.
  - intros s t fuel Hcmp HI Hf. split_and!.
    + intros k v ow m s' Hm H. by eapply HB.hb_insert_then_search.
    + intros k d v2 m Hm Hin.
      destruct (HB.hb_overwrite_then_search s t k d v2 m fuel) as (s' & ? & ? & ?);
        [done..|lia|]. by exists s'.
    + intros k s' H. eapply HB.hb_remove_then_search; [done|done|lia|done].
  - intros s xs fuel Hcmp HI Hf. split_and!.
    + intros k v ow m s' Hm H. by eapply SL.sl_insert_then_search.
    + intros k d v2 m Hm Hin.
      destruct (SL.sl_overwrite_then_search s xs k d v2 m fuel) as (s' & ? & ? & ?);
        [done..|lia|]. by exists s'.
    + intros k s' H. eapply SL.sl_remove_then_search; [done|done|lia|done].
Qed.

Lemma C5_round_trips_witness :
  (HB.hb_tree_search 10 4 (state_after (HB.hb_tree_insert 10 4 40 false (Some 4%positive)) hb_ex)
   = Ok (40, state_after (HB.hb_tree_insert 10 4 40 false (Some 4%positive)) hb_ex)
   ∧ (∃ s', HB.hb_tree_insert 10 2 22 true NULL hb_ex = Ok (0, s')
            ∧ HB.hb_tree_search 10 2 s' = Ok (22, s')
            ∧ HB.dlog s' = [(2, 20)])
   ∧ HB.hb_tree_search 10 2 (state_after (HB.hb_tree_remove 10 2) hb_ex)
     = Ok (NULLZ, state_after (HB.hb_tree_remove 10 2) hb_ex))
  ∧ (SL.skiplist_search 10 4 (state_after (SL.skiplist_insert 10 4 40 false (Some 5%positive)) sl_ex)
     = Ok (40, state_after (SL.skiplist_insert 10 4 40 false (Some 5%positive)) sl_ex)
     ∧ (∃ s', SL.skiplist_insert 10 2 22 true NULL sl_ex = Ok (0, s')
              ∧ SL.skiplist_search 10 2 s' = Ok (22, s')
              ∧ SL.dlog s' = [(2, 20)])
     ∧ SL.skiplist_search 10 2 (state_after (SL.skiplist_remove 10 2) sl_ex)
       = Ok (NULLZ, state_after (SL.skiplist_remove 10 2) sl_ex)).
Proof.
  destruct C5_round_trips as [HB SL].
  destruct (HB hb_ex hb_ex_tree 10%nat zcmp_strict_total hb_ex_inv
              ltac:(vm_compute; lia)) as (H1 & H2 & H3).
  destruct (SL sl_ex sl_ex_items 10%nat zcmp_strict_total sl_ex_inv
              ltac:(vm_compute; lia)) as (S1 & S2 & S3).
  split; split_and!.
  - apply (H1 4 40 false (Some 4%positive)); [reflexivity|vm_compute; reflexivity].
  - assert (A : (2, 20) ∈ HB.entries hb_ex_tree) by (cbn; repeat constructor).
    destruct (H2 2 20 22 NULL I A) as (s' & Hi & Hs & Hd).
    exists s'. split_and!; [exact Hi|exact Hs|]. rewrite Hd. reflexivity.
  - apply (H3 2). vm_compute; reflexivity.
  - apply (S1 4 40 false (Some 5%positive)); [reflexivity|vm_compute; reflexivity].
  - assert (A : (2, 20) ∈ SL.sl_entries sl_ex_items) by (cbn; repeat constructor).
    destruct (S2 2 20 22 NULL I A) as (s' & Hi & Hs & Hd).
    exists s'. split_and!; [exact Hi|exact Hs|]. rewrite Hd. reflexivity.
  - apply (S3 2). vm_compute; reflexivity.
Defined.

(** C6.  For either engine with a strict total order, traverse offers the
    entries to the visitor one by one in the order of the keys, which is
    strictly ascending (so no key comes twice), stops after the first call
    that answers [false], and returns the number of calls made
    ([visit_run], as a [size_t]); the container is not changed. *)
Theorem C6_traverse_in_order :
  (∀ (V : Type) (visit : V → Z → Z → bool * V) s t v fuel,
     strict_total (HB.cmp_func (HB.tree s)) → HB.Inv s t →
     (HB.size t < fuel)%nat →
     HB.hb_tree_traverse fuel visit v s
     = Ok ((wrap_size (Z.of_nat (visit_run visit v (HB.entries t)).1),
            (visit_run visit v (HB.entries t)).2), s)
     ∧ sorted (HB.cmp_func (HB.tree s)) (HB.entries t).*1
     ∧ NoDup (HB.entries t).*1)
  ∧ (∀ (V : Type) (visit : V → Z → Z → bool * V) s xs v fuel,
       strict_total (SL.cmp_func (SL.lst s)) → SL.SLInv s xs →
       (length xs < fuel)%nat →
       SL.skiplist_traverse fuel visit v s
       = Ok ((wrap_size (Z.of_nat (visit_run visit v (SL.sl_entries xs)).1),
              (visit_run visit v (SL.sl_entries xs)).2), s)
       ∧ sorted (SL.cmp_func (SL.lst s)) (SL.sl_entries xs).*1
       ∧ NoDup (SL.sl_entries xs).*1).
Proof.
  split.
  - intros V visit s t v fuel Hcmp HI Hf. split_and!.
    + by apply HB.hb_traverse_spec.
    + by destruct HI as (_ & _ & Hb & _).
    + destruct HI as (_ & _ & Hb & _). by apply (sorted_NoDup _ Hcmp).
  - intros V visit s xs v fuel Hcmp HI Hf.
    assert (Hk : (SL.sl_entries xs).*1 = SL.ik <$> xs).
    { unfold SL.sl_entries. by rewrite <- list_fmap_compose. }
    rewrite Hk. split_and!.
    + apply SL.sl_traverse_spec; [done|lia].
    + by destruct HI as (hd & _ & _ & _ & _ & _ & Hs & _).
    + destruct HI as (hd & _ & _ & _ & _ & _ & Hs & _).
      by apply (sorted_NoDup _ Hcmp).
Qed.

(** A visitor that records the keys it is offered and stops at key [stop]. *)
Definition record_until (stop : Z) (log : list Z) (k d : Z) : bool * list Z :=
  (negb (k =? stop), log ++ [k]).

Lemma C6_traverse_in_order_witness :
  (HB.hb_tree_traverse 10 (record_until 7) [] hb_ex = Ok ((3, [1; 2; 3]), hb_ex)
   ∧ HB.hb_tree_traverse 10 (record_until 2) [] hb_ex = Ok ((2, [1; 2]), hb_ex))
  ∧ (SL.skiplist_traverse 10 (record_until 7) [] sl_ex = Ok ((3, [1; 2; 3]), sl_ex)
     ∧ SL.skiplist_traverse 10 (record_until 2) [] sl_ex = Ok ((2, [1; 2]), sl_ex)).
Proof.
  destruct C6_traverse_in_order as [HB SL].
  split; split.
  - apply (HB _ (record_until 7) hb_ex hb_ex_tree [] 10%nat zcmp_strict_total
             hb_ex_inv ltac:(vm_compute; lia)).
  - apply (HB _ (record_until 2) hb_ex hb_ex_tree [] 10%nat zcmp_strict_total
             hb_ex_inv ltac:(vm_compute; lia)).
  - apply (SL _ (record_until 7) sl_ex sl_ex_items [] 10%nat zcmp_strict_total
             sl_ex_inv ltac:(vm_compute; lia)).
  - apply (SL _ (record_until 2) sl_ex sl_ex_items [] 10%nat zcmp_strict_total
             sl_ex_inv ltac:(vm_compute; lia)).
Defined.

(** C7 (amended).  Take a subtree laid out in the heap whose root and whose
    child on the side to be raised (the right child for [rot_left], the
    left child for [rot_right]) store their true height differences, both
    between -60 and 60 so that the signed-char arithmetic does not wrap.
    The rotation returns, leaves the rotated subtree laid out in the heap,
    and the two balance factors it rewrites are again the true height
    differences.  Its result is true exactly when the child's balance factor
    was not 0.  For [rot_left] with root factor [ba] and child factor [bd]
    the height of the subtree changes exactly when [ba <= 0], or [ba >= 2]
    and [bd >= 1]; so the result tells whether the height changed exactly
    when [ba <= 0] and [bd <> 0], or [ba = 1] and [bd = 0], or [ba >= 2] and
    [bd >= 0].  [rot_right] is the mirror image.  In particular the result
    tells whether the height changed when the root's factor was +2 and the
    child's at least 0 ([rot_left]; -2 and at most 0 for [rot_right]), the
    single rotations of [hb_tree_remove], which test it. *)
Theorem C7_rotation_amended :
  (∀ s C A a ka da ba Cc d kd dd bd Ee,
     HB.Zip s C (HB.T A a ka da ba (HB.T Cc d kd dd bd Ee)) →
     ba = HB.height (HB.T Cc d kd dd bd Ee) - HB.height A →
     bd = HB.height Ee - HB.height Cc →
     -60 ≤ ba ≤ 60 → -60 ≤ bd ≤ 60 →
     ∃ s' ba' bd',
       HB.rot_left (Some a) s = Ok (negb (bd =? 0), s')
       ∧ HB.Zip s' C (HB.T (HB.T A a ka da ba' Cc) d kd dd bd' Ee)
       ∧ ba' = HB.height Cc - HB.height A
       ∧ bd' = HB.height Ee - HB.height (HB.T A a ka da ba' Cc)
       ∧ (ba = 2 → 0 ≤ bd →
          (negb (bd =? 0) = true
           ↔ HB.height (HB.T (HB.T A a ka da ba' Cc) d kd dd bd' Ee)
             ≠ HB.height (HB.T A a ka da ba (HB.T Cc d kd dd bd Ee))))
       ∧ (HB.height (HB.T (HB.T A a ka da ba' Cc) d kd dd bd' Ee)
          ≠ HB.height (HB.T A a ka da ba (HB.T Cc d kd dd bd Ee))
          ↔ ba ≤ 0 ∨ (2 ≤ ba ∧ 1 ≤ bd))
       ∧ ((negb (bd =? 0) = true
           ↔ HB.height (HB.T (HB.T A a ka da ba' Cc) d kd dd bd' Ee)
             ≠ HB.height (HB.T A a ka da ba (HB.T Cc d kd dd bd Ee)))
          ↔ (ba ≤ 0 ∧ bd ≠ 0) ∨ (ba = 1 ∧ bd = 0) ∨ (2 ≤ ba ∧ 0 ≤ bd)))
  ∧ (∀ s C A b kb db bb Cc d kd dd bd Ee,
       HB.Zip s C (HB.T (HB.T A b kb db bb Cc) d kd dd bd Ee) →
       bd = HB.height Ee - HB.height (HB.T A b kb db bb Cc) →
       bb = HB.height Cc - HB.height A →
       -60 ≤ bd ≤ 60 → -60 ≤ bb ≤ 60 →
       ∃ s' bb' bd',
         HB.rot_right (Some d) s = Ok (negb (bb =? 0), s')
         ∧ HB.Zip s' C (HB.T A b kb db bb' (HB.T Cc d kd dd bd' Ee))
         ∧ bd' = HB.height Ee - HB.height Cc
         ∧ bb' = HB.height (HB.T Cc d kd dd bd' Ee) - HB.height A
         ∧ (bd = -2 → bb ≤ 0 →
            (negb (bb =? 0) = true
             ↔ HB.height (HB.T A b kb db bb' (HB.T Cc d kd dd bd' Ee))
               ≠ HB.height (HB.T (HB.T A b kb db bb Cc) d kd dd bd Ee)))
         ∧ (HB.height (HB.T A b kb db bb' (HB.T Cc d kd dd bd' Ee))
            ≠ HB.height (HB.T (HB.T A b kb db bb Cc) d kd dd bd Ee)
            ↔ 0 ≤ bd ∨ (bd ≤ -2 ∧ bb ≤ -1))
         ∧ ((negb (bb =? 0) = true
             ↔ HB.height (HB.T A b kb db bb' (HB.T Cc d kd dd bd' Ee))
               ≠ HB.height (HB.T (HB.T A b kb db bb Cc) d kd dd bd Ee))
            ↔ (0 ≤ bd ∧ bb ≠ 0) ∨ (bd = -1 ∧ bb = 0) ∨ (bd ≤ -2 ∧ bb ≤ 0))).
Proof.
  assert (Hflag : ∀ x, negb (x =? 0) = true ↔ x ≠ 0).
  { intros x. destruct (Z.eqb_spec x 0); cbn [negb]; split; intros; done. }
  split.
  - intros s C A a ka da ba Cc d kd dd bd Ee HZ Ha Hd Hra Hrd.
    destruct (HB.hb_rot_left_spec _ _ _ _ _ _ _ _ _ _ _ _ _ HZ) as (s' & Hrun & HZ' & _).
    cbn [HB.height] in Ha.
    destruct (HB.hb_rotl_exact A Cc Ee ba bd Ha Hd Hra Hrd) as [H1 H2].
    exists s', (HB.rotl_b1 ba bd), (HB.rotl_b2 ba bd).
    split_and!; [done|done|done|by cbn [HB.height]|..];
      rewrite ?Hflag; cbn [HB.height];
      pose proof (HB.height_nonneg A); pose proof (HB.height_nonneg Cc);
      pose proof (HB.height_nonneg Ee); lia.
  - intros s C A b kb db bb Cc d kd dd bd Ee HZ Hd Hb Hrd Hrb.
    destruct (HB.hb_rot_right_spec _ _ _ _ _ _ _ _ _ _ _ _ _ HZ) as (s' & Hrun & HZ' & _).
    cbn [HB.height] in Hd.
    destruct (HB.hb_rotr_exact A Cc Ee bd bb Hd Hb Hrd Hrb) as [H1 H2].
    exists s', (HB.rotr_b2 bd bb), (HB.rotr_b1 bd bb).
    split_and!; [done|done|done|by cbn [HB.height]|..];
      rewrite ?Hflag; cbn [HB.height];
      pose proof (HB.height_nonneg A); pose proof (HB.height_nonneg Cc);
      pose proof (HB.height_nonneg Ee); lia.
Qed.

Lemma C7_rotation_amended_witness :
  (∃ s' ba' bd',
     HB.rot_left (Some 1%positive) hb_chain = Ok (true, s')
     ∧ HB.Zip s' []
         (HB.T (HB.T HB.E 1 1 10 ba' HB.E) 2 2 20 bd' (HB.T HB.E 3 3 30 0 HB.E))
     ∧ ba' = 0 ∧ bd' = 0)
  ∧ (∃ s' bb' bd',
       HB.rot_right (Some 1%positive) hb_chain_l = Ok (true, s')
       ∧ HB.Zip s' []
           (HB.T (HB.T HB.E 3 1 10 0 HB.E) 2 2 20 bb' (HB.T HB.E 1 3 30 bd' HB.E))
       ∧ bd' = 0 ∧ bb' = 0).
Proof.
  destruct C7_rotation_amended as [HL HR]. split.
  - destruct (HL hb_chain [] HB.E 1%positive 1 10 2 HB.E 2%positive 2 20 1
                (HB.T HB.E 3 3 30 0 HB.E) hb_chain_zip)
      as (s' & ba' & bd' & H1 & H2 & H3 & H4 & _);
      [reflexivity|reflexivity|lia|lia|].
    exists s', ba', bd'. split_and!; [exact H1|exact H2|exact H3|].
    rewrite H4, H3. reflexivity.
  - destruct (HR hb_chain_l [] (HB.T HB.E 3 1 10 0 HB.E) 2%positive 2 20 (-1) HB.E
                1%positive 3 30 (-2) HB.E hb_chain_l_zip)
      as (s' & bb' & bd' & H1 & H2 & H3 & H4 & _);
      [reflexivity|reflexivity|lia|lia|].
    exists s', bb', bd'. split_and!; [exact H1|exact H2|exact H3|].
    rewrite H4, H3. reflexivity.
Defined.

(** The claim as the specification words it fails inside [hb_tree_insert].
    Insert of key 25 into the tree 50(20(10,30),60): the descent ends below
    the node of 30 with [q] on the node of 50; the new node is linked, the
    retrace loop sets the factors of 30 and 20 to -1 and +1, the factor of
    50 is lowered to -2, and the double rotation starts with [rot_left] on
    the node of 20.  Every stored balance factor is then the true height
    difference and the node of 20 has a right child; [rot_left] answers
    true, and the subtree has height 3 before and after. *)
Lemma C7_rotation_counterexample :
  HB.insert_descend 10 25 (Some 1%positive) NULL NULL 0 hb_five
  = Ok (inr (Some 5%positive, Some 1%positive, zcmp 25 30), hb_five)
  ∧ hb_insert_25_to_rotation hb_five = Ok (Some 2%positive, hb_mid)
  ∧ HB.Zip hb_mid [hb_mid_frame] hb_mid_sub
  ∧ true_factors (HB.plug [hb_mid_frame] hb_mid_sub)
  ∧ HB.rot_left (Some 2%positive) hb_mid = Ok (true, hb_mid_rot)
  ∧ HB.Zip hb_mid_rot [hb_mid_frame] hb_mid_rot_sub
  ∧ HB.height hb_mid_sub = 3 ∧ HB.height hb_mid_rot_sub = 3.
Proof.
  split_and!.
  - vm_compute; reflexivity.
  - vm_compute; reflexivity.
  - unfold HB.Zip. split_and!.
    + reflexivity.
    + cbn [HB.R hb_mid_sub hb_mid_frame HB.cpar HB.root_of HB.fa].
      split_and!; try done; vm_compute; reflexivity.
    + cbn [HB.Rc HB.R hb_mid_frame HB.fsib HB.fa HB.cpar HB.root_of hb_mid_sub].
      split_and!; try done; vm_compute; reflexivity.
    + cbn. repeat constructor; set_solver.
  - cbn. lia.
  - vm_compute; reflexivity.
  - unfold HB.Zip. split_and!.
    + reflexivity.
    + cbn [HB.R hb_mid_rot_sub hb_mid_frame HB.cpar HB.root_of HB.fa].
      split_and!; try done; vm_compute; reflexivity.
    + cbn [HB.Rc HB.R hb_mid_frame HB.fsib HB.fa HB.cpar HB.root_of hb_mid_rot_sub].
      split_and!; try done; vm_compute; reflexivity.
    + cbn. repeat constructor; set_solver.
  - reflexivity.
  - reflexivity.
Qed.

(** C8.  Whatever the list and the state of its generator,
    [rand_link_count] returns a level count [n] with [1 <= n] and at most
    [max_link - 1] levels beyond level 0; more precisely [n] is at most
    [max_link - 1] when [max_link >= 2].  It is the level count given to the
    node an insert creates. *)
Theorem C8_level_count_drawn :
  (∀ s, ∃ n s',
     SL.rand_link_count s = Ok (n, s')
     ∧ n = SL.next_level s
     ∧ (1 ≤ n)%nat
     ∧ (n - 1 ≤ SL.max_link (SL.lst s) - 1)%nat
     ∧ (n ≤ Nat.max 1 (SL.max_link (SL.lst s) - 1))%nat)
  ∧ (∀ s xs k v ow a fuel,
       strict_total (SL.cmp_func (SL.lst s)) → SL.SLInv s xs →
       SL.mem s !! a = None → (length xs < fuel)%nat →
       (2 ≤ SL.max_link (SL.lst s))%nat → (k ∉ SL.ik <$> xs) →
       ∃ s' n,
         SL.skiplist_insert fuel k v ow (Some a) s = Ok (0, s')
         ∧ SL.mem s' !! a = Some n
         ∧ SL.link_count n = SL.next_level s
         ∧ (1 ≤ SL.link_count n ≤ SL.max_link (SL.lst s) - 1)%nat).
Proof.
  split.
  - intros s. exists (SL.next_level s), (SL.stepped s).
    destruct (SL.sl_next_level_bounds s). split_and!; [done|done|lia..].
  - intros s xs k v ow a fuel Hcmp HI Ha Hf Hml Hk.
    destruct (SL.sl_insert_spec s xs k v ow (Some a) fuel Hcmp HI Ha Hf)
      as [(_ & _ & H)|(lo & z & hi & -> & Hz & _)].
    + destruct (H Hml) as (s' & lo & hi & -> & Hrun & HI' & _).
      destruct HI' as (hd & _ & HR & _). cbn [SL.RN] in HR. destruct HR as [_ HR].
      apply SL.RN_app in HR as [_ [(pv & ls & Hl & _) _]]. cbn in Hl.
      eexists s', _. split_and!; [done|exact Hl|done|cbn|cbn].
      * apply (SL.sl_next_level_bounds s).
      * destruct (SL.sl_next_level_bounds s). lia.
    + exfalso. apply Hk. rewrite fmap_app, fmap_cons, Hz. set_solver.
Qed.

Lemma C8_level_count_drawn_witness :
  ∃ s' n,
    SL.skiplist_insert 10 4 40 false (Some 5%positive) sl_ex = Ok (0, s')
    ∧ SL.mem s' !! 5%positive = Some n
    ∧ SL.link_count n = SL.next_level sl_ex
    ∧ (1 ≤ SL.link_count n ≤ SL.max_link (SL.lst sl_ex) - 1)%nat.
Proof.
  apply (proj2 C8_level_count_drawn sl_ex sl_ex_items 4 40 false 5%positive 10%nat);
    [apply zcmp_strict_total|apply sl_ex_inv|reflexivity|vm_compute; lia
    |vm_compute; lia|vm_compute; set_solver].
Defined.

(** C9.  For either engine, search for a key that is not in the container
    returns NULL and leaves the state as it was, and so does search for a
    key stored with a NULL datum: the answers are the same. *)
Theorem C9_search_null :
  (∀ s t k fuel,
     strict_total (HB.cmp_func (HB.tree s)) → HB.Inv s t →
     (HB.size t ≤ fuel)%nat →
     (k ∉ HB.keys t) ∨ (k, NULLZ) ∈ HB.entries t →
     HB.hb_tree_search fuel k s = Ok (NULLZ, s))
  ∧ (∀ s xs k fuel,
       strict_total (SL.cmp_func (SL.lst s)) → SL.SLInv s xs →
       (length xs < fuel)%nat →
       (k ∉ SL.ik <$> xs) ∨ (k, NULLZ) ∈ SL.sl_entries xs →
       SL.skiplist_search fuel k s = Ok (NULLZ, s)).
Proof.
  split.
  - intros s t k fuel Hcmp HI Hf [Hk|Hk].
    + by eapply HB.hb_search_absent.
    + by eapply HB.hb_search_present.
  - intros s xs k fuel Hcmp HI Hf [Hk|Hk].
    + by eapply SL.sl_search_absent.
    + apply list_elem_of_fmap in Hk as (x & [= -> Hd] & Hx). rewrite Hd.
      by eapply SL.sl_search_present.
Qed.

Lemma C9_search_null_witness :
  (HB.hb_tree_search 10 4 hb_ex = Ok (NULLZ, hb_ex)
   ∧ HB.hb_tree_search 10 3 hb_ex = Ok (NULLZ, hb_ex))
  ∧ (SL.skiplist_search 10 4 sl_ex = Ok (NULLZ, sl_ex)
     ∧ SL.skiplist_search 10 3 sl_ex = Ok (NULLZ, sl_ex)).
Proof.
  destruct C9_search_null as [HB SL].
  split; split.
  - apply (HB hb_ex hb_ex_tree 4 10%nat zcmp_strict_total hb_ex_inv);
      [vm_compute; lia|left; vm_compute; set_solver].
  - apply (HB hb_ex hb_ex_tree 3 10%nat zcmp_strict_total hb_ex_inv);
      [vm_compute; lia|right; vm_compute; set_solver].
  - apply (SL sl_ex sl_ex_items 4 10%nat zcmp_strict_total sl_ex_inv);
      [vm_compute; lia|left; vm_compute; set_solver].
  - apply (SL sl_ex sl_ex_items 3 10%nat zcmp_strict_total sl_ex_inv);
      [vm_compute; lia|right; vm_compute; set_solver].
Defined.

(** C10.  For a skip list with [max_link >= 2], [rand_link_count] returns a
    value between 1 and [max_link - 1], so the assertion
    [nlinks < max_link] of [node_insert] holds: insert and probe return.
    [skiplist_new] accepts [max_link = 1]; on such a list
    [rand_link_count] returns 1, and an insert or a probe of a key that is
    not in the list fails the assertion. *)
Theorem C10_node_insert_assertion :
  (∀ s, (2 ≤ SL.max_link (SL.lst s))%nat →
        ∃ n s', SL.rand_link_count s = Ok (n, s')
                ∧ (1 ≤ n ≤ SL.max_link (SL.lst s) - 1)%nat
                ∧ (n <? SL.max_link (SL.lst s))%nat = true)
  ∧ (∀ s xs k v ow m fuel,
       strict_total (SL.cmp_func (SL.lst s)) → SL.SLInv s xs → SL.malloc_ok s m →
       (length xs < fuel)%nat → (2 ≤ SL.max_link (SL.lst s))%nat →
       (∃ r s', SL.skiplist_insert fuel k v ow m s = Ok (r, s'))
       ∧ (∃ r s', SL.skiplist_probe fuel k v m s = Ok (r, s')))
  ∧ (∀ cmp del a seed,
       ∃ s, SL.skiplist_new cmp del 1 (Some a) seed = Ok (Some s)
            ∧ SL.max_link (SL.lst s) = 1%nat ∧ SL.SLInv s [])
  ∧ (∀ s, SL.max_link (SL.lst s) = 1%nat →
          ∃ s', SL.rand_link_count s = Ok (1%nat, s'))
  ∧ (∀ s xs k v ow m fuel,
       strict_total (SL.cmp_func (SL.lst s)) → SL.SLInv s xs → SL.malloc_ok s m →
       (length xs < fuel)%nat → SL.max_link (SL.lst s) = 1%nat →
       (k ∉ SL.ik <$> xs) →
       SL.skiplist_insert fuel k v ow m s = AssertFail
       ∧ SL.skiplist_probe fuel k v m s = AssertFail).
Proof.
  split_and!.
  - intros s Hml. exists (SL.next_level s), (SL.stepped s).
    destruct (SL.sl_next_level_bounds s). split_and!; [done|lia|lia|].
    apply Nat.ltb_lt. lia.
  - intros s xs k v ow m fuel Hcmp HI Hm Hf Hml. split.
    + by eapply SL.sl_insert_total.
    + by eapply SL.sl_probe_total.
  - intros cmp del a seed. apply SL.sl_new_one.
  - intros s Hml. exists (SL.stepped s).
    rewrite SL.sl_rand_link_count_spec. unfold SL.stepped. by rewrite Hml.
  - intros s xs k v ow m fuel Hcmp HI Hm Hf Hml Hk. split.
    + by eapply SL.sl_insert_one.
    + by eapply SL.sl_probe_one.
Qed.

Lemma C10_node_insert_assertion_witness :
  ((∃ r s', SL.skiplist_insert 10 4 40 false (Some 5%positive) sl_ex = Ok (r, s'))
   ∧ (∃ r s', SL.skiplist_probe 10 4 40 (Some 5%positive) sl_ex = Ok (r, s')))
  ∧ (SL.skiplist_insert 10 1 10 false (Some 2%positive) sl_one = AssertFail
     ∧ SL.skiplist_probe 10 1 10 (Some 2%positive) sl_one = AssertFail).
Proof.
  destruct C10_node_insert_assertion as (_ & H2 & _ & _ & H5). split.
  - apply (H2 sl_ex sl_ex_items 4 40 false (Some 5%positive) 10%nat);
      [apply zcmp_strict_total|apply sl_ex_inv|reflexivity|vm_compute; lia
      |vm_compute; lia].
  - apply (H5 sl_one [] 1 10 false (Some 2%positive) 10%nat);
      [apply zcmp_strict_total|apply sl_one_inv|reflexivity|vm_compute; lia
      |reflexivity|vm_compute; set_solver].
Defined.

(** * Further properties of the two engines *)

(** X1.  For the skip-list engine with [max_link >= 2] and a strict total
    order: after every sequence of insert, probe, remove and clear
    operations run from a new list, the run returns and the list satisfies
    [SL.SLInv]: the nodes in bottom-level order have strictly ascending
    keys; at every level [k] below a node's level count its link leads to the
    next node whose level count exceeds [k] (NULL if there is none), and so
    do the head's links; every level count lies between 1 and
    [top_link + 1]; [top_link < max_link]; and the count is the number of
    nodes. *)
Theorem X1_skiplist_invariant (cmp : Z → Z → Z) (del : bool) (ml : nat)
    (a : positive) (seed : Z) (s0 : SL.state) (os : list SL.op) :
  strict_total cmp → (2 ≤ ml)%nat →
  SL.skiplist_new cmp del ml (Some a) seed = Ok (Some s0) →
  SL.allocs_ok os s0 →
  ∃ s xs, SL.run os s0 = Ok s ∧ SL.SLInv s xs
          ∧ sorted cmp (SL.ik <$> xs)
          ∧ Forall (λ x, 1 ≤ SL.ilc x ≤ SL.top_link (SL.lst s) + 1)%nat xs.
Proof.
  intros Hcmp Hml Hnew Ha.
  destruct (SL.sl_new_spec cmp del ml a seed) as (s0' & Hnew' & HI & Hc & _ & Hm & _); [lia|].
  rewrite Hnew in Hnew'. injection Hnew' as <-.
  destruct (SL.sl_run_inv os s0 []) as (s & xs & Hrun & HI' & Hc' & _);
    [by rewrite Hc|done|done|rewrite Hm; unfold SL.MAX_LINK; lia|].
  exists s, xs. split_and!; [done|done| |].
  - destruct HI' as (hd & _ & _ & _ & _ & _ & Hs & _). by rewrite Hc', Hc in Hs.
  - by destruct HI' as (hd & _ & _ & _ & Hlc & _).
Qed.

Lemma X1_skiplist_invariant_witness :
  ∃ s xs,
    SL.run [SL.OpInsert 2 20 false (Some 2%positive);
            SL.OpInsert 1 10 false (Some 3%positive);
            SL.OpProbe 3 30 (Some 4%positive);
            SL.OpRemove 2; SL.OpInsert 3 33 true NULL;
            SL.OpClear; SL.OpInsert 5 50 false (Some 2%positive)] sl_ex0 = Ok s
    ∧ SL.SLInv s xs
    ∧ sorted zcmp (SL.ik <$> xs)
    ∧ Forall (λ x, 1 ≤ SL.ilc x ≤ SL.top_link (SL.lst s) + 1)%nat xs.
Proof.
  apply (X1_skiplist_invariant zcmp true 4 1%positive 12345 sl_ex0 _ zcmp_strict_total);
    [lia|reflexivity|].
  vm_compute. repeat split.
Defined.

(** X2.  Remove, for either engine on a well-formed container with a
    strict total order: when the key is absent the answer is false and the
    state is as before; when the container holds [(k, d)] the answer is
    true, exactly that entry is gone and the others keep their order, the
    container is well formed again, and the cleanup callback, if set, has
    been called once more, on [(k, d)]. *)
Theorem X2_remove :
  (∀ s t k fuel,
     strict_total (HB.cmp_func (HB.tree s)) → HB.Inv s t →
     (HB.size t ≤ fuel)%nat →
     ((k ∉ HB.keys t) ∧ HB.hb_tree_remove fuel k s = Ok (false, s))
     ∨ (∃ l d r s' t',
          HB.entries t = l ++ (k, d) :: r
          ∧ HB.hb_tree_remove fuel k s = Ok (true, s')
          ∧ HB.Inv s' t' ∧ HB.entries t' = l ++ r
          ∧ HB.dlog s' = HB.log_del s k d))
  ∧ (∀ s xs k fuel,
       strict_total (SL.cmp_func (SL.lst s)) → SL.SLInv s xs →
       (length xs < fuel)%nat →
       ((k ∉ SL.ik <$> xs) ∧ SL.skiplist_remove fuel k s = Ok (false, s))
       ∨ (∃ lo z hi s',
            xs = lo ++ z :: hi ∧ SL.ik z = k
            ∧ SL.skiplist_remove fuel k s = Ok (true, s')
            ∧ SL.SLInv s' (lo ++ hi)
            ∧ SL.dlog s' = SL.log_del s k (SL.id z))).
Proof.
  split.
  - intros s t k fuel Hcmp HI Hf.
    destruct (HB.hb_remove_spec s t k fuel Hcmp HI Hf)
      as [?|(l & d & r & s' & t' & ? & ? & ? & ? & ? & _)]; [by left|right].
    by exists l, d, r, s', t'.
  - intros s xs k fuel Hcmp HI Hf.
    destruct (SL.sl_remove_spec s xs k fuel Hcmp HI Hf)
      as [?|(lo & z & hi & s' & ? & Hz & ? & ? & Hd & _)]; [by left|right].
    exists lo, z, hi, s'. rewrite Hz in Hd. done.
Qed.

Lemma X2_remove_witness :
  (∃ l d r s' t',
     HB.entries hb_ex_tree = l ++ (2, d) :: r
     ∧ HB.hb_tree_remove 10 2 hb_ex = Ok (true, s')
     ∧ HB.Inv s' t' ∧ HB.entries t' = l ++ r
     ∧ HB.dlog s' = HB.log_del hb_ex 2 d)
  ∧ (∃ lo z hi s',
       sl_ex_items = lo ++ z :: hi ∧ SL.ik z = 2
       ∧ SL.skiplist_remove 10 2 sl_ex = Ok (true, s')
       ∧ SL.SLInv s' (lo ++ hi)
       ∧ SL.dlog s' = SL.log_del sl_ex 2 (SL.id z)).
Proof.
  split.
  - destruct (proj1 X2_remove hb_ex hb_ex_tree 2 10%nat zcmp_strict_total hb_ex_inv
                ltac:(vm_compute; lia)) as [[Hk _]|H]; [|exact H].
    exfalso. apply Hk. vm_compute. set_solver.
  - destruct (proj2 X2_remove sl_ex sl_ex_items 2 10%nat zcmp_strict_total sl_ex_inv
                ltac:(vm_compute; lia)) as [[Hk _]|H]; [|exact H].
    exfalso. apply Hk. vm_compute. set_solver.
Defined.

(** X3.  Insert of a key that is not in the container, with a block from
    the allocator, for either engine on a well-formed container with a
    strict total order (and [max_link >= 2] for the skip list): the answer
    is 0, the container is well formed again, its entries are the old ones
    with [(k, v)] at its place in the order, and no cleanup call is made. *)
Theorem X3_insert_new_key :
  (∀ s t k v ow a fuel,
     strict_total (HB.cmp_func (HB.tree s)) → HB.Inv s t →
     HB.mem s !! a = None → (HB.size t ≤ fuel)%nat → (k ∉ HB.keys t) →
     ∃ s' t' l r,
       HB.hb_tree_insert fuel k v ow (Some a) s = Ok (0, s')
       ∧ HB.Inv s' t'
       ∧ HB.entries t = l ++ r ∧ HB.entries t' = l ++ (k, v) :: r
       ∧ HB.dlog s' = HB.dlog s)
  ∧ (∀ s xs k v ow a fuel,
       strict_total (SL.cmp_func (SL.lst s)) → SL.SLInv s xs →
       SL.mem s !! a = None → (length xs < fuel)%nat →
       (2 ≤ SL.max_link (SL.lst s))%nat → (k ∉ SL.ik <$> xs) →
       ∃ s' xs' l r,
         SL.skiplist_insert fuel k v ow (Some a) s = Ok (0, s')
         ∧ SL.SLInv s' xs'
         ∧ SL.sl_entries xs = l ++ r ∧ SL.sl_entries xs' = l ++ (k, v) :: r
         ∧ SL.dlog s' = SL.dlog s).
Proof.
  split.
  - intros s t k v ow a fuel Hcmp HI Ha Hf Hk.
    destruct (HB.hb_insert_spec s t k v ow (Some a) fuel Hcmp HI Ha Hf)
      as [[_ H]|(l & d & r & He & _)].
    + destruct H as (s' & t' & l & r & ? & ? & ? & ? & ? & _). by exists s', t', l, r.
    + exfalso. apply Hk. unfold HB.keys. rewrite He, fmap_app, fmap_cons. set_solver.
  - intros s xs k v ow a fuel Hcmp HI Ha Hf Hml Hk.
    destruct (SL.sl_insert_spec s xs k v ow (Some a) fuel Hcmp HI Ha Hf)
      as [(_ & _ & H)|(lo & z & hi & -> & Hz & _)].
    + destruct (H Hml) as (s' & lo & hi & -> & ? & ? & ? & _).
      exists s', (lo ++ SL.mk_item a k v (SL.next_level s) :: hi),
        (SL.sl_entries lo), (SL.sl_entries hi).
      unfold SL.sl_entries. rewrite !fmap_app, fmap_cons. done.
    + exfalso. apply Hk. rewrite fmap_app, fmap_cons, Hz. set_solver.
Qed.

Lemma X3_insert_new_key_witness :
  (∃ s' t' l r,
     HB.hb_tree_insert 10 4 40 false (Some 4%positive) hb_ex = Ok (0, s')
     ∧ HB.Inv s' t'
     ∧ HB.entries hb_ex_tree = l ++ r ∧ HB.entries t' = l ++ (4, 40) :: r
     ∧ HB.dlog s' = HB.dlog hb_ex)
  ∧ (∃ s' xs' l r,
       SL.skiplist_insert 10 4 40 false (Some 5%positive) sl_ex = Ok (0, s')
       ∧ SL.SLInv s' xs'
       ∧ SL.sl_entries sl_ex_items = l ++ r ∧ SL.sl_entries xs' = l ++ (4, 40) :: r
       ∧ SL.dlog s' = SL.dlog sl_ex).
Proof.
  split.
  - apply (proj1 X3_insert_new_key hb_ex hb_ex_tree 4 40 false 4%positive 10%nat
             zcmp_strict_total hb_ex_inv);
      [reflexivity|vm_compute; lia|vm_compute; set_solver].
  - apply (proj2 X3_insert_new_key sl_ex sl_ex_items 4 40 false 5%positive 10%nat
             zcmp_strict_total sl_ex_inv);
      [reflexivity|vm_compute; lia|vm_compute; lia|vm_compute; set_solver].
Defined.

(** X4.  [skiplist_remove] does not repair the [prev] pointer of the node
    that followed the removed one.  On a well-formed list whose [prev]
    pointers are in order, after the removal of an entry [z] that has a
    successor [y], the block of [z] is released while [prev] of [y] still
    holds its address: [skiplist_itor_prev] from [y] answers true with the
    iterator on the released block, and reading the key there is a read of
    released memory ([Fault]). *)
Theorem X4_remove_leaves_prev_dangling (s : SL.state) (lo hi : list SL.item)
    (z y : SL.item) (fuel : nat) :
  strict_total (SL.cmp_func (SL.lst s)) →
  SL.SLInv s (lo ++ z :: y :: hi) → SL.PrevInv s (lo ++ z :: y :: hi) →
  (length (lo ++ z :: y :: hi) < fuel)%nat →
  ∃ s',
    SL.skiplist_remove fuel (SL.ik z) s = Ok (true, s')
    ∧ SL.SLInv s' (lo ++ y :: hi)
    ∧ SL.mem s' !! SL.ia z = None
    ∧ SL.skiplist_itor_prev fuel (Some (SL.ia y)) s' = Ok ((true, Some (SL.ia z)), s')
    ∧ SL.skiplist_itor_key (Some (SL.ia z)) s' = Fault.
Proof.
  intros Hcmp HI (hd & Hhd & Hp) Hf.
  assert (Hnd : NoDup (SL.ik <$> lo ++ z :: y :: hi)).
  { destruct HI as (? & _ & _ & _ & _ & _ & Hs & _). by apply (sorted_NoDup _ Hcmp). }
  assert (Hzhd : hd ≠ SL.ia z).
  { destruct HI as (hd' & Hhd' & _ & Hn & _). rewrite Hhd in Hhd'. injection Hhd' as <-.
    apply NoDup_cons_1_1 in Hn. intros ->. apply Hn. rewrite fmap_app, fmap_cons.
    set_solver. }
  assert (Hzy : SL.ia y ≠ SL.ia z).
  { destruct HI as (hd' & _ & _ & Hn & _). apply NoDup_cons_1_2 in Hn.
    rewrite fmap_app, !fmap_cons in Hn. apply NoDup_app in Hn as (_ & _ & Hn).
    apply NoDup_cons_1_1 in Hn. intros E. apply Hn. rewrite E. left. }
  destruct (SL.sl_remove_full s _ (SL.ik z) fuel Hcmp HI Hf)
    as [[Hk _]|(lo' & z' & hi' & s' & He & Hz & Hrun & HI' & _ & _ & _ & _ & _ & Hfree & Hpv & Hh)].
  { exfalso. apply Hk. rewrite fmap_app, fmap_cons. set_solver. }
  destruct (NoDup_split_eq SL.ik lo (y :: hi) lo' hi' z z' Hnd He (eq_sym Hz))
    as (<- & <- & <-).
  exists s'. split_and!; [done|done|done| |].
  - assert (Hy : (lo ++ z :: y :: hi) !! S (length lo) = Some y).
    { rewrite lookup_app_r by lia. by replace (S (length lo) - length lo)%nat with 1%nat by lia. }
    pose proof (SL.prev_ok_lookup _ _ _ _ _ Hp Hy) as Hpy.
    cbn beta iota in Hpy. rewrite list_lookup_middle in Hpy by done.
    cbn [fmap option_fmap option_map default] in Hpy.
    rewrite <- (Hpv _ Hzy) in Hpy.
    destruct (SL.mem s' !! SL.ia y) as [n|] eqn:Hn; [|done].
    cbn in Hpy. injection Hpy as Hpy.
    unfold SL.skiplist_itor_prev. cbn [is_null].
    erewrite SL.sl_bind_rd by exact Hn. rewrite Hpy.
    unfold SL.VALID. rewrite bind_assoc, SL.sl_bind_get, Hh, Hhd, bind_ret.
    cbn [is_null negb]. rewrite ptr_eqb_ne by congruence. done.
  - unfold SL.skiplist_itor_key, SL.rd. cbn [is_null]. by rewrite Hfree.
Qed.

Lemma sl_ex_prev : SL.PrevInv sl_ex sl_ex_items.
Proof. exists 1%positive. split; [reflexivity|]. repeat split. Qed.

Lemma X4_remove_leaves_prev_dangling_witness :
  ∃ s',
    SL.skiplist_remove 10 2 sl_ex = Ok (true, s')
    ∧ SL.SLInv s' [SL.mk_item 3 1 10 3; SL.mk_item 4 3 NULLZ 1]
    ∧ SL.mem s' !! 2%positive = None
    ∧ SL.skiplist_itor_prev 10 (Some 4%positive) s' = Ok ((true, Some 2%positive), s')
    ∧ SL.skiplist_itor_key (Some 2%positive) s' = Fault.
Proof.
  apply (X4_remove_leaves_prev_dangling sl_ex [SL.mk_item 3 1 10 3] []
           (SL.mk_item 2 2 20 3) (SL.mk_item 4 3 NULLZ 1) 10 zcmp_strict_total
           sl_ex_inv sl_ex_prev).
  vm_compute. lia.
Defined.
(** ** Lookup, probe, overwrite, clear *)

Lemma sl_entries_elem (xs : list SL.item) k v :
  (k, v) ∈ SL.sl_entries xs → ∃ x, x ∈ xs ∧ SL.ik x = k ∧ SL.id x = v.
Proof.
  intros (x & [= -> ->] & Hx)%list_elem_of_fmap. by exists x.
Qed.

Lemma sl_entries_keys (xs : list SL.item) : (SL.sl_entries xs).*1 = SL.ik <$> xs.
Proof. unfold SL.sl_entries. by rewrite <- list_fmap_compose. Qed.

Lemma hb_present_split cmp (Hcmp : strict_total cmp) (es l r : list (Z * Z)) k d d' :
  sorted cmp es.*1 → (k, d) ∈ es → es = l ++ (k, d') :: r → d' = d.
Proof.
  intros Hs Hin He. apply (NoDup_fst_inj es k).
  - by apply (sorted_NoDup _ Hcmp).
  - rewrite He. set_solver.
  - done.
Qed.

(** X5.  For either engine on a well-formed container with a strict total
    order, search for a key that is stored returns the datum stored with it
    and leaves the state as it was. *)
Theorem X5_search_finds_datum :
  (∀ s t k v fuel,
     strict_total (HB.cmp_func (HB.tree s)) → HB.Inv s t →
     (k, v) ∈ HB.entries t → (HB.size t ≤ fuel)%nat →
     HB.hb_tree_search fuel k s = Ok (v, s))
  ∧ (∀ s xs k v fuel,
       strict_total (SL.cmp_func (SL.lst s)) → SL.SLInv s xs →
       (k, v) ∈ SL.sl_entries xs → (length xs < fuel)%nat →
       SL.skiplist_search fuel k s = Ok (v, s)).
Proof.
  split.
  - intros s t k v fuel Hcmp HI Hin Hf. by eapply HB.hb_search_present.
  - intros s xs k v fuel Hcmp HI Hin Hf.
    apply sl_entries_elem in Hin as (x & Hx & <- & <-).
    by apply (SL.sl_search_present s xs).
Qed.

Lemma X5_search_finds_datum_witness :
  HB.hb_tree_search 10 1 hb_ex = Ok (10, hb_ex)
  ∧ SL.skiplist_search 10 2 sl_ex = Ok (20, sl_ex).
Proof.
  split.
  - apply (proj1 X5_search_finds_datum hb_ex hb_ex_tree 1 10 10%nat
             zcmp_strict_total hb_ex_inv); [cbn; set_solver|vm_compute; lia].
  - apply (proj2 X5_search_finds_datum sl_ex sl_ex_items 2 20 10%nat
             zcmp_strict_total sl_ex_inv); [cbn; set_solver|vm_compute; lia].
Defined.

(** X6.  Probe, for either engine on a well-formed container with a strict
    total order: when the key is stored with datum [d], the answer is 0,
    the datum cell receives [d] and the state is as before, whatever the
    allocator would answer; when the key is not stored and the allocator
    supplies a block (and [max_link >= 2] for the skip list), the answer is
    1, the cell keeps [v], the entry [(k, v)] is added at its place in the
    order, and no cleanup call is made. *)
Theorem X6_probe :
  (∀ s t k v m fuel,
     strict_total (HB.cmp_func (HB.tree s)) → HB.Inv s t → HB.malloc_ok s m →
     (HB.size t ≤ fuel)%nat →
     (∀ d, (k, d) ∈ HB.entries t → HB.hb_tree_probe fuel k v m s = Ok ((0, d), s))
     ∧ (k ∉ HB.keys t → is_Some m →
        ∃ s' t' l r,
          HB.hb_tree_probe fuel k v m s = Ok ((1, v), s') ∧ HB.Inv s' t'
          ∧ HB.entries t = l ++ r ∧ HB.entries t' = l ++ (k, v) :: r
          ∧ HB.dlog s' = HB.dlog s))
  ∧ (∀ s xs k v m fuel,
       strict_total (SL.cmp_func (SL.lst s)) → SL.SLInv s xs → SL.malloc_ok s m →
       (length xs < fuel)%nat →
       (∀ d, (k, d) ∈ SL.sl_entries xs →
          SL.skiplist_probe fuel k v m s = Ok ((0, d), s))
       ∧ (k ∉ SL.ik <$> xs → is_Some m → (2 ≤ SL.max_link (SL.lst s))%nat →
          ∃ s' xs' l r,
            SL.skiplist_probe fuel k v m s = Ok ((1, v), s') ∧ SL.SLInv s' xs'
            ∧ SL.sl_entries xs = l ++ r ∧ SL.sl_entries xs' = l ++ (k, v) :: r
            ∧ SL.dlog s' = SL.dlog s)).
Proof.
  split.
  - intros s t k v m fuel Hcmp HI Hm Hf.
    assert (Hs : sorted (HB.cmp_func (HB.tree s)) (HB.entries t).*1)
      by by destruct HI as (_ & _ & ? & _).
    destruct (HB.hb_probe_spec s t k v m fuel Hcmp HI Hm Hf)
      as [[Hk H]|(l & d' & r & He & H)]; split.
    + intros d Hin. exfalso. apply Hk. apply list_elem_of_fmap. by exists (k, d).
    + intros _ [a ->]. destruct H as (s' & t' & l & r & ? & ? & ? & ? & ? & _).
      by exists s', t', l, r.
    + intros d Hin. by rewrite (hb_present_split _ Hcmp _ _ _ _ _ _ Hs Hin He) in H.
    + intros Hk. exfalso. apply Hk. unfold HB.keys. rewrite He, fmap_app, fmap_cons.
      set_solver.
  - intros s xs k v m fuel Hcmp HI Hm Hf.
    assert (Hs : sorted (SL.cmp_func (SL.lst s)) (SL.sl_entries xs).*1).
    { rewrite sl_entries_keys. by destruct HI as (? & _ & _ & _ & _ & _ & ? & _). }
    destruct (SL.sl_probe_spec s xs k v m fuel Hcmp HI Hm Hf)
      as [(Hk & _ & H)|(lo & z & hi & -> & Hz & H)]; split.
    + intros d Hin. exfalso. apply Hk. rewrite <- sl_entries_keys.
      apply list_elem_of_fmap. by exists (k, d).
    + intros _ [a ->] Hml. destruct (H Hml) as (s' & lo & hi & -> & ? & ? & ? & _).
      exists s', (lo ++ SL.mk_item a k v (SL.next_level s) :: hi),
        (SL.sl_entries lo), (SL.sl_entries hi).
      unfold SL.sl_entries. rewrite !fmap_app, fmap_cons. done.
    + intros d Hin.
      assert (He : SL.sl_entries (lo ++ z :: hi)
                   = SL.sl_entries lo ++ (k, SL.id z) :: SL.sl_entries hi).
      { unfold SL.sl_entries. by rewrite fmap_app, fmap_cons, Hz. }
      by rewrite (hb_present_split _ Hcmp _ _ _ _ _ _ Hs Hin He) in H.
    + intros Hk. exfalso. apply Hk. rewrite fmap_app, fmap_cons, Hz. set_solver.
Qed.

Lemma X6_probe_witness :
  HB.hb_tree_probe 10 2 77 NULL hb_ex = Ok ((0, 20), hb_ex)
  ∧ (∃ s' xs' l r,
       SL.skiplist_probe 10 4 40 (Some 5%positive) sl_ex = Ok ((1, 40), s')
       ∧ SL.SLInv s' xs'
       ∧ SL.sl_entries sl_ex_items = l ++ r ∧ SL.sl_entries xs' = l ++ (4, 40) :: r
       ∧ SL.dlog s' = SL.dlog sl_ex).
Proof.
  split.
  - apply (proj1 (proj1 X6_probe hb_ex hb_ex_tree 2 77 NULL 10%nat zcmp_strict_total
                    hb_ex_inv I ltac:(vm_compute; lia))).
    cbn; set_solver.
  - apply (proj2 (proj2 X6_probe sl_ex sl_ex_items 4 40 (Some 5%positive) 10%nat
                    zcmp_strict_total sl_ex_inv eq_refl ltac:(vm_compute; lia)));
      [vm_compute; set_solver|by eexists|vm_compute; lia].
Defined.

(** X7.  Insert of a key that is already stored, for either engine on a
    well-formed container with a strict total order: without overwrite the
    answer is 1 and the state is as before; with overwrite the answer is 0,
    the entry of the key now carries the new datum while every other entry
    and the count are as before, and the cleanup callback, if set, has been
    called once more, on the old entry. *)
Theorem X7_insert_present_key :
  (∀ s t k d v m fuel,
     strict_total (HB.cmp_func (HB.tree s)) → HB.Inv s t → HB.malloc_ok s m →
     (HB.size t ≤ fuel)%nat → (k, d) ∈ HB.entries t →
     HB.hb_tree_insert fuel k v false m s = Ok (1, s)
     ∧ ∃ s' t' l r,
         HB.hb_tree_insert fuel k v true m s = Ok (0, s') ∧ HB.Inv s' t'
         ∧ HB.entries t = l ++ (k, d) :: r ∧ HB.entries t' = l ++ (k, v) :: r
         ∧ HB.count (HB.tree s') = HB.count (HB.tree s)
         ∧ HB.dlog s' = HB.log_del s k d)
  ∧ (∀ s xs k d v m fuel,
       strict_total (SL.cmp_func (SL.lst s)) → SL.SLInv s xs → SL.malloc_ok s m →
       (length xs < fuel)%nat → (k, d) ∈ SL.sl_entries xs →
       SL.skiplist_insert fuel k v false m s = Ok (1, s)
       ∧ ∃ s' xs' l r,
           SL.skiplist_insert fuel k v true m s = Ok (0, s') ∧ SL.SLInv s' xs'
           ∧ SL.sl_entries xs = l ++ (k, d) :: r
           ∧ SL.sl_entries xs' = l ++ (k, v) :: r
           ∧ SL.count (SL.lst s') = SL.count (SL.lst s)
           ∧ SL.dlog s' = SL.log_del s k d).
Proof.
  split.
  - intros s t k d v m fuel Hcmp HI Hm Hf Hin.
    assert (Hs : sorted (HB.cmp_func (HB.tree s)) (HB.entries t).*1)
      by by destruct HI as (_ & _ & ? & _).
    split.
    + destruct (HB.hb_insert_spec s t k v false m fuel Hcmp HI Hm Hf)
        as [[Hk _]|(l & d' & r & He & H)]; [|done].
      exfalso. apply Hk. apply list_elem_of_fmap. by exists (k, d).
    + destruct (HB.hb_insert_spec s t k v true m fuel Hcmp HI Hm Hf)
        as [[Hk _]|(l & d' & r & He & s' & t' & Hrun & HI' & He' & Hlog & _)].
      { exfalso. apply Hk. apply list_elem_of_fmap. by exists (k, d). }
      pose proof (hb_present_split _ Hcmp _ _ _ _ _ _ Hs Hin He) as ->.
      exists s', t', l, r. split_and!; try done.
      destruct HI as (_ & _ & _ & Hc). destruct HI' as (_ & _ & _ & Hc').
      rewrite Hc, Hc', He, He', !length_app. done.
  - intros s xs k d v m fuel Hcmp HI Hm Hf Hin.
    assert (Hs : sorted (SL.cmp_func (SL.lst s)) (SL.sl_entries xs).*1).
    { rewrite sl_entries_keys. by destruct HI as (? & _ & _ & _ & _ & _ & ? & _). }
    split.
    + destruct (SL.sl_insert_spec s xs k v false m fuel Hcmp HI Hm Hf)
        as [(Hk & _)|(lo & z & hi & -> & Hz & H)]; [|done].
      exfalso. apply Hk. rewrite <- sl_entries_keys.
      apply list_elem_of_fmap. by exists (k, d).
    + destruct (SL.sl_insert_spec s xs k v true m fuel Hcmp HI Hm Hf)
        as [(Hk & _)|(lo & z & hi & -> & Hz & s' & Hrun & HI' & Hlog & _)].
      { exfalso. apply Hk. rewrite <- sl_entries_keys.
        apply list_elem_of_fmap. by exists (k, d). }
      assert (He : SL.sl_entries (lo ++ z :: hi)
                   = SL.sl_entries lo ++ (k, SL.id z) :: SL.sl_entries hi).
      { unfold SL.sl_entries. by rewrite fmap_app, fmap_cons, Hz. }
      pose proof (hb_present_split _ Hcmp _ _ _ _ _ _ Hs Hin He) as Hd.
      exists s', (lo ++ SL.mk_item (SL.ia z) k v (SL.ilc z) :: hi),
        (SL.sl_entries lo), (SL.sl_entries hi).
      split_and!; try done.
      * by rewrite He, Hd.
      * unfold SL.sl_entries. by rewrite fmap_app, fmap_cons.
      * destruct HI as (? & _ & _ & _ & _ & _ & _ & Hc).
        destruct HI' as (? & _ & _ & _ & _ & _ & _ & Hc').
        rewrite Hc, Hc', !length_app. done.
      * by rewrite Hlog, Hz, Hd.
Qed.

Lemma X7_insert_present_key_witness :
  (HB.hb_tree_insert 10 2 21 false NULL hb_ex = Ok (1, hb_ex)
   ∧ ∃ s' t' l r,
       HB.hb_tree_insert 10 2 21 true NULL hb_ex = Ok (0, s') ∧ HB.Inv s' t'
       ∧ HB.entries hb_ex_tree = l ++ (2, 20) :: r ∧ HB.entries t' = l ++ (2, 21) :: r
       ∧ HB.count (HB.tree s') = HB.count (HB.tree hb_ex)
       ∧ HB.dlog s' = HB.log_del hb_ex 2 20)
  ∧ (SL.skiplist_insert 10 2 21 false NULL sl_ex = Ok (1, sl_ex)
     ∧ ∃ s' xs' l r,
         SL.skiplist_insert 10 2 21 true NULL sl_ex = Ok (0, s') ∧ SL.SLInv s' xs'
         ∧ SL.sl_entries sl_ex_items = l ++ (2, 20) :: r
         ∧ SL.sl_entries xs' = l ++ (2, 21) :: r
         ∧ SL.count (SL.lst s') = SL.count (SL.lst sl_ex)
         ∧ SL.dlog s' = SL.log_del sl_ex 2 20).
Proof.
  split.
  - apply (proj1 X7_insert_present_key hb_ex hb_ex_tree 2 20 21 NULL 10%nat
             zcmp_strict_total hb_ex_inv I); [vm_compute; lia|cbn; set_solver].
  - apply (proj2 X7_insert_present_key sl_ex sl_ex_items 2 20 21 NULL 10%nat
             zcmp_strict_total sl_ex_inv I); [vm_compute; lia|cbn; set_solver].
Defined.

(** X8.  Clear, for either engine on a well-formed container: the answer
    is the count before the call; the container is empty and well formed
    afterwards; the cleanup callback, if set, has been called once for every
    entry (for the tree, children before their parent, [HB.postorder], a
    rearrangement of the entries; for the skip list in key order); the
    block of every node is released and no other block is touched (for the
    skip list, but for the head node, which stays). *)
Theorem X8_clear :
  (∀ s t fuel,
     HB.Inv s t → (2 * HB.size t ≤ fuel)%nat →
     ∃ s', HB.hb_tree_clear fuel s = Ok (HB.count (HB.tree s), s')
       ∧ HB.Inv s' HB.E
       ∧ HB.dlog s' = HB.log_many s (HB.postorder t)
       ∧ HB.postorder t ≡ₚ HB.entries t
       ∧ (∀ x, x ∈ HB.addrs t → HB.mem s' !! x = None)
       ∧ (∀ x, x ∉ HB.addrs t → HB.mem s' !! x = HB.mem s !! x))
  ∧ (∀ s xs fuel,
       SL.SLInv s xs → (length xs ≤ fuel)%nat →
       ∃ s', SL.skiplist_clear fuel s = Ok (SL.count (SL.lst s), s')
         ∧ SL.SLInv s' []
         ∧ SL.dlog s' = SL.log_all s (SL.sl_entries xs)
         ∧ (∀ a, a ∈ SL.ia <$> xs → SL.mem s' !! a = None)
         ∧ (∀ a, a ∉ SL.ia <$> xs → Some a ≠ SL.head (SL.lst s) →
              SL.mem s' !! a = SL.mem s !! a)).
Proof.
  split.
  - intros s t fuel HI Hf.
    destruct (HB.hb_clear_spec s t fuel HI Hf) as (s' & ? & ? & _ & _ & ? & ? & ?).
    exists s'. split_and!; try done. apply HB.postorder_perm.
  - intros s xs fuel HI Hf.
    destruct (SL.sl_clear_spec s xs fuel HI Hf)
      as (s' & ? & ? & ? & _ & _ & _ & _ & ? & ?).
    by exists s'.
Qed.

Lemma X8_clear_witness :
  (∃ s', HB.hb_tree_clear 10 hb_ex = Ok (HB.count (HB.tree hb_ex), s')
     ∧ HB.Inv s' HB.E
     ∧ HB.dlog s' = HB.log_many hb_ex (HB.postorder hb_ex_tree)
     ∧ HB.postorder hb_ex_tree ≡ₚ HB.entries hb_ex_tree
     ∧ (∀ x, x ∈ HB.addrs hb_ex_tree → HB.mem s' !! x = None)
     ∧ (∀ x, x ∉ HB.addrs hb_ex_tree → HB.mem s' !! x = HB.mem hb_ex !! x))
  ∧ (∃ s', SL.skiplist_clear 10 sl_ex = Ok (SL.count (SL.lst sl_ex), s')
       ∧ SL.SLInv s' []
       ∧ SL.dlog s' = SL.log_all sl_ex (SL.sl_entries sl_ex_items)
       ∧ (∀ a, a ∈ SL.ia <$> sl_ex_items → SL.mem s' !! a = None)
       ∧ (∀ a, a ∉ SL.ia <$> sl_ex_items → Some a ≠ SL.head (SL.lst sl_ex) →
            SL.mem s' !! a = SL.mem sl_ex !! a)).
Proof.
  split.
  - apply (proj1 X8_clear hb_ex hb_ex_tree 10%nat hb_ex_inv). vm_compute. lia.
  - apply (proj2 X8_clear sl_ex sl_ex_items 10%nat sl_ex_inv). vm_compute. lia.
Defined.

(** X9.  Insert followed by remove of the same key, on a well-formed
    container that does not hold the key (strict total order, a block from
    the allocator, [max_link >= 2] for the skip list): insert answers 0,
    remove answers true, the container is well formed with exactly the
    entries it had before the insert (for the skip list, the very same
    nodes), and the only cleanup call is the one on the pair that was
    inserted. *)
Theorem X9_insert_then_remove :
  (∀ s t k v ow a fuel,
     strict_total (HB.cmp_func (HB.tree s)) → HB.Inv s t →
     HB.mem s !! a = None → (HB.size t < fuel)%nat → k ∉ HB.keys t →
     ∃ s1 s2 t2,
       HB.hb_tree_insert fuel k v ow (Some a) s = Ok (0, s1)
       ∧ HB.hb_tree_remove fuel k s1 = Ok (true, s2)
       ∧ HB.Inv s2 t2 ∧ HB.entries t2 = HB.entries t
       ∧ HB.dlog s2 = HB.log_del s k v)
  ∧ (∀ s xs k v ow a fuel,
       strict_total (SL.cmp_func (SL.lst s)) → SL.SLInv s xs →
       SL.mem s !! a = None → (S (length xs) < fuel)%nat →
       (2 ≤ SL.max_link (SL.lst s))%nat → k ∉ SL.ik <$> xs →
       ∃ s1 s2,
         SL.skiplist_insert fuel k v ow (Some a) s = Ok (0, s1)
         ∧ SL.skiplist_remove fuel k s1 = Ok (true, s2)
         ∧ SL.SLInv s2 xs
         ∧ SL.mem s2 !! a = None
         ∧ SL.dlog s2 = SL.log_del s k v).
Proof.
  split.
  - intros s t k v ow a fuel Hcmp HI Ha Hf Hk.
    destruct (HB.hb_insert_spec s t k v ow (Some a) fuel Hcmp HI Ha ltac:(lia))
      as [[_ H]|(l & d & r & He & _)].
    2:{ exfalso. apply Hk. unfold HB.keys. rewrite He, fmap_app, fmap_cons. set_solver. }
    destruct H as (s1 & t1 & l & r & Hrun & HI1 & He & He1 & Hlog & Hc1 & Hd1).
    assert (Hsz : HB.size t1 = S (HB.size t)).
    { rewrite <- !HB.length_entries, He, He1, !length_app. cbn. lia. }
    assert (Hcmp1 : strict_total (HB.cmp_func (HB.tree s1))) by by rewrite Hc1.
    destruct (HB.hb_remove_spec s1 t1 k fuel Hcmp1 HI1 ltac:(lia))
      as [[Hk1 _]|(l' & d' & r' & s2 & t2 & He1' & Hrun2 & HI2 & He2 & Hlog2 & _)].
    { exfalso. apply Hk1. unfold HB.keys. rewrite He1, fmap_app, fmap_cons. set_solver. }
    assert (Hnd : NoDup (fst <$> l ++ (k, v) :: r)).
    { rewrite <- He1. destruct HI1 as (_ & _ & Hs & _). by apply (sorted_NoDup _ Hcmp1). }
    rewrite He1 in He1'.
    destruct (NoDup_split_eq fst l r l' r' (k, v) (k, d') Hnd He1' eq_refl)
      as (<- & [= <-] & <-).
    exists s1, s2, t2. split_and!; try done; [congruence|].
    rewrite Hlog2. unfold HB.log_del. by rewrite Hd1, Hlog.
  - intros s xs k v ow a fuel Hcmp HI Ha Hf Hml Hk.
    destruct (SL.sl_insert_spec s xs k v ow (Some a) fuel Hcmp HI Ha ltac:(lia))
      as [(_ & _ & H)|(lo & z & hi & -> & Hz & _)].
    2:{ exfalso. apply Hk. rewrite fmap_app, fmap_cons, Hz. set_solver. }
    destruct (H Hml) as (s1 & lo & hi & -> & Hrun & HI1 & Hlog & Hc1 & Hd1 & _).
    assert (Hcmp1 : strict_total (SL.cmp_func (SL.lst s1))) by by rewrite Hc1.
    destruct (SL.sl_remove_full s1 _ k fuel Hcmp1 HI1)
      as [[Hk1 _]|(lo' & z' & hi' & s2 & He & Hz' & Hrun2 & HI2 & Hlog2 & _ & _ & _ & _
                   & Hfree & _)].
    { rewrite !length_app in *. cbn in *. lia. }
    { exfalso. apply Hk1. rewrite fmap_app, fmap_cons. set_solver. }
    assert (Hnd : NoDup (SL.ik <$> lo ++ SL.mk_item a k v (SL.next_level s) :: hi)).
    { destruct HI1 as (? & _ & _ & _ & _ & _ & Hs & _). by apply (sorted_NoDup _ Hcmp1). }
    destruct (NoDup_split_eq SL.ik lo hi lo' hi' _ z' Hnd He (eq_sym Hz'))
      as (<- & <- & <-).
    exists s1, s2. split_and!; try done.
    rewrite Hlog2. unfold SL.log_del. by rewrite Hd1, Hlog.
Qed.

Lemma X9_insert_then_remove_witness :
  (∃ s1 s2 t2,
     HB.hb_tree_insert 10 4 40 false (Some 4%positive) hb_ex = Ok (0, s1)
     ∧ HB.hb_tree_remove 10 4 s1 = Ok (true, s2)
     ∧ HB.Inv s2 t2 ∧ HB.entries t2 = HB.entries hb_ex_tree
     ∧ HB.dlog s2 = HB.log_del hb_ex 4 40)
  ∧ (∃ s1 s2,
       SL.skiplist_insert 10 4 40 false (Some 5%positive) sl_ex = Ok (0, s1)
       ∧ SL.skiplist_remove 10 4 s1 = Ok (true, s2)
       ∧ SL.SLInv s2 sl_ex_items
       ∧ SL.mem s2 !! 5%positive = None
       ∧ SL.dlog s2 = SL.log_del sl_ex 4 40).
Proof.
  split.
  - apply (proj1 X9_insert_then_remove hb_ex hb_ex_tree 4 40 false 4%positive 10%nat
             zcmp_strict_total hb_ex_inv);
      [reflexivity|vm_compute; lia|vm_compute; set_solver].
  - apply (proj2 X9_insert_then_remove sl_ex sl_ex_items 4 40 false 5%positive 10%nat
             zcmp_strict_total sl_ex_inv);
      [reflexivity|vm_compute; lia|vm_compute; lia|vm_compute; set_solver].
Defined.
(** ** The tree: extremes, shape, iterators, release *)

(** X10.  [hb_tree_min] and [hb_tree_max] on a well-formed tree with a
    strict total order return the first and the last key of the entries in
    key order, and NULL on an empty tree; the state is unchanged.  The key
    returned by [hb_tree_min] is a key of the tree that compares below every
    other key, the one returned by [hb_tree_max] compares above every other
    key. *)
Theorem X10_min_max (s : HB.state) (t : HB.atree) (fuel : nat) :
  strict_total (HB.cmp_func (HB.tree s)) → HB.Inv s t → (HB.size t ≤ fuel)%nat →
  HB.hb_tree_min fuel s = Ok (HB.first_key (HB.entries t), s)
  ∧ HB.hb_tree_max fuel s = Ok (HB.last_key (HB.entries t), s)
  ∧ (HB.entries t = [] →
     HB.first_key (HB.entries t) = NULLZ ∧ HB.last_key (HB.entries t) = NULLZ)
  ∧ (HB.entries t ≠ [] →
     HB.first_key (HB.entries t) ∈ HB.keys t
     ∧ HB.last_key (HB.entries t) ∈ HB.keys t)
  ∧ (∀ k, k ∈ HB.keys t →
       (k = HB.first_key (HB.entries t)
        ∨ HB.cmp_func (HB.tree s) (HB.first_key (HB.entries t)) k < 0)
       ∧ (k = HB.last_key (HB.entries t)
          ∨ HB.cmp_func (HB.tree s) k (HB.last_key (HB.entries t)) < 0)).
Proof.
  intros Hcmp (HR & _ & Hb & _) Hf. split_and!.
  - by apply HB.hb_min_spec.
  - by apply HB.hb_max_spec.
  - by intros ->.
  - intros Hne. split; [by apply HB.first_key_elem|by apply HB.last_key_elem].
  - intros k Hk. split.
    + by apply (HB.first_key_least _ Hcmp).
    + by apply (HB.last_key_greatest _ Hcmp).
Qed.

Lemma X10_min_max_witness :
  HB.hb_tree_min 10 hb_ex = Ok (1, hb_ex) ∧ HB.hb_tree_max 10 hb_ex = Ok (3, hb_ex).
Proof.
  destruct (X10_min_max hb_ex hb_ex_tree 10 zcmp_strict_total hb_ex_inv
              ltac:(vm_compute; lia)) as (H1 & H2 & _).
  split; [exact H1|exact H2].
Defined.

(** X11.  The shape queries on a well-formed tree with fewer than [2^64]
    nodes: [hb_tree_height] returns the number of edges on the longest path
    from the root down ([HB.height] counts nodes), [hb_tree_mheight] the
    number of edges on the shortest path from the root to a node with a
    missing child, both 0 on an empty tree, and [hb_tree_pathlen] the sum of
    the depths of all nodes (root at depth 0), provided that sum plus the
    number of nodes is below [2^64].  Because the tree is height balanced,
    the longest path has at most twice the nodes of the shortest, and the
    tree has at least [2^mheight - 1] nodes: the height is logarithmic in
    the count. *)
Theorem X11_shape (s : HB.state) (t : HB.atree) (fuel : nat) :
  HB.Inv s t → (HB.size t ≤ fuel)%nat → Z.of_nat (HB.size t) < 2 ^ 64 →
  HB.hb_tree_height fuel s = Ok (Z.max 0 (HB.height t - 1), s)
  ∧ HB.hb_tree_mheight fuel s = Ok (Z.max 0 (HB.mheight t - 1), s)
  ∧ (HB.depth_sum t 1 < 2 ^ 64 →
     HB.hb_tree_pathlen fuel s = Ok (HB.depth_sum t 0, s))
  ∧ 0 ≤ HB.mheight t ≤ HB.height t
  ∧ HB.height t ≤ 2 * HB.mheight t
  ∧ 2 ^ HB.mheight t ≤ HB.count (HB.tree s) + 1.
Proof.
  intros (HR & Hbal & _ & Hc) Hf Hsz.
  destruct (HB.hb_height_spec s t fuel HR Hf Hsz) as [H1 H2].
  split_and!; try done.
  - intros Hd. by apply HB.hb_pathlen_spec.
  - apply HB.mheight_nonneg.
  - apply HB.mheight_le_height.
  - by apply HB.balanced_height_mheight.
  - rewrite Hc, HB.length_entries, HB.wrap_size_small by lia. apply HB.mheight_size.
Qed.

Lemma X11_shape_witness :
  HB.hb_tree_height 10 hb_ex = Ok (1, hb_ex)
  ∧ HB.hb_tree_mheight 10 hb_ex = Ok (1, hb_ex)
  ∧ HB.hb_tree_pathlen 10 hb_ex = Ok (2, hb_ex).
Proof.
  destruct (X11_shape hb_ex hb_ex_tree 10 hb_ex_inv ltac:(vm_compute; lia)
              ltac:(vm_compute; reflexivity)) as (H1 & H2 & H3 & _).
  split_and!; [exact H1|exact H2|]. apply H3. vm_compute. reflexivity.
Defined.

(** X12.  The tree's iterator, by position (position [i] is the node of the
    [i]-th entry in key order; [HB.at_pos t i] is [(true, that node)], or
    [(false, NULL)] past the end): on a well-formed tree [hb_itor_first]
    goes to position 0 and [hb_itor_last] to the last position; [hb_itor_next]
    and [hb_itor_prev] on an invalid iterator do the same; from position [i],
    [hb_itor_next] goes to position [i + 1], [hb_itor_prev] to position
    [i - 1] and to invalid from position 0, [hb_itor_key] and [hb_itor_data]
    read the [i]-th entry, and [hb_itor_prevn] with count [n] goes to
    position [i - n], or to invalid with answer false when [n > i].  None of
    them changes the state. *)
Theorem X12_tree_iteration (s : HB.state) (t : HB.atree) (fuel : nat) (itor : ptr) :
  HB.Inv s t → (HB.size t ≤ fuel)%nat →
  HB.hb_itor_first fuel itor s = Ok (HB.at_pos t 0, s)
  ∧ HB.hb_itor_last fuel itor s = Ok (HB.at_pos t (HB.size t - 1), s)
  ∧ HB.hb_itor_next fuel NULL s = Ok (HB.at_pos t 0, s)
  ∧ HB.hb_itor_prev fuel NULL s = Ok (HB.at_pos t (HB.size t - 1), s)
  ∧ ∀ i a, HB.addrs t !! i = Some a →
      HB.hb_itor_next fuel (Some a) s = Ok (HB.at_pos t (S i), s)
      ∧ HB.hb_itor_prev fuel (Some a) s
        = Ok (match i with O => (false, NULL) | S j => HB.at_pos t j end, s)
      ∧ (∃ k d, HB.entries t !! i = Some (k, d)
                ∧ HB.hb_itor_key (Some a) s = Ok (k, s)
                ∧ HB.hb_itor_data (Some a) s = Ok (d, s))
      ∧ ∀ n, HB.hb_itor_prevn fuel (Some a) n s
             = Ok (if (n <=? i)%nat then HB.at_pos t (i - n) else (false, NULL), s).
Proof.
  intros (HR & _) Hf. split_and!.
  - by apply HB.hb_itor_first_spec.
  - by apply HB.hb_itor_last_spec.
  - by apply (HB.hb_itor_first_spec s t fuel NULL).
  - by apply (HB.hb_itor_last_spec s t fuel NULL).
  - intros i a Hi. split_and!.
    + by eapply HB.hb_itor_next_spec.
    + by eapply HB.hb_itor_prev_spec.
    + by eapply HB.hb_itor_read_spec.
    + intros n. by apply HB.hb_itor_prevn_spec.
Qed.

Lemma X12_tree_iteration_witness :
  HB.hb_itor_first 10 NULL hb_ex = Ok ((true, Some 2%positive), hb_ex)
  ∧ HB.hb_itor_next 10 (Some 2%positive) hb_ex = Ok ((true, Some 1%positive), hb_ex)
  ∧ HB.hb_itor_prev 10 (Some 2%positive) hb_ex = Ok ((false, NULL), hb_ex)
  ∧ HB.hb_itor_prevn 10 (Some 3%positive) 2 hb_ex = Ok ((true, Some 2%positive), hb_ex).
Proof.
  destruct (X12_tree_iteration hb_ex hb_ex_tree 10 NULL hb_ex_inv ltac:(vm_compute; lia))
    as (H1 & _ & _ & _ & H).
  split_and!.
  - exact H1.
  - exact (proj1 (H 0%nat 2%positive eq_refl)).
  - exact (proj1 (proj2 (H 0%nat 2%positive eq_refl))).
  - exact (proj2 (proj2 (proj2 (H 2%nat 3%positive eq_refl))) 2%nat).
Defined.

(** X13.  [hb_itor_search] and [hb_itor_set_data] on a well-formed tree with
    a strict total order.  Search for a key that is not stored answers false
    and invalidates the iterator.  Search for a stored key answers true with
    the iterator on the node of that key; [hb_itor_set_data] there answers
    true, hands back the old datum when asked for it, and replaces the datum
    of that entry and nothing else: the tree stays well formed, the other
    entries and the nodes are the same, no cleanup call is made for the old
    datum, and a search for the key then returns the new datum.  On an
    invalid iterator [hb_itor_set_data] answers false and changes
    nothing. *)
Theorem X13_tree_itor_search_set (s : HB.state) (t : HB.atree) (k : Z) (fuel : nat)
    (itor : ptr) :
  strict_total (HB.cmp_func (HB.tree s)) → HB.Inv s t → (HB.size t ≤ fuel)%nat →
  (k ∉ HB.keys t → HB.hb_itor_search fuel itor k s = Ok ((false, NULL), s))
  ∧ (∀ d, (k, d) ∈ HB.entries t →
       ∃ i a,
         HB.addrs t !! i = Some a ∧ HB.entries t !! i = Some (k, d)
         ∧ HB.hb_itor_search fuel itor k s = Ok ((true, Some a), s)
         ∧ ∀ v old, ∃ s' t',
             HB.hb_itor_set_data (Some a) v old s
             = Ok ((true, match old with None => None | Some _ => Some d end), s')
             ∧ HB.Inv s' t'
             ∧ HB.entries t' = <[i := (k, v)]> (HB.entries t)
             ∧ HB.addrs t' = HB.addrs t
             ∧ HB.dlog s' = HB.dlog s
             ∧ HB.hb_tree_search fuel k s' = Ok (v, s'))
  ∧ (∀ v old, HB.hb_itor_set_data NULL v old s = Ok ((false, old), s)).
Proof.
  intros Hcmp HI Hf.
  assert (Hs : sorted (HB.cmp_func (HB.tree s)) (HB.entries t).*1)
    by by destruct HI as (_ & _ & ? & _).
  destruct (HB.hb_itor_search_spec s t k fuel itor Hcmp HI Hf)
    as [[Hk H]|(i & a & d' & Ha & He & H)]; split_and!; try done.
  - intros d Hin. exfalso. apply Hk. apply list_elem_of_fmap. by exists (k, d).
  - intros Hk. exfalso. apply Hk. apply list_elem_of_fmap. exists (k, d').
    split; [done|]. by eapply list_elem_of_lookup_2.
  - intros d Hin.
    assert (d' = d) as ->.
    { apply (NoDup_fst_inj (HB.entries t) k); [by apply (sorted_NoDup _ Hcmp)| |done].
      by eapply list_elem_of_lookup_2. }
    exists i, a. split_and!; try done.
    intros v old.
    destruct (HB.hb_itor_set_data_spec s t i a v old HI Ha)
      as (k0 & d0 & s' & t' & He0 & Hrun & HI' & He' & Ha' & Hm).
    rewrite He in He0. injection He0 as <- <-.
    destruct Hm as (Hc & Hcm & Hdl & Hlg).
    exists s', t'. split_and!; try done.
    apply (HB.hb_search_present s' t' k v fuel); [by rewrite Hcm|done| |].
    + rewrite He'. eapply list_elem_of_lookup_2. apply list_lookup_insert_eq.
      by eapply lookup_lt_Some.
    + rewrite <- HB.length_entries, He', length_insert, HB.length_entries. done.
Qed.

Lemma X13_tree_itor_search_set_witness :
  ∃ i a,
    HB.addrs hb_ex_tree !! i = Some a ∧ HB.entries hb_ex_tree !! i = Some (3, NULLZ)
    ∧ HB.hb_itor_search 10 NULL 3 hb_ex = Ok ((true, Some a), hb_ex)
    ∧ ∀ v old, ∃ s' t',
        HB.hb_itor_set_data (Some a) v old hb_ex
        = Ok ((true, match old with None => None | Some _ => Some NULLZ end), s')
        ∧ HB.Inv s' t'
        ∧ HB.entries t' = <[i := (3, v)]> (HB.entries hb_ex_tree)
        ∧ HB.addrs t' = HB.addrs hb_ex_tree
        ∧ HB.dlog s' = HB.dlog hb_ex
        ∧ HB.hb_tree_search 10 3 s' = Ok (v, s').
Proof.
  apply (proj1 (proj2 (X13_tree_itor_search_set hb_ex hb_ex_tree 3 10 NULL
                         zcmp_strict_total hb_ex_inv ltac:(vm_compute; lia)))).
  cbn. set_solver.
Defined.

(** X14.  [hb_tree_free] on a well-formed tree.  When the tree is empty the
    function returns 0 before it reaches [FREE(tree)]: the tree object is
    not released.  When the tree is not empty it returns the count, has
    called the cleanup callback (if set) once for every entry, has released
    the block of every node and no other, and has released the tree
    object. *)
Theorem X14_tree_free (s : HB.state) (t : HB.atree) (fuel : nat) :
  HB.Inv s t → (2 * HB.size t ≤ fuel)%nat →
  (t = HB.E → HB.hb_tree_free fuel s = Ok ((0, false), s))
  ∧ (t ≠ HB.E →
     ∃ s', HB.hb_tree_free fuel s = Ok ((HB.count (HB.tree s), true), s')
       ∧ HB.dlog s' = HB.log_many s (HB.postorder t)
       ∧ HB.postorder t ≡ₚ HB.entries t
       ∧ (∀ x, x ∈ HB.addrs t → HB.mem s' !! x = None)
       ∧ (∀ x, x ∉ HB.addrs t → HB.mem s' !! x = HB.mem s !! x)).
Proof.
  intros HI Hf. pose proof (HB.hb_free_spec s t fuel HI Hf) as H.
  destruct t as [|l a k d b r]; split; try done.
  intros _. destruct H as (s' & ? & _ & ? & ? & ?). exists s'.
  split_and!; try done. apply HB.postorder_perm.
Qed.

Lemma X14_tree_free_witness :
  HB.hb_tree_free 10 (HB.hb_tree_new zcmp true)
  = Ok ((0, false), HB.hb_tree_new zcmp true)
  ∧ ∃ s', HB.hb_tree_free 10 hb_ex = Ok ((HB.count (HB.tree hb_ex), true), s')
      ∧ HB.dlog s' = HB.log_many hb_ex (HB.postorder hb_ex_tree)
      ∧ HB.postorder hb_ex_tree ≡ₚ HB.entries hb_ex_tree
      ∧ (∀ x, x ∈ HB.addrs hb_ex_tree → HB.mem s' !! x = None)
      ∧ (∀ x, x ∉ HB.addrs hb_ex_tree → HB.mem s' !! x = HB.mem hb_ex !! x).
Proof.
  split.
  - apply (proj1 (X14_tree_free (HB.hb_tree_new zcmp true) HB.E 10
                    (HB.Inv_empty (HB.hb_tree_new zcmp true) eq_refl eq_refl) ltac:(vm_compute; lia))).
    reflexivity.
  - apply (proj2 (X14_tree_free hb_ex hb_ex_tree 10 hb_ex_inv ltac:(vm_compute; lia))).
    discriminate.
Defined.
(** ** The skip list: iterators, self-check, release *)

(** A skip list of at most two levels with the entries (1,10), (2,20): both
    nodes have one level. *)
Definition sl_pair : SL.state :=
  state_after (SL.skiplist_insert 10 1 10 false (Some 2%positive);;
               SL.skiplist_insert 10 2 20 false (Some 3%positive)) sl_two0.

Definition sl_pair_items : list SL.item :=
  [SL.mk_item 2 1 10 1; SL.mk_item 3 2 20 1].

Lemma sl_pair_inv : SL.SLInv sl_pair sl_pair_items.
Proof.
  exists 1%positive. split_and!.
  - reflexivity.
  - cbn [SL.RN sl_pair_items]. split_and!; try done; sl_node_ok.
  - cbn. repeat constructor; set_solver.
  - repeat constructor; vm_compute; lia.
  - vm_compute; lia.
  - vm_compute. lia.
  - cbn. repeat constructor.
  - reflexivity.
Qed.

(** X15.  The skip list's iterator going forward, by position (position
    [i] is the node of the [i]-th entry in key order; [SL.sl_at xs i] is
    [(true, that node)], or [(false, NULL)] past the end): on a well-formed
    list [skiplist_itor_first] goes to position 0, and so does
    [skiplist_itor_next] on an iterator whose node is NULL; from position
    [i], [skiplist_itor_next] goes to position [i + 1], [skiplist_itor_nextn]
    with count [n] to position [i + n] (invalid, with answer false, past the
    end), [skiplist_itor_valid] answers true, and [skiplist_itor_key] and
    [skiplist_itor_data] read the [i]-th entry.  None of them changes the
    state. *)
Theorem X15_list_iteration (s : SL.state) (xs : list SL.item) (itor : ptr) :
  SL.SLInv s xs →
  SL.skiplist_itor_first itor s = Ok (SL.sl_at xs 0, s)
  ∧ SL.skiplist_itor_next NULL s = Ok (SL.sl_at xs 0, s)
  ∧ ∀ i x, xs !! i = Some x →
      SL.skiplist_itor_next (Some (SL.ia x)) s = Ok (SL.sl_at xs (S i), s)
      ∧ SL.skiplist_itor_valid (Some (SL.ia x)) s = Ok (true, s)
      ∧ SL.skiplist_itor_key (Some (SL.ia x)) s = Ok (SL.ik x, s)
      ∧ SL.skiplist_itor_data (Some (SL.ia x)) s = Ok (SL.id x, s)
      ∧ ∀ n, SL.skiplist_itor_nextn (Some (SL.ia x)) n s = Ok (SL.sl_at xs (i + n), s).
Proof.
  intros HI. split_and!.
  - by apply SL.sl_itor_first_spec.
  - by apply (SL.sl_itor_first_spec s xs NULL).
  - intros i x Hi.
    destruct (SL.sl_itor_read_spec s xs i x HI Hi) as [Hk Hd].
    split_and!; try done.
    + by apply SL.sl_itor_next_spec.
    + pose proof (SL.sl_lookup_split xs i x Hi) as Hxs.
      destruct (SL.sl_item_node s xs _ x _ HI Hxs) as (_ & _ & _ & _ & _ & _ & Hne).
      by apply SL.sl_valid_item.
    + intros n. by apply SL.sl_itor_nextn_spec.
Qed.

Lemma X15_list_iteration_witness :
  SL.skiplist_itor_first NULL sl_ex = Ok ((true, Some 3%positive), sl_ex)
  ∧ SL.skiplist_itor_next (Some 3%positive) sl_ex = Ok ((true, Some 2%positive), sl_ex)
  ∧ SL.skiplist_itor_key (Some 2%positive) sl_ex = Ok (2, sl_ex)
  ∧ SL.skiplist_itor_nextn (Some 3%positive) 3 sl_ex = Ok ((false, NULL), sl_ex).
Proof.
  destruct (X15_list_iteration sl_ex sl_ex_items NULL sl_ex_inv) as (H1 & _ & H).
  split_and!.
  - exact H1.
  - exact (proj1 (H 0%nat (SL.mk_item 3 1 10 3) eq_refl)).
  - exact (proj1 (proj2 (proj2 (H 1%nat (SL.mk_item 2 2 20 3) eq_refl)))).
  - exact (proj2 (proj2 (proj2 (proj2 (H 0%nat (SL.mk_item 3 1 10 3) eq_refl)))) 3%nat).
Defined.

(** X16.  [skiplist_itor_last] on a well-formed list starts its descent at
    level [top_link - 1]: when [top_link] is not 0 it goes to the last
    position (and answers false with a NULL node on an empty list); when
    [top_link] is 0 it walks no level at all and answers false with a NULL
    node, whatever the list holds. *)
Theorem X16_list_itor_last (s : SL.state) (xs : list SL.item) (fuel : nat) (itor : ptr) :
  SL.SLInv s xs → (length xs < fuel)%nat →
  (SL.top_link (SL.lst s) ≠ 0%nat →
   SL.skiplist_itor_last fuel itor s = Ok (SL.sl_at xs (length xs - 1), s))
  ∧ (SL.top_link (SL.lst s) = 0%nat →
     SL.skiplist_itor_last fuel itor s = Ok ((false, NULL), s)).
Proof.
  intros HI Hf. rewrite (SL.sl_itor_last_spec s xs fuel itor HI Hf).
  split; intros Ht; destruct (SL.top_link (SL.lst s)); done.
Qed.

Lemma X16_list_itor_last_witness :
  SL.skiplist_itor_last 10 NULL sl_ex = Ok ((true, Some 4%positive), sl_ex).
Proof.
  apply (proj1 (X16_list_itor_last sl_ex sl_ex_items 10 NULL sl_ex_inv
                  ltac:(vm_compute; lia))).
  vm_compute. discriminate.
Defined.

(** X17.  After [skiplist_remove] has taken an entry out of a well-formed
    list and only nodes with one level are left (at least one), [top_link]
    is 0, so [skiplist_itor_last] answers false with a NULL node although
    the list is not empty, while [skiplist_itor_first] finds the first
    entry.  ([skiplist_itor_prev] on an iterator whose node is NULL calls
    [skiplist_itor_last], so stepping back onto the end of such a list
    fails as well.) *)
Theorem X17_last_fails_after_remove (s : SL.state) (lo hi : list SL.item) (z : SL.item)
    (fuel : nat) (itor : ptr) :
  strict_total (SL.cmp_func (SL.lst s)) → SL.SLInv s (lo ++ z :: hi) →
  Forall (λ x, SL.ilc x = 1%nat) (lo ++ hi) → lo ++ hi ≠ [] →
  (length (lo ++ z :: hi) < fuel)%nat →
  ∃ s',
    SL.skiplist_remove fuel (SL.ik z) s = Ok (true, s')
    ∧ SL.SLInv s' (lo ++ hi)
    ∧ SL.skiplist_itor_last fuel itor s' = Ok ((false, NULL), s')
    ∧ SL.skiplist_itor_prev fuel NULL s' = Ok ((false, NULL), s')
    ∧ ∃ x, head (lo ++ hi) = Some x
           ∧ SL.skiplist_itor_first itor s' = Ok ((true, Some (SL.ia x)), s').
Proof.
  intros Hcmp HI H1 Hne Hf.
  assert (Hnd : NoDup (SL.ik <$> lo ++ z :: hi)).
  { destruct HI as (? & _ & _ & _ & _ & _ & Hs & _). by apply (sorted_NoDup _ Hcmp). }
  destruct (SL.sl_remove_full s _ (SL.ik z) fuel Hcmp HI Hf)
    as [[Hk _]|(lo' & z' & hi' & s' & He & Hz & Hrun & HI' & _ & _ & _ & _ & Ht & _)].
  { exfalso. apply Hk. rewrite fmap_app, fmap_cons. set_solver. }
  destruct (NoDup_split_eq SL.ik lo hi lo' hi' z z' Hnd He (eq_sym Hz)) as (<- & <- & <-).
  assert (Ht0 : SL.top_link (SL.lst s') = 0%nat).
  { destruct Ht as [?|Ht]; [done|]. destruct (SL.top_link (SL.lst s')) as [|k]; [done|].
    exfalso. apply Ht. apply SL.nxtd_none.
    eapply Forall_impl; [exact H1|]. cbn. lia. }
  assert (Hf' : (length (lo ++ hi) < fuel)%nat).
  { rewrite !length_app in *. cbn in Hf. lia. }
  assert (Hl : ∀ it, SL.skiplist_itor_last fuel it s' = Ok ((false, NULL), s')).
  { intros it. rewrite (SL.sl_itor_last_spec s' _ fuel it HI' Hf'). by rewrite Ht0. }
  exists s'. split_and!; try done.
  - apply (Hl NULL).
  - destruct (lo ++ hi) as [|x q] eqn:E; [done|]. exists x. split; [done|].
    by rewrite (SL.sl_itor_first_spec s' _ itor HI').
Qed.

Lemma X17_last_fails_after_remove_witness :
  ∃ s',
    SL.skiplist_remove 10 1 sl_pair = Ok (true, s')
    ∧ SL.SLInv s' [SL.mk_item 3 2 20 1]
    ∧ SL.skiplist_itor_last 10 NULL s' = Ok ((false, NULL), s')
    ∧ SL.skiplist_itor_prev 10 NULL s' = Ok ((false, NULL), s')
    ∧ ∃ x, head [SL.mk_item 3 2 20 1] = Some x
           ∧ SL.skiplist_itor_first NULL s' = Ok ((true, Some (SL.ia x)), s').
Proof.
  apply (X17_last_fails_after_remove sl_pair [] [SL.mk_item 3 2 20 1]
           (SL.mk_item 2 1 10 1) 10 NULL zcmp_strict_total sl_pair_inv).
  - repeat constructor.
  - discriminate.
  - vm_compute. lia.
Defined.

(** X18.  Going backward on a skip list that was never removed from.
    After every sequence of insert, probe and clear operations run from a
    new list ([max_link >= 2], strict total order), the run returns and the
    [prev] pointers are in order: [skiplist_itor_last] goes to the last
    position; from position [i], [skiplist_itor_prev] goes to position
    [i - 1], [skiplist_itor_prevn] with count [n <= i] to position [i - n];
    stepping back from position 0 (or by more than [i]) leaves the iterator
    on the head node with answer false. *)
Theorem X18_backward_iteration (cmp : Z → Z → Z) (del : bool) (ml : nat)
    (a : positive) (seed : Z) (s0 : SL.state) (os : list SL.op) (itor : ptr) :
  strict_total cmp → (2 ≤ ml)%nat →
  SL.skiplist_new cmp del ml (Some a) seed = Ok (Some s0) →
  SL.allocs_ok os s0 → forallb SL.keeps os = true →
  ∃ s xs,
    SL.run os s0 = Ok s ∧ SL.SLInv s xs
    ∧ SL.skiplist_itor_last (SL.fuel_of s) itor s = Ok (SL.sl_at xs (length xs - 1), s)
    ∧ ∀ i x, xs !! i = Some x →
        SL.skiplist_itor_prev (SL.fuel_of s) (Some (SL.ia x)) s
        = Ok (match i with
              | O => (false, SL.head (SL.lst s))
              | S j => SL.sl_at xs j
              end, s)
        ∧ ∀ n, SL.skiplist_itor_prevn (SL.fuel_of s) (Some (SL.ia x)) n s
               = Ok (if (n <=? i)%nat then SL.sl_at xs (i - n)
                     else (false, SL.head (SL.lst s)), s).
Proof.
  intros Hcmp Hml Hnew Ha Hk.
  destruct (SL.sl_new_spec cmp del ml a seed) as (s0' & Hnew' & HI & Hc & _ & Hm & _); [lia|].
  rewrite Hnew in Hnew'. injection Hnew' as <-.
  destruct (SL.sl_run_grow os s0 []) as (s & xs & Hrun & (HI' & HP & Hv) & _);
    [by rewrite Hc|by apply SL.Strong_new|done|rewrite Hm; unfold SL.MAX_LINK; lia|done|].
  exists s, xs. split_and!; try done.
  - assert (Hf : (length xs < SL.fuel_of s)%nat).
    { pose proof (SL.sl_size_heap s xs HI'). unfold SL.fuel_of. lia. }
    rewrite (SL.sl_itor_last_spec s xs _ itor HI' Hf).
    destruct (SL.top_link (SL.lst s)) eqn:Ht; [|done].
    destruct xs as [|x q]; [done|]. exfalso.
    apply Forall_cons in Hv as [Hx _].
    destruct HI' as (? & _ & _ & _ & Hlc & _). apply Forall_cons in Hlc as [Hx' _]. lia.
  - intros i x Hi. split.
    + by apply SL.sl_itor_prev_spec.
    + intros n. by apply SL.sl_itor_prevn_spec.
Qed.

Definition sl_ex_ops : list SL.op :=
  [SL.OpInsert 2 20 false (Some 2%positive);
   SL.OpInsert 1 10 false (Some 3%positive);
   SL.OpProbe 3 NULLZ (Some 4%positive)].

Lemma X18_backward_iteration_witness :
  ∃ s xs,
    SL.run sl_ex_ops sl_ex0 = Ok s ∧ SL.SLInv s xs
    ∧ SL.skiplist_itor_last (SL.fuel_of s) NULL s = Ok (SL.sl_at xs (length xs - 1), s)
    ∧ ∀ i x, xs !! i = Some x →
        SL.skiplist_itor_prev (SL.fuel_of s) (Some (SL.ia x)) s
        = Ok (match i with
              | O => (false, SL.head (SL.lst s))
              | S j => SL.sl_at xs j
              end, s)
        ∧ ∀ n, SL.skiplist_itor_prevn (SL.fuel_of s) (Some (SL.ia x)) n s
               = Ok (if (n <=? i)%nat then SL.sl_at xs (i - n)
                     else (false, SL.head (SL.lst s)), s).
Proof.
  apply (X18_backward_iteration zcmp true 4 1%positive 12345 sl_ex0 sl_ex_ops NULL
           zcmp_strict_total); [lia|reflexivity| |reflexivity].
  vm_compute. repeat split.
Defined.

(** X19.  [skiplist_verify] accepts every list that was never removed
    from: after every sequence of insert, probe and clear operations run
    from a new list ([max_link >= 2], strict total order), the run returns
    and [skiplist_verify] returns without a failed assertion and without
    changing the state. *)
Theorem X19_verify_accepts (cmp : Z → Z → Z) (del : bool) (ml : nat)
    (a : positive) (seed : Z) (s0 : SL.state) (os : list SL.op) :
  strict_total cmp → (2 ≤ ml)%nat →
  SL.skiplist_new cmp del ml (Some a) seed = Ok (Some s0) →
  SL.allocs_ok os s0 → forallb SL.keeps os = true →
  ∃ s, SL.run os s0 = Ok s ∧ SL.skiplist_verify (SL.fuel_of s) s = Ok (tt, s).
Proof.
  intros Hcmp Hml Hnew Ha Hk.
  destruct (SL.sl_new_spec cmp del ml a seed) as (s0' & Hnew' & HI & Hc & _ & Hm & _); [lia|].
  rewrite Hnew in Hnew'. injection Hnew' as <-.
  destruct (SL.sl_run_grow os s0 []) as (s & xs & Hrun & (HI' & HP & Hv) & _);
    [by rewrite Hc|by apply SL.Strong_new|done|rewrite Hm; unfold SL.MAX_LINK; lia|done|].
  exists s. split; [done|].
  apply (SL.sl_verify_spec s xs); [done|done|].
  pose proof (SL.sl_size_heap s xs HI'). unfold SL.fuel_of. lia.
Qed.

Lemma X19_verify_accepts_witness :
  ∃ s, SL.run sl_ex_ops sl_ex0 = Ok s ∧ SL.skiplist_verify (SL.fuel_of s) s = Ok (tt, s).
Proof.
  apply (X19_verify_accepts zcmp true 4 1%positive 12345 sl_ex0 sl_ex_ops
           zcmp_strict_total); [lia|reflexivity| |reflexivity].
  vm_compute. repeat split.
Defined.

(** X20.  [skiplist_itor_search] and [skiplist_itor_set_data] on a
    well-formed list with a strict total order.  Search for a key that is
    not stored answers false with a NULL node.  Search for a stored key
    answers true with the iterator on the node of that key;
    [skiplist_itor_set_data] there answers true, hands back the old datum
    when asked for it, and replaces the datum of that entry and nothing
    else: the list stays well formed with the same nodes, no cleanup call is
    made for the old datum, and a search for the key then returns the new
    datum.  On an iterator whose node is NULL, [skiplist_itor_set_data]
    answers false and changes nothing. *)
Theorem X20_list_itor_search_set (s : SL.state) (xs : list SL.item) (k : Z)
    (fuel : nat) (itor : ptr) :
  strict_total (SL.cmp_func (SL.lst s)) → SL.SLInv s xs → (length xs < fuel)%nat →
  (k ∉ SL.ik <$> xs → SL.skiplist_itor_search fuel itor k s = Ok ((false, NULL), s))
  ∧ (∀ d, (k, d) ∈ SL.sl_entries xs →
       ∃ i x,
         xs !! i = Some x ∧ SL.ik x = k ∧ SL.id x = d
         ∧ SL.skiplist_itor_search fuel itor k s = Ok ((true, Some (SL.ia x)), s)
         ∧ ∀ v old, ∃ s',
             SL.skiplist_itor_set_data (Some (SL.ia x)) v old s
             = Ok ((true, match old with None => None | Some _ => Some d end), s')
             ∧ SL.SLInv s' (<[i := SL.mk_item (SL.ia x) k v (SL.ilc x)]> xs)
             ∧ SL.dlog s' = SL.dlog s
             ∧ SL.skiplist_search fuel k s' = Ok (v, s'))
  ∧ (∀ v old, SL.skiplist_itor_set_data NULL v old s = Ok ((false, old), s)).
Proof.
  intros Hcmp HI Hf.
  assert (Hs : sorted (SL.cmp_func (SL.lst s)) (SL.sl_entries xs).*1).
  { rewrite sl_entries_keys. by destruct HI as (? & _ & _ & _ & _ & _ & ? & _). }
  destruct (SL.sl_itor_search_spec s xs k fuel itor Hcmp HI Hf)
    as [[Hk H]|(i & x & Hi & Hx & H)]; split_and!; try done.
  - intros d Hin. exfalso. apply Hk. rewrite <- sl_entries_keys.
    apply list_elem_of_fmap. by exists (k, d).
  - intros Hk. exfalso. apply Hk. rewrite <- Hx. apply list_elem_of_fmap_2.
    by eapply list_elem_of_lookup_2.
  - intros d Hin.
    assert (Hxin : x ∈ xs) by by eapply list_elem_of_lookup_2.
    assert (SL.id x = d) as Hd.
    { apply (NoDup_fst_inj (SL.sl_entries xs) k); [by apply (sorted_NoDup _ Hcmp)| |done].
      apply list_elem_of_fmap. exists x. by rewrite Hx. }
    exists i, x. split_and!; try done.
    intros v old.
    destruct (SL.sl_itor_set_data_spec s xs i x v old HI Hi)
      as (s' & Hrun & HI' & Hl & Hlog & _).
    exists s'. rewrite <- Hd, <- Hx. split_and!; try done.
    apply (SL.sl_search_present s' (<[i := SL.mk_item (SL.ia x) (SL.ik x) v (SL.ilc x)]> xs)
             (SL.mk_item (SL.ia x) (SL.ik x) v (SL.ilc x)));
      [by rewrite Hl|done| |by rewrite length_insert].
    eapply list_elem_of_lookup_2. apply list_lookup_insert_eq. by eapply lookup_lt_Some.
Qed.

Lemma X20_list_itor_search_set_witness :
  ∃ i x,
    sl_ex_items !! i = Some x ∧ SL.ik x = 3 ∧ SL.id x = NULLZ
    ∧ SL.skiplist_itor_search 10 NULL 3 sl_ex = Ok ((true, Some (SL.ia x)), sl_ex)
    ∧ ∀ v old, ∃ s',
        SL.skiplist_itor_set_data (Some (SL.ia x)) v old sl_ex
        = Ok ((true, match old with None => None | Some _ => Some NULLZ end), s')
        ∧ SL.SLInv s' (<[i := SL.mk_item (SL.ia x) 3 v (SL.ilc x)]> sl_ex_items)
        ∧ SL.dlog s' = SL.dlog sl_ex
        ∧ SL.skiplist_search 10 3 s' = Ok (v, s').
Proof.
  apply (proj1 (proj2 (X20_list_itor_search_set sl_ex sl_ex_items 3 10 NULL
                         zcmp_strict_total sl_ex_inv ltac:(vm_compute; lia)))).
  cbn. set_solver.
Defined.

(** X21.  [skiplist_free] on a well-formed list returns the count, has
    called the cleanup callback (if set) once for every entry, in key
    order, and has released the block of every node and of the head node,
    and no other block of the heap. *)
Theorem X21_list_free (s : SL.state) (xs : list SL.item) (fuel : nat) :
  SL.SLInv s xs → (length xs ≤ fuel)%nat →
  ∃ s' hd,
    SL.head (SL.lst s) = Some hd
    ∧ SL.skiplist_free fuel s = Ok (SL.count (SL.lst s), s')
    ∧ SL.dlog s' = SL.log_all s (SL.sl_entries xs)
    ∧ (∀ a, a ∈ hd :: (SL.ia <$> xs) → SL.mem s' !! a = None)
    ∧ (∀ a, a ∉ hd :: (SL.ia <$> xs) → SL.mem s' !! a = SL.mem s !! a).
Proof. apply SL.sl_free_spec. Qed.

Lemma X21_list_free_witness :
  ∃ s' hd,
    SL.head (SL.lst sl_ex) = Some hd
    ∧ SL.skiplist_free 10 sl_ex = Ok (SL.count (SL.lst sl_ex), s')
    ∧ SL.dlog s' = SL.log_all sl_ex (SL.sl_entries sl_ex_items)
    ∧ (∀ a, a ∈ hd :: (SL.ia <$> sl_ex_items) → SL.mem s' !! a = None)
    ∧ (∀ a, a ∉ hd :: (SL.ia <$> sl_ex_items) → SL.mem s' !! a = SL.mem sl_ex !! a).
Proof.
  apply (X21_list_free sl_ex sl_ex_items 10 sl_ex_inv). vm_compute. lia.
Defined.

(** ** Count and traversal *)

Lemma visit_run_all {V : Type} (v : V) (es : list (Z * Z)) :
  visit_run (λ v _ _, (true, v)) v es = (length es, v).
Proof.
  induction es as [|[k d] es IH]; [done|]. cbn [visit_run]. by rewrite IH.
Qed.

(** X22.  For either engine on a well-formed container, the count function
    returns the number of entries (as a [size_t]), and a traversal whose
    visitor never stops makes that many calls: the two answers agree. *)
Theorem X22_count_is_traversal_length :
  (∀ s t fuel,
     HB.Inv s t → (HB.size t < fuel)%nat →
     HB.hb_tree_count s = Ok (wrap_size (Z.of_nat (length (HB.entries t))), s)
     ∧ HB.hb_tree_traverse fuel (λ (v : unit) _ _, (true, v)) tt s
       = Ok ((wrap_size (Z.of_nat (length (HB.entries t))), tt), s))
  ∧ (∀ s xs fuel,
       SL.SLInv s xs → (length xs < fuel)%nat →
       SL.skiplist_count s = Ok (wrap_size (Z.of_nat (length (SL.sl_entries xs))), s)
       ∧ SL.skiplist_traverse fuel (λ (v : unit) _ _, (true, v)) tt s
         = Ok ((wrap_size (Z.of_nat (length (SL.sl_entries xs))), tt), s)).
Proof.
  split.
  - intros s t fuel HI Hf. split.
    + destruct HI as (_ & _ & _ & Hc). unfold HB.hb_tree_count, HB.get_tree.
      by rewrite Hc.
    + rewrite (HB.hb_traverse_spec _ s t tt fuel HI Hf). by rewrite visit_run_all.
  - intros s xs fuel HI Hf. unfold SL.sl_entries. rewrite length_fmap. split.
    + destruct HI as (? & _ & _ & _ & _ & _ & _ & Hc).
      unfold SL.skiplist_count, SL.get_list. by rewrite Hc.
    + rewrite (SL.sl_traverse_spec _ s xs tt fuel HI); [|lia].
      rewrite visit_run_all. unfold SL.sl_entries. by rewrite length_fmap.
Qed.

Lemma X22_count_is_traversal_length_witness :
  (HB.hb_tree_count hb_ex = Ok (3, hb_ex)
   ∧ HB.hb_tree_traverse 10 (λ (v : unit) _ _, (true, v)) tt hb_ex = Ok ((3, tt), hb_ex))
  ∧ (SL.skiplist_count sl_ex = Ok (3, sl_ex)
     ∧ SL.skiplist_traverse 10 (λ (v : unit) _ _, (true, v)) tt sl_ex
       = Ok ((3, tt), sl_ex)).
Proof.
  split.
  - apply (proj1 X22_count_is_traversal_length hb_ex hb_ex_tree 10%nat hb_ex_inv).
    vm_compute. lia.
  - apply (proj2 X22_count_is_traversal_length sl_ex sl_ex_items 10%nat sl_ex_inv).
    vm_compute. lia.
Defined.
(** ** The blocks of the heap *)

(** X23.  Which blocks insert and remove allocate and release, for either
    engine on a well-formed container with a strict total order (and
    [max_link >= 2] for the skip list).  An insert of a new key with a block
    [a] from the allocator leaves exactly the blocks that were allocated
    before, and [a].  An insert of a key that is already stored, with or
    without overwrite, allocates and releases nothing.  A remove of a stored
    key releases exactly one block that was allocated (for the skip list,
    the node of that key) and allocates nothing. *)
Theorem X23_heap_footprint :
  (∀ s t k v ow m fuel,
     strict_total (HB.cmp_func (HB.tree s)) → HB.Inv s t → HB.malloc_ok s m →
     (HB.size t ≤ fuel)%nat →
     (k ∉ HB.keys t → ∀ a, m = Some a →
        ∃ s', HB.hb_tree_insert fuel k v ow m s = Ok (0, s')
              ∧ dom (HB.mem s') = {[a]} ∪ dom (HB.mem s))
     ∧ (k ∈ HB.keys t →
        (∃ r s', HB.hb_tree_insert fuel k v ow m s = Ok (r, s')
                 ∧ dom (HB.mem s') = dom (HB.mem s))
        ∧ (∃ s' x, HB.hb_tree_remove fuel k s = Ok (true, s')
                   ∧ x ∈ dom (HB.mem s)
                   ∧ dom (HB.mem s') = dom (HB.mem s) ∖ {[x]})))
  ∧ (∀ s xs k v ow m fuel,
       strict_total (SL.cmp_func (SL.lst s)) → SL.SLInv s xs → SL.malloc_ok s m →
       (length xs < fuel)%nat → (2 ≤ SL.max_link (SL.lst s))%nat →
       (k ∉ SL.ik <$> xs → ∀ a, m = Some a →
          ∃ s', SL.skiplist_insert fuel k v ow m s = Ok (0, s')
                ∧ dom (SL.mem s') = {[a]} ∪ dom (SL.mem s))
       ∧ (k ∈ SL.ik <$> xs →
          (∃ r s', SL.skiplist_insert fuel k v ow m s = Ok (r, s')
                   ∧ dom (SL.mem s') = dom (SL.mem s))
          ∧ (∃ s' z, SL.skiplist_remove fuel k s = Ok (true, s')
                     ∧ z ∈ xs ∧ SL.ik z = k
                     ∧ SL.ia z ∈ dom (SL.mem s)
                     ∧ dom (SL.mem s') = dom (SL.mem s) ∖ {[SL.ia z]}))).
Proof.
  split.
  - intros s t k v ow m fuel Hcmp HI Hm Hf. split.
    + intros Hk a ->.
      destruct (HB.hb_insert_full s t k v ow (Some a) fuel Hcmp HI Hm Hf)
        as [[_ H]|(l & d & r & He & _)].
      * destruct H as (s' & t' & l & r & ? & _ & _ & _ & _ & _ & _ & Hd).
        exists s'. split; [done|]. rewrite Hd. set_solver.
      * exfalso. apply Hk. unfold HB.keys. rewrite He, fmap_app, fmap_cons. set_solver.
    + intros Hk. split.
      * destruct (HB.hb_insert_full s t k v ow m fuel Hcmp HI Hm Hf)
          as [[Hk' _]|(l & d & r & He & H)]; [done|].
        destruct ow.
        -- destruct H as (s' & t' & ? & _ & _ & _ & _ & _ & Hd). by exists 0, s'.
        -- by exists 1, s.
      * destruct (HB.hb_remove_spec s t k fuel Hcmp HI Hf)
          as [[Hk' _]|(l & d & r & s' & t' & _ & Hrun & _)]; [done|].
        destruct (HB.hb_remove_dom fuel k s s' Hrun) as (x & ? & ?).
        by exists s', x.
  - intros s xs k v ow m fuel Hcmp HI Hm Hf Hml. split.
    + intros Hk a ->.
      destruct (SL.sl_insert_full s xs k v ow (Some a) fuel Hcmp HI Hm Hf)
        as [(_ & _ & H)|(lo & z & hi & -> & Hz & _)].
      2:{ exfalso. apply Hk. rewrite fmap_app, fmap_cons, Hz. set_solver. }
      destruct (H Hml) as (s' & lo & hi & -> & Hrun & _ & _ & _ & _ & _ & _ & Hip & _).
      exists s'. split; [done|].
      pose proof HI as (hd & Hhd & HR & _ & Hlc & _).
      eapply SL.sl_insert_dom; [by apply Hip|].
      intros y Hy. apply Forall_app in Hlc as [_ Hlc].
      rewrite SL.nxtd_zero in Hy.
      2:{ eapply Forall_impl; [exact Hlc|]. cbn. lia. }
      destruct hi as [|y' hi']; [done|]. injection Hy as <-.
      cbn [SL.RN] in HR. destruct HR as [_ HR]. apply SL.RN_app in HR as [_ [Hy' _]].
      destruct Hy' as (pv & ls & Hl & _). by apply elem_of_dom_2 in Hl.
    + intros Hk. split.
      * destruct (SL.sl_insert_full s xs k v ow m fuel Hcmp HI Hm Hf)
          as [(Hk' & _)|(lo & z & hi & -> & Hz & H)]; [done|].
        destruct ow.
        -- destruct H as (s' & ? & _ & _ & _ & _ & _ & _ & Hsp & _).
           exists 0, s'. split; [done|]. apply set_eq. intros b.
           apply SL.sl_dom_of_prev, Hsp.
        -- by exists 1, s.
      * destruct (SL.sl_remove_full s xs k fuel Hcmp HI Hf)
          as [[Hk' _]|(lo & z & hi & s' & -> & Hz & Hrun & _ & _ & _ & _ & _ & _
                       & Hfree & Hpv & _)]; [done|].
        exists s', z. split_and!; try done.
        -- set_solver.
        -- destruct HI as (hd & _ & HR & _). cbn [SL.RN] in HR. destruct HR as [_ HR].
           apply SL.RN_app in HR as [_ [Hz' _]].
           destruct Hz' as (pv & ls & Hl & _). by apply elem_of_dom_2 in Hl.
        -- by apply SL.sl_remove_dom.
Qed.

Lemma X23_heap_footprint_witness :
  (∃ s', HB.hb_tree_insert 10 4 40 false (Some 4%positive) hb_ex = Ok (0, s')
         ∧ dom (HB.mem s') = {[4%positive]} ∪ dom (HB.mem hb_ex))
  ∧ (∃ s' z, SL.skiplist_remove 10 2 sl_ex = Ok (true, s')
             ∧ z ∈ sl_ex_items ∧ SL.ik z = 2
             ∧ SL.ia z ∈ dom (SL.mem sl_ex)
             ∧ dom (SL.mem s') = dom (SL.mem sl_ex) ∖ {[SL.ia z]}).
Proof.
  split.
  - apply (proj1 (proj1 X23_heap_footprint hb_ex hb_ex_tree 4 40 false (Some 4%positive)
                    10%nat zcmp_strict_total hb_ex_inv eq_refl ltac:(vm_compute; lia)));
      [vm_compute; set_solver|reflexivity].
  - apply (proj2 (proj2 X23_heap_footprint sl_ex sl_ex_items 2 0 false NULL
                    10%nat zcmp_strict_total sl_ex_inv I ltac:(vm_compute; lia)
                    ltac:(vm_compute; lia))).
    vm_compute. set_solver.
Defined.
